(** * Repo Biome: the procedural tree generator of the repository visualiser

    A shallow embedding of [App.jsx] (the seeded generator, the metric
    mapping, the colour conversion, the recursive branch renderer, the three
    particle kinds, the per-frame loop and the repository switch) together with
    the properties the specification states about them.

    JavaScript numbers.  The program text is embedded once, over an
    interface [Number] of the operations it applies to numbers.  Two
    instances interpret it:

    - [Float64.number]: IEEE 754 binary64 through Rocq's primitive floats,
      which is what a JavaScript engine computes.  [Math.sin], [Math.cos] and
      [Math.log10] are implementation-approximated in ECMAScript, so they are
      parameters of the instance (a record [libm]).
    - [Exact.number]: real numbers extended with NaN, that is the arithmetic
      the program text denotes when no operation rounds.  [+Infinity] and
      [-Infinity] are not represented there: a division by zero and the
      logarithm of a non-positive number give NaN.

    Effects.  Canvas calls are recorded in a trace, [Math.random] is an oracle
    indexed by the number of calls made so far, the [SeededRandom] object and
    the particle array are part of an explicit state, and the recursion of
    [drawBranch] is driven by fuel: running out of fuel is the model of a
    recursion that does not return.

    Exceptions.  The trace holds the calls the program makes, whether the
    canvas takes them or not.  A canvas throws on some calls
    ([accepts] tells which it takes), and the drawing code catches
    nothing: a run of the model is a run of the program up to the first call
    of its trace that the canvas does not accept.  The same holds for a
    [language] that names a member of [Object.prototype] (see [inherited]):
    [adjustSaturation] throws on it. *)

From Stdlib Require Import ZArith QArith Reals Lra Lia Bool List String Ascii.
From Stdlib Require Import Floats Uint63.
Import ListNotations.

Set Implicit Arguments.
Close Scope Q_scope.

(** ** The interface of JavaScript numbers *)

Module JS.

Class Number (N : Type) : Type := {
  num : Q -> N;                       (* a numeric literal *)
  NaN : N;
  Math_PI : N;
  add : N -> N -> N;
  sub : N -> N -> N;
  mul : N -> N -> N;
  div : N -> N -> N;
  rem : N -> N -> N;                  (* the operator % *)
  neg : N -> N;                       (* unary minus *)
  lt : N -> N -> bool;                (* the operator < *)
  le : N -> N -> bool;                (* the operator <= *)
  strict_equal : N -> N -> bool;      (* the operator === *)
  Math_abs : N -> N;
  Math_floor : N -> N;
  Math_round : N -> N;
  Math_sin : N -> N;
  Math_cos : N -> N;
  Math_log10 : N -> N;
  Math_max2 : N -> N -> N;
  Math_min2 : N -> N -> N;
  integral : N -> option Z            (* [Some z] when the value is the integer z *)
}.

Arguments num {N _} q%_Q.

Declare Scope js_scope.
Delimit Scope js_scope with js.
Infix "+" := add : js_scope.
Infix "-" := sub : js_scope.
Infix "*" := mul : js_scope.
Infix "/" := div : js_scope.
Infix "%%" := rem (at level 40, left associativity) : js_scope.
Infix "<" := lt : js_scope.
Infix "<=" := le : js_scope.
Infix "===" := strict_equal (at level 70, no associativity) : js_scope.
Notation "x > y" := (lt y x) : js_scope.
Notation "x >= y" := (le y x) : js_scope.
Notation "- x" := (neg x) : js_scope.

Section Derived.
Context {N : Type} {number : Number N}.
Local Open Scope js_scope.

(** An integer-valued number. *)
Definition of_Z (z : Z) : N := num (inject_Z z).

(** ToNumber of a property that may be absent: [undefined] converts to NaN. *)
Definition to_number (v : option N) : N :=
  match v with Some x => x | None => NaN end.

(** Truthiness of a number: everything but 0, -0 and NaN. *)
Definition truthy (x : N) : bool := negb (x === num 0) && (x === x).

(** [v || d] for a numeric property [v] and a numeric default [d]. *)
Definition or_default (v : option N) (d : N) : N :=
  match v with
  | Some x => if truthy x then x else d
  | None => d
  end.

Definition Math_max3 (a b c : N) : N := Math_max2 (Math_max2 a b) c.
Definition Math_min3 (a b c : N) : N := Math_min2 (Math_min2 a b) c.

End Derived.

End JS.
Import JS.

(** ** Instance 1: IEEE 754 binary64 *)

Module Float64.

Local Open Scope float_scope.

(** The implementation-approximated functions of [Math]. *)
Record libm : Type := {
  libm_sin : float -> float;
  libm_cos : float -> float;
  libm_log10 : float -> float
}.

(** The double nearest to an integer (exact below 2^53). *)
Definition of_int (z : Z) : float :=
  if ((0 <=? z) && (z <? 4611686018427387904))%Z then of_uint63 (Uint63.of_Z z)
  else if ((z <? 0) && (-4611686018427387904 <? z))%Z then - of_uint63 (Uint63.of_Z (- z))
  else SF2Prim (binary_normalize prec emax z 0 false).

(** A decimal literal denotes the double nearest to it: numerator and
    denominator of the literals of the program are exact doubles, and the
    division rounds their quotient correctly. *)
Definition literal (q : Q) : float := of_int (Qnum q) / of_int (Zpos (Qden q)).

(** The value of a finite double as [m * 2^e]. *)
Definition mantissa_exponent (x : float) : option (Z * Z) :=
  match Prim2SF x with
  | S754_zero _ => Some (0, 0)%Z
  | S754_finite s m e => Some (if s then Z.neg m else Z.pos m, e)
  | _ => None
  end.

(** [Some z] when [x] is the integer [z]. *)
Definition to_integer (x : float) : option Z :=
  match mantissa_exponent x with
  | Some (m, e) =>
      if (0 <=? e)%Z then Some (m * 2 ^ e)%Z
      else if (m mod 2 ^ (- e) =? 0)%Z then Some (m / 2 ^ (- e))%Z
      else None
  | None => None
  end.

(** [Math.floor]: NaN, the infinities and the zeros are returned as they are. *)
Definition floor (x : float) : float :=
  match Prim2SF x with
  | S754_finite s m e =>
      if (0 <=? e)%Z then x
      else of_int ((if s then Z.neg m else Z.pos m) / 2 ^ (- e))
  | _ => x
  end.

(** [Math.round]: the nearest integer, a tie going up. *)
Definition round (x : float) : float :=
  let f := floor x in
  if x - f <? 0.5 then f else f + 1.

(** The operator %: the remainder of the truncating division, computed
    exactly, with the sign of the dividend. *)
Definition fmod (x y : float) : float :=
  match Prim2SF x, Prim2SF y with
  | S754_nan, _ | _, S754_nan => nan
  | S754_infinity _, _ => nan
  | _, S754_zero _ => nan
  | S754_zero _, _ => x
  | _, S754_infinity _ => x
  | S754_finite sx mx ex, S754_finite _ my ey =>
      let e := Z.min ex ey in
      let r := Z.rem (Z.pos mx * 2 ^ (ex - e)) (Z.pos my * 2 ^ (ey - e)) in
      if (r =? 0)%Z then (if sx then neg_zero else zero)
      else SF2Prim (binary_normalize prec emax (if sx then - r else r)%Z e false)
  end.

Definition max2 (a b : float) : float :=
  if is_nan a || is_nan b then nan else if a <? b then b else a.

Definition min2 (a b : float) : float :=
  if is_nan a || is_nan b then nan else if b <? a then b else a.

Definition number (m : libm) : Number float := {|
  num := literal;
  NaN := nan;
  Math_PI := 0x1.921fb54442d18p+1;
  add := PrimFloat.add;
  sub := PrimFloat.sub;
  mul := PrimFloat.mul;
  div := PrimFloat.div;
  rem := fmod;
  neg := PrimFloat.opp;
  lt := PrimFloat.ltb;
  le := PrimFloat.leb;
  strict_equal := PrimFloat.eqb;
  Math_abs := PrimFloat.abs;
  Math_floor := floor;
  Math_round := round;
  Math_sin := libm_sin m;
  Math_cos := libm_cos m;
  Math_log10 := libm_log10 m;
  Math_max2 := max2;
  Math_min2 := min2;
  integral := to_integer
|}.

(** A coarse [libm], for running the program on concrete inputs: Taylor
    polynomials for the sine and the cosine, and a logarithm that is linear
    between two powers of two.  NaN and negative numbers have no logarithm. *)
Definition coarse_log10 (x : float) : float :=
  if is_nan x || (x <? 0) then nan
  else if x =? 0 then neg_infinity
  else if is_infinity x then infinity
  else let (m, e) := Z.frexp x in
       (of_int e - 1 + (2 * m - 1)) * 0x1.34413509f79ffp-2.

Definition coarse : libm := {|
  libm_sin := fun x => x - x * x * x / 6 + x * x * x * x * x / 120;
  libm_cos := fun x => 1 - x * x / 2 + x * x * x * x / 24;
  libm_log10 := coarse_log10
|}.

End Float64.

(** ** Instance 2: exact arithmetic *)

Module Exact.

Local Open Scope R_scope.

Definition lift1 (f : R -> R) (x : option R) : option R :=
  match x with Some a => Some (f a) | None => None end.

Definition lift2 (f : R -> R -> R) (x y : option R) : option R :=
  match x, y with Some a, Some b => Some (f a b) | _, _ => None end.

Definition test2 (f : R -> R -> bool) (x y : option R) : bool :=
  match x, y with Some a, Some b => f a b | _, _ => false end.

Definition Rltb (a b : R) : bool := if Rlt_dec a b then true else false.
Definition Rleb (a b : R) : bool := if Rle_dec a b then true else false.
Definition Reqb (a b : R) : bool := if Req_dec_T a b then true else false.

(** Truncation toward zero. *)
Definition Ztrunc (x : R) : Z :=
  if Rle_dec 0 x then Zfloor x else (- Zfloor (- x))%Z.

Definition quotient (x y : option R) : option R :=
  match x, y with
  | Some a, Some b => if Req_dec_T b 0 then None else Some (a / b)
  | _, _ => None
  end.

Definition remainder (x y : option R) : option R :=
  match x, y with
  | Some a, Some b => if Req_dec_T b 0 then None else Some (a - b * IZR (Ztrunc (a / b)))
  | _, _ => None
  end.

Definition log10 (x : option R) : option R :=
  match x with
  | Some a => if Rlt_dec 0 a then Some (ln a / ln 10) else None
  | None => None
  end.

Definition to_integer (x : option R) : option Z :=
  match x with
  | Some a => if Req_dec_T a (IZR (Zfloor a)) then Some (Zfloor a) else None
  | None => None
  end.

Definition number : Number (option R) := {|
  num := fun q => Some (Q2R q);
  NaN := None;
  Math_PI := Some PI;
  add := lift2 Rplus;
  sub := lift2 Rminus;
  mul := lift2 Rmult;
  div := quotient;
  rem := remainder;
  neg := lift1 Ropp;
  lt := test2 Rltb;
  le := test2 Rleb;
  strict_equal := test2 Reqb;
  Math_abs := lift1 Rabs;
  Math_floor := lift1 (fun a => IZR (Zfloor a));
  Math_round := lift1 (fun a => IZR (Zfloor (a + / 2)));
  Math_sin := lift1 sin;
  Math_cos := lift1 cos;
  Math_log10 := log10;
  Math_max2 := lift2 Rmax;
  Math_min2 := lift2 Rmin;
  integral := to_integer
|}.

End Exact.


(** ** The 2D canvas

    The calls the program makes on a [CanvasRenderingContext2D] are recorded,
    arguments included.  A colour with two appended hexadecimal digits,
    [`${color}${Math.floor(a).toString(16).padStart(2, '0')}`], is kept as the
    colour and the number [Math.floor(a)] that the digits print. *)

Module Canvas.

Section Ops.
Variable N : Type.

Inductive css : Type :=
| plain (c : string)
| with_alpha (c : string) (a : N)
| with_suffix (c : string) (digits : string).

Inductive style : Type :=
| color (c : css)
| linearGradient (x0 y0 x1 y1 : N) (stops : list (N * css))
| radialGradient (x0 y0 r0 x1 y1 r1 : N) (stops : list (N * css)).

Inductive op : Type :=
| save
| restore
| beginPath
| moveTo (x y : N)
| lineTo (x y : N)
| quadraticCurveTo (cpx cpy x y : N)
| arc (x y radius startAngle endAngle : N)
| stroke
| fill
| fillRect (x y w h : N)
| translate (x y : N)
| rotate (angle : N)
| drawImage_offscreen
| set_fillStyle (s : style)
| set_strokeStyle (s : style)
| set_lineWidth (w : N)
| set_lineCap (v : string)
| set_lineJoin (v : string)
| set_shadowBlur (b : N)
| set_shadowColor (c : string)
| set_globalCompositeOperation (v : string).

End Ops.

Arguments plain {N} c.
Arguments with_alpha {N} c a.
Arguments with_suffix {N} c digits.
Arguments color {N} c.
Arguments linearGradient {N} x0 y0 x1 y1 stops.
Arguments radialGradient {N} x0 y0 r0 x1 y1 r1 stops.
Arguments save {N}.
Arguments restore {N}.
Arguments beginPath {N}.
Arguments moveTo {N} x y.
Arguments lineTo {N} x y.
Arguments quadraticCurveTo {N} cpx cpy x y.
Arguments arc {N} x y radius startAngle endAngle.
Arguments stroke {N}.
Arguments fill {N}.
Arguments fillRect {N} x y w h.
Arguments translate {N} x y.
Arguments rotate {N} angle.
Arguments drawImage_offscreen {N}.
Arguments set_fillStyle {N} s.
Arguments set_strokeStyle {N} s.
Arguments set_lineWidth {N} w.
Arguments set_lineCap {N} v.
Arguments set_lineJoin {N} v.
Arguments set_shadowBlur {N} b.
Arguments set_shadowColor {N} c.
Arguments set_globalCompositeOperation {N} v.

End Canvas.
Import Canvas.

(** ** class SeededRandom

    [this.seed] holds an integer: it is kept as a [Z], which is what the
    double holds as long as [seed * 9301 + 49297] stays below 2^53 in absolute
    value.  The operator % truncates, so the remainder has the sign of the
    dividend: that is [Z.rem]. *)

Module SeededRandom.

Record t : Type := { seed : Z }.

Definition new (seed : Z) : t := {| seed := seed |}.

Section Next.
Context {N : Type} {number : Number N}.
Local Open Scope js_scope.

Definition next (this : t) : N * t :=
  let seed' := Z.rem (seed this * 9301 + 49297) 233280 in
  (of_Z seed' / num 233280, {| seed := seed' |}).

(** The values of the first [n] calls of [next]. *)
Fixpoint sequence (n : nat) (this : t) : list N :=
  match n with
  | O => []
  | S k => let (v, this') := next this in v :: sequence k this'
  end.

End Next.

End SeededRandom.

(** ** The three particle kinds

    [Math.random] is an oracle [rand]: [rand k] is the result of call number
    [k].  A constructor started at call [k] reads the next [draws] results. *)

Module Particle.

Section Def.
Context {N : Type} {number : Number N}.
Local Open Scope js_scope.

Record t : Type := {
  x : N; y : N; vx : N; vy : N; life : N; decay : N; size : N; color : string
}.

Definition draws : nat := 3.

Definition new (rand : nat -> N) (k : nat) (x y : N) (color : string) : t := {|
  x := x;
  y := y;
  vx := (rand k - num 0.5) * num 0.5;
  vy := - rand (1 + k)%nat * num 0.3 - num 0.2;
  life := num 1;
  decay := num 0.01;
  size := rand (2 + k)%nat * num 2 + num 1;
  color := color
|}.

Definition update (this : t) : t * bool :=
  let x' := x this + vx this in
  let y' := y this + vy this in
  let life' := life this - decay this in
  ({| x := x'; y := y'; vx := vx this; vy := vy this; life := life';
      decay := decay this; size := size this; color := color this |},
   life' > num 0).

Definition draw (this : t) : list (op N) :=
  [ beginPath;
    arc (x this) (y this) (size this) (num 0) (Math_PI * num 2);
    set_fillStyle (Canvas.color (with_alpha (color this) (Math_floor (life this * num 128))));
    fill ].

End Def.

End Particle.

Module Firefly.

Section Def.
Context {N : Type} {number : Number N}.
Local Open Scope js_scope.

Record bounds : Type := { minX : N; maxX : N; minY : N; maxY : N }.

Record t : Type := {
  x : N; y : N; baseX : N; baseY : N; bounds_ : option bounds;
  angle : N; speed : N; wobble : N; wobbleSpeed : N;
  life : N; decay : N; size : N; color : string; glowPhase : N
}.

Definition draws : nat := 7.

Definition new (rand : nat -> N) (k : nat) (x y : N) (color : string)
    (b : option bounds) : t := {|
  x := x;
  y := y;
  baseX := x;
  baseY := y;
  bounds_ := b;
  angle := rand k * Math_PI * num 2;
  speed := num 0.3 + rand (1 + k)%nat * num 0.4;
  wobble := rand (2 + k)%nat * Math_PI * num 2;
  wobbleSpeed := num 0.02 + rand (3 + k)%nat * num 0.02;
  life := num 1;
  decay := num 0.002 + rand (4 + k)%nat * num 0.002;
  size := num 1.5 + rand (5 + k)%nat * num 2;
  color := color;
  glowPhase := rand (6 + k)%nat * Math_PI * num 2
|}.

(** [update] makes one call of [Math.random], whose result is [r]. *)
Definition update (r : N) (this : t) : t * bool :=
  let wobble' := wobble this + wobbleSpeed this in
  let angle1 := angle this + (r - num 0.5) * num 0.1 in
  let x' := x this + (Math_cos angle1 * speed this + Math_sin wobble' * num 0.3) in
  let y' := y this + (Math_sin angle1 * speed this + Math_cos (wobble' * num 0.7) * num 0.2) in
  let angle' :=
    match bounds_ this with
    | Some b =>
        let a1 := if x' < minX b then Math_PI - angle1 else angle1 in
        let a2 := if x' > maxX b then Math_PI - a1 else a1 in
        let a3 := if y' < minY b then - a2 else a2 in
        if y' > maxY b then - a3 else a3
    | None => angle1
    end in
  let glowPhase' := glowPhase this + num 0.05 in
  let life' := life this - decay this in
  ({| x := x'; y := y'; baseX := baseX this; baseY := baseY this;
      bounds_ := bounds_ this; angle := angle'; speed := speed this;
      wobble := wobble'; wobbleSpeed := wobbleSpeed this; life := life';
      decay := decay this; size := size this; color := color this;
      glowPhase := glowPhase' |},
   life' > num 0).

Definition draw (this : t) : list (op N) :=
  let glow := num 0.5 + num 0.5 * Math_sin (glowPhase this) in
  let alpha := life this * glow in
  [ beginPath;
    arc (x this) (y this) (size this * num 3) (num 0) (Math_PI * num 2);
    set_fillStyle (Canvas.color (with_alpha (color this) (Math_floor (alpha * num 40))));
    fill;
    beginPath;
    arc (x this) (y this) (size this) (num 0) (Math_PI * num 2);
    set_fillStyle (Canvas.color (with_alpha (color this) (Math_floor (alpha * num 200))));
    fill ].

End Def.

End Firefly.

Module FallingLeaf.

Section Def.
Context {N : Type} {number : Number N}.
Local Open Scope js_scope.

Record t : Type := {
  x : N; y : N; vx : N; vy : N; life : N; decay : N; size : N; color : string;
  rotation : N; rotationSpeed : N; swayPhase : N; swaySpeed : N
}.

Definition draws : nat := 8.

Definition new (rand : nat -> N) (k : nat) (x y : N) (color : string) : t := {|
  x := x;
  y := y;
  vx := (rand k - num 0.5) * num 0.8;
  vy := num 0.3 + rand (1 + k)%nat * num 0.5;
  life := num 1;
  decay := num 0.003 + rand (2 + k)%nat * num 0.002;
  size := num 2 + rand (3 + k)%nat * num 3;
  color := color;
  rotation := rand (4 + k)%nat * Math_PI * num 2;
  rotationSpeed := (rand (5 + k)%nat - num 0.5) * num 0.05;
  swayPhase := rand (6 + k)%nat * Math_PI * num 2;
  swaySpeed := num 0.03 + rand (7 + k)%nat * num 0.02
|}.

Definition update (this : t) : t * bool :=
  let swayPhase' := swayPhase this + swaySpeed this in
  let x' := x this + (vx this + Math_sin swayPhase' * num 0.5) in
  let y' := y this + vy this in
  let rotation' := rotation this + rotationSpeed this in
  let life' := life this - decay this in
  ({| x := x'; y := y'; vx := vx this; vy := vy this; life := life';
      decay := decay this; size := size this; color := color this;
      rotation := rotation'; rotationSpeed := rotationSpeed this;
      swayPhase := swayPhase'; swaySpeed := swaySpeed this |},
   life' > num 0).

Definition draw (this : t) : list (op N) :=
  let alpha := life this * num 0.7 in
  [ save;
    translate (x this) (y this);
    rotate (rotation this);
    beginPath;
    moveTo (num 0) (num 0);
    quadraticCurveTo (size this * num 0.5) (- size this * num 0.3) (size this) (num 0);
    quadraticCurveTo (size this * num 0.5) (size this * num 0.3) (num 0) (num 0);
    set_fillStyle (Canvas.color (with_alpha (color this) (Math_floor (alpha * num 150))));
    fill;
    restore ].

End Def.

End FallingLeaf.

(** ** Strings of hexadecimal digits *)

Module Hex.

Local Open Scope Z_scope.

Definition digit_value (c : ascii) : option Z :=
  let n := Z.of_nat (nat_of_ascii c) in
  if (48 <=? n) && (n <=? 57) then Some (n - 48)
  else if (97 <=? n) && (n <=? 102) then Some (n - 87)
  else if (65 <=? n) && (n <=? 70) then Some (n - 55)
  else None.

(** The value of the longest prefix of digits, [None] when it is empty. *)
Fixpoint digits (acc : option Z) (s : string) : option Z :=
  match s with
  | EmptyString => acc
  | String c rest =>
      match digit_value c with
      | Some d => digits (Some (match acc with Some a => 16 * a + d | None => d end)) rest
      | None => acc
      end
  end.

Definition is_space (c : ascii) : bool :=
  let n := Z.of_nat (nat_of_ascii c) in
  ((9 <=? n) && (n <=? 13)) || (n =? 32).

Fixpoint trim_start (s : string) : string :=
  match s with
  | String c rest => if is_space c then trim_start rest else s
  | EmptyString => s
  end.

Definition strip_0x (s : string) : string :=
  match s with
  | String "0" (String "x" rest) => rest
  | String "0" (String "X" rest) => rest
  | _ => s
  end.

(** [parseInt(s, 16)] as an integer, [None] for NaN. *)
Definition parseInt16 (s : string) : option Z :=
  match trim_start s with
  | String "-" rest => option_map Z.opp (digits None (strip_0x rest))
  | String "+" rest => digits None (strip_0x rest)
  | t => digits None (strip_0x t)
  end.

Definition digit_char (d : Z) : ascii :=
  ascii_of_nat (Z.to_nat (if d <? 10 then 48 + d else 87 + d)).

Fixpoint to_digits (fuel : nat) (z : Z) (acc : string) : string :=
  match fuel with
  | O => acc
  | S k =>
      let acc' := String (digit_char (z mod 16)) acc in
      if z / 16 =? 0 then acc' else to_digits k (z / 16) acc'
  end.

(** [z.toString(16)] for an integer [z]. *)
Definition toString16 (z : Z) : string :=
  if z <? 0 then String "-" (to_digits (S (Z.to_nat (Z.log2 (- z)))) (- z) EmptyString)
  else to_digits (S (Z.to_nat (Z.log2 z))) z EmptyString.

(** [s.padStart(2, '0')]. *)
Definition padStart2 (s : string) : string :=
  match s with
  | EmptyString => "00"
  | String c EmptyString => String "0" s
  | _ => s
  end.

(** [hex.slice(i, i + 2)]. *)
Definition slice2 (i : nat) (hex : string) : string := substring i 2 hex.

(** The strings ['#rrggbb']: seven characters, a [#] and six digits. *)
Definition valid (hex : string) : bool :=
  match hex with
  | String c rest =>
      Ascii.eqb c "#"
      && (String.length rest =? 6)%nat
      && forallb (fun c => match digit_value c with Some _ => true | None => false end)
           (list_ascii_of_string rest)
  | EmptyString => false
  end.

(** The three channels of a valid colour. *)
Definition channels (hex : string) : option (Z * Z * Z) :=
  if valid hex then
    match parseInt16 (slice2 1 hex), parseInt16 (slice2 3 hex), parseInt16 (slice2 5 hex) with
    | Some r, Some g, Some b => Some (r, g, b)
    | _, _, _ => None
    end
  else None.

End Hex.

(** ** Colour conversion and the metric mapping *)

Section Colour.
Context {N : Type} {number : Number N}.
Local Open Scope js_scope.

Definition parseInt_16 (s : string) : N :=
  match Hex.parseInt16 s with Some z => of_Z z | None => NaN end.

(** [n.toString(16)]; a value that is no integer prints as NaN does (the
    program prints only results of [Math.round] and [Math.floor]). *)
Definition toString_16 (n : N) : string :=
  match integral n with Some z => Hex.toString16 z | None => "NaN" end.

Record hsl : Type := { h : N; s : N; l : N }.

Definition hexToHsl (hex : string) : hsl :=
  let r := parseInt_16 (Hex.slice2 1 hex) / num 255 in
  let g := parseInt_16 (Hex.slice2 3 hex) / num 255 in
  let b := parseInt_16 (Hex.slice2 5 hex) / num 255 in
  let max := Math_max3 r g b in
  let min := Math_min3 r g b in
  let l := (max + min) / num 2 in
  if max === min then
    {| h := num 0 * num 360; s := num 0 * num 100; l := l * num 100 |}
  else
    let d := max - min in
    let s := if l > num 0.5 then d / (num 2 - max - min) else d / (max + min) in
    let h :=
      if max === r then ((g - b) / d + (if g < b then num 6 else num 0)) / num 6
      else if max === g then ((b - r) / d + num 2) / num 6
      else if max === b then ((r - g) / d + num 4) / num 6
      else NaN in
    {| h := h * num 360; s := s * num 100; l := l * num 100 |}.

Definition hslToHex (h s l : N) : string :=
  let s := s / num 100 in
  let l := l / num 100 in
  let c := (num 1 - Math_abs (num 2 * l - num 1)) * s in
  let x := c * (num 1 - Math_abs ((h / num 60) %% num 2 - num 1)) in
  let m := l - c / num 2 in
  let '(r, g, b) :=
    if h < num 60 then (c, x, num 0)
    else if h < num 120 then (x, c, num 0)
    else if h < num 180 then (num 0, c, x)
    else if h < num 240 then (num 0, x, c)
    else if h < num 300 then (x, num 0, c)
    else (c, num 0, x) in
  let toHex := fun n => Hex.padStart2 (toString_16 (Math_round ((n + m) * num 255))) in
  ("#" ++ toHex r ++ toHex g ++ toHex b)%string.

Definition adjustSaturation (hexColor : string) (health : N) : string :=
  let hsl := hexToHsl hexColor in
  let saturationMultiplier := num 0.3 + health * num 0.7 in
  let s' := Math_min2 (num 100) (s hsl * saturationMultiplier) in
  hslToHex (h hsl) s' (l hsl).

(** [calculateHealth]: [now] is the time value of [new Date()], [lastPush]
    the time value of [new Date(lastPushDate)] (NaN for a date that does not
    parse). *)
Definition daysSinceLastPush (now lastPush : N) : N :=
  (now - lastPush) / (num 1000 * num 60 * num 60 * num 24).

Definition calculateHealth (now lastPush : N) : N :=
  let d := daysSinceLastPush now lastPush in
  if d < num 30 then num 1.0
  else if d < num 90 then num 0.8
  else if d < num 180 then num 0.6
  else if d < num 365 then num 0.4
  else num 0.2.

(** The mappings of [drawTree] from a metric to a render parameter. *)
Definition maxDepth_of (commitCount : N) : N :=
  Math_min2 (num 10) (Math_max2 (num 4) (Math_floor (Math_log10 (commitCount + num 1) * num 1.6))).

Definition baseTrunkLength_of (size : N) : N :=
  Math_min2 (num 180) (num 100 + Math_log10 (size + num 1) * num 18).

Definition commitDensity_of (commitCount : N) : N :=
  Math_min2 (num 1) (Math_log10 (commitCount + num 1) / num 6).

Definition ageMultiplier_of (age : N) : N :=
  num 1 + Math_min2 (num 1) (age / num 10).

Definition sizeSpread_of (size : N) : N :=
  Math_min2 (num 1) (Math_log10 (size + num 1) / num 6).

End Colour.

(** [LANGUAGE_COLORS] *)
Definition LANGUAGE_COLORS : list (string * string) :=
  [ ("JavaScript", "#f7df1e"); ("TypeScript", "#3178c6"); ("Python", "#00d4ff");
    ("Java", "#ff6b6b"); ("CSS", "#ff1493"); ("HTML", "#e34c26"); ("Go", "#00add8");
    ("Rust", "#ff4500"); ("Ruby", "#ff6347"); ("PHP", "#a78bfa"); ("C", "#00ff00");
    ("C++", "#00ff88"); ("C#", "#9b4993"); ("Swift", "#ff6600"); ("Kotlin", "#7c3aed");
    ("default", "#00ffaa") ]%string.

Fixpoint lookup (key : string) (table : list (string * string)) : option string :=
  match table with
  | [] => None
  | (k, v) :: rest => if String.eqb k key then Some v else lookup key rest
  end.

(** The property names that the object literal [LANGUAGE_COLORS] inherits from
    [Object.prototype].  For one of them [LANGUAGE_COLORS[language]] is the
    inherited member, a function or an object: it is truthy, so the default
    is not taken, and it is no string, so [hexToHsl] throws a [TypeError] on
    it. *)
Definition Object_prototype : list string :=
  [ "constructor"; "hasOwnProperty"; "isPrototypeOf"; "propertyIsEnumerable";
    "toLocaleString"; "toString"; "valueOf"; "__proto__"; "__defineGetter__";
    "__defineSetter__"; "__lookupGetter__"; "__lookupSetter__" ]%string.

Definition inherited (language : string) : bool :=
  existsb (String.eqb language) Object_prototype.

(** [LANGUAGE_COLORS[language] || LANGUAGE_COLORS.default], for a [language]
    that is not [inherited]. *)
Definition baseColor_of (language : string) : string :=
  match lookup language LANGUAGE_COLORS with
  | Some c => c
  | None => "#00ffaa"%string
  end.

(** ** The calls a canvas takes

    [createLinearGradient] and [createRadialGradient] throw a [TypeError] on
    an argument that is NaN or infinite, [createRadialGradient] an
    [IndexSizeError] on a negative radius, [addColorStop] an [IndexSizeError]
    on an offset outside 0 .. 1 and a [SyntaxError] on a colour that does not
    parse, [arc] an [IndexSizeError] on a negative radius.  Every other call
    of the program returns whatever its arguments are: a path call with an
    argument that is not finite does nothing and an assignment of a value
    that is out of range is ignored. *)

Section Accepts.
Context {N : Type} {number : Number N}.
Local Open Scope js_scope.

(** Neither NaN nor infinite: [x - x] is 0 for the other numbers only. *)
Definition finite (x : N) : bool := x - x === num 0.

(** The named colour of the program and the colours ['#rrggbb'] and
    ['#rrggbbaa']. *)
Definition parses (c : css N) : bool :=
  match c with
  | plain c =>
      String.eqb c "transparent" || Hex.valid c
      || match c with
         | String h rest =>
             Ascii.eqb h "#" && (String.length rest =? 8)%nat
             && forallb (fun d => match Hex.digit_value d with
                                  | Some _ => true | None => false end)
                  (list_ascii_of_string rest)
         | EmptyString => false
         end
  | with_alpha c a =>
      Hex.valid c
      && match integral a with
         | Some z => (0 <=? z)%Z && (z <=? 255)%Z
         | None => false
         end
  | with_suffix c digits =>
      Hex.valid c && (String.length digits =? 2)%nat
      && forallb (fun d => match Hex.digit_value d with
                           | Some _ => true | None => false end)
           (list_ascii_of_string digits)
  end.

Definition stop_accepted (stop : N * css N) : bool :=
  (num 0 <= fst stop) && (fst stop <= num 1) && parses (snd stop).

Definition style_accepted (v : style N) : bool :=
  match v with
  | color _ => true
  | linearGradient x0 y0 x1 y1 stops =>
      finite x0 && finite y0 && finite x1 && finite y1 && forallb stop_accepted stops
  | radialGradient x0 y0 r0 x1 y1 r1 stops =>
      finite x0 && finite y0 && finite r0 && finite x1 && finite y1 && finite r1
      && (num 0 <= r0) && (num 0 <= r1) && forallb stop_accepted stops
  end.

(** The numbers a call hands to the canvas: its arguments, and of a gradient
    the coordinates and the offsets of the colour stops. *)
Definition style_arguments (v : style N) : list N :=
  match v with
  | color _ => []
  | linearGradient x0 y0 x1 y1 stops => [x0; y0; x1; y1] ++ map fst stops
  | radialGradient x0 y0 r0 x1 y1 r1 stops => [x0; y0; r0; x1; y1; r1] ++ map fst stops
  end.

Definition arguments (o : op N) : list N :=
  match o with
  | moveTo x y => [x; y]
  | lineTo x y => [x; y]
  | quadraticCurveTo cpx cpy x y => [cpx; cpy; x; y]
  | arc x y radius startAngle endAngle => [x; y; radius; startAngle; endAngle]
  | fillRect x y w h => [x; y; w; h]
  | translate x y => [x; y]
  | rotate angle => [angle]
  | set_fillStyle v => style_arguments v
  | set_strokeStyle v => style_arguments v
  | set_lineWidth w => [w]
  | set_shadowBlur b => [b]
  | _ => []
  end.

(** No number the call hands to the canvas is NaN or infinite. *)
Definition numeric (o : op N) : bool := forallb finite (arguments o).

Definition accepts (o : op N) : bool :=
  match o with
  | set_fillStyle v => style_accepted v
  | set_strokeStyle v => style_accepted v
  | arc x y radius startAngle endAngle =>
      if finite x && finite y && finite radius && finite startAngle && finite endAngle
      then num 0 <= radius else true
  | _ => true
  end.

End Accepts.

(** ** Drawing: state and effects

    The procedures that draw run in a state that holds the trace of canvas
    calls (latest call first), the [SeededRandom] object bound to [random],
    the array bound to [particles] ([None] when the argument is falsy), the
    number of [Math.random] calls made so far, and a counter of the
    invocations of [drawBranch].  [None] is a computation that ran out of
    fuel. *)

Section Drawing.
Context {N : Type} {number : Number N}.
Variable Math_random : nat -> N.
Local Open Scope js_scope.

Record world : Type := {
  ctx : list (op N);
  random : SeededRandom.t;
  particles : option (list (@Particle.t N));
  randoms : nat;
  calls : nat
}.

Definition M (A : Type) : Type := world -> option (A * world).

Definition ret {A : Type} (a : A) : M A := fun w => Some (a, w).

Definition bind {A B : Type} (m : M A) (k : A -> M B) : M B :=
  fun w => match m w with Some (a, w') => k a w' | None => None end.

Definition diverge {A : Type} : M A := fun _ => None.

Notation "x <- m ;; k" := (bind m (fun x => k))
  (at level 61, m at next level, right associativity).
Notation "m ;; k" := (bind m (fun _ => k))
  (at level 61, right associativity).

(** The canvas calls [ops], in this order.  They are recorded whether the
    canvas takes them or not: see [accepts]. *)
Definition emit (ops : list (op N)) : M unit :=
  fun w => Some (tt, {| ctx := rev ops ++ ctx w; random := random w;
                        particles := particles w; randoms := randoms w;
                        calls := calls w |}).

(** [random.next()] *)
Definition rnd : M N :=
  fun w => let (v, r) := SeededRandom.next (random w) in
           Some (v, {| ctx := ctx w; random := r; particles := particles w;
                       randoms := randoms w; calls := calls w |}).

(** [particles && particles.push(new Particle(x, y, color))] *)
Definition push_particle (x y : N) (color : string) : M unit :=
  fun w => match particles w with
           | Some ps =>
               Some (tt, {| ctx := ctx w; random := random w;
                            particles := Some (ps ++ [Particle.new Math_random (randoms w) x y color]);
                            randoms := Particle.draws + randoms w; calls := calls w |})
           | None => Some (tt, w)
           end.

(** Counts one invocation of [drawBranch]. *)
Definition enter : M unit :=
  fun w => Some (tt, {| ctx := ctx w; random := random w; particles := particles w;
                        randoms := randoms w; calls := S (calls w) |}).

(** [random = r]: the generator the following calls draw from. *)
Definition use_random (r : SeededRandom.t) : M unit :=
  fun w => Some (tt, {| ctx := ctx w; random := r; particles := particles w;
                        randoms := randoms w; calls := calls w |}).

(** [for (let i = 0; i < n; i++) body(i)] for a loop count [n]. *)
Fixpoint for_from (i n : nat) (body : nat -> M unit) : M unit :=
  match n with
  | O => ret tt
  | S k => body i ;; for_from (S i) k body
  end.

Definition for_ (n : nat) (body : nat -> M unit) : M unit := for_from 0 n body.

(** The [metrics] argument of [drawBranch]: a property that is absent takes
    its default in the destructuring. *)
Record Metrics : Type := {
  commitDensity : option N;
  ageMultiplier : option N;
  sizeSpread : option N;
  windOffset : option N;
  glowIntensity : option N
}.

Definition default_to (v : option N) (d : N) : N :=
  match v with Some x => x | None => d end.

Definition alpha (c : string) (a : N) : css N := with_alpha c (Math_floor a).

Fixpoint drawBranch (fuel : nat) (x y length angle depth maxDepth : N)
    (color : string) (health : N) (metrics : Metrics) {struct fuel} : M unit :=
  match fuel with
  | O => diverge
  | S fuel' =>
    enter ;;
    if (depth > maxDepth) || (length < num 2) then ret tt else
    let commitDensity := default_to (commitDensity metrics) (num 0.5) in
    let ageMultiplier := default_to (ageMultiplier metrics) (num 1) in
    let sizeSpread := default_to (sizeSpread metrics) (num 0.5) in
    let windOffset := default_to (windOffset metrics) (num 0) in
    let glowIntensity := default_to (glowIntensity metrics) (num 1) in
    emit [save] ;;
    let windEffect := windOffset * (depth / maxDepth) * num 0.8 in
    let swayedAngle := angle + windEffect in
    r <- rnd ;;
    let curvature := (r - num 0.5) * length * num 0.12 in
    let midX := (x + Math_cos swayedAngle * length * num 0.5)
                + Math_cos (swayedAngle + Math_PI / num 2) * curvature in
    let midY := (y + Math_sin swayedAngle * length * num 0.5)
                + Math_sin (swayedAngle + Math_PI / num 2) * curvature in
    let endX := x + Math_cos swayedAngle * length in
    let endY := y + Math_sin swayedAngle * length in
    let opacity := Math_max2 (num 0.4) health * (num 1 - depth / maxDepth * num 0.4) in
    let ageThicknessFactor :=
      if depth === num 0 then ageMultiplier
      else num 1 + (ageMultiplier - num 1) * Math_max2 (num 0) (num 1 - depth / num 3) in
    let baseWidth :=
      Math_max2 (num 0.5)
        ((maxDepth - depth + num 1) * (health * num 0.6 + num 0.4) * ageThicknessFactor) in
    emit [ beginPath;
           moveTo x y;
           quadraticCurveTo midX midY endX endY;
           set_strokeStyle
             (linearGradient x y endX endY
                [ (num 0, alpha color (opacity * num 255));
                  (num 0.7, alpha color (opacity * num 220));
                  (num 1, alpha color (opacity * num 180)) ]);
           set_lineWidth baseWidth;
           set_lineCap "round";
           set_lineJoin "round" ] ;;
    (if depth < num 3
     then emit [ set_shadowBlur (num 12 * health * glowIntensity); set_shadowColor color ]
     else ret tt) ;;
    emit [ stroke; set_shadowBlur (num 0) ] ;;
    let leafChance :=
      num 0.3 - (num 1 - health) * num 0.2 - (num 1 - commitDensity) * num 0.1 in
    r <- rnd ;;
    let shouldDrawLeaf := r > (num 1 - Math_max2 (num 0.1) (leafChance * num 2)) in
    (if (depth >= maxDepth - num 2) && shouldDrawLeaf then
       leafCount <-
         (if (health > num 0.6) && (commitDensity > num 0.5)
          then r <- rnd ;; ret (if r > num 0.5 then 2%nat else 1%nat)
          else ret 1%nat) ;;
       for_ leafCount (fun l =>
         r <- rnd ;;
         let leafSize := (num 3 + r * num 4) * (num 0.8 + health * num 0.4) in
         r <- rnd ;;
         let leafAngle := r * Math_PI * num 2 in
         leafOffsetX <-
           (if (0 <? l)%nat then r <- rnd ;; ret ((r - num 0.5) * num 6) else ret (num 0)) ;;
         leafOffsetY <-
           (if (0 <? l)%nat then r <- rnd ;; ret ((r - num 0.5) * num 6) else ret (num 0)) ;;
         emit [ save;
                translate (endX + leafOffsetX) (endY + leafOffsetY);
                rotate (leafAngle + windEffect * num 2);
                beginPath;
                moveTo (num 0) (num 0);
                quadraticCurveTo (leafSize * num 0.5) (- leafSize * num 0.3) leafSize (num 0);
                quadraticCurveTo (leafSize * num 0.5) (leafSize * num 0.3) (num 0) (num 0);
                set_fillStyle
                  (radialGradient (leafSize * num 0.3) (num 0) (num 0)
                     (leafSize * num 0.3) (num 0) leafSize
                     [ (num 0, alpha color (opacity * num 255 * glowIntensity));
                       (num 0.5, alpha color (opacity * num 220 * glowIntensity));
                       (num 1, with_suffix color "30") ]);
                fill ] ;;
         (if health > num 0.6
          then emit [ set_strokeStyle
                        (Canvas.color (alpha color (opacity * num 150 * glowIntensity)));
                      set_lineWidth (num 0.5);
                      set_shadowBlur (num 6 * glowIntensity);
                      set_shadowColor color;
                      stroke;
                      set_shadowBlur (num 0) ]
          else ret tt) ;;
         emit [restore]) ;;
       let particleChance := num 0.95 - health * num 0.1 in
       r <- rnd ;;
       if r > particleChance then push_particle endX endY color else ret tt
     else ret tt) ;;
    emit [restore] ;;
    branchCount <-
      (if depth < num 2 then ret 2%nat
       else
         densityRoll <- rnd ;;
         ret (if (commitDensity > num 0.7) && (densityRoll > num 0.6) then 4%nat
              else if (commitDensity > num 0.4) && (densityRoll > num 0.4) then 3%nat
              else 2%nat)) ;;
    let baseAngleSpread := Math_PI * (num 0.11 + sizeSpread * num 0.14) in
    for_ branchCount (fun _ =>
      r <- rnd ;;
      let angleVariation := (r - num 0.5) * baseAngleSpread * num 2 in
      let newAngle := swayedAngle + angleVariation in
      r <- rnd ;;
      let lengthReduction := num 0.65 + r * num 0.15 in
      let newLength := length * lengthReduction in
      let droopFactor := (num 1 - health) * num 0.3 in
      let adjustedAngle := newAngle + droopFactor in
      drawBranch fuel' endX endY newLength adjustedAngle (depth + num 1) maxDepth
        color health metrics)
  end.

End Drawing.

Arguments world N : clear implicits.
Arguments M N A : clear implicits.
Arguments Metrics N : clear implicits.

(** ** Roots, aura and the whole tree *)

Section Tree.
Context {N : Type} {number : Number N}.
Variable Math_random : nat -> N.
Local Open Scope js_scope.

Notation "x <- m ;; k" := (bind m (fun x => k))
  (at level 61, m at next level, right associativity).
Notation "m ;; k" := (bind m (fun _ => k))
  (at level 61, right associativity).

Fixpoint drawRootTendril (fuel : nat) (x y length angle depth maxDepth : N)
    (color : string) (opacity : N) {struct fuel} : M N unit :=
  match fuel with
  | O => diverge
  | S fuel' =>
    if (depth > maxDepth) || (length < num 5) then ret tt else
    r <- rnd ;;
    let curvature := (r - num 0.5) * length * num 0.2 in
    let midX := x + Math_cos angle * length * num 0.5
                + Math_cos (angle + Math_PI / num 2) * curvature in
    let midY := y + Math_sin angle * length * num 0.5
                + Math_sin (angle + Math_PI / num 2) * curvature in
    let endX := x + Math_cos angle * length in
    let endY := y + Math_sin angle * length in
    let lineWidth := Math_max2 (num 0.5) ((maxDepth - depth + num 1) * num 0.8) in
    emit [ beginPath;
           moveTo x y;
           quadraticCurveTo midX midY endX endY;
           set_strokeStyle
             (Canvas.color
                (alpha color (opacity * num 180 * (num 1 - depth / maxDepth * num 0.5))));
           set_lineWidth lineWidth;
           set_lineCap "round" ] ;;
    (if depth < num 2
     then emit [ set_shadowBlur (num 6); set_shadowColor color ]
     else ret tt) ;;
    emit [ stroke; set_shadowBlur (num 0) ] ;;
    branches <-
      (if depth < maxDepth
       then r <- rnd ;;
            if r > num 0.3
            then r <- rnd ;; ret (if r > num 0.5 then 2%nat else 1%nat)
            else ret 0%nat
       else ret 0%nat) ;;
    for_ branches (fun _ =>
      r <- rnd ;;
      let newAngle := angle + (r - num 0.5) * Math_PI * num 0.4 in
      r <- rnd ;;
      let newLength := length * (num 0.5 + r * num 0.3) in
      drawRootTendril fuel' endX endY newLength newAngle (depth + num 1) maxDepth
        color opacity)
  end.

(** [for (let i = 0; i < rootCount; i++)]: [rootCount] is at most 8 (or NaN,
    and then the loop body never runs), so eight steps exhaust the loop. *)
Fixpoint while_below (steps : nat) (i : nat) (bound : N) (body : N -> M N unit) : M N unit :=
  match steps with
  | O => ret tt
  | S k =>
      if of_Z (Z.of_nat i) < bound
      then body (of_Z (Z.of_nat i)) ;; while_below k (S i) bound body
      else ret tt
  end.

Definition drawRoots (x y forkCount : N) (color : string) (health : N) : M N unit :=
  let rootCount :=
    Math_min2 (num 8)
      (Math_max2 (num 3) (Math_floor (Math_log10 (forkCount + num 1) * num 2.5) + num 3)) in
  let maxRootLength := num 60 + Math_log10 (forkCount + num 1) * num 20 in
  emit [save] ;;
  while_below 8 0 rootCount (fun i =>
    let spreadFactor := (i / (rootCount - num 1) - num 0.5) * num 2 in
    let baseAngle := Math_PI / num 2 + spreadFactor * (Math_PI / num 3) in
    r <- rnd ;;
    let angleVariation := (r - num 0.5) * num 0.3 in
    r <- rnd ;;
    let rootLength := maxRootLength * (num 0.6 + r * num 0.4) in
    let opacity := Math_max2 (num 0.3) (health * num 0.7) in
    drawRootTendril 5 x y rootLength (baseAngle + angleVariation) (num 0) (num 3)
      color opacity) ;;
  emit [restore].

Definition drawAura (centerX centerY starCount : N) (color : string)
    (breathingFactor : N) : M N unit :=
  if starCount < num 100 then ret tt else
  let intensity := Math_min2 (num 1) (Math_log10 starCount / num 5.5) in
  let baseRadius := num 150 + intensity * num 150 in
  let radius := baseRadius * breathingFactor in
  emit [ save;
         set_fillStyle
           (radialGradient centerX centerY (num 0) centerX centerY radius
              [ (num 0, alpha color (intensity * num 25));
                (num 0.3, alpha color (intensity * num 18));
                (num 0.6, alpha color (intensity * num 10));
                (num 1, with_suffix color "00") ]);
         beginPath;
         arc centerX centerY radius (num 0) (Math_PI * num 2);
         fill;
         restore ].

(** A repository as [drawTree] reads it.  [lastPush] is the time value of
    [new Date(data.lastPush)]; the numeric properties may be absent. *)
Record repo : Type := {
  name : string;
  fullName : string;
  language : string;
  lastPush : N;
  commitCount : option N;
  size : option N;
  stars : option N;
  forks : option N;
  age : option N
}.

(** [fullName.split('').reduce((acc, char) => acc + char.charCodeAt(0), 0)].
    A [string] holds a name whose UTF-16 code units are all below 256, one
    character a code unit: the names GitHub gives (letters, digits, [-], [_],
    [.] and the [/]) are such names.  For any other name the sum is one of
    code units up to 65535, which this definition does not give. *)
Definition seed_of (fullName : string) : Z :=
  fold_left (fun acc char => (acc + Z.of_nat (nat_of_ascii char))%Z)
    (list_ascii_of_string fullName) 0%Z.

(** [for (let i = 0; i < limit; i += 100) line(i)] over a canvas dimension. *)
Fixpoint every_100 (steps : nat) (i limit : Z) (line : N -> list (op N)) : list (op N) :=
  match steps with
  | O => []
  | S k => if (i <? limit)%Z then line (of_Z i) ++ every_100 k (i + 100)%Z limit line else []
  end.

(** The render parameters [drawTree] derives and hands to [drawBranch]. *)
Record RenderParams : Type := {
  rp_seed : Z;
  rp_health : N;
  rp_color : string;
  rp_maxDepth : N;
  rp_trunkLength : N;
  rp_metrics : Metrics N
}.

Definition renderParams (today : N) (data : repo) (progress animationTime : N)
    : RenderParams :=
  let seed := seed_of (fullName data) in
  let health := calculateHealth today (lastPush data) in
  let baseColor := baseColor_of (language data) in
  let color := adjustSaturation baseColor health in
  let maxDepth := maxDepth_of (to_number (commitCount data)) in
  let baseTrunkLength := baseTrunkLength_of (to_number (size data)) in
  let trunkLength := baseTrunkLength * progress in
  let age := or_default (age data) (num 1) in
  let commitCount := or_default (commitCount data) (num 100) in
  let size := or_default (size data) (num 1000) in
  let commitDensity := commitDensity_of commitCount in
  let ageMultiplier := ageMultiplier_of age in
  let sizeSpread := sizeSpread_of size in
  let windCycle := num 6000 in
  let windOffset :=
    Math_sin (animationTime / windCycle * Math_PI * num 2 + of_Z seed * num 0.01)
    * num 0.05 in
  let breathingCycle := num 4000 in
  let breathingFactor :=
    num 0.97 + num 0.03 * Math_sin (animationTime / breathingCycle * Math_PI * num 2) in
  let glowIntensity := breathingFactor in
  {| rp_seed := seed; rp_health := health; rp_color := color; rp_maxDepth := maxDepth;
     rp_trunkLength := trunkLength;
     rp_metrics := {| commitDensity := Some commitDensity;
                      ageMultiplier := Some ageMultiplier;
                      sizeSpread := Some sizeSpread;
                      windOffset := Some windOffset;
                      glowIntensity := Some glowIntensity |} |}.

(** [drawTree(canvas, data, progress, particles, animationTime)] on a canvas
    of [width] by [height] pixels; [today] is the time value of [new Date()]
    and [fuel] bounds the nesting of [drawBranch]. *)
Definition drawTree (fuel : nat) (width height : Z) (today : N) (data : repo)
    (progress animationTime : N) : M N unit :=
  let w := of_Z width in
  let h := of_Z height in
  emit [ set_fillStyle
           (linearGradient (num 0) (num 0) (num 0) h
              [ (num 0, plain "#000000"); (num 1, plain "#0a0a0f") ]);
         fillRect (num 0) (num 0) w h;
         set_strokeStyle (Canvas.color (plain "#ffffff08"));
         set_lineWidth (num 1) ] ;;
  emit (every_100 (Z.to_nat width) 0 width
          (fun i => [ beginPath; moveTo i (num 0); lineTo i h; stroke ])) ;;
  emit (every_100 (Z.to_nat height) 0 height
          (fun i => [ beginPath; moveTo (num 0) i; lineTo w i; stroke ])) ;;
  let p := renderParams today data progress animationTime in
  let seed := rp_seed p in
  use_random (SeededRandom.new seed) ;;
  let health := rp_health p in
  let baseColor := baseColor_of (language data) in
  let baseTrunkLength := baseTrunkLength_of (to_number (size data)) in
  let startX := w / num 2 + num 150 in
  let startY := h - num 80 in
  let startAngle := - Math_PI / num 2 in
  let stars := or_default (stars data) (num 0) in
  let forks := or_default (forks data) (num 0) in
  let breathingFactor := default_to (glowIntensity (rp_metrics p)) (num 1) in
  let glowIntensity := breathingFactor in
  let treeCenterX := startX in
  let treeCenterY := startY - baseTrunkLength * num 0.6 in
  (if (progress > num 0.5) && (stars > num 100)
   then drawAura treeCenterX treeCenterY stars baseColor breathingFactor
   else ret tt) ;;
  (if progress > num 0
   then drawBranch Math_random fuel startX startY (rp_trunkLength p) startAngle (num 0)
          (rp_maxDepth p) (rp_color p) health (rp_metrics p)
   else ret tt) ;;
  let groundGlowIntensity := Math_floor (num 64 * health * glowIntensity) in
  emit [ set_fillStyle
           (linearGradient (num 0) (h - num 80) (num 0) h
              [ (num 0, with_alpha baseColor groundGlowIntensity);
                (num 1, plain "transparent") ]);
         fillRect (num 0) (h - num 80) w (num 80);
         beginPath;
         moveTo (num 0) (h - num 80);
         lineTo w (h - num 80);
         set_strokeStyle (Canvas.color (alpha baseColor (num 96 * glowIntensity)));
         set_lineWidth (num 1);
         set_shadowBlur (num 10 * glowIntensity);
         set_shadowColor baseColor;
         stroke;
         set_shadowBlur (num 0) ] ;;
  if (progress > num 0.3) && (forks > num 10)
  then use_random (SeededRandom.new (seed + 12345)) ;;
       drawRoots startX startY forks baseColor health
  else ret tt.

End Tree.

Arguments repo N : clear implicits.
Arguments RenderParams N : clear implicits.

(** ** The component: refs, the frame loop and the repository switch *)

Section App.
Context {N : Type} {number : Number N}.
Variable Math_random : nat -> N.
Local Open Scope js_scope.

(** [MOCK_REPOS], the dates as time values in milliseconds. *)
Definition MOCK_REPOS : list (repo N) :=
  [ {| name := "react"; fullName := "facebook/react"; language := "JavaScript";
       lastPush := num 1705314600000; commitCount := Some (num 15234);
       size := Some (num 45000); stars := Some (num 218000);
       forks := Some (num 45800); age := Some (num 12.7) |};
    {| name := "tensorflow"; fullName := "tensorflow/tensorflow"; language := "Python";
       lastPush := num 1706451720000; commitCount := Some (num 89432);
       size := Some (num 125000); stars := Some (num 180000);
       forks := Some (num 89000); age := Some (num 10.2) |};
    {| name := "linux"; fullName := "torvalds/linux"; language := "C";
       lastPush := num 1706516100000; commitCount := Some (num 1200000);
       size := Some (num 850000); stars := Some (num 165000);
       forks := Some (num 52000); age := Some (num 14.4) |};
    {| name := "abandoned-repo"; fullName := "user/abandoned-repo"; language := "Ruby";
       lastPush := num 1591789500000; commitCount := Some (num 234);
       size := Some (num 1200); stars := Some (num 45);
       forks := Some (num 12); age := Some (num 7.9) |} ].

(** The refs and the state of [App] that the frame loop and the handlers
    touch.  [offscreen] and [screen] are the traces of the two canvases,
    [randoms] the number of [Math.random] calls made so far. *)
Record app : Type := {
  repoData : repo N;
  selectedRepo : Z;
  customRepos : list (repo N);
  isAnimating : bool;
  growthProgress : N;
  growthProgressRef : N;
  lastRenderedProgressRef : N;
  particlesRef : list (@Particle.t N);
  firefliesRef : list (@Firefly.t N);
  fallingLeavesRef : list (@FallingLeaf.t N);
  animationTimeRef : N;
  lastFrameTimeRef : N;
  width : Z;
  height : Z;
  offscreen : list (op N);
  screen : list (op N);
  randoms_made : nat
}.

(** [renderFrame]: the offscreen tree, then every particle of the three
    collections. *)
Definition renderFrame (st : app) : list (op N) :=
  [ drawImage_offscreen; set_globalCompositeOperation "lighter" ]
  ++ flat_map Particle.draw (particlesRef st)
  ++ flat_map Firefly.draw (firefliesRef st)
  ++ [ set_globalCompositeOperation "source-over" ]
  ++ flat_map FallingLeaf.draw (fallingLeavesRef st).

(** [collection.filter(p => p.update())]: every member is updated, the ones
    whose [update] returned [true] stay. *)
Fixpoint filter_update {A : Type} (update : A -> A * bool) (l : list A) : list A :=
  match l with
  | [] => []
  | p :: rest =>
      let (p', alive) := update p in
      if alive then p' :: filter_update update rest else filter_update update rest
  end.

(** The same for fireflies, whose [update] calls [Math.random] once. *)
Fixpoint filter_update_fireflies (k : nat) (l : list (@Firefly.t N))
    : list (@Firefly.t N) * nat :=
  match l with
  | [] => ([], k)
  | f :: rest =>
      let (f', alive) := Firefly.update (Math_random k) f in
      let (rest', k') := filter_update_fireflies (S k) rest in
      (if alive then f' :: rest' else rest', k')
  end.

(** The calls of one [renderFrame] reach the visible canvas. *)
Definition paint_screen (calls : list (op N)) (st : app) : app :=
  {| repoData := repoData st; selectedRepo := selectedRepo st;
     customRepos := customRepos st; isAnimating := isAnimating st;
     growthProgress := growthProgress st; growthProgressRef := growthProgressRef st;
     lastRenderedProgressRef := lastRenderedProgressRef st;
     particlesRef := particlesRef st; firefliesRef := firefliesRef st;
     fallingLeavesRef := fallingLeavesRef st;
     animationTimeRef := animationTimeRef st; lastFrameTimeRef := lastFrameTimeRef st;
     width := width st; height := height st; offscreen := offscreen st;
     screen := rev calls ++ screen st; randoms_made := randoms_made st |}.

(** What one frame reads from its environment. *)
Record frame_input : Type := {
  performance_now : N;        (* performance.now() *)
  date_frame : N;             (* new Date() in animateParticles *)
  date_tree : N               (* new Date() in drawTree *)
}.

Definition length_of {A : Type} (l : list A) : N := of_Z (Z.of_nat (List.length l)).

(** One run of [animateParticles]. *)
Definition animateParticles (fuel : nat) (input : frame_input) (st : app) : option app :=
  let now := performance_now input in
  let deltaTime := now - lastFrameTimeRef st in
  let animTime := animationTimeRef st + deltaTime in
  let currentProgress := growthProgressRef st in
  let data := repoData st in
  let health := calculateHealth (date_frame input) (lastPush data) in
  let stars := or_default (stars data) (num 0) in
  let baseColor := baseColor_of (language data) in
  let startX := of_Z (width st) / num 2 + num 150 in
  let startY := of_Z (height st) - num 80 in
  let baseTrunkLength :=
    Math_min2 (num 180)
      (num 100 + Math_log10 (or_default (size data) (num 1000) + num 1) * num 18) in
  match drawTree Math_random fuel (width st) (height st) (date_tree input) data
          currentProgress animTime
          {| ctx := offscreen st; random := SeededRandom.new 0;
             particles := Some (particlesRef st); randoms := randoms_made st;
             calls := 0 |} with
  | None => None
  | Some (_, w) =>
    let pushed := match particles w with Some ps => ps | None => [] end in
    let particles1 := filter_update Particle.update pushed in
    let (fireflies1, k1) := filter_update_fireflies (randoms w) (firefliesRef st) in
    let leaves1 := filter_update FallingLeaf.update (fallingLeavesRef st) in
    let '(fireflies2, k2) :=
      if (currentProgress > num 0.8) && (stars > num 500) then
        let maxFireflies := Math_min2 (num 15) (Math_floor (Math_log10 stars * num 3)) in
        let spawnChance := num 0.01 * (stars / num 10000) in
        if length_of fireflies1 < maxFireflies then
          if Math_random k1 < spawnChance then
            let spawnX := startX + (Math_random (1 + k1)%nat - num 0.5) * num 300 in
            let spawnY := startY - baseTrunkLength * num 0.3
                          - Math_random (2 + k1)%nat * baseTrunkLength * num 0.8 in
            let bounds := {| Firefly.minX := startX - num 200;
                             Firefly.maxX := startX + num 200;
                             Firefly.minY := startY - baseTrunkLength * num 1.5;
                             Firefly.maxY := startY - num 20 |} in
            (fireflies1
               ++ [Firefly.new Math_random (3 + k1)%nat spawnX spawnY baseColor (Some bounds)],
             (3 + Firefly.draws + k1)%nat)
          else (fireflies1, (1 + k1)%nat)
        else (fireflies1, k1)
      else (fireflies1, k1) in
    let '(leaves2, k3) :=
      if (currentProgress > num 0.8) && (health < num 0.5) then
        let maxLeaves := Math_floor ((num 1 - health) * num 8) in
        let spawnChance := num 0.005 * (num 1 - health) in
        if length_of leaves1 < maxLeaves then
          if Math_random k2 < spawnChance then
            let spawnX := startX + (Math_random (1 + k2)%nat - num 0.5) * num 200 in
            let spawnY := startY
                          - baseTrunkLength * (num 0.4 + Math_random (2 + k2)%nat * num 0.5) in
            (leaves1 ++ [FallingLeaf.new Math_random (3 + k2)%nat spawnX spawnY baseColor],
             (3 + FallingLeaf.draws + k2)%nat)
          else (leaves1, (1 + k2)%nat)
        else (leaves1, k2)
      else (leaves1, k2) in
    let st' :=
      {| repoData := data; selectedRepo := selectedRepo st; customRepos := customRepos st;
         isAnimating := isAnimating st; growthProgress := growthProgress st;
         growthProgressRef := growthProgressRef st;
         lastRenderedProgressRef := currentProgress;
         particlesRef := particles1; firefliesRef := fireflies2;
         fallingLeavesRef := leaves2;
         animationTimeRef := animTime; lastFrameTimeRef := now;
         width := width st; height := height st;
         offscreen := ctx w; screen := screen st; randoms_made := k3 |} in
    Some (paint_screen (renderFrame st') st')
  end.

(** The effect that owns the frame loop, when it runs again because
    [repoData] changed: the pending frame is cancelled, the clock is reset,
    and [animateParticles] runs at once.  [now] is the first
    [performance.now()], read by the effect itself. *)
Definition restart_frame_loop (fuel : nat) (now : N) (input : frame_input) (st : app)
    : option app :=
  animateParticles fuel input
    {| repoData := repoData st; selectedRepo := selectedRepo st;
       customRepos := customRepos st; isAnimating := isAnimating st;
       growthProgress := growthProgress st; growthProgressRef := growthProgressRef st;
       lastRenderedProgressRef := lastRenderedProgressRef st;
       particlesRef := particlesRef st; firefliesRef := firefliesRef st;
       fallingLeavesRef := fallingLeavesRef st;
       animationTimeRef := num 0; lastFrameTimeRef := now;
       width := width st; height := height st; offscreen := offscreen st;
       screen := screen st; randoms_made := randoms_made st |}.

(** [loadRepo(index, isCustom)]; [None] when the index names no repository. *)
Definition loadRepo (index : nat) (isCustom : bool) (st : app) : option app :=
  match nth_error (if isCustom then customRepos st else MOCK_REPOS) index with
  | None => None
  | Some repo =>
      Some {| repoData := repo;
              selectedRepo := if isCustom then (-1)%Z else Z.of_nat index;
              customRepos := customRepos st;
              isAnimating := true;
              growthProgress := num 0;
              growthProgressRef := num 0;
              lastRenderedProgressRef := - num 1;
              particlesRef := [];
              firefliesRef := [];
              fallingLeavesRef := [];
              animationTimeRef := animationTimeRef st;
              lastFrameTimeRef := lastFrameTimeRef st;
              width := width st; height := height st; offscreen := offscreen st;
              screen := screen st; randoms_made := randoms_made st |}
  end.

(** [customRepos.findIndex(r => r.fullName === fullName)] *)
Fixpoint findIndex (fullName_ : string) (l : list (repo N)) (i : nat) : option nat :=
  match l with
  | [] => None
  | r :: rest => if String.eqb (fullName r) fullName_ then Some i
                 else findIndex fullName_ rest (S i)
  end.

(** [handleLoadCustomRepo] from the point where [fetchGitHubRepo] has
    resolved to [fetched]. *)
Definition handleLoadCustomRepo (fetched : repo N) (st : app) : option app :=
  match findIndex (fullName fetched) (customRepos st) 0 with
  | Some existingIndex => loadRepo existingIndex true st
  | None =>
      Some {| repoData := fetched;
              selectedRepo := (-1)%Z;
              customRepos := customRepos st ++ [fetched];
              isAnimating := true;
              growthProgress := num 0;
              growthProgressRef := num 0;
              lastRenderedProgressRef := - num 1;
              particlesRef := [];
              firefliesRef := firefliesRef st;
              fallingLeavesRef := fallingLeavesRef st;
              animationTimeRef := animationTimeRef st;
              lastFrameTimeRef := lastFrameTimeRef st;
              width := width st; height := height st; offscreen := offscreen st;
              screen := screen st; randoms_made := randoms_made st |}
  end.

End App.

Arguments app N : clear implicits.
Arguments frame_input N : clear implicits.

(** * Properties *)

(** ** Facts about binary64

    The comparisons of primitive floats are specified by [SFcompare] on the
    unpacked representation; it is a total preorder away from NaN. *)

Module FloatFacts.

Lemma compare_cont_swap (p q : positive) :
  Pos.compare_cont Eq q p = CompOpp (Pos.compare_cont Eq p q).
Proof.
  change (Pos.compare_cont Eq q p) with (Pos.compare q p).
  change (Pos.compare_cont Eq p q) with (Pos.compare p q).
  apply Pos.compare_antisym.
Qed.

Lemma SFcompare_swap (x y : spec_float) :
  SFcompare y x = match SFcompare x y with Some c => Some (CompOpp c) | None => None end.
Proof.
  destruct x as [sx|sx| |sx mx ex], y as [sy|sy| |sy my ey]; simpl;
    try destruct sx; try destruct sy; simpl; try reflexivity.
  - rewrite (Z.compare_antisym ey ex). destruct (ey ?= ex)%Z; simpl; try reflexivity.
    rewrite compare_cont_swap. now rewrite CompOpp_involutive.
  - rewrite (Z.compare_antisym ey ex). destruct (ey ?= ex)%Z; simpl; try reflexivity.
    now rewrite compare_cont_swap.
Qed.

Lemma SFcompare_eq_l (x y z : spec_float) :
  SFcompare x y = Some Eq -> z <> S754_nan -> SFcompare x z = SFcompare y z.
Proof.
  destruct x as [sx|sx| |sx mx ex], y as [sy|sy| |sy my ey]; simpl;
    try destruct sx; try destruct sy; simpl; try discriminate; intros H Hz;
    destruct z as [sz|sz| |sz mz ez]; simpl; try reflexivity; try congruence.
  all: destruct (Z.compare_spec ex ey); try discriminate;
    change (Pos.compare_cont Eq mx my) with (Pos.compare mx my) in H;
    destruct (Pos.compare_spec mx my); try discriminate; subst; reflexivity.
Qed.

Lemma SFcompare_lt_trans (x y z : spec_float) :
  SFcompare x y = Some Lt -> SFcompare y z = Some Lt -> SFcompare x z = Some Lt.
Proof.
  destruct x as [sx|sx| |sx mx ex], y as [sy|sy| |sy my ey], z as [sz|sz| |sz mz ez]; simpl;
    try destruct sx; try destruct sy; try destruct sz; simpl;
    try discriminate; try reflexivity; intros H1 H2.
  all: change (Pos.compare_cont Eq) with Pos.compare in *.
  all: destruct (Z.compare_spec ex ey); try discriminate;
       destruct (Z.compare_spec ey ez); try discriminate;
       destruct (Z.compare_spec ex ez); try lia; try reflexivity; subst.
  all: try (destruct (Pos.compare_spec mx my); try discriminate;
            destruct (Pos.compare_spec my mz); try discriminate;
            destruct (Pos.compare_spec mx mz); try lia; reflexivity).
Qed.

Local Open Scope float_scope.

(** [x] is NaN. *)
Definition isNaN (x : float) : Prop := Prim2SF x = S754_nan.

Lemma ltb_lt (x y : float) :
  (x <? y) = true <-> SFcompare (Prim2SF x) (Prim2SF y) = Some Lt.
Proof.
  rewrite FloatAxioms.ltb_spec. unfold SFltb.
  destruct (SFcompare (Prim2SF x) (Prim2SF y)) as [[]|]; split; congruence.
Qed.

Lemma leb_le (x y : float) :
  (x <=? y) = true <->
  (SFcompare (Prim2SF x) (Prim2SF y) = Some Lt \/ SFcompare (Prim2SF x) (Prim2SF y) = Some Eq).
Proof.
  rewrite FloatAxioms.leb_spec. unfold SFleb.
  destruct (SFcompare (Prim2SF x) (Prim2SF y)) as [[]|]; split; intuition congruence.
Qed.

Lemma SFcompare_nan (a b : spec_float) :
  SFcompare a b = None <-> a = S754_nan \/ b = S754_nan.
Proof.
  destruct a as [sa|sa| |sa ma ea], b as [sb|sb| |sb mb eb]; simpl;
    split; intros H; try discriminate; auto; destruct H; discriminate.
Qed.

Lemma ltb_trans (x y z : float) :
  (x <? y) = true -> (y <? z) = true -> (x <? z) = true.
Proof. rewrite !ltb_lt. apply SFcompare_lt_trans. Qed.

Lemma leb_ltb_trans (x y z : float) :
  (x <=? y) = true -> (y <? z) = true -> (x <? z) = true.
Proof.
  rewrite leb_le, !ltb_lt. intros [H|H] Hz.
  - eapply SFcompare_lt_trans; eassumption.
  - rewrite (@SFcompare_eq_l _ _ (Prim2SF z) H); [assumption|].
    intros E. rewrite E in Hz. destruct (Prim2SF y); discriminate.
Qed.

Lemma ltb_leb (x y : float) : (x <? y) = true -> (x <=? y) = true.
Proof. rewrite ltb_lt, leb_le. auto. Qed.

Lemma ltb_leb_false (x y : float) : (x <? y) = true -> (y <=? x) = false.
Proof.
  rewrite ltb_lt. intros H. rewrite FloatAxioms.leb_spec. unfold SFleb.
  rewrite SFcompare_swap, H. reflexivity.
Qed.

(** Away from NaN, what is not below is at least. *)
Lemma ltb_false_leb (x y : float) :
  (x <? y) = false -> ~ isNaN x -> ~ isNaN y -> (y <=? x) = true.
Proof.
  unfold isNaN. rewrite FloatAxioms.ltb_spec, FloatAxioms.leb_spec. unfold SFltb, SFleb. intros H Hx Hy.
  rewrite SFcompare_swap.
  destruct (SFcompare (Prim2SF x) (Prim2SF y)) as [[]|] eqn:E; try reflexivity; try discriminate.
  apply SFcompare_nan in E. tauto.
Qed.

Lemma ltb_not_nan (x y : float) : (x <? y) = true -> ~ isNaN x /\ ~ isNaN y.
Proof.
  rewrite ltb_lt. unfold isNaN. intros H.
  split; intros E; rewrite E in H; [|destruct (Prim2SF x)]; discriminate.
Qed.

Lemma ltb_nan_l (x y : float) : isNaN x -> (x <? y) = false.
Proof. unfold isNaN. intros H. rewrite FloatAxioms.ltb_spec, H. reflexivity. Qed.

Lemma ltb_nan_r (x y : float) : isNaN y -> (x <? y) = false.
Proof. unfold isNaN. intros H. rewrite FloatAxioms.ltb_spec, H. now destruct (Prim2SF x). Qed.

Lemma leb_nan_l (x y : float) : isNaN x -> (x <=? y) = false.
Proof. unfold isNaN. intros H. rewrite FloatAxioms.leb_spec, H. reflexivity. Qed.

Lemma leb_nan_r (x y : float) : isNaN y -> (x <=? y) = false.
Proof. unfold isNaN. intros H. rewrite FloatAxioms.leb_spec, H. now destruct (Prim2SF x). Qed.

Lemma eqb_nan_l (x y : float) : isNaN x -> (x =? y) = false.
Proof. unfold isNaN. intros H. rewrite FloatAxioms.eqb_spec, H. reflexivity. Qed.

Lemma isNaN_nan : isNaN nan.
Proof. reflexivity. Qed.

Lemma sub_nan_l (x y : float) : isNaN x -> isNaN (x - y).
Proof. unfold isNaN. intros H. rewrite FloatAxioms.sub_spec, H. reflexivity. Qed.

Lemma sub_nan_r (x y : float) : isNaN y -> isNaN (x - y).
Proof. unfold isNaN. intros H. rewrite FloatAxioms.sub_spec, H. now destruct (Prim2SF x). Qed.

Lemma add_nan_l (x y : float) : isNaN x -> isNaN (x + y).
Proof. unfold isNaN. intros H. rewrite FloatAxioms.add_spec, H. reflexivity. Qed.

Lemma add_nan_r (x y : float) : isNaN y -> isNaN (x + y).
Proof. unfold isNaN. intros H. rewrite FloatAxioms.add_spec, H. now destruct (Prim2SF x). Qed.

Lemma mul_nan_l (x y : float) : isNaN x -> isNaN (x * y).
Proof. unfold isNaN. intros H. rewrite FloatAxioms.mul_spec, H. reflexivity. Qed.

Lemma mul_nan_r (x y : float) : isNaN y -> isNaN (x * y).
Proof. unfold isNaN. intros H. rewrite FloatAxioms.mul_spec, H. now destruct (Prim2SF x). Qed.

Lemma div_nan_l (x y : float) : isNaN x -> isNaN (x / y).
Proof. unfold isNaN. intros H. rewrite FloatAxioms.div_spec, H. reflexivity. Qed.

Lemma div_nan_r (x y : float) : isNaN y -> isNaN (x / y).
Proof. unfold isNaN. intros H. rewrite FloatAxioms.div_spec, H. now destruct (Prim2SF x). Qed.

Lemma isNaN_eq (x : float) : isNaN x -> x = nan.
Proof. unfold isNaN. intros H. apply Prim2SF_inj. now rewrite H. Qed.

End FloatFacts.

(** ** SeededRandom *)

(** [p z] for the [n] integers from [z] on. *)
Fixpoint all_from (n : nat) (z : Z) (p : Z -> bool) : bool :=
  match n with
  | O => true
  | S k => p z && all_from k (z + 1)%Z p
  end.

Lemma all_from_spec (p : Z -> bool) (n : nat) (z : Z) :
  all_from n z p = true -> forall i : Z, (z <= i < z + Z.of_nat n)%Z -> p i = true.
Proof.
  revert z. induction n as [|n IH]; intros z H i Hi.
  - simpl in Hi. lia.
  - cbn [all_from] in H. apply andb_true_iff in H. destruct H as [Hz Hrest].
    destruct (Z.eq_dec i z) as [->|Hne]; [assumption|].
    apply (IH (z + 1)%Z Hrest). lia.
Qed.

Definition unit_interval (v : float) : bool := ((0 <=? v) && (v <? 1))%float.

(** Every state divided by the modulus is a double of [0, 1). *)
Lemma state_over_modulus (z : Z) :
  (0 <= z < 233280)%Z ->
  unit_interval (Float64.literal (inject_Z z) / Float64.literal 233280)%float = true.
Proof.
  intros Hz.
  apply (@all_from_spec
           (fun z => unit_interval (Float64.literal (inject_Z z) / Float64.literal 233280)%float)
           (Z.to_nat 233280) 0%Z); [vm_compute; reflexivity | lia].
Qed.

Lemma next_state (seed : Z) :
  (0 <= Z.rem (seed * 9301 + 49297) 233280)%Z ->
  let seed' := Z.rem (seed * 9301 + 49297) 233280 in
  seed' = ((seed * 9301 + 49297) mod 233280)%Z /\ (0 <= seed' < 233280)%Z.
Proof.
  intros H seed'. subst seed'.
  pose proof (Z.rem_bound_abs (seed * 9301 + 49297) 233280 ltac:(lia)) as B.
  split; [|lia].
  destruct (Z_le_gt_dec 0 (seed * 9301 + 49297)) as [Hd|Hd].
  - apply Z.rem_mod_nonneg; lia.
  - pose proof (Z.rem_nonpos (seed * 9301 + 49297) 233280 ltac:(lia) ltac:(lia)) as Hn.
    assert (E : Z.rem (seed * 9301 + 49297) 233280 = 0%Z) by lia.
    rewrite E. symmetry. apply Z.rem_divide in E; [|lia].
    destruct E as [q ->]. apply Z.mod_mul. lia.
Qed.

(** A seed from -5 on: the first dividend is not negative. *)
Lemma next_state_from_minus_5 (seed : Z) :
  (-5 <= seed)%Z -> (0 <= Z.rem (seed * 9301 + 49297) 233280)%Z.
Proof. intros H. apply Z.rem_nonneg; lia. Qed.

(** A negative state divided by the modulus is a negative double. *)
Lemma negative_state_over_modulus (z : Z) :
  (-233280 < z < 0)%Z ->
  (Float64.literal (inject_Z z) / Float64.literal 233280 <? 0)%float = true.
Proof.
  intros Hz.
  apply (@all_from_spec
           (fun z => (Float64.literal (inject_Z z) / Float64.literal 233280 <? 0)%float)
           (Z.to_nat 233279) (-233279)%Z); [vm_compute; reflexivity | lia].
Qed.

Section SeededRandomFloat.
Variable m : Float64.libm.
Local Instance number_m : Number float := Float64.number m.

Lemma next_unfold (this : SeededRandom.t) :
  SeededRandom.next this =
  ((Float64.literal (inject_Z (Z.rem (SeededRandom.seed this * 9301 + 49297) 233280))
    / Float64.literal 233280)%float,
   SeededRandom.new (Z.rem (SeededRandom.seed this * 9301 + 49297) 233280)).
Proof. reflexivity. Qed.

(** From a state of the range of the generator on, every value is in [0, 1). *)
Lemma sequence_unit_interval (n : nat) (this : SeededRandom.t) :
  (0 <= Z.rem (SeededRandom.seed this * 9301 + 49297) 233280)%Z ->
  Forall (fun v => unit_interval v = true) (SeededRandom.sequence n this).
Proof.
  revert this. induction n as [|n IH]; intros this H; cbn [SeededRandom.sequence].
  - constructor.
  - rewrite next_unfold. destruct (next_state _ H) as [_ Hr].
    constructor.
    + apply state_over_modulus. exact Hr.
    + apply IH. simpl. apply Z.rem_nonneg; lia.
Qed.

End SeededRandomFloat.

(** C2, as stated, fails: the operator % keeps the sign of the dividend, so
    the seed -6 gives a negative state and a negative value. *)
Lemma next_negative_seed :
  let number := Float64.number Float64.coarse in
  let (v, r) := SeededRandom.next (SeededRandom.new (-6)) in
  SeededRandom.seed r = (-6509)%Z /\ (v <? 0)%float = true /\ (0 <=? v)%float = false.
Proof. vm_compute. repeat split. Qed.

(** C2 (amended): for every integer seed whose first state,
    (seed * 9301 + 49297) % 233280, is not negative (every seed from -5 on is
    one) and that the generator computes with exactly (seed * 9301 + 49297
    below 2^53 in absolute value), one call of [next] moves the state to
    (seed * 9301 + 49297) mod 233280 and returns the state divided by 233280,
    a double of [0, 1); every later value is in [0, 1) too.  For any other
    seed the first value is negative.  Two generators with the same seed,
    whatever it is, give the same values at every position. *)
Theorem next_contract (m : Float64.libm) (seed : Z) :
  (Z.abs (seed * 9301 + 49297) < 2 ^ 53)%Z ->
  let number := Float64.number m in
  let (v, r) := SeededRandom.next (SeededRandom.new seed) in
  ((-5 <= seed)%Z -> (0 <= SeededRandom.seed r)%Z)
  /\ ((0 <= SeededRandom.seed r)%Z ->
      SeededRandom.seed r = ((seed * 9301 + 49297) mod 233280)%Z
      /\ v = (of_Z (SeededRandom.seed r) / num 233280)%js
      /\ (0 <=? v)%float = true /\ (v <? 1)%float = true
      /\ (forall n, Forall (fun v => (0 <=? v)%float = true /\ (v <? 1)%float = true)
                      (SeededRandom.sequence n (SeededRandom.new seed))))
  /\ ((SeededRandom.seed r < 0)%Z -> (v <? 0)%float = true /\ (0 <=? v)%float = false)
  /\ (forall n (r1 r2 : SeededRandom.t),
        SeededRandom.seed r1 = SeededRandom.seed r2 ->
        SeededRandom.sequence n r1 = SeededRandom.sequence n r2).
Proof.
  intros _ number.
  rewrite (next_unfold m). cbn [SeededRandom.seed SeededRandom.new].
  split; [apply next_state_from_minus_5|]. split; [|split].
  - intros Hstate.
    destruct (@next_state seed Hstate) as [Hmod Hr].
    pose proof (state_over_modulus Hr) as Hu.
    apply andb_true_iff in Hu.
    split; [exact Hmod|]. split; [reflexivity|].
    split; [tauto|]. split; [tauto|].
    intros n. pose proof (@sequence_unit_interval m n (SeededRandom.new seed) Hstate) as Hs.
    eapply Forall_impl; [|exact Hs].
    intros a Ha. apply andb_true_iff in Ha. exact Ha.
  - intros Hneg.
    pose proof (Z.rem_bound_abs (seed * 9301 + 49297) 233280 ltac:(lia)) as B.
    assert (Hv : (Float64.literal (inject_Z (Z.rem (seed * 9301 + 49297) 233280))
                  / Float64.literal 233280 <? 0)%float = true)
      by (apply negative_state_over_modulus; lia).
    split; [exact Hv|]. exact (FloatFacts.ltb_leb_false Hv).
  - intros n [s1] [s2] E. simpl in E. now subst.
Qed.

Lemma next_contract_witness :
  let number := Float64.number Float64.coarse in
  let (v, r) := SeededRandom.next (SeededRandom.new (-5)) in
  SeededRandom.seed r = 2792%Z
  /\ SeededRandom.seed r = ((-5 * 9301 + 49297) mod 233280)%Z
  /\ v = (of_Z (SeededRandom.seed r) / num 233280)%js
  /\ (0 <=? v)%float = true /\ (v <? 1)%float = true
  /\ (forall n, Forall (fun v => (0 <=? v)%float = true /\ (v <? 1)%float = true)
                  (SeededRandom.sequence n (SeededRandom.new (-5)))).
Proof.
  intros number.
  pose proof (@next_contract Float64.coarse (-5) ltac:(vm_compute; reflexivity)) as H.
  cbv zeta in H. fold number in H.
  destruct (SeededRandom.next (SeededRandom.new (-5))) as [v r] eqn:E.
  destruct H as (H5 & Hpos & _).
  assert (Er : SeededRandom.seed r = 2792%Z).
  { apply (f_equal snd) in E. cbn [snd] in E. rewrite <- E. reflexivity. }
  split; [exact Er|]. apply Hpos. apply H5. lia.
Defined.

(** ** calculateHealth *)

(** The step function of the specification, with both ends of every
    interval written out. *)
Definition health_steps {N : Type} {number : Number N} (d : N) : N :=
  (if d < num 30 then num 1.0
   else if (d >= num 30) && (d < num 90) then num 0.8
   else if (d >= num 90) && (d < num 180) then num 0.6
   else if (d >= num 180) && (d < num 365) then num 0.4
   else num 0.2)%js.

(** The time value of 2025-11-03T00:00:00Z, and a day, in milliseconds. *)
Definition a_date : Z := 1762128000000.
Definition a_day : Z := 86400000.

Section HealthFloat.
Variable m : Float64.libm.
Local Instance number_h : Number float := Float64.number m.
Import FloatFacts.
Local Open Scope float_scope.

Lemma days_unfold (now lastPush : float) :
  daysSinceLastPush now lastPush = (now - lastPush) / 86400000.
Proof. reflexivity. Qed.

Lemma calculateHealth_unfold (now lastPush : float) :
  calculateHealth now lastPush =
  let d := daysSinceLastPush now lastPush in
  if d <? 30 then 1 else if d <? 90 then num 0.8 else if d <? 180 then num 0.6
  else if d <? 365 then num 0.4 else num 0.2.
Proof. reflexivity. Qed.

Lemma health_steps_unfold (d : float) :
  health_steps d =
  if d <? 30 then 1
  else if (30 <=? d) && (d <? 90) then num 0.8
  else if (90 <=? d) && (d <? 180) then num 0.6
  else if (180 <=? d) && (d <? 365) then num 0.4
  else num 0.2.
Proof. reflexivity. Qed.

(** Below the next threshold and not below this one is at least this one. *)
Lemma between (d lo hi : float) :
  ~ isNaN lo -> (d <? lo) = false -> (d <? hi) = true -> (lo <=? d) = true.
Proof.
  intros Hlo H1 H2. apply ltb_false_leb; [assumption | | assumption].
  apply (ltb_not_nan H2).
Qed.

Lemma calculateHealth_health_steps (now lastPush : float) :
  calculateHealth now lastPush = health_steps (daysSinceLastPush now lastPush).
Proof.
  rewrite calculateHealth_unfold, health_steps_unfold. cbv zeta.
  set (d := daysSinceLastPush now lastPush).
  destruct (d <? 30) eqn:E30; [reflexivity|].
  destruct (d <? 90) eqn:E90.
  { rewrite (@between d 30 90); [reflexivity | discriminate | assumption | assumption]. }
  rewrite andb_false_r.
  destruct (d <? 180) eqn:E180.
  { rewrite (@between d 90 180); [reflexivity | discriminate | assumption | assumption]. }
  rewrite andb_false_r.
  destruct (d <? 365) eqn:E365.
  { rewrite (@between d 180 365); [reflexivity | discriminate | assumption | assumption]. }
  rewrite andb_false_r. reflexivity.
Qed.

Lemma calculateHealth_future (now lastPush : float) :
  (daysSinceLastPush now lastPush <? 0) = true -> calculateHealth now lastPush = 1.
Proof.
  intros H. rewrite calculateHealth_unfold. cbv zeta.
  rewrite (@ltb_trans _ 0 30 H); reflexivity.
Qed.

Lemma calculateHealth_nan_days (now lastPush : float) :
  isNaN (daysSinceLastPush now lastPush) -> calculateHealth now lastPush = num 0.2.
Proof.
  intros H. rewrite calculateHealth_unfold. cbv zeta.
  rewrite !(ltb_nan_l _ H). reflexivity.
Qed.

Lemma days_nan (now lastPush : float) :
  isNaN lastPush -> isNaN (daysSinceLastPush now lastPush).
Proof. intros H. rewrite days_unfold. apply div_nan_l, sub_nan_r, H. Qed.

Lemma calculateHealth_values (now lastPush : float) :
  In (calculateHealth now lastPush) [1; num 0.8; num 0.6; num 0.4; num 0.2].
Proof.
  rewrite calculateHealth_unfold. cbv zeta.
  repeat match goal with |- context [if ?c then _ else _] => destruct c end;
    simpl; auto 6.
Qed.

End HealthFloat.

(** C3: [calculateHealth] is the step function of the days since the last
    push, d = (now - lastPush) / 86400000: 1.0 when d < 30, 0.8 when
    30 <= d < 90, 0.6 when 90 <= d < 180, 0.4 when 180 <= d < 365 and 0.2
    otherwise; 29 days give 1.0, 30 and 89 days 0.8, 90 days 0.6 and 1000 days
    0.2, as a number of days and as two dates that many days apart. *)
Theorem calculateHealth_step_function (m : Float64.libm) (now lastPush : float) :
  let number := Float64.number m in
  let days := fun n : Z => calculateHealth (of_Z (a_date + n * a_day)) (of_Z a_date) in
  calculateHealth now lastPush = health_steps ((now - lastPush) / 86400000)%float
  /\ health_steps (num 29) = num 1.0 /\ days 29%Z = num 1.0
  /\ health_steps (num 30) = num 0.8 /\ days 30%Z = num 0.8
  /\ health_steps (num 89) = num 0.8 /\ days 89%Z = num 0.8
  /\ health_steps (num 90) = num 0.6 /\ days 90%Z = num 0.6
  /\ health_steps (num 1000) = num 0.2 /\ days 1000%Z = num 0.2.
Proof.
  intros number days.
  split; [apply calculateHealth_health_steps|].
  repeat split; vm_compute; reflexivity.
Qed.

(** C10: [calculateHealth] returns one of 1.0, 0.8, 0.6, 0.4 and 0.2 on every
    input; a date in the future (a negative number of days) gives 1.0, and a
    date whose time value is NaN, for which the number of days is NaN, gives
    0.2. *)
Theorem calculateHealth_total (m : Float64.libm) (now lastPush : float) :
  let number := Float64.number m in
  In (calculateHealth now lastPush) [num 1.0; num 0.8; num 0.6; num 0.4; num 0.2]
  /\ ((daysSinceLastPush now lastPush < num 0)%js = true ->
      calculateHealth now lastPush = num 1.0)
  /\ (FloatFacts.isNaN (daysSinceLastPush now lastPush) ->
      calculateHealth now lastPush = num 0.2)
  /\ FloatFacts.isNaN (daysSinceLastPush now NaN)
  /\ calculateHealth now NaN = num 0.2.
Proof.
  intros number.
  split; [apply calculateHealth_values|].
  split; [apply calculateHealth_future|].
  split; [apply calculateHealth_nan_days|].
  split; [apply days_nan, FloatFacts.isNaN_nan|].
  apply calculateHealth_nan_days, days_nan, FloatFacts.isNaN_nan.
Qed.

Lemma calculateHealth_total_witness :
  let number := Float64.number Float64.coarse in
  (daysSinceLastPush (of_Z a_date) (of_Z (a_date + a_day)) < num 0)%js = true
  /\ calculateHealth (of_Z a_date) (of_Z (a_date + a_day)) = num 1.0
  /\ calculateHealth (of_Z a_date) NaN = num 0.2.
Proof.
  intros number.
  destruct (@calculateHealth_total Float64.coarse (of_Z a_date) (of_Z (a_date + a_day)))
    as (_ & Hfuture & _).
  destruct (@calculateHealth_total Float64.coarse (of_Z a_date) NaN) as (_ & _ & _ & _ & Hnan).
  split; [vm_compute; reflexivity|].
  split; [apply Hfuture; vm_compute; reflexivity | exact Hnan].
Defined.

(** ** The recursion depth, in exact arithmetic *)

Module DepthExact.

Local Open Scope R_scope.
#[local] Existing Instance Exact.number.

(** [maxDepth] for a natural number of commits. *)
Definition depth (commits : BinNums.N) : option R :=
  maxDepth_of (of_Z (Z.of_N commits)).

(** floor(log10(commits + 1) * 1.6) *)
Definition raw (commits : BinNums.N) : Z :=
  Zfloor (ln (IZR (Z.of_N commits) + 1) / ln 10 * (8 / 5)).

Lemma ln10_pos : 0 < ln 10.
Proof. rewrite <- ln_1. apply ln_increasing; lra. Qed.

Lemma commits_pos (commits : BinNums.N) : 0 <= IZR (Z.of_N commits).
Proof. apply IZR_le. lia. Qed.

Lemma Rmax_IZR (a b : Z) : Rmax (IZR a) (IZR b) = IZR (Z.max a b).
Proof.
  destruct (Z.le_ge_cases a b) as [H|H].
  - rewrite Rmax_right by (apply IZR_le; exact H). now rewrite Z.max_r.
  - rewrite Rmax_left by (apply IZR_le; exact H). now rewrite Z.max_l.
Qed.

Lemma Rmin_IZR (a b : Z) : Rmin (IZR a) (IZR b) = IZR (Z.min a b).
Proof.
  destruct (Z.le_ge_cases a b) as [H|H].
  - rewrite Rmin_left by (apply IZR_le; exact H). now rewrite Z.min_l.
  - rewrite Rmin_right by (apply IZR_le; exact H). now rewrite Z.min_r.
Qed.

Lemma depth_raw (commits : BinNums.N) :
  depth commits = Some (IZR (Z.min 10 (Z.max 4 (raw commits)))).
Proof.
  unfold depth, maxDepth_of, of_Z, raw. cbn.
  pose proof (commits_pos commits) as P.
  assert (E : Q2R (inject_Z (Z.of_N commits)) + Q2R 1 = IZR (Z.of_N commits) + 1).
  { unfold Q2R. cbn. lra. }
  rewrite E.
  destruct (Rlt_dec 0 (IZR (Z.of_N commits) + 1)) as [_|H]; [|lra].
  cbn. f_equal.
  replace (Q2R 10) with (IZR 10) by (unfold Q2R; cbn; lra).
  replace (Q2R 4) with (IZR 4) by (unfold Q2R; cbn; lra).
  rewrite Rmax_IZR, Rmin_IZR. do 4 f_equal. lra.
Qed.

(** [k <= log10(x) * 1.6] when x^8 reaches 10^(5k). *)
Lemma log_ge (x : R) (k : nat) :
  0 < x -> 10 ^ (5 * k) <= x ^ 8 -> INR k <= ln x / ln 10 * (8 / 5).
Proof.
  intros Hx H. pose proof ln10_pos as L.
  assert (H' : ln (10 ^ (5 * k)) <= ln (x ^ 8)).
  { destruct H as [H|H]; [left; apply ln_increasing; [apply pow_lt; lra | exact H]
                         | right; now rewrite H]. }
  rewrite !ln_pow in H' by lra. rewrite mult_INR in H'.
  replace (INR 5) with 5 in H' by (simpl; lra).
  replace (INR 8) with 8 in H' by (simpl; lra).
  apply Rmult_le_reg_r with (r := ln 10 * 5); [lra|].
  replace (ln x / ln 10 * (8 / 5) * (ln 10 * 5)) with (8 * ln x) by (field; lra).
  lra.
Qed.

(** [log10(x) * 1.6 < k] when x^8 stays below 10^(5k). *)
Lemma log_lt (x : R) (k : nat) :
  0 < x -> x ^ 8 < 10 ^ (5 * k) -> ln x / ln 10 * (8 / 5) < INR k.
Proof.
  intros Hx H. pose proof ln10_pos as L.
  assert (H' : ln (x ^ 8) < ln (10 ^ (5 * k))).
  { apply ln_increasing; [apply pow_lt; lra | exact H]. }
  rewrite !ln_pow in H' by lra. rewrite mult_INR in H'.
  replace (INR 5) with 5 in H' by (simpl; lra).
  replace (INR 8) with 8 in H' by (simpl; lra).
  apply Rmult_lt_reg_r with (r := ln 10 * 5); [lra|].
  replace (ln x / ln 10 * (8 / 5) * (ln 10 * 5)) with (8 * ln x) by (field; lra).
  lra.
Qed.

(** The floor is [k] when (commits + 1)^8 lies between 10^(5k) and 10^(5(k+1)). *)
Lemma raw_eq (commits : BinNums.N) (k : nat) :
  (10 ^ (5 * Z.of_nat k) <= (Z.of_N commits + 1) ^ 8 < 10 ^ (5 * Z.of_nat (S k)))%Z ->
  raw commits = Z.of_nat k.
Proof.
  intros [Hlo Hhi]. unfold raw. apply Zfloor_eq.
  pose proof (commits_pos commits) as P.
  apply IZR_le in Hlo. apply IZR_lt in Hhi.
  replace (5 * Z.of_nat k)%Z with (Z.of_nat (5 * k)) in Hlo by lia.
  replace (5 * Z.of_nat (S k))%Z with (Z.of_nat (5 * S k)) in Hhi by lia.
  change 8%Z with (Z.of_nat 8) in Hlo, Hhi.
  rewrite <- !pow_IZR in Hlo, Hhi.
  rewrite plus_IZR in Hlo, Hhi.
  rewrite <- INR_IZR_INZ. split.
  - apply log_ge; [lra | exact Hlo].
  - replace (INR k + 1) with (INR (S k)) by (rewrite S_INR; lra).
    apply log_lt; [lra | exact Hhi].
Qed.

Lemma raw_mono (c c' : BinNums.N) : (c <= c')%N -> (raw c <= raw c')%Z.
Proof.
  intros H. unfold raw. apply Zfloor_le.
  pose proof ln10_pos as L. pose proof (commits_pos c) as P.
  assert (Hc : IZR (Z.of_N c) <= IZR (Z.of_N c')) by (apply IZR_le; lia).
  assert (H' : ln (IZR (Z.of_N c) + 1) <= ln (IZR (Z.of_N c') + 1)).
  { destruct Hc as [Hc|Hc]; [left; apply ln_increasing; lra | rewrite Hc; lra]. }
  apply Rmult_le_compat_r; [lra|].
  apply Rmult_le_compat_r; [|exact H']. left. apply Rinv_0_lt_compat. exact L.
Qed.

End DepthExact.

(** C4, as stated, fails at 100000 commits: log10(100001) * 1.6 is a little
    above 8, far from 10. *)
Lemma depth_100000 :
  DepthExact.depth 100000 = Some 8%R /\ (8 <> 10)%R.
Proof.
  split; [|lra].
  rewrite DepthExact.depth_raw, (@DepthExact.raw_eq 100000 8); [reflexivity|].
  vm_compute. split; [discriminate|reflexivity].
Qed.

(** C4 (amended): the depth min(10, max(4, floor(log10(commits + 1) * 1.6)))
    is an integer of [4, 10] that does not decrease when the number of commits
    grows; it is 4 for no commit, 8 (not 10) for 100000 commits, and reaches
    10 from 1778279 commits on. *)
Theorem depth_monotone_bounded (commits more : BinNums.N) :
  exists k k' : Z,
    DepthExact.depth commits = Some (IZR k)
    /\ DepthExact.depth (commits + more) = Some (IZR k')
    /\ (4 <= k <= k')%Z /\ (k' <= 10)%Z
    /\ DepthExact.depth 0 = Some 4%R
    /\ DepthExact.depth 100000 = Some 8%R
    /\ DepthExact.depth 1778278 = Some 9%R
    /\ DepthExact.depth 1778279 = Some 10%R.
Proof.
  exists (Z.min 10 (Z.max 4 (DepthExact.raw commits))),
         (Z.min 10 (Z.max 4 (DepthExact.raw (commits + more)))).
  split; [apply DepthExact.depth_raw|].
  split; [apply DepthExact.depth_raw|].
  assert (Hm : (DepthExact.raw commits <= DepthExact.raw (commits + more))%Z)
    by (apply DepthExact.raw_mono; lia).
  split; [lia|]. split; [lia|].
  assert (H0 : DepthExact.raw 0 = 0%Z).
  { apply (@DepthExact.raw_eq 0%N 0). vm_compute. split; [discriminate|reflexivity]. }
  assert (H1 : DepthExact.raw 100000 = 8%Z).
  { apply (@DepthExact.raw_eq 100000%N 8). vm_compute. split; [discriminate|reflexivity]. }
  assert (H2 : DepthExact.raw 1778278 = 9%Z).
  { apply (@DepthExact.raw_eq 1778278%N 9). vm_compute. split; [discriminate|reflexivity]. }
  assert (H3 : DepthExact.raw 1778279 = 10%Z).
  { apply (@DepthExact.raw_eq 1778279%N 10). vm_compute. split; [discriminate|reflexivity]. }
  rewrite !DepthExact.depth_raw, H0, H1, H2, H3. repeat split.
Qed.

(** ** Determinism of the drawing

    Two runs are compared: they may read different [Math.random] oracles and
    push to different particle arrays.  What the canvas receives and what the
    seeded generator holds never depends on either. *)

Section Determinism.
Context {N : Type} {number : Number N}.

(** Two states with the same canvas trace, the same seeded generator and the
    same number of invocations. *)
Definition same_drawing (w1 w2 : world N) : Prop :=
  ctx w1 = ctx w2 /\ random w1 = random w2 /\ calls w1 = calls w2.

(** Two computations that, from such states, both run out of fuel or both
    return, with the same result and again in such states. *)
Definition agree {A : Type} (m1 m2 : M N A) : Prop :=
  forall w1 w2, same_drawing w1 w2 ->
  match m1 w1, m2 w2 with
  | Some (a1, w1'), Some (a2, w2') => a1 = a2 /\ same_drawing w1' w2'
  | None, None => True
  | _, _ => False
  end.

Lemma agree_ret (A : Type) (a : A) : agree (ret a) (ret a).
Proof. intros w1 w2 H. simpl. auto. Qed.

Lemma agree_diverge (A : Type) : agree (@diverge N A) (@diverge N A).
Proof. intros w1 w2 H. exact I. Qed.

Lemma agree_bind (A B : Type) (m1 m2 : M N A) (k1 k2 : A -> M N B) :
  agree m1 m2 -> (forall a, agree (k1 a) (k2 a)) -> agree (bind m1 k1) (bind m2 k2).
Proof.
  intros Hm Hk w1 w2 H. unfold bind. specialize (Hm w1 w2 H).
  destruct (m1 w1) as [[a1 w1']|], (m2 w2) as [[a2 w2']|]; try contradiction; [|exact I].
  destruct Hm as [-> Hw]. apply Hk, Hw.
Qed.

Lemma agree_emit (ops : list (op N)) : agree (emit ops) (emit ops).
Proof.
  intros w1 w2 (Hc & Hr & Hn). simpl. split; [reflexivity|].
  repeat split; simpl; congruence.
Qed.

Lemma agree_rnd : agree (@rnd N number) (@rnd N number).
Proof.
  intros w1 w2 (Hc & Hr & Hn). unfold rnd. rewrite Hr.
  destruct (SeededRandom.next (random w2)) as [v r]. split; [reflexivity|].
  repeat split; simpl; congruence.
Qed.

Lemma agree_enter : agree (@enter N) (@enter N).
Proof.
  intros w1 w2 (Hc & Hr & Hn). simpl. split; [reflexivity|].
  repeat split; simpl; congruence.
Qed.

Lemma agree_use_random (r : SeededRandom.t) : agree (@use_random N r) (@use_random N r).
Proof.
  intros w1 w2 (Hc & Hr & Hn). simpl. split; [reflexivity|].
  repeat split; simpl; congruence.
Qed.

Lemma agree_push (rand1 rand2 : nat -> N) (x y : N) (color : string) :
  agree (push_particle rand1 x y color) (push_particle rand2 x y color).
Proof.
  intros w1 w2 (Hc & Hr & Hn). unfold push_particle.
  destruct (particles w1), (particles w2); simpl; split; try reflexivity;
    repeat split; simpl; congruence.
Qed.

Lemma agree_for_from (body1 body2 : nat -> M N unit) (n i : nat) :
  (forall j, agree (body1 j) (body2 j)) ->
  agree (for_from i n body1) (for_from i n body2).
Proof.
  intros Hb. revert i. induction n as [|n IH]; intros i; cbn [for_from].
  - apply agree_ret.
  - apply agree_bind; [apply Hb | intros _; apply IH].
Qed.

Lemma agree_for (body1 body2 : nat -> M N unit) (n : nat) :
  (forall j, agree (body1 j) (body2 j)) -> agree (for_ n body1) (for_ n body2).
Proof. apply agree_for_from. Qed.

End Determinism.

Ltac agree_step :=
  first
    [ apply agree_ret
    | apply agree_diverge
    | apply agree_rnd
    | apply agree_emit
    | apply agree_enter
    | apply agree_use_random
    | apply agree_push
    | apply agree_bind; [|intros ?]
    | apply agree_for; intros ?
    | match goal with
      | |- agree (if ?c then _ else _) (if ?c then _ else _) => destruct c
      end ].

Section DeterminismBranch.
Context {N : Type} {number : Number N}.

Lemma drawBranch_agree (rand1 rand2 : nat -> N) (fuel : nat) :
  forall (x y length angle depth maxDepth : N) (color : string) (health : N)
         (metrics : Metrics N),
  agree (drawBranch rand1 fuel x y length angle depth maxDepth color health metrics)
        (drawBranch rand2 fuel x y length angle depth maxDepth color health metrics).
Proof.
  induction fuel as [|fuel IH]; intros; cbn [drawBranch].
  - apply agree_diverge.
  - cbv zeta. repeat agree_step. apply IH.
Qed.

End DeterminismBranch.

(** C1: for a fixed [fullName] and fixed render parameters, two runs of
    [drawBranch], each from a fresh [SeededRandom] seeded with the sum of the
    character codes of [fullName], issue the same canvas calls with the same
    coordinates and angles, leave the generator in the same state and invoke
    [drawBranch] equally often (or both exceed the fuel), whatever
    [Math.random] returns in either run and whatever particle array either run
    is handed: the geometry is a function of the seed and the parameters. *)
Theorem drawBranch_deterministic (N : Type) (number : Number N)
    (rand1 rand2 : nat -> N) (particles1 particles2 : option (list (@Particle.t N)))
    (k1 k2 : nat) (fullName : string) (fuel : nat)
    (x y length angle depth maxDepth : N) (color : string) (health : N)
    (metrics : Metrics N) (trace : list (op N)) :
  let fresh := SeededRandom.new (seed_of fullName) in
  let w1 := {| ctx := trace; random := fresh; particles := particles1;
               randoms := k1; calls := 0 |} in
  let w2 := {| ctx := trace; random := fresh; particles := particles2;
               randoms := k2; calls := 0 |} in
  match drawBranch rand1 fuel x y length angle depth maxDepth color health metrics w1,
        drawBranch rand2 fuel x y length angle depth maxDepth color health metrics w2 with
  | Some (_, w1'), Some (_, w2') =>
      ctx w1' = ctx w2' /\ random w1' = random w2' /\ calls w1' = calls w2'
  | None, None => True
  | _, _ => False
  end.
Proof.
  intros fresh w1 w2.
  pose proof (@drawBranch_agree N number rand1 rand2 fuel x y length angle depth maxDepth
                color health metrics w1 w2) as H.
  assert (Hw : same_drawing w1 w2) by (repeat split).
  specialize (H Hw).
  destruct (drawBranch rand1 fuel x y length angle depth maxDepth color health metrics w1)
    as [[[] w1']|],
    (drawBranch rand2 fuel x y length angle depth maxDepth color health metrics w2)
    as [[[] w2']|]; try contradiction; [|exact I].
  exact (proj2 H).
Qed.

(** ** Termination of the recursion and the number of invocations *)

Section Returns.
Context {N : Type} {number : Number N}.

(** [m] returns from every state, with a result that satisfies [P] and at
    most [c] further invocations of [drawBranch]. *)
Definition returns {A : Type} (c : nat) (P : A -> Prop) (m : M N A) : Prop :=
  forall w, exists a w', m w = Some (a, w') /\ P a /\ calls w' <= calls w + c.

Definition any {A : Type} (a : A) : Prop := True.

Lemma returns_weaken (A : Type) (c c' : nat) (P Q : A -> Prop) (m : M N A) :
  returns c P m -> c <= c' -> (forall a, P a -> Q a) -> returns c' Q m.
Proof.
  intros H Hc HPQ w. destruct (H w) as (a & w' & E & Ha & Hn).
  exists a, w'. repeat split; auto. lia.
Qed.

Lemma returns_ret (A : Type) (a : A) (P : A -> Prop) : P a -> returns 0 P (ret a).
Proof. intros H w. exists a, w. simpl. repeat split; auto. lia. Qed.

Lemma returns_bind (A B : Type) (c1 c2 : nat) (P : A -> Prop) (Q : B -> Prop)
    (m : M N A) (k : A -> M N B) :
  returns c1 P m -> (forall a, P a -> returns c2 Q (k a)) ->
  returns (c1 + c2) Q (bind m k).
Proof.
  intros Hm Hk w. destruct (Hm w) as (a & w1 & E & Ha & Hn).
  destruct (Hk a Ha w1) as (b & w2 & E2 & Hb & Hn2).
  exists b, w2. unfold bind. rewrite E. repeat split; auto. lia.
Qed.

Lemma returns_bind0 (A B : Type) (c : nat) (Q : B -> Prop)
    (m : M N A) (k : A -> M N B) :
  returns 0 any m -> (forall a, returns c Q (k a)) -> returns c Q (bind m k).
Proof. intros Hm Hk. apply (@returns_bind A B 0 c any Q); auto. Qed.

Lemma returns_emit (ops : list (op N)) : returns 0 any (emit ops).
Proof.
  intros w. unfold emit. do 2 eexists. split; [reflexivity|].
  split; [exact I|]. simpl. lia.
Qed.

Lemma returns_rnd : returns 0 any (@rnd N number).
Proof.
  intros w. unfold rnd. destruct (SeededRandom.next (random w)) as [v r].
  do 2 eexists. split; [reflexivity|]. split; [exact I|]. simpl. lia.
Qed.

Lemma returns_enter : returns 1 any (@enter N).
Proof.
  intros w. unfold enter. do 2 eexists. split; [reflexivity|].
  split; [exact I|]. simpl. lia.
Qed.

Lemma returns_push (rand : nat -> N) (x y : N) (color : string) :
  returns 0 any (push_particle rand x y color).
Proof.
  intros w. unfold push_particle. destruct (particles w);
    do 2 eexists; (split; [reflexivity|]); (split; [exact I|]); simpl; lia.
Qed.

Lemma returns_for_from (c : nat) (body : nat -> M N unit) (n i : nat) :
  (forall j, returns c any (body j)) -> returns (n * c) any (for_from i n body).
Proof.
  intros Hb. revert i. induction n as [|n IH]; intros i; cbn [for_from].
  - apply returns_ret. exact I.
  - change (S n * c) with (c + n * c).
    apply (@returns_bind unit unit c (n * c) any any); [apply Hb | intros _ _; apply IH].
Qed.

Lemma returns_for (c : nat) (body : nat -> M N unit) (n : nat) :
  (forall j, returns c any (body j)) -> returns (n * c) any (for_ n body).
Proof. apply returns_for_from. Qed.

Lemma returns_for0 (body : nat -> M N unit) (n : nat) :
  (forall j, returns 0 any (body j)) -> returns 0 any (for_ n body).
Proof.
  intros H. apply returns_weaken with (c := n * 0) (P := any); auto.
  - apply returns_for. exact H.
  - lia.
Qed.

End Returns.

(** Steps that involve no invocation. *)
Ltac returns0 :=
  repeat first
    [ apply returns_rnd
    | apply returns_emit
    | apply returns_push
    | apply returns_ret; exact I
    | apply returns_bind0; [|intros ?]
    | apply returns_for0; intros ?
    | match goal with
      | |- returns 0 _ (if ?c then _ else _) => destruct c
      end ].

Section Termination.
Context {N : Type} {number : Number N}.
Variable Math_random : nat -> N.
Local Open Scope js_scope.

(** The depth of an invocation [k] levels below the first one. *)
Fixpoint depth_at (k : nat) : N :=
  match k with
  | O => num 0
  | S j => depth_at j + num 1
  end.

(** The invocations of a call that is [n] levels above the first depth that
    exceeds [maxDepth], itself at level [k]: two children on the first two
    levels, at most four below. *)
Fixpoint invocations (n k : nat) : nat :=
  match n with
  | O => 1
  | S n' => 1 + (if (k <? 2)%nat then 2 else 4) * invocations n' (S k)
  end.

Variable maxDepth : N.
Variable limit : nat.
Hypothesis beyond_limit : (depth_at limit > maxDepth) = true.
Hypothesis trunk_levels : forall k, (k < 2)%nat -> (depth_at k < num 2) = true.

Lemma drawBranch_returns (n : nat) :
  forall (k fuel : nat) (x y length angle : N) (color : string) (health : N)
         (metrics : Metrics N),
  (k + n = limit)%nat -> (n < fuel)%nat ->
  returns (invocations n k) any
    (drawBranch Math_random fuel x y length angle (depth_at k) maxDepth color health
       metrics).
Proof.
  induction n as [|n IH]; intros k fuel x y length angle color health metrics Hk Hf;
    (destruct fuel as [|fuel]; [lia|]); cbn [drawBranch invocations].
  - replace k with limit by lia. rewrite beyond_limit. cbn [orb].
    change 1%nat with (1 + 0)%nat.
    apply returns_bind with (c1 := 1%nat) (c2 := 0%nat) (P := @any unit);
      [apply returns_enter|].
    intros _ _. apply returns_ret. exact I.
  - apply returns_bind with (c1 := 1%nat) (P := @any unit); [apply returns_enter|].
    intros _ _.
    destruct ((depth_at k > maxDepth) || (length < num 2)).
    { apply returns_weaken with (c := 0%nat) (P := @any unit); auto; [|lia].
      apply returns_ret. exact I. }
    cbv zeta.
    do 8 (apply returns_bind0; [solve [returns0] | intros ?]).
    set (fan := if (k <? 2)%nat then 2%nat else 4%nat).
    replace (fan * invocations n (S k))%nat with (0 + fan * invocations n (S k))%nat by lia.
    apply returns_bind with (c1 := 0%nat) (P := fun b : nat => (b <= fan)%nat).
    + subst fan. destruct (k <? 2)%nat eqn:E.
      * apply Nat.ltb_lt in E. rewrite (trunk_levels E).
        apply returns_ret. lia.
      * destruct (depth_at k < num 2).
        { apply returns_ret. lia. }
        apply returns_bind0; [solve [returns0] | intros ?].
        apply returns_ret.
        repeat match goal with |- context [if ?c then _ else _] => destruct c end; lia.
    + intros b Hb.
      apply returns_weaken with (c := (b * invocations n (S k))%nat) (P := @any unit); auto.
      * apply returns_for. intros j.
        do 2 (apply returns_bind0; [solve [returns0] | intros ?]).
        apply (IH (S k) fuel); lia.
      * apply Nat.mul_le_mono_r. exact Hb.
Qed.

End Termination.

(** The count of invocations stays below a power of four. *)
Lemma invocations_level (n k : nat) : 3 * invocations n k + 1 <= 4 ^ (S n).
Proof.
  revert k. induction n as [|n IH]; intros k; cbn [invocations].
  - simpl. lia.
  - specialize (IH (S k)).
    assert (F : (if (k <? 2)%nat then 2 else 4) <= 4) by (destruct (k <? 2)%nat; lia).
    change (4 ^ S (S n)) with (4 * 4 ^ S n). nia.
Qed.

Lemma invocations_trunk (n : nat) : invocations n 0 <= 4 ^ n.
Proof.
  destruct n as [|[|n]]; [simpl; lia | simpl; lia |].
  cbn [invocations Nat.ltb Nat.leb].
  pose proof (invocations_level n 2) as H.
  change (4 ^ S (S n)) with (4 * (4 * 4 ^ n)).
  change (4 ^ S n) with (4 * 4 ^ n) in H. lia.
Qed.

Section TerminationFloat.
Variable m : Float64.libm.
Local Instance number_t : Number float := Float64.number m.

Lemma trunk_levels_float (k : nat) : (k < 2)%nat -> (depth_at k < num 2)%js = true.
Proof.
  intros H. destruct k as [|[|k]]; [reflexivity | reflexivity | lia].
Qed.

(** An integer bound on [maxDepth] is exceeded one level further down. *)
Lemma beyond_limit_float (M : Z) (maxDepth : float) :
  (-1 <= M <= 10)%Z -> (maxDepth <= of_Z M)%js = true ->
  (depth_at (Z.to_nat (M + 1)) > maxDepth)%js = true.
Proof.
  intros HM H.
  apply (@FloatFacts.leb_ltb_trans maxDepth (of_Z M)); [exact H|].
  assert (C : (M = -1 \/ M = 0 \/ M = 1 \/ M = 2 \/ M = 3 \/ M = 4 \/ M = 5 \/ M = 6
               \/ M = 7 \/ M = 8 \/ M = 9 \/ M = 10)%Z) by lia.
  repeat (destruct C as [->|C]; [vm_compute; reflexivity|]).
  subst M. vm_compute. reflexivity.
Qed.

End TerminationFloat.

(** C5: with [maxDepth] at most an integer M of -1 .. 10, [drawBranch]
    started at depth 0 returns whatever the length, the angle, the state of
    the generator and the other arguments are, provided the nesting may reach
    M + 2 invocations; every invocation that does not return at once calls
    itself at depth + 1, two to four times; an invocation with
    depth > maxDepth or length < 2 returns at once; and the run makes at most
    4^(M+1) invocations. *)
Theorem drawBranch_terminates (m : Float64.libm) (Math_random : nat -> float)
    (M : Z) (maxDepth : float) (fuel : nat) (x y length angle : float)
    (color : string) (health : float) (metrics : Metrics float) (w : world float) :
  (-1 <= M <= 10)%Z ->
  (maxDepth <=? Float64.of_int M)%float = true ->
  (Z.to_nat (M + 2) <= fuel)%nat ->
  let number := Float64.number m in
  (exists w',
      drawBranch Math_random fuel x y length angle (num 0) maxDepth color health metrics w
      = Some (tt, w')
      /\ (Z.of_nat (calls w') <= Z.of_nat (calls w) + 4 ^ (M + 1))%Z)
  /\ (forall (depth len : float) (w0 : world float),
        ((depth > maxDepth) || (len < num 2))%js = true ->
        drawBranch Math_random (S fuel) x y len angle depth maxDepth color health metrics w0
        = enter w0).
Proof.
  intros HM Hmax Hfuel number. split.
  - assert (Hmax' : (maxDepth <= of_Z M)%js = true).
    { replace (@of_Z float number M) with (Float64.of_int M); [exact Hmax|].
      assert (C : (M = -1 \/ M = 0 \/ M = 1 \/ M = 2 \/ M = 3 \/ M = 4 \/ M = 5 \/ M = 6
                   \/ M = 7 \/ M = 8 \/ M = 9 \/ M = 10)%Z) by lia.
      repeat (destruct C as [->|C]; [vm_compute; reflexivity|]).
      subst M. vm_compute. reflexivity. }
    pose proof (@drawBranch_returns float number Math_random maxDepth (Z.to_nat (M + 1))
                  (@beyond_limit_float m M maxDepth HM Hmax') (@trunk_levels_float m)
                  (Z.to_nat (M + 1)) 0%nat fuel x y length angle color health metrics
                  eq_refl ltac:(lia) w) as (a & w' & E & _ & Hc).
    exists w'. destruct a. split; [exact E|].
    pose proof (invocations_trunk (Z.to_nat (M + 1))) as Hb.
    assert (P : (Z.of_nat (4 ^ Z.to_nat (M + 1)) = 4 ^ (M + 1))%Z).
    { rewrite Nat2Z.inj_pow, Z2Nat.id by lia. reflexivity. }
    lia.
  - intros depth len w0 Hg. cbn [drawBranch]. unfold bind at 1.
    cbn [enter]. rewrite Hg. reflexivity.
Qed.

Lemma drawBranch_terminates_witness :
  let number := Float64.number Float64.coarse in
  let metrics := {| commitDensity := Some (num 0.9); ageMultiplier := Some (num 1.5);
                    sizeSpread := Some (num 0.5); windOffset := Some (num 0.01);
                    glowIntensity := Some (num 1) |} in
  let w := {| ctx := []; random := SeededRandom.new 1397; particles := Some [];
              randoms := 0; calls := 0 |} in
  exists w',
    drawBranch (fun _ => num 0.5) 6 (num 550) (num 520) (num 150) (num 0) (num 0) (num 4)
      "#f7df1e" (num 1) metrics w = Some (tt, w')
    /\ (Z.of_nat (calls w') <= 4 ^ 5)%Z.
Proof.
  intros number metrics w.
  destruct (@drawBranch_terminates Float64.coarse (fun _ => num 0.5) 4 (num 4) 6
              (num 550) (num 520) (num 150) (num 0) "#f7df1e" (num 1) metrics w)
    as [(w' & E & Hc) _]; [lia | vm_compute; reflexivity | vm_compute; lia |].
  exists w'. split; [exact E | exact Hc].
Defined.

Module HexFacts.

Local Open Scope Z_scope.

(** [p] holds of the 256 characters. *)
Definition all_ascii (p : ascii -> bool) : bool :=
  forallb (fun n => p (ascii_of_nat n)) (seq 0 256).

Lemma all_ascii_spec (p : ascii -> bool) :
  all_ascii p = true -> forall c, p c = true.
Proof.
  unfold all_ascii. rewrite forallb_forall. intros H c.
  rewrite <- (ascii_nat_embedding c). apply H, in_seq.
  pose proof (nat_ascii_bounded c). lia.
Qed.

Definition pair_parses (c1 c2 : ascii) : bool :=
  match Hex.digit_value c1, Hex.digit_value c2 with
  | Some d1, Some d2 =>
      match Hex.parseInt16 (String c1 (String c2 EmptyString)) with
      | Some z => (z =? 16 * d1 + d2) && (0 <=? d1) && (d1 <=? 15) && (0 <=? d2) && (d2 <=? 15)
      | None => false
      end
  | _, _ => true
  end.

(** Two digits parse to sixteen times the first plus the second. *)
Lemma parse_pair (c1 c2 : ascii) (d1 d2 : Z) :
  Hex.digit_value c1 = Some d1 -> Hex.digit_value c2 = Some d2 ->
  Hex.parseInt16 (String c1 (String c2 EmptyString)) = Some (16 * d1 + d2)
  /\ 0 <= d1 <= 15 /\ 0 <= d2 <= 15.
Proof.
  intros H1 H2.
  assert (A : all_ascii (fun a => all_ascii (fun b => pair_parses a b)) = true)
    by (vm_compute; reflexivity).
  pose proof (all_ascii_spec _ (all_ascii_spec _ A c1) c2) as P.
  unfold pair_parses in P. rewrite H1, H2 in P.
  destruct (Hex.parseInt16 (String c1 (String c2 EmptyString))) as [z|]; [|discriminate].
  rewrite !andb_true_iff in P. destruct P as ((((E & ?) & ?) & ?) & ?).
  apply Z.eqb_eq in E. subst z. split; [reflexivity|]. lia.
Qed.

Definition hex2 (z : Z) : string := Hex.padStart2 (Hex.toString16 z).

Definition prints_two_digits (z : Z) : bool :=
  match hex2 z with
  | String c1 (String c2 EmptyString) =>
      match Hex.digit_value c1, Hex.digit_value c2 with
      | Some d1, Some d2 => (d1 =? z / 16) && (d2 =? z mod 16)
      | _, _ => false
      end
  | _ => false
  end.

(** A channel prints as its two digits. *)
Lemma print_pair (z : Z) :
  0 <= z <= 255 ->
  exists c1 c2, hex2 z = String c1 (String c2 EmptyString)
                /\ Hex.digit_value c1 = Some (z / 16)
                /\ Hex.digit_value c2 = Some (z mod 16).
Proof.
  intros Hz.
  assert (A : all_from 256 0 prints_two_digits = true) by (vm_compute; reflexivity).
  pose proof (@all_from_spec prints_two_digits 256 0 A z ltac:(lia)) as P.
  unfold prints_two_digits in P.
  destruct (hex2 z) as [|c1 [|c2 [|]]]; try (exfalso; exact (diff_false_true P)).
  exists c1, c2. split; [reflexivity|].
  destruct (Hex.digit_value c1) as [d1|], (Hex.digit_value c2) as [d2|];
    try (exfalso; exact (diff_false_true P)).
  apply andb_true_iff in P. destruct P as [E1 E2].
  apply Z.eqb_eq in E1, E2. subst d1 d2. split; reflexivity.
Qed.

(** The channels of a valid colour are three bytes. *)
Lemma valid_channels (hex : string) :
  Hex.valid hex = true ->
  exists r g b,
    Hex.parseInt16 (Hex.slice2 1 hex) = Some r
    /\ Hex.parseInt16 (Hex.slice2 3 hex) = Some g
    /\ Hex.parseInt16 (Hex.slice2 5 hex) = Some b
    /\ 0 <= r <= 255 /\ 0 <= g <= 255 /\ 0 <= b <= 255.
Proof.
  unfold Hex.valid.
  destruct hex as [|c0 [|c1 [|c2 [|c3 [|c4 [|c5 [|c6 [|c7 rest]]]]]]]];
    try (intros H; exfalso; exact (diff_false_true H));
    (destruct (Ascii.eqb_spec c0 "#") as [->|_];
     [|intros H; exfalso; exact (diff_false_true H)]);
    cbn [String.length Nat.eqb andb list_ascii_of_string forallb];
    try (intros H; exfalso; exact (diff_false_true H)).
  destruct (Hex.digit_value c1) as [d1|] eqn:E1;
    [|intros H; exfalso; exact (diff_false_true H)].
  destruct (Hex.digit_value c2) as [d2|] eqn:E2;
    [|intros H; exfalso; exact (diff_false_true H)].
  destruct (Hex.digit_value c3) as [d3|] eqn:E3;
    [|intros H; exfalso; exact (diff_false_true H)].
  destruct (Hex.digit_value c4) as [d4|] eqn:E4;
    [|intros H; exfalso; exact (diff_false_true H)].
  destruct (Hex.digit_value c5) as [d5|] eqn:E5;
    [|intros H; exfalso; exact (diff_false_true H)].
  destruct (Hex.digit_value c6) as [d6|] eqn:E6;
    [|intros H; exfalso; exact (diff_false_true H)].
  intros _.
  destruct (parse_pair _ _ E1 E2) as (P1 & ? & ?).
  destruct (parse_pair _ _ E3 E4) as (P2 & ? & ?).
  destruct (parse_pair _ _ E5 E6) as (P3 & ? & ?).
  exists (16 * d1 + d2), (16 * d3 + d4), (16 * d5 + d6).
  repeat split; try assumption; lia.
Qed.

(** Three printed channels make a valid colour with these channels. *)
Lemma channels_printed (r g b : Z) :
  0 <= r <= 255 -> 0 <= g <= 255 -> 0 <= b <= 255 ->
  Hex.channels ("#" ++ hex2 r ++ hex2 g ++ hex2 b) = Some (r, g, b).
Proof.
  intros Hr Hg Hb.
  destruct (print_pair Hr) as (r1 & r2 & Er & Dr1 & Dr2).
  destruct (print_pair Hg) as (g1 & g2 & Eg & Dg1 & Dg2).
  destruct (print_pair Hb) as (b1 & b2 & Eb & Db1 & Db2).
  rewrite Er, Eg, Eb. unfold Hex.channels, Hex.valid.
  cbn [append String.length Nat.eqb andb list_ascii_of_string forallb Hex.slice2 substring
       Ascii.eqb Bool.eqb].
  rewrite Dr1, Dr2, Dg1, Dg2, Db1, Db2. cbn [andb].
  destruct (parse_pair _ _ Dr1 Dr2) as (-> & _).
  destruct (parse_pair _ _ Dg1 Dg2) as (-> & _).
  destruct (parse_pair _ _ Db1 Db2) as (-> & _).
  pose proof (Z.div_mod r 16). pose proof (Z.div_mod g 16). pose proof (Z.div_mod b 16).
  do 2 f_equal; [f_equal|]; lia.
Qed.

End HexFacts.

Module ColourExact.

Local Open Scope R_scope.
#[local] Existing Instance Exact.number.

Import Exact.

(** The components [hexToHsl] computes from the three channels in [0, 1]. *)
Definition hsl_of (r g b : R) : R * R * R :=
  let max := Rmax (Rmax r g) b in
  let min := Rmin (Rmin r g) b in
  let l := (max + min) / 2 in
  if Reqb max min then (0 * 360, 0 * 100, l * 100)
  else
    let d := max - min in
    let s := if Rltb (1 / 2) l then d / (2 - max - min) else d / (max + min) in
    let h :=
      if Reqb max r then ((g - b) / d + (if Rltb g b then 6 else 0)) / 6
      else if Reqb max g then ((b - r) / d + 2) / 6
      else ((r - g) / d + 4) / 6 in
    (h * 360, s * 100, l * 100).

(** The three numbers [hslToHex] rounds and prints, from the chroma [c], the
    offset [m] and the hue [h]. *)
Definition paint (c m h : R) : R * R * R :=
  let x := c * (1 - Rabs (h / 60 - 2 * IZR (Ztrunc (h / 60 / 2)) - 1)) in
  let '(r, g, b) :=
    if Rltb h 60 then (c, x, 0)
    else if Rltb h 120 then (x, c, 0)
    else if Rltb h 180 then (0, c, x)
    else if Rltb h 240 then (0, x, c)
    else if Rltb h 300 then (x, 0, c)
    else (c, 0, x) in
  ((r + m) * 255, (g + m) * 255, (b + m) * 255).

Definition rgb_of (h s l : R) : R * R * R :=
  let s := s / 100 in
  let l := l / 100 in
  let c := (1 - Rabs (2 * l - 1)) * s in
  let m := l - c / 2 in
  paint c m h.

Lemma Rltb_true (a b : R) : a < b -> Rltb a b = true.
Proof. intros H. unfold Rltb. destruct (Rlt_dec a b); [reflexivity | contradiction]. Qed.

Lemma Rltb_false (a b : R) : b <= a -> Rltb a b = false.
Proof. intros H. unfold Rltb. destruct (Rlt_dec a b); [lra | reflexivity]. Qed.

Lemma Reqb_true (a b : R) : a = b -> Reqb a b = true.
Proof. intros H. unfold Reqb. destruct (Req_dec_T a b); [reflexivity | contradiction]. Qed.

Lemma Reqb_false (a b : R) : a <> b -> Reqb a b = false.
Proof. intros H. unfold Reqb. destruct (Req_dec_T a b); [contradiction | reflexivity]. Qed.


(** The largest of three numbers is one of them and bounds them all. *)
Lemma max3_spec (r g b : R) :
  let max := Rmax (Rmax r g) b in
  (max = r \/ max = g \/ max = b) /\ r <= max /\ g <= max /\ b <= max.
Proof.
  intros max. subst max. unfold Rmax.
  repeat destruct (Rle_dec _ _); repeat split; auto; lra.
Qed.

Lemma min3_spec (r g b : R) :
  let min := Rmin (Rmin r g) b in
  (min = r \/ min = g \/ min = b) /\ min <= r /\ min <= g /\ min <= b.
Proof.
  intros min. subst min. unfold Rmin.
  repeat destruct (Rle_dec _ _); repeat split; auto; lra.
Qed.


Lemma quotient_bounds (a d : R) :
  0 < d -> - d <= a <= d ->
  let t := a / d in t * d = a /\ -1 <= t <= 1.
Proof.
  intros Hd Ha t. assert (E : t * d = a) by (unfold t; field; lra).
  split; [exact E|]. split.
  - apply Rmult_le_reg_r with (r := d); lra.
  - apply Rmult_le_reg_r with (r := d); lra.
Qed.










End ColourExact.

Module ColourExact2.
Import ColourExact.
Local Open Scope R_scope.
#[local] Existing Instance Exact.number.
Import Exact.

Lemma Q2R_Z (z : Z) : Q2R (Qmake z 1) = IZR z.
Proof. unfold Q2R. simpl. field. Qed.

Lemma quotient_nz (a b : R) : b <> 0 -> quotient (Some a) (Some b) = Some (a / b).
Proof.
  intros Hb. unfold quotient.
  destruct (Req_dec_T b 0) as [E|_]; [contradiction | reflexivity].
Qed.

Ltac exact_eval :=
  cbn [num div sub mul add lt rem strict_equal Math_abs Math_max2 Math_min2 Exact.number];
  rewrite ?Q2R_Z;
  repeat (cbn [lift2 lift1 test2]; rewrite ?quotient_nz by lra).

(** What [toHex] prints for a number [v]: the digits of [Math.round(v)]. *)
Definition print (v : R) : string := HexFacts.hex2 (Zfloor (v + / 2)).

Lemma to_integer_IZR (z : Z) : to_integer (Some (IZR z)) = Some z.
Proof.
  unfold to_integer. rewrite ZfloorZ.
  destruct (Req_dec_T (IZR z) (IZR z)); [reflexivity | contradiction].
Qed.

Lemma remainder_2 (a : R) :
  remainder (Some a) (Some 2) = Some (a - 2 * IZR (Ztrunc (a / 2))).
Proof.
  unfold remainder. destruct (Req_dec_T 2 0) as [E|_]; [lra | reflexivity].
Qed.

Lemma toHex_exact (v : R) :
  Hex.padStart2 (toString_16 (Math_round (Some v))) = print v.
Proof.
  unfold toString_16, print, HexFacts.hex2. cbn [Math_round integral Exact.number lift1].
  now rewrite to_integer_IZR.
Qed.

Lemma hslToHex_exact (h s l : R) :
  hslToHex (Some h) (Some s) (Some l) =
  let '(r, g, b) := rgb_of h s l in ("#" ++ print r ++ print g ++ print b)%string.
Proof.
  unfold hslToHex, rgb_of, paint.
  exact_eval. rewrite remainder_2. exact_eval.
  repeat match goal with |- context [Rltb ?a ?b] => destruct (Rltb a b) end;
    cbn [lift2 lift1]; rewrite !toHex_exact; reflexivity.
Qed.

Lemma Q2R_half : Q2R 0.5 = 1 / 2.
Proof. unfold Q2R. simpl. lra. Qed.

Lemma hexToHsl_exact (hex : string) (R_ G_ B_ : Z) :
  Hex.parseInt16 (Hex.slice2 1 hex) = Some R_ ->
  Hex.parseInt16 (Hex.slice2 3 hex) = Some G_ ->
  Hex.parseInt16 (Hex.slice2 5 hex) = Some B_ ->
  (0 <= R_ <= 255)%Z -> (0 <= G_ <= 255)%Z -> (0 <= B_ <= 255)%Z ->
  hexToHsl hex =
  let '(h, s, l) := hsl_of (IZR R_ / 255) (IZR G_ / 255) (IZR B_ / 255) in
  {| h := Some h; s := Some s; l := Some l |}.
Proof.
  intros PR PG PB HR HG HB.
  unfold hexToHsl, parseInt_16, hsl_of, Math_max3, Math_min3, of_Z, inject_Z.
  rewrite PR, PG, PB. cbn [num Exact.number]. rewrite Q2R_half. exact_eval.
  assert (Hr : 0 <= IZR R_ / 255 <= 1).
  { destruct HR as [H0 H1]. apply IZR_le in H0, H1. lra. }
  assert (Hg : 0 <= IZR G_ / 255 <= 1).
  { destruct HG as [H0 H1]. apply IZR_le in H0, H1. lra. }
  assert (Hb : 0 <= IZR B_ / 255 <= 1).
  { destruct HB as [H0 H1]. apply IZR_le in H0, H1. lra. }
  set (r := IZR R_ / 255) in *. set (g := IZR G_ / 255) in *. set (b := IZR B_ / 255) in *.
  destruct (max3_spec r g b) as (Mx & Mr & Mg & Mb).
  destruct (min3_spec r g b) as (Mn & Nr & Ng & Nb).
  set (mx := Rmax (Rmax r g) b) in *. set (mn := Rmin (Rmin r g) b) in *.
  cbv zeta. exact_eval.
  destruct (Req_dec_T mx mn) as [E|NE].
  - rewrite Reqb_true by exact E. reflexivity.
  - rewrite Reqb_false by exact NE.
    assert (Hd : mx - mn <> 0) by lra.
    exact_eval.
    destruct (Rlt_dec (1 / 2) ((mx + mn) / 2)) as [Hl|Hl].
    + rewrite (Rltb_true Hl). exact_eval.
      destruct (Req_dec_T mx r) as [Er|Nr'].
      * rewrite (Reqb_true Er). destruct (Rltb g b); exact_eval; reflexivity.
      * rewrite (Reqb_false Nr').
        destruct (Req_dec_T mx g) as [Eg|Ng'].
        -- rewrite (Reqb_true Eg). exact_eval. reflexivity.
        -- rewrite (Reqb_false Ng'). rewrite Reqb_true by tauto. exact_eval. reflexivity.
    + rewrite (@Rltb_false (1 / 2) ((mx + mn) / 2)) by lra. exact_eval.
      destruct (Req_dec_T mx r) as [Er|Nr'].
      * rewrite (Reqb_true Er). destruct (Rltb g b); exact_eval; reflexivity.
      * rewrite (Reqb_false Nr').
        destruct (Req_dec_T mx g) as [Eg|Ng'].
        -- rewrite (Reqb_true Eg). exact_eval. reflexivity.
        -- rewrite (Reqb_false Ng'). rewrite Reqb_true by tauto. exact_eval. reflexivity.
Qed.



End ColourExact2.



(** ** The colours [adjustSaturation] returns, in exact arithmetic *)

Module ColourRange.

Import Exact ColourExact ColourExact2.
Local Open Scope R_scope.
#[local] Existing Instance Exact.number.

Lemma ratio_unit (a b : R) : 0 <= a <= b -> 0 < b -> 0 <= a / b <= 1.
Proof.
  intros [H0 H1] Hb. split.
  - apply Rmult_le_pos; [exact H0 | left; apply Rinv_0_lt_compat, Hb].
  - apply Rmult_le_reg_r with b; [exact Hb|].
    unfold Rdiv. rewrite Rmult_assoc, Rinv_l by lra. lra.
Qed.

(** The components of a colour: a hue of 0 .. 360, a saturation and a
    lightness of 0 .. 100. *)
Lemma hsl_of_range (r g b : R) :
  0 <= r <= 1 -> 0 <= g <= 1 -> 0 <= b <= 1 ->
  let '(h, s, l) := hsl_of r g b in 0 <= h <= 360 /\ 0 <= s <= 100 /\ 0 <= l <= 100.
Proof.
  intros Hr Hg Hb. unfold hsl_of.
  destruct (max3_spec r g b) as (Mx & Mr & Mg & Mb).
  destruct (min3_spec r g b) as (Mn & Nr & Ng & Nb).
  set (mx := Rmax (Rmax r g) b) in *. set (mn := Rmin (Rmin r g) b) in *.
  cbv zeta.
  assert (Hmx : 0 <= mx <= 1) by (destruct Mx as [->|[->| ->]]; assumption).
  assert (Hmn : 0 <= mn <= 1) by (destruct Mn as [->|[->| ->]]; assumption).
  destruct (Reqb mx mn) eqn:E; [repeat split; lra|].
  assert (NE : mx <> mn).
  { intros C. rewrite (Reqb_true C) in E. discriminate. }
  assert (Hd : 0 < mx - mn) by lra.
  set (d := mx - mn) in *.
  assert (Hs : 0 <= (if Rltb (1 / 2) ((mx + mn) / 2) then d / (2 - mx - mn)
                     else d / (mx + mn)) <= 1).
  { unfold Rltb. destruct (Rlt_dec (1 / 2) ((mx + mn) / 2)) as [Hl|Hl].
    - apply ratio_unit; unfold d; lra.
    - apply ratio_unit; unfold d; lra. }
  assert (Hh : 0 <= (if Reqb mx r then ((g - b) / d + (if Rltb g b then 6 else 0)) / 6
                     else if Reqb mx g then ((b - r) / d + 2) / 6
                     else ((r - g) / d + 4) / 6) <= 1).
  { destruct (Reqb mx r) eqn:Er.
    - assert (Emx : mx = r).
      { unfold Reqb in Er. destruct (Req_dec_T mx r); [assumption | discriminate]. }
      destruct (@quotient_bounds (g - b) d Hd ltac:(unfold d; lra)) as [Ht Bt].
      set (t := (g - b) / d) in *.
      unfold Rltb. destruct (Rlt_dec g b) as [L|L].
      + assert (t < 0) by nra. lra.
      + assert (0 <= t) by nra. lra.
    - destruct (Reqb mx g) eqn:Eg.
      + destruct (@quotient_bounds (b - r) d Hd ltac:(unfold d; lra)) as [Ht Bt].
        set (t := (b - r) / d) in *. lra.
      + destruct (@quotient_bounds (r - g) d Hd ltac:(unfold d; lra)) as [Ht Bt].
        set (t := (r - g) / d) in *. lra. }
  repeat split; lra.
Qed.

(** The triangle wave of [hslToHex] stays in 0 .. 1. *)
Lemma wave_range (a : R) :
  0 <= a -> 0 <= 1 - Rabs (a - 2 * IZR (Ztrunc (a / 2)) - 1) <= 1.
Proof.
  intros Ha. unfold Ztrunc. destruct (Rle_dec 0 (a / 2)) as [_|C]; [|exfalso; lra].
  pose proof (Zfloor_bound (a / 2)) as [L U].
  set (k := IZR (Zfloor (a / 2))) in *.
  assert (H : -1 <= a - 2 * k - 1 <= 1) by lra.
  pose proof (Rabs_pos (a - 2 * k - 1)) as P.
  assert (Q : Rabs (a - 2 * k - 1) <= 1) by (apply Rabs_le; lra).
  lra.
Qed.

Lemma paint_range (c m h : R) :
  0 <= h -> 0 <= c -> 0 <= m -> c + m <= 1 ->
  let '(r, g, b) := paint c m h in
  0 <= r <= 255 /\ 0 <= g <= 255 /\ 0 <= b <= 255.
Proof.
  intros Hh Hc Hm Hcm. unfold paint. cbv zeta.
  assert (Hw : 0 <= 1 - Rabs (h / 60 - 2 * IZR (Ztrunc (h / 60 / 2)) - 1) <= 1)
    by (apply wave_range; lra).
  set (wv := 1 - Rabs (h / 60 - 2 * IZR (Ztrunc (h / 60 / 2)) - 1)) in *.
  assert (Hx : 0 <= c * wv <= c) by nra.
  repeat match goal with |- context [Rltb ?a ?b] => destruct (Rltb a b) end;
    repeat split; lra.
Qed.

Lemma rgb_of_range (h s l : R) :
  0 <= h -> 0 <= s <= 100 -> 0 <= l <= 100 ->
  let '(r, g, b) := rgb_of h s l in
  0 <= r <= 255 /\ 0 <= g <= 255 /\ 0 <= b <= 255.
Proof.
  intros Hh Hs Hl. unfold rgb_of. cbv zeta.
  assert (Ha : 0 <= 1 - Rabs (2 * (l / 100) - 1) <= 1).
  { pose proof (Rabs_pos (2 * (l / 100) - 1)).
    assert (Rabs (2 * (l / 100) - 1) <= 1) by (apply Rabs_le; lra). lra. }
  set (a := 1 - Rabs (2 * (l / 100) - 1)) in *.
  assert (Hc : 0 <= a * (s / 100) <= a) by nra.
  assert (Hlo : a / 2 <= l / 100 /\ l / 100 + a / 2 <= 1).
  { subst a. unfold Rabs. destruct (Rcase_abs (2 * (l / 100) - 1)); lra. }
  apply paint_range; lra.
Qed.

(** A number of 0 .. 255 prints as two digits. *)
Lemma print_byte (v : R) :
  0 <= v <= 255 -> exists z : Z, print v = HexFacts.hex2 z /\ (0 <= z <= 255)%Z.
Proof.
  intros Hv. unfold print. exists (Zfloor (v + / 2)). split; [reflexivity|].
  pose proof (Zfloor_bound (v + / 2)) as [L U]. split.
  - apply Zfloor_lub. simpl. lra.
  - assert (H : IZR (Zfloor (v + / 2)) < IZR 256) by lra. apply lt_IZR in H. lia.
Qed.

Lemma channels_valid (hex : string) (c : Z * Z * Z) :
  Hex.channels hex = Some c -> Hex.valid hex = true.
Proof. unfold Hex.channels. destruct (Hex.valid hex); [reflexivity | discriminate]. Qed.

(** [hslToHex] of a hue that is not negative and of a saturation and a
    lightness of 0 .. 100 is a colour ['#rrggbb']. *)
Lemma hslToHex_valid (h s l : R) :
  0 <= h -> 0 <= s <= 100 -> 0 <= l <= 100 ->
  Hex.valid (hslToHex (Some h) (Some s) (Some l)) = true.
Proof.
  intros Hh Hs Hl. rewrite hslToHex_exact.
  pose proof (rgb_of_range Hh Hs Hl) as H.
  destruct (rgb_of h s l) as [[r g] b]. destruct H as (Hr & Hg & Hb).
  destruct (print_byte Hr) as (zr & -> & Zr).
  destruct (print_byte Hg) as (zg & -> & Zg).
  destruct (print_byte Hb) as (zb & -> & Zb).
  exact (channels_valid _ (HexFacts.channels_printed Zr Zg Zb)).
Qed.

(** [adjustSaturation] of a colour ['#rrggbb'] at a health of 0 .. 1 is such
    a colour. *)
Lemma adjustSaturation_valid (hex : string) (health : R) :
  Hex.valid hex = true -> 0 <= health <= 1 ->
  Hex.valid (adjustSaturation hex (Some health)) = true.
Proof.
  intros V Hh.
  destruct (HexFacts.valid_channels hex V) as (r & g & b & PR & PG & PB & HR & HG & HB).
  unfold adjustSaturation. cbv zeta.
  rewrite (hexToHsl_exact hex PR PG PB HR HG HB).
  assert (Hr : 0 <= IZR r / 255 <= 1).
  { destruct HR as [H0 H1]. apply IZR_le in H0, H1. lra. }
  assert (Hg : 0 <= IZR g / 255 <= 1).
  { destruct HG as [H0 H1]. apply IZR_le in H0, H1. lra. }
  assert (Hb : 0 <= IZR b / 255 <= 1).
  { destruct HB as [H0 H1]. apply IZR_le in H0, H1. lra. }
  pose proof (hsl_of_range Hr Hg Hb) as H.
  destruct (hsl_of (IZR r / 255) (IZR g / 255) (IZR b / 255)) as [[hh ss] ll].
  destruct H as (Hhh & Hss & Hll). cbn [h s l].
  cbn [num add mul Math_min2 Exact.number lift2].
  apply hslToHex_valid; [lra | | lra].
  assert (Hk : 0 <= Q2R 0.3 + health * Q2R 0.7 <= 1).
  { unfold Q2R. simpl. lra. }
  set (k := Q2R 0.3 + health * Q2R 0.7) in *.
  rewrite Q2R_Z. unfold Rmin. destruct (Rle_dec 100 (ss * k)); [lra | nra].
Qed.

(** The base colours. *)
Lemma baseColor_of_valid (language : string) : Hex.valid (baseColor_of language) = true.
Proof.
  assert (T : forallb Hex.valid (map snd LANGUAGE_COLORS) = true) by reflexivity.
  rewrite forallb_forall in T. apply T.
  unfold baseColor_of. destruct (lookup language LANGUAGE_COLORS) as [c|] eqn:E.
  - clear T. revert E. generalize LANGUAGE_COLORS as table. intros table.
    induction table as [|[k v] table IH]; cbn [lookup map snd]; [discriminate|].
    destruct (String.eqb k language).
    + intros E. injection E as ->. left. reflexivity.
    + intros E. right. apply IH, E.
  - right. right. right. right. right. right. right. right. right. right. right. right.
    right. right. right. left. reflexivity.
Qed.

End ColourRange.

(** ** The life of a particle *)

Section Lifecycle.
Context {N : Type} {number : Number N}.
Local Open Scope js_scope.

(** What the three particle classes share: a [life], a [decay], and an
    [update()] that takes [decay] from [life] and answers whether the new
    [life] is positive.  The first argument of [update_of] is the result of
    the one [Math.random] call that [Firefly]'s update makes. *)
Class Kind (A : Type) : Type := {
  life_of : A -> N;
  decay_of : A -> N;
  update_of : N -> A -> A * bool;
  update_of_spec : forall r p,
    life_of (fst (update_of r p)) = life_of p - decay_of p /\
    decay_of (fst (update_of r p)) = decay_of p /\
    snd (update_of r p) = (life_of (fst (update_of r p)) > num 0)
}.

#[local] Instance particle_kind : Kind (@Particle.t N) := {|
  life_of := Particle.life;
  decay_of := Particle.decay;
  update_of := fun _ => Particle.update;
  update_of_spec := fun _ _ => conj eq_refl (conj eq_refl eq_refl)
|}.

#[local] Instance firefly_kind : Kind (@Firefly.t N) := {|
  life_of := Firefly.life;
  decay_of := Firefly.decay;
  update_of := Firefly.update;
  update_of_spec := fun _ _ => conj eq_refl (conj eq_refl eq_refl)
|}.

#[local] Instance leaf_kind : Kind (@FallingLeaf.t N) := {|
  life_of := FallingLeaf.life;
  decay_of := FallingLeaf.decay;
  update_of := fun _ => FallingLeaf.update;
  update_of_spec := fun _ _ => conj eq_refl (conj eq_refl eq_refl)
|}.

Section OneKind.
Context {A : Type} {K : Kind A}.

(** A particle that [renderFrame] may draw. *)
Definition alive (p : A) : Prop := (life_of p > num 0) = true.

(** [survivors old new]: every member of [old] was updated once, and [new]
    holds, in order, the updated members whose [update()] returned [true]. *)
Inductive survivors : list A -> list A -> Prop :=
| survivors_nil : survivors [] []
| survivors_keep (r : N) (p p' : A) (l l' : list A) :
    update_of r p = (p', true) -> survivors l l' -> survivors (p :: l) (p' :: l')
| survivors_drop (r : N) (p p' : A) (l l' : list A) :
    update_of r p = (p', false) -> survivors l l' -> survivors (p :: l) l'.

(** The particle after [n] calls of [update()]; call number [i + 1] reads
    [rs i] from [Math.random]. *)
Fixpoint updates_of (rs : nat -> N) (n : nat) (p : A) : A :=
  match n with
  | O => p
  | S n' => fst (update_of (rs n') (updates_of rs n' p))
  end.

(** What call number [n + 1] of [update()] returns. *)
Definition returned (rs : nat -> N) (p : A) (n : nat) : bool :=
  snd (update_of (rs n) (updates_of rs n p)).

(** Call number [n + 1] is the first one that returns [false]. *)
Definition dies_at (rs : nat -> N) (p : A) (n : nat) : Prop :=
  (forall i, (i < n)%nat -> returned rs p i = true) /\ returned rs p n = false.

(** [life] after [n] calls, from [life] and [decay] alone. *)
Fixpoint life_after (life decay : N) (n : nat) : N :=
  match n with
  | O => life
  | S n' => life_after life decay n' - decay
  end.

Lemma update_alive (r : N) (p p' : A) : update_of r p = (p', true) -> alive p'.
Proof.
  intros E. destruct (update_of_spec r p) as (_ & _ & H).
  rewrite E in H. simpl in H. unfold alive. symmetry. exact H.
Qed.

Lemma update_dead (r : N) (p p' : A) :
  update_of r p = (p', false) -> (life_of p' > num 0) = false.
Proof.
  intros E. destruct (update_of_spec r p) as (_ & _ & H).
  rewrite E in H. simpl in H. symmetry. exact H.
Qed.

Lemma survivors_alive (l l' : list A) : survivors l l' -> Forall alive l'.
Proof.
  induction 1 as [|r p p' l l' E _ IH|r p p' l l' E _ IH]; auto.
  constructor; [exact (update_alive _ _ E) | exact IH].
Qed.

Lemma survivors_length (l l' : list A) :
  survivors l l' -> (List.length l' <= List.length l)%nat.
Proof. induction 1; simpl; lia. Qed.

Lemma filter_update_survivors (r : N) (l : list A) :
  survivors l (filter_update (update_of r) l).
Proof.
  induction l as [|p l IH]; cbn [filter_update]; [constructor|].
  destruct (update_of r p) as [p' [|]] eqn:E.
  - exact (survivors_keep _ _ E IH).
  - exact (survivors_drop _ _ E IH).
Qed.

Lemma decay_updates (rs : nat -> N) (n : nat) (p : A) :
  decay_of (updates_of rs n p) = decay_of p.
Proof.
  induction n as [|n IH]; cbn [updates_of]; [reflexivity|].
  destruct (update_of_spec (rs n) (updates_of rs n p)) as (_ & H & _).
  rewrite H. exact IH.
Qed.

Lemma life_updates (rs : nat -> N) (n : nat) (p : A) :
  life_of (updates_of rs n p) = life_after (life_of p) (decay_of p) n.
Proof.
  induction n as [|n IH]; cbn [updates_of life_after]; [reflexivity|].
  destruct (update_of_spec (rs n) (updates_of rs n p)) as (H & _ & _).
  rewrite H, IH, decay_updates. reflexivity.
Qed.

Lemma returned_life (rs : nat -> N) (p : A) (n : nat) :
  returned rs p n = (life_after (life_of p) (decay_of p) (S n) > num 0).
Proof.
  unfold returned.
  destruct (update_of_spec (rs n) (updates_of rs n p)) as (_ & _ & H).
  rewrite H. change (fst (update_of (rs n) (updates_of rs n p)))
    with (updates_of rs (S n) p).
  rewrite life_updates. reflexivity.
Qed.

End OneKind.

Variable Math_random : nat -> N.

Lemma filter_update_fireflies_survivors (l : list (@Firefly.t N)) :
  forall k, survivors l (fst (filter_update_fireflies Math_random k l)).
Proof.
  induction l as [|f l IH]; intros k; cbn [filter_update_fireflies]; [constructor|].
  destruct (Firefly.update (Math_random k) f) as [f' [|]] eqn:E;
    specialize (IH (S k));
    destruct (filter_update_fireflies Math_random (S k) l) as [rest k']; cbn [fst] in *.
  - exact (@survivors_keep _ firefly_kind _ _ _ _ _ E IH).
  - exact (@survivors_drop _ firefly_kind _ _ _ _ _ E IH).
Qed.

(** [pushes w w']: between [w] and [w'] the particle array has only grown,
    by particles fresh from the constructor. *)
Definition pushes (w w' : world N) : Prop :=
  match particles w with
  | Some ps => exists fresh, particles w' = Some (ps ++ fresh) /\
                             Forall (fun p => Particle.life p = num 1) fresh
  | None => particles w' = None
  end.

Definition grows {A : Type} (m : M N A) : Prop :=
  forall w a w', m w = Some (a, w') -> pushes w w'.

Lemma pushes_refl (w : world N) : pushes w w.
Proof.
  unfold pushes. destruct (particles w) as [ps|]; [|reflexivity].
  exists []. rewrite app_nil_r. split; [reflexivity | constructor].
Qed.

Lemma pushes_same (w w' : world N) : particles w' = particles w -> pushes w w'.
Proof.
  intros E. unfold pushes. destruct (particles w) as [ps|]; [|exact E].
  exists []. rewrite app_nil_r. split; [exact E | constructor].
Qed.

Lemma pushes_trans (w1 w2 w3 : world N) : pushes w1 w2 -> pushes w2 w3 -> pushes w1 w3.
Proof.
  unfold pushes. destruct (particles w1) as [ps|].
  - intros (f1 & E1 & H1). rewrite E1. intros (f2 & E2 & H2).
    exists (f1 ++ f2). rewrite app_assoc. split; [exact E2|].
    apply Forall_app. split; assumption.
  - intros E1. rewrite E1. auto.
Qed.

Lemma grows_ret (A : Type) (a : A) : grows (ret a).
Proof. intros w a' w' E. injection E as _ <-. apply pushes_refl. Qed.

Lemma grows_diverge (A : Type) : grows (@diverge N A).
Proof. intros w a w' E. discriminate E. Qed.

Lemma grows_bind (A B : Type) (m : M N A) (k : A -> M N B) :
  grows m -> (forall a, grows (k a)) -> grows (bind m k).
Proof.
  intros Hm Hk w b w'. unfold bind.
  destruct (m w) as [[a w1]|] eqn:E; [|discriminate].
  intros E2. exact (@pushes_trans _ _ _ (@Hm _ _ _ E) (@Hk _ _ _ _ E2)).
Qed.

Lemma grows_emit (ops : list (op N)) : grows (emit ops).
Proof. intros w a w' E. injection E as _ <-. apply pushes_same. reflexivity. Qed.

Lemma grows_rnd : grows (@rnd N number).
Proof.
  intros w a w'. unfold rnd. destruct (SeededRandom.next (random w)) as [v r].
  intros E. injection E as _ <-. apply pushes_same. reflexivity.
Qed.

Lemma grows_enter : grows (@enter N).
Proof. intros w a w' E. injection E as _ <-. apply pushes_same. reflexivity. Qed.

Lemma grows_use_random (r : SeededRandom.t) : grows (@use_random N r).
Proof. intros w a w' E. injection E as _ <-. apply pushes_same. reflexivity. Qed.

Lemma grows_push (x y : N) (color : string) :
  grows (push_particle Math_random x y color).
Proof.
  intros w a w'. unfold push_particle, pushes.
  destruct (particles w) as [ps|] eqn:Ep; intros E; injection E as _ <-.
  - eexists. split; [reflexivity|]. repeat constructor.
  - exact Ep.
Qed.

Lemma grows_for_from (body : nat -> M N unit) (n i : nat) :
  (forall j, grows (body j)) -> grows (for_from i n body).
Proof.
  intros Hb. revert i. induction n as [|n IH]; intros i; cbn [for_from].
  - apply grows_ret.
  - apply grows_bind; [apply Hb | intros _; apply IH].
Qed.

Lemma grows_for (body : nat -> M N unit) (n : nat) :
  (forall j, grows (body j)) -> grows (for_ n body).
Proof. apply grows_for_from. Qed.

Lemma grows_while_below (bound : N) (body : N -> M N unit) (steps : nat) :
  (forall v, grows (body v)) -> forall i, grows (while_below steps i bound body).
Proof.
  intros Hb. induction steps as [|k IH]; intros i; cbn [while_below].
  - apply grows_ret.
  - destruct (_ < bound); [|apply grows_ret].
    apply grows_bind; [apply Hb | intros _; apply IH].
Qed.

Ltac grows_step :=
  first
    [ apply grows_ret
    | apply grows_diverge
    | apply grows_rnd
    | apply grows_emit
    | apply grows_enter
    | apply grows_use_random
    | apply grows_push
    | apply grows_bind; [|intros ?]
    | apply grows_for; intros ?
    | apply grows_while_below; intros ?
    | match goal with
      | |- grows (if ?c then _ else _) => destruct c
      end ].

Lemma drawBranch_grows (fuel : nat) :
  forall (x y length angle depth maxDepth : N) (color : string) (health : N)
         (metrics : Metrics N),
  grows (drawBranch Math_random fuel x y length angle depth maxDepth color health metrics).
Proof.
  induction fuel as [|fuel IH]; intros; cbn [drawBranch].
  - apply grows_diverge.
  - cbv zeta. repeat grows_step. apply IH.
Qed.

Lemma drawRootTendril_grows (fuel : nat) :
  forall (x y length angle depth maxDepth : N) (color : string) (opacity : N),
  grows (drawRootTendril fuel x y length angle depth maxDepth color opacity).
Proof.
  induction fuel as [|fuel IH]; intros; cbn [drawRootTendril].
  - apply grows_diverge.
  - cbv zeta. repeat grows_step. apply IH.
Qed.

Lemma drawTree_grows (fuel : nat) (width height : Z) (today : N) (data : repo N)
    (progress animationTime : N) :
  grows (drawTree Math_random fuel width height today data progress animationTime).
Proof.
  unfold drawTree, drawRoots, drawAura. cbv zeta.
  repeat first [ apply drawBranch_grows | apply drawRootTendril_grows | grows_step ].
Qed.

(** One frame: what [animateParticles] leaves in the three collections, and
    what it draws. *)
Definition frame (st st' : app N) : Prop :=
  (exists pushed,
     survivors (particlesRef st ++ pushed) (particlesRef st') /\
     Forall (fun p => Particle.life p = num 1) pushed) /\
  (exists kept spawned,
     firefliesRef st' = kept ++ spawned /\ survivors (firefliesRef st) kept /\
     Forall (fun f => Firefly.life f = num 1) spawned) /\
  (exists kept spawned,
     fallingLeavesRef st' = kept ++ spawned /\ survivors (fallingLeavesRef st) kept /\
     Forall (fun f => FallingLeaf.life f = num 1) spawned) /\
  screen st' = rev (renderFrame st') ++ screen st.

Lemma animateParticles_frame (fuel : nat) (input : frame_input N) (st st' : app N) :
  animateParticles Math_random fuel input st = Some st' -> frame st st'.
Proof.
  unfold animateParticles.
  destruct (drawTree _ _ _ _ _ _ _ _ _) as [[u w]|] eqn:Et; [|discriminate].
  apply drawTree_grows in Et. unfold pushes in Et. cbn [particles] in Et.
  destruct Et as (pushed & -> & Hpushed).
  pose proof (filter_update_fireflies_survivors (firefliesRef st) (randoms w)) as Hf.
  destruct (filter_update_fireflies Math_random (randoms w) (firefliesRef st))
    as [fireflies1 k1]. cbn [fst] in Hf.
  pose proof (@filter_update_survivors _ leaf_kind (num 0) (fallingLeavesRef st)) as Hl.
  cbn [update_of leaf_kind] in Hl.
  set (leaves1 := filter_update FallingLeaf.update (fallingLeavesRef st)) in *.
  match goal with
  | |- (let '(fireflies2, k2) := ?e in _) = _ -> _ =>
      assert (Hf2 : exists spawned, fst e = fireflies1 ++ spawned /\
                Forall (fun f => Firefly.life f = num 1) spawned);
      [| destruct e as [fireflies2 k2]; cbn [fst] in Hf2 ]
  end.
  { repeat match goal with
           | |- context [if ?c then _ else _] => destruct c
           end; cbn [fst];
      first [ exists []; rewrite app_nil_r; split; [reflexivity | constructor]
            | eexists; split; [reflexivity | repeat constructor] ]. }
  match goal with
  | |- (let '(leaves2, k3) := ?e in _) = _ -> _ =>
      assert (Hl2 : exists spawned, fst e = leaves1 ++ spawned /\
                Forall (fun f => FallingLeaf.life f = num 1) spawned);
      [| destruct e as [leaves2 k3]; cbn [fst] in Hl2 ]
  end.
  { repeat match goal with
           | |- context [if ?c then _ else _] => destruct c
           end; cbn [fst];
      first [ exists []; rewrite app_nil_r; split; [reflexivity | constructor]
            | eexists; split; [reflexivity | repeat constructor] ]. }
  intros E. injection E as <-.
  destruct Hf2 as (sf & -> & Hsf). destruct Hl2 as (sl & -> & Hsl).
  unfold frame. cbn [particlesRef firefliesRef fallingLeavesRef screen paint_screen].
  split; [|split; [|split]].
  - exists pushed. split; [|exact Hpushed].
    exact (@filter_update_survivors _ particle_kind (num 0) _).
  - exists fireflies1, sf. auto.
  - exists leaves1, sl. auto.
  - reflexivity.
Qed.

(** What a frame paints on the visible canvas: the offscreen image, and one
    [draw()] for each of [particles], [fireflies] and [leaves], in this order. *)
Definition painting (particles : list (@Particle.t N)) (fireflies : list (@Firefly.t N))
    (leaves : list (@FallingLeaf.t N)) : list (op N) :=
  [ drawImage_offscreen; set_globalCompositeOperation "lighter" ]
  ++ flat_map Particle.draw particles
  ++ flat_map Firefly.draw fireflies
  ++ [ set_globalCompositeOperation "source-over" ]
  ++ flat_map FallingLeaf.draw leaves.

(** After a frame every particle of the three collections is alive. *)
Lemma frame_alive (st st' : app N) :
  (num 1 > num 0) = true -> frame st st' ->
  Forall alive (particlesRef st') /\ Forall alive (firefliesRef st') /\
  Forall alive (fallingLeavesRef st').
Proof.
  intros H1 ((pushed & Hp & _) & (kf & sf & Ef & Hkf & Hsf) & (kl & sl & El & Hkl & Hsl) & _).
  split; [exact (survivors_alive Hp)|]. split.
  - rewrite Ef. apply Forall_app. split; [exact (survivors_alive Hkf)|].
    eapply Forall_impl; [|exact Hsf]. intros f Hlife. unfold alive. cbn [life_of firefly_kind].
    rewrite Hlife. exact H1.
  - rewrite El. apply Forall_app. split; [exact (survivors_alive Hkl)|].
    eapply Forall_impl; [|exact Hsl]. intros f Hlife. unfold alive. cbn [life_of leaf_kind].
    rewrite Hlife. exact H1.
Qed.

End Lifecycle.

#[global] Existing Instances particle_kind firefly_kind leaf_kind.

(** *** How long a particle lives, in exact arithmetic *)

Section LifecycleExact.
Local Instance number_x : Number (option R) := Exact.number.
Local Open Scope R_scope.

Lemma positive_exact (x : R) : lt (num 0) (Some x) = Exact.Rltb 0 x.
Proof. cbn [lt num number_x Exact.number Exact.test2]. rewrite ColourExact2.Q2R_Z. reflexivity. Qed.

Lemma life_after_exact (l d : R) (n : nat) :
  life_after (Some l) (Some d) n = Some (l - INR n * d).
Proof.
  induction n as [|n IH]; cbn [life_after].
  - f_equal. simpl. ring.
  - rewrite IH. cbn [sub number_x Exact.number Exact.lift2]. f_equal. rewrite S_INR. ring.
Qed.

(** With a positive [decay], [life] is positive after each of the first [n]
    calls and not after call number [n + 1], for one [n]; [n] is at most [k]
    when [k + 1] decays exhaust the life. *)
Lemma first_nonpositive (d : R) (k : nat) :
  0 < d -> forall l, l <= INR (S k) * d ->
  exists n, (n <= k)%nat /\ (forall i, (i < n)%nat -> 0 < l - INR (S i) * d) /\
            l - INR (S n) * d <= 0.
Proof.
  intros Hd. induction k as [|k IH]; intros l Hl.
  - exists 0%nat. split; [lia|]. split; [intros i Hi; lia|]. simpl in *. lra.
  - destruct (Rle_dec (l - d) 0) as [Hle|Hgt].
    + exists 0%nat. split; [lia|]. split; [intros i Hi; lia|]. simpl. lra.
    + destruct (IH (l - d)) as (n & Hn & Hbefore & Hat).
      { rewrite S_INR in Hl. lra. }
      exists (S n). split; [lia|]. split.
      * intros [|i] Hi; [simpl; lra|].
        specialize (Hbefore i ltac:(lia)). rewrite (S_INR (S i)). lra.
      * rewrite (S_INR (S n)). lra.
Qed.

Lemma dies_exact (A : Type) (K : Kind A) (rs : nat -> option R) (p : A) (l d : R)
    (k : nat) :
  life_of p = Some l -> decay_of p = Some d -> 0 < d -> l <= INR (S k) * d ->
  exists n, (n <= k)%nat /\ dies_at rs p n /\
    (forall i, (i < n)%nat -> exists l', life_of (updates_of rs (S i) p) = Some l' /\ 0 < l') /\
    (exists l', life_of (updates_of rs (S n) p) = Some l' /\ l' <= 0).
Proof.
  intros El Ed Hd Hk.
  destruct (@first_nonpositive d k Hd l Hk) as (n & Hn & Hbefore & Hat).
  exists n. split; [exact Hn|]. unfold dies_at. repeat split.
  - intros i Hi. rewrite returned_life, El, Ed, life_after_exact, positive_exact.
    apply ColourExact.Rltb_true. exact (Hbefore i Hi).
  - rewrite returned_life, El, Ed, life_after_exact, positive_exact.
    apply ColourExact.Rltb_false. exact Hat.
  - intros i Hi. rewrite life_updates, El, Ed, life_after_exact.
    eexists. split; [reflexivity | exact (Hbefore i Hi)].
  - rewrite life_updates, El, Ed, life_after_exact.
    eexists. split; [reflexivity | exact Hat].
Qed.

(** Call number [n + 1] of [update()] is the first that returns [false], and
    the first after which [life <= 0]. *)
Definition expires_at {A : Type} {K : Kind A} (rs : nat -> option R) (p : A) (n : nat)
    : Prop :=
  dies_at rs p n /\
  (forall i, (i < n)%nat ->
     exists l, life_of (updates_of rs (S i) p) = Some l /\ 0 < l) /\
  (exists l, life_of (updates_of rs (S n) p) = Some l /\ l <= 0).

(** What [Math.random] promises. *)
Definition unit_random (rand : nat -> option R) : Prop :=
  forall k, exists r, rand k = Some r /\ 0 <= r < 1.

Lemma Q2R_lit (a : Z) (b : positive) : Q2R (Qmake a b) = IZR a / IZR (Zpos b).
Proof. reflexivity. Qed.

Lemma Particle_new_exact (rand : nat -> option R) (k : nat) (x y : option R)
    (color : string) :
  Particle.life (Particle.new rand k x y color) = Some 1 /\
  Particle.decay (Particle.new rand k x y color) = Some (1 / 100).
Proof.
  cbn [Particle.new Particle.life Particle.decay num number_x Exact.number].
  rewrite !Q2R_lit. split; f_equal; field.
Qed.

Lemma Firefly_new_exact (rand : nat -> option R) (k : nat) (x y : option R)
    (color : string) (b : option Firefly.bounds) :
  unit_random rand ->
  Firefly.life (Firefly.new rand k x y color b) = Some 1 /\
  exists d, Firefly.decay (Firefly.new rand k x y color b) = Some d /\
            2 / 1000 <= d < 4 / 1000.
Proof.
  intros Hr. destruct (Hr (4 + k)%nat) as (r & Er & H0 & H1).
  cbn [Firefly.new Firefly.life Firefly.decay]. rewrite Er.
  cbn [num add mul number_x Exact.number Exact.lift2]. rewrite !Q2R_lit.
  split; [f_equal; field|]. eexists. split; [reflexivity|]. lra.
Qed.

Lemma FallingLeaf_new_exact (rand : nat -> option R) (k : nat) (x y : option R)
    (color : string) :
  unit_random rand ->
  FallingLeaf.life (FallingLeaf.new rand k x y color) = Some 1 /\
  exists d, FallingLeaf.decay (FallingLeaf.new rand k x y color) = Some d /\
            3 / 1000 <= d < 5 / 1000.
Proof.
  intros Hr. destruct (Hr (2 + k)%nat) as (r & Er & H0 & H1).
  cbn [FallingLeaf.new FallingLeaf.life FallingLeaf.decay]. rewrite Er.
  cbn [num add mul number_x Exact.number Exact.lift2]. rewrite !Q2R_lit.
  split; [f_equal; field|]. eexists. split; [reflexivity|]. lra.
Qed.

End LifecycleExact.

(** *** The ambient particle in binary64 *)

Section LifecycleFloat.
Variable m : Float64.libm.
Local Instance number_f : Number float := Float64.number m.

Lemma Particle_lifetime_float (rand rs : nat -> float) (k : nat) (x y : float)
    (color : string) :
  dies_at rs (Particle.new rand k x y color) 99.
Proof.
  assert (H : forallb (fun i => lt (num 0) (life_after (num 1) (num 0.01) (S i)))
                (seq 0 99) = true) by (vm_compute; reflexivity).
  rewrite forallb_forall in H.
  split; [intros i Hi|]; rewrite returned_life;
    cbn [life_of decay_of particle_kind Particle.new Particle.life Particle.decay].
  - apply H. apply in_seq. lia.
  - vm_compute. reflexivity.
Qed.

End LifecycleFloat.

(** A state of the component with a dying and a living member in two of the
    collections, and the readings of one frame. *)
Definition a_particle (life : float) : @Particle.t float :=
  {| Particle.x := 500; Particle.y := 300; Particle.vx := 0.125; Particle.vy := -0.25;
     Particle.life := life; Particle.decay := Float64.literal 0.01; Particle.size := 2;
     Particle.color := "#701516" |}%float.

Definition a_leaf (life : float) : @FallingLeaf.t float :=
  {| FallingLeaf.x := 500; FallingLeaf.y := 300; FallingLeaf.vx := 0.125;
     FallingLeaf.vy := 0.5; FallingLeaf.life := life;
     FallingLeaf.decay := Float64.literal 0.004; FallingLeaf.size := 3;
     FallingLeaf.color := "#701516"; FallingLeaf.rotation := 0;
     FallingLeaf.rotationSpeed := 0.015625; FallingLeaf.swayPhase := 0;
     FallingLeaf.swaySpeed := 0.03125 |}%float.

Definition a_state : app float :=
  let number := Float64.number Float64.coarse in
  {| repoData := {| name := "abandoned-repo"; fullName := "user/abandoned-repo";
                    language := "Ruby"; lastPush := num 1591789500000;
                    commitCount := Some (num 234); size := Some (num 1200);
                    stars := Some (num 45); forks := Some (num 12);
                    age := Some (num 7.9) |};
     selectedRepo := 3; customRepos := []; isAnimating := false;
     growthProgress := 1%float; growthProgressRef := 1%float;
     lastRenderedProgressRef := 1%float;
     particlesRef := [a_particle 0.0078125; a_particle 0.5];
     firefliesRef := [];
     fallingLeavesRef := [a_leaf 0.00390625; a_leaf 0.25];
     animationTimeRef := 0%float; lastFrameTimeRef := 0%float;
     width := 800; height := 600; offscreen := []; screen := []; randoms_made := 0 |}.

Definition a_frame : frame_input float :=
  {| performance_now := 16%float; date_frame := Float64.of_int a_date;
     date_tree := Float64.of_int a_date |}.

(** C9: the life of a particle.  (1) In every frame that [animateParticles]
    completes, each of the three collections is what the update-then-filter
    step leaves of it: every member was updated once, the ones whose
    [update()] returned [false] are gone in that same frame, the others stay
    (the ambient particles after the ones [drawBranch] pushed in this frame,
    fireflies and leaves followed by at most the one spawned in this frame);
    the frame draws these collections, and each of their members has
    [life > 0].  (2) In exact arithmetic, with [Math.random] in the unit
    interval, a particle fresh from its constructor has one call of
    [update()] that returns [false], which is the first call after which
    [life <= 0]: call 100 for [Particle], a call up to 500 for [Firefly], up
    to 334 for [FallingLeaf]; once removed it is not updated again.  (3) In
    binary64 the ambient [Particle] also dies on call 100. *)
Theorem particle_lifecycle :
  (forall (N : Type) (number : Number N) (Math_random : nat -> N) (fuel : nat)
          (input : frame_input N) (st st' : app N),
     lt (num 0) (num 1) = true ->
     animateParticles Math_random fuel input st = Some st' ->
     frame st st' /\
     exists particles fireflies leaves,
       particlesRef st' = particles /\ firefliesRef st' = fireflies /\
       fallingLeavesRef st' = leaves /\
       Forall alive particles /\ Forall alive fireflies /\ Forall alive leaves /\
       screen st' = (rev (painting particles fireflies leaves) ++ screen st)%list) /\
  (forall (rand rs : nat -> option R) (k : nat) (x y : option R) (color : string)
          (b : option (@Firefly.bounds (option R))),
     let number := Exact.number in
     unit_random rand ->
     expires_at rs (Particle.new rand k x y color) 99 /\
     (exists n, (n < 500)%nat /\ expires_at rs (Firefly.new rand k x y color b) n) /\
     (exists n, (n < 334)%nat /\ expires_at rs (FallingLeaf.new rand k x y color) n)) /\
  (forall (m : Float64.libm) (rand rs : nat -> float) (k : nat) (x y : float)
          (color : string),
     let number := Float64.number m in
     dies_at rs (Particle.new rand k x y color) 99).
Proof.
  split; [|split].
  - intros N number Math_random fuel input st st' H1 E.
    pose proof (animateParticles_frame _ _ _ _ E) as Hf.
    split; [exact Hf|].
    destruct (frame_alive H1 Hf) as (Ap & Af & Al).
    exists (particlesRef st'), (firefliesRef st'), (fallingLeavesRef st').
    repeat (split; [first [reflexivity | assumption]|]).
    destruct Hf as (_ & _ & _ & Hs). exact Hs.
  - intros rand rs k x y color b number Hr. split; [|split].
    + destruct (Particle_new_exact rand k x y color) as (El & Ed).
      destruct (@dies_exact _ particle_kind rs _ 1%R (1 / 100)%R 99 El Ed)
        as (n & Hn & Hdies & Hbefore & l' & El' & Hl'); [lra | |].
      { rewrite INR_IZR_INZ. change (Z.of_nat 100) with 100%Z. lra. }
      assert (n = 99%nat) as ->;
        [|split; [exact Hdies|]; split; [exact Hbefore|]; exists l'; split; assumption].
      destruct (Nat.eq_dec n 99) as [|Hne]; [assumption|exfalso].
      rewrite life_updates in El'. cbn [life_of decay_of particle_kind] in El'.
      rewrite El, Ed, life_after_exact in El'.
      assert (Hl : (1 - INR (S n) * (1 / 100) <= 0)%R) by congruence.
      assert (Hs : (INR (S n) <= INR 99)%R) by (apply le_INR; lia).
      rewrite (INR_IZR_INZ 99) in Hs. change (Z.of_nat 99) with 99%Z in Hs. lra.
    + destruct (Firefly_new_exact k x y color b Hr) as (El & d & Ed & Hd).
      destruct (@dies_exact _ firefly_kind rs _ 1%R d 499 El Ed)
        as (n & Hn & H); [lra | |].
      { rewrite INR_IZR_INZ. change (Z.of_nat 500) with 500%Z. lra. }
      exists n. split; [lia | exact H].
    + destruct (FallingLeaf_new_exact k x y color Hr) as (El & d & Ed & Hd).
      destruct (@dies_exact _ leaf_kind rs _ 1%R d 333 El Ed)
        as (n & Hn & H); [lra | |].
      { rewrite INR_IZR_INZ. change (Z.of_nat 334) with 334%Z. lra. }
      exists n. split; [lia | exact H].
  - intros m rand rs k x y color number. apply Particle_lifetime_float.
Qed.

Lemma particle_lifecycle_witness :
  let number := Float64.number Float64.coarse in
  exists st',
    animateParticles (fun _ => 0%float) 12 a_frame a_state = Some st' /\
    map Particle.life (particlesRef st') = [sub 0.5%float (num 0.01)] /\
    map FallingLeaf.life (fallingLeavesRef st') = [sub 0.25%float (num 0.004); 1%float] /\
    Forall alive (particlesRef st') /\ Forall alive (fallingLeavesRef st') /\
    screen st'
    = rev (painting (particlesRef st') (firefliesRef st') (fallingLeavesRef st')).
Proof.
  intros number.
  assert (E : exists st',
            animateParticles (fun _ => 0%float) 12 a_frame a_state = Some st' /\
            map Particle.life (particlesRef st') = [sub 0.5%float (num 0.01)] /\
            map FallingLeaf.life (fallingLeavesRef st') = [sub 0.25%float (num 0.004); 1%float]).
  { vm_compute. eexists. split; [reflexivity|]. split; reflexivity. }
  destruct E as (st' & E & Hp & Hl). exists st'.
  split; [exact E|]. split; [exact Hp|]. split; [exact Hl|].
  destruct (proj1 particle_lifecycle float number (fun _ => 0%float) 12%nat a_frame
              a_state st' eq_refl E)
    as (_ & ps & fs & ls & <- & <- & <- & Ap & _ & Al & Hs).
  split; [exact Ap|]. split; [exact Al|].
  rewrite Hs. cbn [a_state screen]. apply app_nil_r.
Defined.

(** ** Switching the repository *)

Section Switch.
Context {N : Type} {number : Number N}.
Variable Math_random : nat -> N.
Local Open Scope js_scope.

(** The first frame after the frame loop has been restarted. *)
Lemma restart_frame_loop_frame (fuel : nat) (now : N) (input : frame_input N)
    (st st' : app N) :
  restart_frame_loop Math_random fuel now input st = Some st' ->
  frame st st' /\
  animationTimeRef st' = num 0 + (performance_now input - now) /\
  lastFrameTimeRef st' = performance_now input.
Proof.
  unfold restart_frame_loop. intros E. split.
  - exact (animateParticles_frame _ _ _ _ E).
  - revert E. unfold animateParticles.
    destruct (drawTree _ _ _ _ _ _ _ _ _) as [[u w]|]; [|discriminate].
    destruct (filter_update_fireflies _ _ _) as [fireflies1 k1].
    match goal with |- (let '(_, _) := ?e in _) = _ -> _ => destruct e end.
    match goal with |- (let '(_, _) := ?e in _) = _ -> _ => destruct e end.
    intros E. injection E as <-. split; reflexivity.
Qed.

Lemma loadRepo_resets (index : nat) (isCustom : bool) (st st' : app N) :
  loadRepo index isCustom st = Some st' ->
  particlesRef st' = [] /\ firefliesRef st' = [] /\ fallingLeavesRef st' = [] /\
  growthProgress st' = num 0 /\ growthProgressRef st' = num 0 /\
  isAnimating st' = true /\
  nth_error (if isCustom then customRepos st else MOCK_REPOS) index = Some (repoData st').
Proof.
  unfold loadRepo.
  destruct (nth_error _ index) as [repo|]; [|discriminate].
  intros E. injection E as <-. repeat split.
Qed.

Lemma findIndex_nth (fullName_ : string) (l : list (repo N)) :
  forall i j, findIndex fullName_ l i = Some j ->
  exists r, nth_error l (j - i) = Some r /\ fullName r = fullName_ /\ (i <= j)%nat.
Proof.
  induction l as [|r l IH]; intros i j; cbn [findIndex]; [discriminate|].
  destruct (String.eqb_spec (fullName r) fullName_) as [E|_].
  - intros H. injection H as <-. exists r. rewrite Nat.sub_diag. auto.
  - intros H. destruct (IH _ _ H) as (r' & Hn & Hf & Hle).
    exists r'. replace (j - i)%nat with (S (j - S i)) by lia. cbn [nth_error].
    repeat split; auto. lia.
Qed.

End Switch.

(** A firefly of the tree on display, and a repository that is not yet among
    the custom ones. *)
Definition a_firefly : @Firefly.t float :=
  {| Firefly.x := 500; Firefly.y := 300; Firefly.baseX := 500; Firefly.baseY := 300;
     Firefly.bounds_ := None; Firefly.angle := 0; Firefly.speed := 0.5;
     Firefly.wobble := 0; Firefly.wobbleSpeed := 0.03125; Firefly.life := 0.5;
     Firefly.decay := 0.00390625; Firefly.size := 2; Firefly.color := "#f7df1e";
     Firefly.glowPhase := 0 |}%float.

Definition a_state_with_fireflies : app float :=
  {| repoData := repoData a_state; selectedRepo := 0; customRepos := [];
     isAnimating := false; growthProgress := 1%float; growthProgressRef := 1%float;
     lastRenderedProgressRef := 1%float;
     particlesRef := [a_particle 0.5]; firefliesRef := [a_firefly];
     fallingLeavesRef := [a_leaf 0.25];
     animationTimeRef := 5000%float; lastFrameTimeRef := 5000%float;
     width := 800; height := 600; offscreen := []; screen := []; randoms_made := 0 |}.

Definition a_fetched_repo : repo float :=
  let number := Float64.number Float64.coarse in
  {| name := "hello"; fullName := "octocat/hello"; language := "Go";
     lastPush := Float64.of_int a_date; commitCount := Some (num 40);
     size := Some (num 300); stars := Some (num 7); forks := Some (num 2);
     age := Some (num 1.5) |}.

(** C8, as the code has it: [loadRepo] empties all three collections, and
    so does [handleLoadCustomRepo] for a repository that is already among the
    custom ones; for a new repository [handleLoadCustomRepo] resets the growth
    progress and empties the ambient particles only.  The fireflies and the
    falling leaves of the previous repository stay, and the first frame of
    the restarted loop updates them and draws the ones that are still alive
    over the new tree. *)
Theorem handleLoadCustomRepo_keeps_fireflies (N : Type) (number : Number N)
    (Math_random : nat -> N) (fuel : nat) (now : N) (input : frame_input N)
    (fetched : repo N) (st : app N) :
  findIndex (fullName fetched) (customRepos st) 0 = None ->
  exists st1,
    handleLoadCustomRepo fetched st = Some st1 /\
    repoData st1 = fetched /\
    growthProgress st1 = num 0 /\ growthProgressRef st1 = num 0 /\
    particlesRef st1 = [] /\
    firefliesRef st1 = firefliesRef st /\
    fallingLeavesRef st1 = fallingLeavesRef st /\
    forall st2, restart_frame_loop Math_random fuel now input st1 = Some st2 ->
      (exists kept spawned, firefliesRef st2 = kept ++ spawned /\
                            survivors (firefliesRef st) kept) /\
      (exists kept spawned, fallingLeavesRef st2 = kept ++ spawned /\
                            survivors (fallingLeavesRef st) kept) /\
      screen st2 = rev (renderFrame st2) ++ screen st.
Proof.
  intros Hnew. unfold handleLoadCustomRepo. rewrite Hnew.
  eexists. split; [reflexivity|]. cbn.
  repeat (split; [reflexivity|]).
  intros st2 E. apply restart_frame_loop_frame in E.
  destruct E as ((_ & (kf & sf & Ef & Hf & _) & (kl & sl & El & Hl & _) & Es) & _).
  cbn in Ef, Hf, El, Hl, Es.
  split; [exists kf, sf; split; assumption|].
  split; [exists kl, sl; split; assumption|]. exact Es.
Qed.

Lemma handleLoadCustomRepo_keeps_fireflies_witness :
  let number := Float64.number Float64.coarse in
  findIndex (fullName a_fetched_repo) (customRepos a_state_with_fireflies) 0 = None /\
  exists st1 st2,
    handleLoadCustomRepo a_fetched_repo a_state_with_fireflies = Some st1 /\
    restart_frame_loop (fun _ => 0.5%float) 12 6000%float a_frame st1 = Some st2 /\
    map Firefly.life (firefliesRef st2) = [sub 0.5%float 0.00390625%float] /\
    map FallingLeaf.life (fallingLeavesRef st2)
      = [sub 0.25%float (Float64.literal 0.004)] /\
    particlesRef st2 = [] /\
    (exists kept spawned, firefliesRef st2 = kept ++ spawned /\
                          survivors (firefliesRef a_state_with_fireflies) kept).
Proof.
  intros number. split; [reflexivity|].
  destruct (@handleLoadCustomRepo_keeps_fireflies float number (fun _ => 0.5%float) 12
              6000%float a_frame a_fetched_repo a_state_with_fireflies eq_refl)
    as (st1 & E1 & _ & _ & _ & _ & _ & _ & Hframe).
  assert (E2 : exists st2,
            restart_frame_loop (fun _ => 0.5%float) 12 6000%float a_frame st1 = Some st2 /\
            map Firefly.life (firefliesRef st2) = [sub 0.5%float 0.00390625%float] /\
            map FallingLeaf.life (fallingLeavesRef st2)
              = [sub 0.25%float (Float64.literal 0.004)] /\
            particlesRef st2 = []).
  { vm_compute in E1. injection E1 as <-. vm_compute.
    eexists. repeat split; reflexivity. }
  destruct E2 as (st2 & E2 & Hf & Hl & Hp).
  exists st1, st2. repeat (split; [assumption|]).
  exact (proj1 (Hframe st2 E2)).
Defined.

(** ** [drawTree] returns when [maxDepth] is a number *)

Section TreeReturns.
Context {N : Type} {number : Number N}.
Variable Math_random : nat -> N.
Local Open Scope js_scope.

Hypothesis trunk_levels : forall k, (k < 2)%nat -> (depth_at k < num 2) = true.
Hypothesis root_levels : (depth_at 4 > num 3) = true.

Lemma returns_while_below (bound : N) (body : N -> M N unit) (steps : nat) :
  (forall v, returns 0 any (body v)) ->
  forall i, returns 0 any (while_below steps i bound body).
Proof.
  intros Hb. induction steps as [|k IH]; intros i; cbn [while_below].
  - apply returns_ret. exact I.
  - destruct (_ < bound); [|apply returns_ret; exact I].
    apply returns_bind0; [apply Hb | intros _; apply IH].
Qed.

Lemma returns_use_random (r : SeededRandom.t) : returns 0 any (@use_random N r).
Proof.
  intros w. unfold use_random. do 2 eexists. split; [reflexivity|].
  split; [exact I|]. simpl. lia.
Qed.

(** The root tendrils stop below depth 3, whatever their length. *)
Lemma drawRootTendril_returns (n : nat) :
  forall (k fuel : nat) (x y length angle : N) (color : string) (opacity : N),
  (k + n = 4)%nat -> (n < fuel)%nat ->
  returns 0 any
    (drawRootTendril fuel x y length angle (depth_at k) (num 3) color opacity).
Proof.
  induction n as [|n IH]; intros k fuel x y length angle color opacity Hk Hf;
    (destruct fuel as [|fuel]; [lia|]); cbn [drawRootTendril].
  - replace k with 4%nat by lia. rewrite root_levels. cbn [orb].
    apply returns_ret. exact I.
  - destruct ((depth_at k > num 3) || (length < num 5)); [apply returns_ret; exact I|].
    cbv zeta.
    do 5 (apply returns_bind0; [solve [returns0] | intros ?]).
    apply returns_for0. intros j.
    do 2 (apply returns_bind0; [solve [returns0] | intros ?]).
    apply (IH (S k) fuel); lia.
Qed.

Lemma drawRoots_returns (x y forkCount : N) (color : string) (health : N) :
  returns 0 any (drawRoots x y forkCount color health).
Proof.
  unfold drawRoots. cbv zeta.
  apply returns_bind0; [apply returns_emit | intros _].
  apply returns_bind0; [|intros _; apply returns_emit].
  apply returns_while_below. intros v.
  do 2 (apply returns_bind0; [apply returns_rnd | intros ?]).
  apply (@drawRootTendril_returns 4 0 5); lia.
Qed.

Lemma drawAura_returns (centerX centerY starCount : N) (color : string)
    (breathingFactor : N) :
  returns 0 any (drawAura centerX centerY starCount color breathingFactor).
Proof. unfold drawAura. returns0. Qed.

(** [drawTree] returns, after at most [invocations (S limit') 0] invocations of
    [drawBranch], when the depth counter exceeds [maxDepth] at level
    [S limit']. *)
Lemma drawTree_returns (fuel limit : nat) (width height : Z) (today : N)
    (data : repo N) (progress animationTime : N) :
  (depth_at limit > rp_maxDepth (renderParams today data progress animationTime)) = true ->
  (limit < fuel)%nat ->
  returns (invocations limit 0) any
    (drawTree Math_random fuel width height today data progress animationTime).
Proof.
  intros Hlimit Hfuel. unfold drawTree. cbv zeta.
  do 5 (apply returns_bind0;
        [solve [returns0 | apply returns_use_random
               | destruct (_ && _); [apply drawAura_returns | apply returns_ret; exact I]]
        | intros ?]).
  replace (invocations limit 0) with (invocations limit 0 + 0)%nat by lia.
  apply returns_bind with (P := @any unit).
  - destruct (progress > num 0).
    + apply (@drawBranch_returns N number Math_random _ limit Hlimit trunk_levels limit 0);
        lia.
    + apply returns_weaken with (c := 0%nat) (P := @any unit); auto; [|lia].
      apply returns_ret. exact I.
  - intros _ _.
    apply returns_bind0; [apply returns_emit | intros _].
    destruct (_ && _); [|apply returns_ret; exact I].
    apply returns_bind0; [apply returns_use_random | intros _].
    apply drawRoots_returns.
Qed.

End TreeReturns.

(** ** The metrics and the render parameters, in exact arithmetic *)

Module MetricsExact.

Import Exact.
Local Open Scope R_scope.
#[local] Existing Instance Exact.number.

(** A metric as a well-formed response carries it: absent, NaN, or a number
    that is not negative. *)
Definition plausible (v : option (option R)) : Prop :=
  match v with
  | Some (Some r) => 0 <= r
  | _ => True
  end.

(** A number between [lo] and [hi]. *)
Definition within (lo hi : R) (v : option R) : Prop :=
  exists r, v = Some r /\ lo <= r <= hi.

Lemma num_Z (z : Z) : num (Qmake z 1) = Some (IZR z).
Proof. cbn [num Exact.number]. rewrite ColourExact2.Q2R_Z. reflexivity. Qed.

Lemma or_default_exact (v : option (option R)) (d : R) :
  or_default v (Some d)
  = match v with
    | Some (Some r) => if Req_dec_T r 0 then Some d else Some r
    | _ => Some d
    end.
Proof.
  destruct v as [[r|]|]; [|reflexivity|reflexivity].
  unfold or_default, truthy.
  cbn [strict_equal num Exact.number test2]. rewrite ColourExact2.Q2R_Z.
  destruct (Req_dec_T r 0) as [E|E].
  - rewrite ColourExact.Reqb_true by exact E. reflexivity.
  - rewrite ColourExact.Reqb_false by exact E.
    rewrite ColourExact.Reqb_true by reflexivity. reflexivity.
Qed.

(** [v || d] of a plausible metric is a number, positive when [d] is. *)
Lemma or_default_plausible (v : option (option R)) (d : R) :
  plausible v -> 0 <= d ->
  exists r, or_default v (Some d) = Some r /\ 0 <= r /\ (0 < d -> 0 < r).
Proof.
  intros Hv Hd. rewrite or_default_exact.
  destruct v as [[r|]|]; cbn [plausible] in Hv.
  - destruct (Req_dec_T r 0) as [E|E].
    + exists d. auto.
    + exists r. repeat split; auto. intros _. lra.
  - exists d. auto.
  - exists d. auto.
Qed.

Lemma log10_plus_1 (c : R) :
  0 <= c ->
  Math_log10 (Some c + num 1)%js = Some (ln (c + 1) / ln 10) /\
  0 <= ln (c + 1) / ln 10.
Proof.
  intros Hc. rewrite num_Z. cbn [add Math_log10 Exact.number lift2 log10].
  destruct (Rlt_dec 0 (c + 1)) as [_|H]; [|lra].
  split; [reflexivity|].
  pose proof DepthExact.ln10_pos as L.
  assert (0 <= ln (c + 1)).
  { destruct (Req_dec_T c 0) as [->|Hn].
    - rewrite Rplus_0_l, ln_1. lra.
    - rewrite <- ln_1. left. apply ln_increasing; lra. }
  apply Rmult_le_pos; [assumption|]. left. apply Rinv_0_lt_compat. exact L.
Qed.

Lemma commitDensity_of_range (c : R) :
  0 <= c -> within 0 1 (commitDensity_of (Some c)).
Proof.
  intros Hc. unfold commitDensity_of.
  destruct (log10_plus_1 Hc) as (-> & Hl).
  rewrite !num_Z. rewrite ColourExact2.quotient_nz by lra.
  cbn [Math_min2 Exact.number lift2]. eexists. split; [reflexivity|].
  unfold Rmin. destruct (Rle_dec _ _); lra.
Qed.

Lemma sizeSpread_of_range (s : R) :
  0 <= s -> within 0 1 (sizeSpread_of (Some s)).
Proof. exact (@commitDensity_of_range s). Qed.


Lemma baseTrunkLength_of_range (s : R) :
  0 <= s -> within 100 180 (baseTrunkLength_of (Some s)).
Proof.
  intros Hs. unfold baseTrunkLength_of.
  destruct (log10_plus_1 Hs) as (-> & Hl).
  rewrite !num_Z. cbn [Math_min2 add mul Exact.number lift2].
  eexists. split; [reflexivity|].
  unfold Rmin. destruct (Rle_dec _ _); lra.
Qed.

Lemma maxDepth_of_range (c : R) :
  0 <= c -> exists k : Z, maxDepth_of (Some c) = Some (IZR k) /\ (4 <= k <= 10)%Z.
Proof.
  intros Hc. unfold maxDepth_of.
  destruct (log10_plus_1 Hc) as (-> & Hl).
  rewrite !num_Z. cbn [Math_min2 Math_max2 Math_floor mul num Exact.number lift1 lift2].
  rewrite DepthExact.Rmax_IZR, DepthExact.Rmin_IZR.
  eexists. split; [reflexivity|]. lia.
Qed.

Lemma depth_at_exact (k : nat) : depth_at k = Some (INR k).
Proof.
  induction k as [|k IH]; cbn [depth_at].
  - rewrite num_Z. reflexivity.
  - rewrite IH, num_Z, S_INR. reflexivity.
Qed.

Lemma trunk_levels_exact (k : nat) : (k < 2)%nat -> (depth_at k < num 2)%js = true.
Proof.
  intros H. rewrite depth_at_exact, num_Z. cbn [lt Exact.number test2].
  apply ColourExact.Rltb_true.
  destruct k as [|[|k]]; [simpl; lra | simpl; lra | lia].
Qed.

Lemma root_levels_exact : (depth_at 4 > num 3)%js = true.
Proof.
  rewrite depth_at_exact, num_Z. cbn [lt Exact.number test2].
  apply ColourExact.Rltb_true. simpl. lra.
Qed.

Lemma beyond_limit_exact (k : Z) :
  (k <= 10)%Z -> (depth_at 11 > Some (IZR k))%js = true.
Proof.
  intros H. rewrite depth_at_exact. cbn [lt Exact.number test2].
  apply ColourExact.Rltb_true. apply IZR_le in H.
  rewrite INR_IZR_INZ. change (Z.of_nat 11) with 11%Z. lra.
Qed.

End MetricsExact.



(** The abandoned repository of [MOCK_REPOS] with its stars missing, forks
    that are NaN and an age of zero. *)
Definition a_sparse_repo : repo (option R) :=
  {| name := "abandoned-repo"; fullName := "user/abandoned-repo"; language := "Ruby";
     lastPush := Some 1591789500000%R; commitCount := Some (Some 234%R);
     size := Some (Some 1200%R); stars := None; forks := Some None;
     age := Some (Some 0%R) |}.

(** ** Switching the repository *)

Section SwitchClears.
Context {N : Type} {number : Number N}.

Lemma survivors_of_nil (A : Type) (K : Kind A) (l : list A) : survivors [] l -> l = [].
Proof. intros H. inversion H. reflexivity. Qed.

End SwitchClears.

(** X2: [loadRepo] empties the three collections and resets the growth
    progress;
    the frame loop, restarted for the new repository, resets the animation
    clock, and after its first frame the collections hold nothing of the
    previous repository: the fireflies and the falling leaves are fresh from
    their constructors, the ambient particles are the updated ones among
    those that [drawBranch] pushed in this frame. *)
Theorem loadRepo_clears_collections (N : Type) (number : Number N)
    (Math_random : nat -> N) (fuel : nat) (now : N) (input : frame_input N)
    (index : nat) (isCustom : bool) (st st1 : app N) :
  loadRepo index isCustom st = Some st1 ->
  particlesRef st1 = [] /\ firefliesRef st1 = [] /\ fallingLeavesRef st1 = [] /\
  growthProgress st1 = num 0 /\ growthProgressRef st1 = num 0 /\
  isAnimating st1 = true /\
  nth_error (if isCustom then customRepos st else MOCK_REPOS) index
    = Some (repoData st1) /\
  forall st2, restart_frame_loop Math_random fuel now input st1 = Some st2 ->
    animationTimeRef st2 = add (num 0) (sub (performance_now input) now) /\
    (exists pushed, survivors pushed (particlesRef st2) /\
                    Forall (fun p => Particle.life p = num 1) pushed) /\
    Forall (fun f => Firefly.life f = num 1) (firefliesRef st2) /\
    Forall (fun f => FallingLeaf.life f = num 1) (fallingLeavesRef st2).
Proof.
  intros E. destruct (loadRepo_resets _ _ _ E) as (Hp & Hf & Hl & Hg & Hr & Ha & Hn).
  repeat (split; [assumption|]).
  intros st2 E2. apply restart_frame_loop_frame in E2.
  destruct E2 as (((pushed & Hsp & Hpushed) & (kf & sf & Ef & Hkf & Hsf)
                   & (kl & sl & El & Hkl & Hsl) & _) & Ht & _).
  rewrite Hp in Hsp. rewrite Hf in Hkf. rewrite Hl in Hkl.
  apply survivors_of_nil in Hkf. apply survivors_of_nil in Hkl. subst kf kl.
  split; [exact Ht|]. split; [exists pushed; split; assumption|].
  rewrite Ef, El. split; assumption.
Qed.

Lemma loadRepo_clears_collections_witness :
  let number := Float64.number Float64.coarse in
  exists st1 st2,
    loadRepo 3 false a_state_with_fireflies = Some st1 /\
    restart_frame_loop (fun _ => 0.5%float) 12 6000%float a_frame st1 = Some st2 /\
    particlesRef st1 = [] /\ firefliesRef st1 = [] /\ fallingLeavesRef st1 = [] /\
    Forall (fun f => Firefly.life f = num 1) (firefliesRef st2) /\
    Forall (fun f => FallingLeaf.life f = num 1) (fallingLeavesRef st2).
Proof.
  intros number.
  assert (E1 : exists st1, loadRepo 3 false a_state_with_fireflies = Some st1)
    by (vm_compute; eexists; reflexivity).
  destruct E1 as (st1 & E1).
  assert (E2 : exists st2,
            restart_frame_loop (fun _ => 0.5%float) 12 6000%float a_frame st1 = Some st2).
  { pose proof E1 as E. vm_compute in E. injection E as <-. vm_compute.
    eexists. reflexivity. }
  destruct E2 as (st2 & E2). exists st1, st2.
  destruct (@loadRepo_clears_collections float number (fun _ => 0.5%float) 12 6000%float
              a_frame 3 false a_state_with_fireflies st1 E1)
    as (Hp & Hf & Hl & _ & _ & _ & _ & Hframe).
  destruct (Hframe st2 E2) as (_ & _ & Hf2 & Hl2).
  repeat (split; [assumption|]). exact Hl2.
Defined.

(** The state above once the fetched repository has been added. *)
Definition loadRepo_custom_state : app float :=
  {| repoData := a_fetched_repo; selectedRepo := -1; customRepos := [a_fetched_repo];
     isAnimating := false; growthProgress := 1%float; growthProgressRef := 1%float;
     lastRenderedProgressRef := 1%float;
     particlesRef := [a_particle 0.5]; firefliesRef := [a_firefly];
     fallingLeavesRef := [a_leaf 0.25];
     animationTimeRef := 5000%float; lastFrameTimeRef := 5000%float;
     width := 800; height := 600; offscreen := []; screen := []; randoms_made := 0 |}.

Section Existing.
Context {N : Type} {number : Number N}.

(** [findIndex] finds the first repository of a full name that the list
    holds. *)
Lemma findIndex_first (fullName_ : string) (l : list (repo N)) :
  In fullName_ (map (@fullName N) l) ->
  forall i, exists j r,
    findIndex fullName_ l i = Some (i + j)%nat /\
    nth_error l j = Some r /\ fullName r = fullName_ /\
    forall k r', (k < j)%nat -> nth_error l k = Some r' -> fullName r' <> fullName_.
Proof.
  induction l as [|r l IH]; intros H i; [destruct H|]. cbn [findIndex].
  destruct (String.eqb_spec (fullName r) fullName_) as [E|Hne].
  - exists 0%nat, r. rewrite Nat.add_0_r. repeat split; auto. intros k r' Hk. lia.
  - destruct H as [H|H]; [contradiction|].
    destruct (IH H (S i)) as (j & r0 & Ef & En & Er & Hfirst).
    exists (S j), r0. replace (i + S j)%nat with (S i + j)%nat by lia.
    repeat split; auto.
    intros [|k] r' Hk Hr'; cbn [nth_error] in Hr'.
    + injection Hr' as <-. exact Hne.
    + apply (Hfirst k r'); [lia | exact Hr'].
Qed.

End Existing.

(** X3: a repository that is fetched again is not stored again, and what was
    fetched is dropped.  When the full name of the fetched repository is
    among the custom ones, [handleLoadCustomRepo] is [loadRepo] at the first
    index [i] with that full name: the repository on display is the one
    stored there (with the counts of the time it was stored, not the ones
    just fetched), the list of custom repositories is as it was, the three
    collections are empty and [selectedRepo] is -1. *)
Theorem handleLoadCustomRepo_existing (N : Type) (number : Number N)
    (fetched : repo N) (st : app N) :
  In (fullName fetched) (map (@fullName N) (customRepos st)) ->
  exists (i : nat) (stored : repo N) (st' : app N),
    nth_error (customRepos st) i = Some stored /\
    fullName stored = fullName fetched /\
    (forall k r, (k < i)%nat -> nth_error (customRepos st) k = Some r ->
                 fullName r <> fullName fetched) /\
    handleLoadCustomRepo fetched st = loadRepo i true st /\
    handleLoadCustomRepo fetched st = Some st' /\
    repoData st' = stored /\ customRepos st' = customRepos st /\
    selectedRepo st' = (-1)%Z /\
    particlesRef st' = [] /\ firefliesRef st' = [] /\ fallingLeavesRef st' = [].
Proof.
  intros H.
  destruct (findIndex_first _ _ H 0) as (i & stored & Ef & En & Er & Hfirst).
  cbn [Nat.add] in Ef.
  exists i, stored. unfold handleLoadCustomRepo. rewrite Ef.
  unfold loadRepo. rewrite En. eexists. repeat split; auto.
Qed.

(** The repository of the state above as a new fetch brings it, with more
    stars. *)
Definition a_fetched_repo_again : repo float :=
  {| name := name a_fetched_repo; fullName := fullName a_fetched_repo;
     language := language a_fetched_repo; lastPush := lastPush a_fetched_repo;
     commitCount := commitCount a_fetched_repo; size := size a_fetched_repo;
     stars := Some 1000000%float; forks := forks a_fetched_repo;
     age := age a_fetched_repo |}.

Lemma handleLoadCustomRepo_existing_witness :
  let number := Float64.number Float64.coarse in
  exists st',
    handleLoadCustomRepo a_fetched_repo_again loadRepo_custom_state = Some st' /\
    repoData st' = a_fetched_repo /\ customRepos st' = [a_fetched_repo] /\
    firefliesRef st' = [].
Proof.
  intros number.
  destruct (@handleLoadCustomRepo_existing float number a_fetched_repo_again
              loadRepo_custom_state (or_introl eq_refl))
    as (i & stored & st' & En & _ & _ & _ & E & Hd & Hc & _ & _ & Hf & _).
  exists st'. split; [exact E|]. split; [|split; [exact Hc | exact Hf]].
  rewrite Hd. destruct i as [|[|i]]; cbn in En; [injection En as <-; reflexivity | |];
    discriminate En.
Defined.

(** ** The whole tree is a function of the repository *)

Section DeterminismTree.
Context {N : Type} {number : Number N}.

Lemma agree_while_below (bound : N) (body1 body2 : N -> M N unit) (steps : nat) :
  (forall v, agree (body1 v) (body2 v)) ->
  forall i, agree (while_below steps i bound body1) (while_below steps i bound body2).
Proof.
  intros Hb. induction steps as [|k IH]; intros i; cbn [while_below].
  - apply agree_ret.
  - destruct (lt _ bound); [|apply agree_ret].
    apply agree_bind; [apply Hb | intros _; apply IH].
Qed.

Lemma drawRootTendril_agree (fuel : nat) :
  forall (x y length angle depth maxDepth : N) (color : string) (opacity : N),
  agree (drawRootTendril fuel x y length angle depth maxDepth color opacity)
        (drawRootTendril fuel x y length angle depth maxDepth color opacity).
Proof.
  induction fuel as [|fuel IH]; intros; cbn [drawRootTendril].
  - apply agree_diverge.
  - cbv zeta. repeat agree_step. apply IH.
Qed.

Lemma drawTree_agree (rand1 rand2 : nat -> N) (fuel : nat) (width height : Z)
    (today : N) (data : repo N) (progress animationTime : N) :
  agree (drawTree rand1 fuel width height today data progress animationTime)
        (drawTree rand2 fuel width height today data progress animationTime).
Proof.
  unfold drawTree, drawRoots, drawAura. cbv zeta.
  repeat first [ apply drawBranch_agree | apply drawRootTendril_agree
               | apply agree_while_below; intros ? | agree_step ].
Qed.

End DeterminismTree.

(** X4: the offscreen tree is a function of the repository, the progress, the
    animation time and the date: two runs of [drawTree] that start from the
    same canvas issue the same canvas calls (or both exceed the nesting they
    are allowed), whatever [Math.random] returns in either run and whatever
    particle array either run is handed. *)
Theorem drawTree_deterministic (N : Type) (number : Number N)
    (rand1 rand2 : nat -> N) (particles1 particles2 : option (list (@Particle.t N)))
    (k1 k2 : nat) (fuel : nat) (width height : Z) (today : N) (data : repo N)
    (progress animationTime : N) (trace : list (op N)) (generator : SeededRandom.t) :
  let w1 := {| ctx := trace; random := generator; particles := particles1;
               randoms := k1; calls := 0 |} in
  let w2 := {| ctx := trace; random := generator; particles := particles2;
               randoms := k2; calls := 0 |} in
  match drawTree rand1 fuel width height today data progress animationTime w1,
        drawTree rand2 fuel width height today data progress animationTime w2 with
  | Some (_, w1'), Some (_, w2') => ctx w1' = ctx w2' /\ calls w1' = calls w2'
  | None, None => True
  | _, _ => False
  end.
Proof.
  intros w1 w2.
  pose proof (@drawTree_agree N number rand1 rand2 fuel width height today data progress
                animationTime w1 w2) as H.
  assert (Hw : same_drawing w1 w2) by (repeat split).
  specialize (H Hw).
  destruct (drawTree rand1 fuel width height today data progress animationTime w1)
    as [[[] w1']|],
    (drawTree rand2 fuel width height today data progress animationTime w2)
    as [[[] w2']|]; try contradiction; [|exact I].
  destruct H as (_ & Hc & _ & Hn). split; assumption.
Qed.

(** X5: in binary64 the colours of [LANGUAGE_COLORS], the only ones that
    [adjustSaturation] is applied to, come back unchanged from
    [hslToHex (hexToHsl c)], and [adjustSaturation] at full health returns
    them unchanged. *)
Theorem palette_roundtrip_float (m : Float64.libm) :
  let number := Float64.number m in
  Forall (fun entry =>
            let c := snd entry in
            let t := hexToHsl c in
            hslToHex (h t) (s t) (l t) = c /\ adjustSaturation c (num 1) = c)
    LANGUAGE_COLORS.
Proof.
  intros number.
  assert (H : forallb (fun entry =>
                let c := snd entry in
                let t := hexToHsl c in
                String.eqb (hslToHex (h t) (s t) (l t)) c
                && String.eqb (adjustSaturation c (num 1)) c) LANGUAGE_COLORS = true)
    by (vm_compute; reflexivity).
  rewrite forallb_forall in H. apply Forall_forall. intros entry Hin.
  specialize (H entry Hin). cbv zeta in *.
  apply andb_true_iff in H. destruct H as [H1 H2].
  apply String.eqb_eq in H1. apply String.eqb_eq in H2. split; assumption.
Qed.

(** ** The regular expressions of the program

    The patterns of [parseGitHubUrl] and [fetchGitHubRepo] are sequences of
    characters, character classes, greedy repetitions of a class, capturing
    groups and the anchors.  A string is the list of its code units, which
    are taken to be below 256. *)

Module Regex.

Inductive atom : Type :=
| Lit (c : ascii)               (* a character *)
| Set_ (p : ascii -> bool)      (* a class, one character *)
| Many1 (p : ascii -> bool)     (* class+, greedy *)
| Open                          (* ( *)
| Close                         (* ) *)
| Bos                           (* ^ *)
| Eos.                          (* $ *)

(** The characters of a string, one [Lit] each. *)
Definition lits (s : string) : list atom := map Lit (list_ascii_of_string s).

(** The upper-case form of an ASCII letter; the canonical form that the
    flag [i] compares.  No code unit of 128 .. 255 has an ASCII letter as its
    canonical form. *)
Definition upper (c : ascii) : ascii :=
  let n := nat_of_ascii c in
  if ((97 <=? n) && (n <=? 122))%nat then ascii_of_nat (n - 32) else c.

(** Whether the input character [d] matches the pattern character [c]. *)
Definition same (ignoreCase : bool) (c d : ascii) : bool :=
  if ignoreCase then Ascii.eqb (upper c) (upper d) else Ascii.eqb c d.

(** [\s] on code units below 256: TAB, LF, VT, FF, CR, the space and the
    no-break space. *)
Definition space (c : ascii) : bool :=
  let n := nat_of_ascii c in
  (((9 <=? n) && (n <=? 13)) || (n =? 32) || (n =? 160))%nat.

(** [\d] *)
Definition digit (c : ascii) : bool :=
  let n := nat_of_ascii c in ((48 <=? n) && (n <=? 57))%nat.

(** The outcome of a match: the captures, in the order of their groups, and
    the input that follows the match. *)
Definition outcome : Type := (list (list ascii) * list ascii)%type.

(** The greedy repetition, one character already taken: as many more as it
    can, then one fewer each time the continuation [k] fails. *)
Fixpoint many (p : ascii -> bool) (k : list ascii -> list ascii -> option outcome)
    (s cur : list ascii) : option outcome :=
  match s with
  | e :: s' =>
      if p e then
        match many p k s' (e :: cur) with
        | Some r => Some r
        | None => k s cur
        end
      else k s cur
  | [] => k s cur
  end.

(** The backtracking matcher at one position of the input.  [at0] tells
    whether the position is the start of the input, [cur] holds, latest
    first, the characters taken since the last [(], [caps] the captures of
    the groups closed so far. *)
Fixpoint exec (ignoreCase : bool) (re : list atom) (s : list ascii) (at0 : bool)
    (cur : list ascii) (caps : list (list ascii)) {struct re} : option outcome :=
  match re with
  | [] => Some (caps, s)
  | Lit c :: re' =>
      match s with
      | d :: s' => if same ignoreCase c d then exec ignoreCase re' s' false (d :: cur) caps
                   else None
      | [] => None
      end
  | Set_ p :: re' =>
      match s with
      | d :: s' => if p d then exec ignoreCase re' s' false (d :: cur) caps else None
      | [] => None
      end
  | Many1 p :: re' =>
      match s with
      | d :: s' =>
          if p d
          then many p (fun t cur' => exec ignoreCase re' t false cur' caps) s' (d :: cur)
          else None
      | [] => None
      end
  | Open :: re' => exec ignoreCase re' s at0 [] caps
  | Close :: re' => exec ignoreCase re' s at0 [] (caps ++ [rev cur])
  | Bos :: re' => if at0 then exec ignoreCase re' s at0 cur caps else None
  | Eos :: re' =>
      match s with
      | [] => exec ignoreCase re' s at0 cur caps
      | _ :: _ => None
      end
  end.

(** The first match, from the leftmost position that has one: the input
    before the match, the captures, the input after the match. *)
Fixpoint search_from (ignoreCase : bool) (re : list atom) (s : list ascii) (at0 : bool)
    (skipped : list ascii) : option (list ascii * outcome) :=
  match exec ignoreCase re s at0 [] [] with
  | Some r => Some (rev skipped, r)
  | None =>
      match s with
      | c :: s' => search_from ignoreCase re s' false (c :: skipped)
      | [] => None
      end
  end.

Definition search (ignoreCase : bool) (re : list atom) (s : list ascii)
    : option (list ascii * outcome) :=
  search_from ignoreCase re s true [].

(** [s.match(re)] for a pattern without the flag [g]: the captures of the
    first match, [None] for [null]. *)
Definition match_ (ignoreCase : bool) (re : list atom) (s : list ascii)
    : option (list (list ascii)) :=
  match search ignoreCase re s with
  | Some (_, (caps, _)) => Some caps
  | None => None
  end.

(** [s.replace(re, '')] for a pattern without the flag [g]. *)
Definition remove_first (re : list atom) (s : list ascii) : list ascii :=
  match search false re s with
  | Some (before, (_, after)) => before ++ after
  | None => s
  end.

(** [s.split(re)[0]] for a pattern that matches one character: the input
    before the first match, all of it when there is none. *)
Definition split_0 (re : list atom) (s : list ascii) : list ascii :=
  match search false re s with
  | Some (before, _) => before
  | None => s
  end.

End Regex.

(** ** [parseGitHubUrl] *)

Module Url.

Import Regex.

Definition not_slash (c : ascii) : bool := negb (Ascii.eqb c "/").
Definition not_slash_space (c : ascii) : bool := negb (Ascii.eqb c "/") && negb (space c).
Definition query_or_hash (c : ascii) : bool := Ascii.eqb c "?" || Ascii.eqb c "#".

(** [/github\.com\/([^\/]+)\/([^\/\s]+)/i] *)
Definition github_url : list atom :=
  lits "github.com/" ++ [Open; Many1 not_slash; Close; Lit "/";
                         Open; Many1 not_slash_space; Close].

(** [/^([^\/\s]+)\/([^\/\s]+)$/] *)
Definition owner_repo : list atom :=
  [Bos; Open; Many1 not_slash_space; Close; Lit "/";
   Open; Many1 not_slash_space; Close; Eos].

(** [/\.git$/], [/[?#]/] and [/\/$/] *)
Definition dot_git_end : list atom := lits ".git" ++ [Eos].
Definition separator : list atom := [Set_ query_or_hash].
Definition slash_end : list atom := [Lit "/"; Eos].

(** What becomes of [match[2]]. *)
Definition repo_name (m2 : list ascii) : list ascii :=
  remove_first slash_end (split_0 separator (remove_first dot_git_end m2)).

(** The body of the loop for one pattern. *)
Definition try_pattern (ignoreCase : bool) (pattern : list atom) (url : list ascii)
    : option (list ascii * list ascii) :=
  match match_ ignoreCase pattern url with
  | Some (owner :: m2 :: _) => Some (owner, repo_name m2)
  | _ => None
  end.

(** [parseGitHubUrl(url)]: the owner and the repository, [None] for [null]. *)
Definition parseGitHubUrl (url : string) : option (string * string) :=
  let u := list_ascii_of_string url in
  match
    match try_pattern true github_url u with
    | Some r => Some r
    | None => try_pattern false owner_repo u
    end
  with
  | Some (owner, repo) => Some (string_of_list_ascii owner, string_of_list_ascii repo)
  | None => None
  end.

End Url.

Module RegexFacts.

Import Regex.

Lemma many_longest (p : ascii -> bool)
    (k : list ascii -> list ascii -> option outcome) (r : outcome) (run : list ascii) :
  forall (s cur : list ascii),
  forallb p run = true ->
  k s (rev run ++ cur) = Some r ->
  match s with e :: _ => p e = false | [] => True end ->
  many p k (run ++ s) cur = Some r.
Proof.
  induction run as [|e run IH]; intros s cur Hrun Hk Hs.
  - cbn [List.app rev] in *. destruct s as [|c s]; cbn [many]; [exact Hk|].
    rewrite Hs. exact Hk.
  - cbn [forallb] in Hrun. apply andb_true_iff in Hrun. destruct Hrun as [He Hrun].
    cbn [List.app many]. rewrite He.
    rewrite (IH s (e :: cur) Hrun); [reflexivity | | exact Hs].
    cbn [rev] in Hk. rewrite <- app_assoc in Hk. exact Hk.
Qed.

Lemma many_sound (p : ascii -> bool)
    (k : list ascii -> list ascii -> option outcome) (r : outcome) :
  forall (s cur : list ascii),
  many p k s cur = Some r ->
  exists run rest, s = run ++ rest /\ forallb p run = true /\
                   k rest (rev run ++ cur) = Some r.
Proof.
  intros s; induction s as [|e s IH]; intros cur H; cbn [many] in H.
  - exists [], []. auto.
  - destruct (p e) eqn:He.
    + destruct (many p k s (e :: cur)) as [r0|] eqn:E.
      * injection H as ->. destruct (IH _ E) as (run & rest & -> & Hrun & Hk).
        exists (e :: run), rest. cbn [forallb rev List.app]. rewrite He, Hrun, <- app_assoc.
        auto.
      * exists [], (e :: s). auto.
    + exists [], (e :: s). auto.
Qed.

(** The steps of the matcher, one atom at a time. *)
Lemma exec_Open (i : bool) (re : list atom) (s : list ascii) (at0 : bool)
    (cur : list ascii) (caps : list (list ascii)) :
  exec i (Open :: re) s at0 cur caps = exec i re s at0 [] caps.
Proof. reflexivity. Qed.

Lemma exec_Close (i : bool) (re : list atom) (s : list ascii) (at0 : bool)
    (cur : list ascii) (caps : list (list ascii)) :
  exec i (Close :: re) s at0 cur caps = exec i re s at0 [] (caps ++ [rev cur]).
Proof. reflexivity. Qed.

Lemma exec_Lit (i : bool) (c : ascii) (re : list atom) (s : list ascii) (at0 : bool)
    (cur : list ascii) (caps : list (list ascii)) :
  exec i (Lit c :: re) s at0 cur caps
  = match s with
    | d :: s' => if same i c d then exec i re s' false (d :: cur) caps else None
    | [] => None
    end.
Proof. reflexivity. Qed.

Lemma exec_Eos (i : bool) (re : list atom) (s : list ascii) (at0 : bool)
    (cur : list ascii) (caps : list (list ascii)) :
  exec i (Eos :: re) s at0 cur caps
  = match s with
    | [] => exec i re s at0 cur caps
    | _ :: _ => None
    end.
Proof. reflexivity. Qed.

Lemma exec_nil (i : bool) (s : list ascii) (at0 : bool) (cur : list ascii)
    (caps : list (list ascii)) :
  exec i [] s at0 cur caps = Some (caps, s).
Proof. reflexivity. Qed.

(** A repetition followed by what fails outside its class takes a run that
    is not empty. *)
Lemma exec_many1_sound (i : bool) (p : ascii -> bool) (re : list atom) (s : list ascii)
    (at0 : bool) (cur : list ascii) (caps : list (list ascii)) (r : outcome) :
  exec i (Many1 p :: re) s at0 cur caps = Some r ->
  exists run rest, s = run ++ rest /\ run <> [] /\ forallb p run = true /\
                   exec i re rest false (rev run ++ cur) caps = Some r.
Proof.
  cbn [exec]. destruct s as [|d s]; [discriminate|].
  destruct (p d) eqn:Hd; [|discriminate]. intros H.
  apply many_sound in H. destruct H as (run & rest & -> & Hrun & Hk).
  exists (d :: run), rest. cbn [forallb rev List.app]. rewrite Hd, Hrun, <- app_assoc.
  repeat split; auto. discriminate.
Qed.

Lemma exec_many1_longest (i : bool) (p : ascii -> bool) (re : list atom)
    (run s : list ascii) (at0 : bool) (cur : list ascii) (caps : list (list ascii))
    (r : outcome) :
  run <> [] -> forallb p run = true ->
  match s with e :: _ => p e = false | [] => True end ->
  exec i re s false (rev run ++ cur) caps = Some r ->
  exec i (Many1 p :: re) (run ++ s) at0 cur caps = Some r.
Proof.
  intros Hne Hrun Hs Hk. destruct run as [|d run]; [contradiction|].
  cbn [forallb] in Hrun. apply andb_true_iff in Hrun. destruct Hrun as [Hd Hrun].
  cbn [exec List.app]. rewrite Hd.
  apply many_longest; auto. cbn [rev] in Hk. rewrite <- app_assoc in Hk. exact Hk.
Qed.

(** Two texts that the literal characters of a pattern take for the same. *)
Fixpoint alike (i : bool) (l t : list ascii) : bool :=
  match l, t with
  | [], [] => true
  | c :: l', d :: t' => same i c d && alike i l' t'
  | _, _ => false
  end.

Lemma exec_lits (i : bool) (l : list ascii) (re : list atom) :
  forall (t s : list ascii) (at0 : bool) (cur : list ascii) (caps : list (list ascii)),
  l <> [] -> alike i l t = true ->
  exec i (map Lit l ++ re) (t ++ s) at0 cur caps = exec i re s false (rev t ++ cur) caps.
Proof.
  induction l as [|c l IH]; intros t s at0 cur caps Hne H; [contradiction|].
  destruct t as [|d t]; [discriminate|].
  cbn [alike] in H. apply andb_true_iff in H. destruct H as [Hc H].
  cbn [map List.app exec]. rewrite Hc.
  destruct l as [|c' l].
  - destruct t; [|discriminate]. reflexivity.
  - rewrite (IH t s false (d :: cur) caps); [|discriminate|exact H].
    cbn [rev]. rewrite <- app_assoc. reflexivity.
Qed.

Lemma exec_lits_sound (i : bool) (l : list ascii) (re : list atom) (r : outcome) :
  forall (s : list ascii) (at0 : bool) (cur : list ascii) (caps : list (list ascii)),
  exec i (map Lit l ++ re) s at0 cur caps = Some r ->
  exists t rest, s = t ++ rest /\ alike i l t = true /\
    exec i re rest (match l with [] => at0 | _ => false end) (rev t ++ cur) caps = Some r.
Proof.
  induction l as [|c l IH]; intros s at0 cur caps H.
  - exists [], s. auto.
  - cbn [map List.app exec] in H. destruct s as [|d s]; [discriminate|].
    destruct (same i c d) eqn:Hc; [|discriminate].
    destruct (IH _ _ _ _ H) as (t & rest & -> & Ht & Hk).
    exists (d :: t), rest. cbn [alike rev List.app]. rewrite Hc, Ht, <- app_assoc.
    repeat split; auto. destruct l; exact Hk.
Qed.

Lemma search_from_sound (i : bool) (re : list atom) :
  forall (s : list ascii) (at0 : bool) (skipped before : list ascii) (r : outcome),
  search_from i re s at0 skipped = Some (before, r) ->
  exists mid t, s = mid ++ t /\ before = rev skipped ++ mid /\
    exec i re t (at0 && match mid with [] => true | _ => false end) [] [] = Some r.
Proof.
  intros s; induction s as [|c s IH]; intros at0 skipped before r H; cbn [search_from] in H.
  - destruct (exec i re [] at0 [] []) as [r0|] eqn:E; [|discriminate].
    injection H as <- <-. exists [], []. rewrite !app_nil_r, andb_true_r. auto.
  - destruct (exec i re (c :: s) at0 [] []) as [r0|] eqn:E.
    + injection H as <- <-. exists [], (c :: s). rewrite !app_nil_r, andb_true_r. auto.
    + destruct (IH _ _ _ _ H) as (mid & t & -> & -> & Hk).
      exists (c :: mid), t. cbn [rev List.app]. rewrite <- app_assoc, andb_false_r.
      repeat split; auto.
Qed.

(** Positions at which the first character of the pattern does not match
    are passed over. *)
Lemma search_from_skip (i : bool) (c0 : ascii) (re : list atom) (pre : list ascii) :
  forall (s : list ascii) (at0 : bool) (skipped : list ascii),
  forallb (fun d => negb (same i c0 d)) pre = true ->
  search_from i (Lit c0 :: re) (pre ++ s) at0 skipped
  = search_from i (Lit c0 :: re) s (at0 && match pre with [] => true | _ => false end)
      (rev pre ++ skipped).
Proof.
  induction pre as [|d pre IH]; intros s at0 skipped H.
  - cbn [List.app rev]. rewrite andb_true_r. reflexivity.
  - cbn [forallb] in H. apply andb_true_iff in H. destruct H as [Hd H].
    apply negb_true_iff in Hd.
    cbn [List.app search_from exec]. rewrite Hd.
    rewrite (IH s false (d :: skipped) H). cbn [rev]. rewrite <- app_assoc.
    rewrite andb_false_r. destruct pre; reflexivity.
Qed.

(** An anchored pattern matches at the start of the input or nowhere. *)
Lemma search_from_bos (i : bool) (re : list atom) :
  forall (s skipped : list ascii), search_from i (Bos :: re) s false skipped = None.
Proof.
  intros s; induction s as [|c s IH]; intros skipped; cbn [search_from exec]; [reflexivity|].
  apply IH.
Qed.

Lemma search_bos (i : bool) (re : list atom) (s : list ascii) :
  search i (Bos :: re) s
  = match exec i re s true [] [] with
    | Some r => Some ([], r)
    | None => None
    end.
Proof.
  unfold search. destruct s as [|c s]; cbn [search_from exec rev];
    destruct (exec i re _ true [] []); try reflexivity.
  apply search_from_bos.
Qed.

End RegexFacts.

Module UrlFacts.

Import Regex RegexFacts Url.

Local Open Scope string_scope.

(** *** Strings and their characters *)

Lemma chars_append (a b : string) :
  list_ascii_of_string (a ++ b) = (list_ascii_of_string a ++ list_ascii_of_string b)%list.
Proof. induction a as [|c a IH]; cbn; [reflexivity | now rewrite IH]. Qed.

Lemma alike_exact (l t : list ascii) : alike false l t = true <-> l = t.
Proof.
  revert t. induction l as [|c l IH]; intros [|d t]; cbn [alike]; try (split; congruence).
  unfold same. rewrite andb_true_iff, IH. split.
  - intros [H ->]. apply Ascii.eqb_eq in H. now subst.
  - intros H. injection H as -> ->. split; [apply Ascii.eqb_refl | reflexivity].
Qed.

Lemma alike_length (i : bool) (l t : list ascii) :
  alike i l t = true -> List.length t = List.length l.
Proof.
  revert t. induction l as [|c l IH]; intros [|d t]; cbn [alike]; try discriminate; auto.
  intros H. apply andb_true_iff in H. cbn. f_equal. apply IH. tauto.
Qed.

(** A character that is no letter matches itself only, whatever the flag. *)
Lemma same_slash (i : bool) (d : ascii) : same i "/" d = true -> d = "/"%char.
Proof.
  unfold same. destruct i.
  - destruct d as [[] [] [] [] [] [] [] []]; vm_compute; congruence.
  - intros H. apply Ascii.eqb_eq in H. now subst.
Qed.

(** *** The three patterns that trim [match[2]] *)

Definition is_slash (c : ascii) : bool := Ascii.eqb c "/".

Definition slashes (s : list ascii) : nat := List.length (filter is_slash s).

Lemma slashes_app (a b : list ascii) : slashes (a ++ b) = (slashes a + slashes b)%nat.
Proof. unfold slashes. now rewrite filter_app, length_app. Qed.

Lemma slashes_none (s : list ascii) : forallb not_slash s = true -> slashes s = 0%nat.
Proof.
  unfold slashes, not_slash, is_slash. induction s as [|c s IH]; cbn; [reflexivity|].
  destruct (Ascii.eqb c "/"); cbn; [discriminate | exact IH].
Qed.

Lemma names_have_no_slash (s : list ascii) :
  forallb not_slash_space s = true -> forallb not_slash s = true.
Proof.
  induction s as [|c s IH]; cbn; [reflexivity|]. unfold not_slash_space at 1.
  rewrite !andb_true_iff. intros [[H _] Hs]. split; [exact H | exact (IH Hs)].
Qed.

(** [/\/$/] finds nothing in a text without a slash. *)
Lemma remove_slash_end (s : list ascii) :
  forallb not_slash s = true -> remove_first slash_end s = s.
Proof.
  intros H. unfold remove_first.
  destruct (search false slash_end s) as [[before [caps after]]|] eqn:E; [|reflexivity].
  apply search_from_sound in E. destruct E as (mid & t & -> & _ & E).
  unfold slash_end in E. cbn [exec] in E. destruct t as [|d t]; [discriminate|].
  destruct (same false "/" d) eqn:Hd; [|discriminate].
  apply same_slash in Hd. subst d.
  rewrite forallb_app in H. apply andb_true_iff in H. destruct H as [_ H].
  cbn in H. discriminate.
Qed.

(** The text before the first [?] or [#]. *)
Fixpoint before_separator (s : list ascii) : list ascii :=
  match s with
  | c :: s' => if query_or_hash c then [] else c :: before_separator s'
  | [] => []
  end.

Lemma split_0_separator (s : list ascii) : split_0 separator s = before_separator s.
Proof.
  unfold split_0, search.
  assert (H : forall at0 skipped,
            match search_from false separator s at0 skipped with
            | Some (before, _) => before
            | None => (rev skipped ++ s)%list
            end = (rev skipped ++ before_separator s)%list).
  { induction s as [|c s IH]; intros at0 skipped.
    - cbn. reflexivity.
    - cbn [search_from separator exec before_separator].
      destruct (query_or_hash c).
      + now rewrite app_nil_r.
      + replace (rev skipped ++ c :: s)%list with (rev (c :: skipped) ++ s)%list
          by (cbn [rev]; now rewrite <- app_assoc).
        rewrite (IH false (c :: skipped)). cbn [rev]. now rewrite <- app_assoc. }
  specialize (H true []). cbn [rev List.app] in H.
  destruct (search_from false separator s true []) as [[before r]|]; exact H.
Qed.

Lemma exec_dot_git (t : list ascii) (at0 : bool) (r : outcome) :
  exec false dot_git_end t at0 [] [] = Some r ->
  t = list_ascii_of_string ".git" /\ r = ([], []).
Proof.
  intros H. unfold dot_git_end, lits in H.
  apply exec_lits_sound in H. destruct H as (t0 & rest & -> & Ht & H).
  apply alike_exact in Ht. subst t0.
  cbn [exec] in H. destruct rest; [|discriminate]. injection H as <-.
  rewrite app_nil_r. auto.
Qed.

(** Whether [s] ends with [l]: whether [l] is [s] or a suffix of [s]. *)
Fixpoint ends_with (l s : list ascii) : bool :=
  (if list_eq_dec ascii_dec s l then true else false)
  || match s with
     | _ :: s' => ends_with l s'
     | [] => false
     end.

Lemma search_dot_git_none (s : list ascii) :
  ends_with (list_ascii_of_string ".git") s = false ->
  forall at0 skipped, search_from false dot_git_end s at0 skipped = None.
Proof.
  induction s as [|c s IH]; intros H at0 skipped; cbn [search_from].
  - destruct (exec false dot_git_end [] at0 [] []) as [r|] eqn:E; [|reflexivity].
    apply exec_dot_git in E. destruct E as [E _]. discriminate.
  - cbn [ends_with] in H. apply orb_false_iff in H. destruct H as [Hs H].
    destruct (exec false dot_git_end (c :: s) at0 [] []) as [r|] eqn:E.
    + apply exec_dot_git in E. destruct E as [E _].
      destruct (list_eq_dec ascii_dec (c :: s) (list_ascii_of_string ".git"));
        [discriminate | contradiction].
    + apply IH. exact H.
Qed.

Lemma search_dot_git_some (r : list ascii) :
  forall at0 skipped,
  search_from false dot_git_end (r ++ list_ascii_of_string ".git") at0 skipped
  = Some ((rev skipped ++ r)%list, ([], [])).
Proof.
  induction r as [|c r IH]; intros at0 skipped.
  - cbn. rewrite app_nil_r. reflexivity.
  - cbn [List.app search_from].
    destruct (exec false dot_git_end (c :: r ++ list_ascii_of_string ".git") at0 [] [])
      as [o|] eqn:E.
    + apply exec_dot_git in E. destruct E as [E _].
      apply (f_equal (@List.length ascii)) in E. cbn in E. rewrite length_app in E.
      cbn in E. lia.
    + rewrite IH. cbn [rev]. now rewrite <- app_assoc.
Qed.

Lemma remove_dot_git_none (s : list ascii) :
  ends_with (list_ascii_of_string ".git") s = false -> remove_first dot_git_end s = s.
Proof.
  intros H. unfold remove_first, search. now rewrite search_dot_git_none.
Qed.

Lemma remove_dot_git_some (r : list ascii) :
  remove_first dot_git_end (r ++ list_ascii_of_string ".git") = r.
Proof.
  unfold remove_first, search. rewrite search_dot_git_some. cbn. apply app_nil_r.
Qed.

Lemma before_separator_prefix (s : list ascii) :
  exists tail, s = (before_separator s ++ tail)%list.
Proof.
  induction s as [|c s [tail IH]]; [exists []; reflexivity|].
  cbn [before_separator]. destruct (query_or_hash c).
  - exists (c :: s). reflexivity.
  - exists tail. cbn. now rewrite <- IH.
Qed.

Lemma before_separator_clean (s : list ascii) :
  forallb (fun c => negb (query_or_hash c)) (before_separator s) = true.
Proof.
  induction s as [|c s IH]; [reflexivity|]. cbn [before_separator].
  destruct (query_or_hash c) eqn:E; [reflexivity|]. cbn. now rewrite E.
Qed.

Lemma forallb_prefix (p : ascii -> bool) (a b : list ascii) :
  forallb p (a ++ b) = true -> forallb p a = true.
Proof. rewrite forallb_app, andb_true_iff. tauto. Qed.

(** [match[2]] has no slash, so what is kept of it is a prefix of it,
    without [?] and [#]. *)
Lemma repo_name_prefix (m2 : list ascii) :
  forallb not_slash_space m2 = true ->
  exists tail, m2 = (repo_name m2 ++ tail)%list /\
    forallb not_slash_space (repo_name m2) = true /\
    forallb (fun c => negb (query_or_hash c)) (repo_name m2) = true.
Proof.
  intros Hm. unfold repo_name.
  assert (Hg : exists t1, m2 = (remove_first dot_git_end m2 ++ t1)%list).
  { unfold remove_first.
    destruct (search false dot_git_end m2) as [[before [caps after]]|] eqn:E.
    - apply search_from_sound in E. destruct E as (mid & t & -> & -> & E).
      apply exec_dot_git in E. destruct E as [-> E]. injection E as _ ->.
      exists (list_ascii_of_string ".git"). cbn [rev List.app]. now rewrite app_nil_r.
    - exists []. now rewrite app_nil_r. }
  destruct Hg as [t1 Hg]. set (g := remove_first dot_git_end m2) in *.
  destruct (before_separator_prefix g) as [t2 Hs].
  rewrite split_0_separator.
  assert (Hb : forallb not_slash_space (before_separator g) = true).
  { rewrite Hg in Hm. apply forallb_prefix in Hm. rewrite Hs in Hm.
    now apply forallb_prefix in Hm. }
  rewrite remove_slash_end by (apply names_have_no_slash; exact Hb).
  exists (t2 ++ t1)%list. split; [|split].
  - rewrite app_assoc, <- Hs. exact Hg.
  - exact Hb.
  - apply before_separator_clean.
Qed.

End UrlFacts.

Module UrlPatterns.

Import Regex RegexFacts Url UrlFacts.

Local Open Scope list_scope.

Definition host : list ascii := list_ascii_of_string "github.com/".

Definition groups : list atom :=
  [Open; Many1 not_slash; Close; Lit "/"; Open; Many1 not_slash_space; Close].

Lemma github_url_host : github_url = map Lit host ++ groups.
Proof. reflexivity. Qed.

Lemma rev_rev_nil (l : list ascii) : rev (rev l ++ []) = l.
Proof. rewrite app_nil_r. apply rev_involutive. Qed.

(** What the two groups take, at one position. *)
Lemma groups_sound (i : bool) (t : list ascii) (at0 : bool) (cur : list ascii)
    (caps : list (list ascii)) (rest : list ascii) :
  exec i groups t at0 cur [] = Some (caps, rest) ->
  exists o m, t = o ++ "/"%char :: m ++ rest /\ caps = [o; m] /\
    o <> [] /\ forallb not_slash o = true /\
    m <> [] /\ forallb not_slash_space m = true.
Proof.
  unfold groups. rewrite exec_Open. intros H.
  apply exec_many1_sound in H. destruct H as (o & t1 & -> & Ho & Hos & H).
  rewrite exec_Close, exec_Lit in H. destruct t1 as [|d t1]; [discriminate|].
  destruct (same i "/" d) eqn:Hd; [|discriminate]. apply same_slash in Hd. subst d.
  rewrite exec_Open in H.
  apply exec_many1_sound in H. destruct H as (m & t2 & -> & Hm & Hms & H).
  rewrite exec_Close, exec_nil in H. injection H as <- <-.
  exists o, m. rewrite !rev_rev_nil. cbn [List.app]. repeat split; auto.
Qed.

Lemma groups_complete (i : bool) (o m rest : list ascii) (at0 : bool) (cur : list ascii) :
  o <> [] -> forallb not_slash o = true ->
  m <> [] -> forallb not_slash_space m = true ->
  match rest with e :: _ => not_slash_space e = false | [] => True end ->
  exec i groups (o ++ "/"%char :: m ++ rest) at0 cur [] = Some ([o; m], rest).
Proof.
  intros Ho Hos Hm Hms Hrest. unfold groups. rewrite exec_Open.
  apply exec_many1_longest; auto.
  rewrite exec_Close, exec_Lit.
  replace (same i "/" "/") with true by (destruct i; reflexivity).
  rewrite exec_Open.
  apply exec_many1_longest; auto.
  rewrite exec_Close, exec_nil, !rev_rev_nil. reflexivity.
Qed.

Lemma owner_repo_sound (s o rn : list ascii) :
  try_pattern false owner_repo s = Some (o, rn) ->
  exists m, s = o ++ "/"%char :: m /\ rn = repo_name m /\
    o <> [] /\ forallb not_slash_space o = true /\
    m <> [] /\ forallb not_slash_space m = true.
Proof.
  unfold try_pattern, match_, owner_repo. rewrite search_bos.
  destruct (exec false _ s true [] []) as [[caps rest]|] eqn:E; [|discriminate].
  rewrite exec_Open in E.
  apply exec_many1_sound in E. destruct E as (o' & t1 & -> & Ho & Hos & E).
  rewrite exec_Close, exec_Lit in E. destruct t1 as [|d t1]; [discriminate|].
  destruct (same false "/" d) eqn:Hd; [|discriminate]. apply same_slash in Hd. subst d.
  rewrite exec_Open in E.
  apply exec_many1_sound in E. destruct E as (m & t2 & -> & Hm & Hms & E).
  rewrite exec_Close, exec_Eos in E. destruct t2; [|discriminate].
  rewrite exec_nil in E. injection E as <- <-.
  rewrite !rev_rev_nil. cbn [List.app]. intros H. injection H as <- <-.
  exists m. rewrite app_nil_r. repeat split; auto.
Qed.

Lemma owner_repo_complete (o m : list ascii) :
  o <> [] -> forallb not_slash_space o = true ->
  m <> [] -> forallb not_slash_space m = true ->
  try_pattern false owner_repo (o ++ "/"%char :: m) = Some (o, repo_name m).
Proof.
  intros Ho Hos Hm Hms. unfold try_pattern, match_, owner_repo. rewrite search_bos.
  rewrite exec_Open.
  rewrite (@exec_many1_longest false not_slash_space _ o ("/"%char :: m) true [] []
             ([o; m], [])); auto.
  rewrite exec_Close, exec_Lit. replace (same false "/" "/") with true by reflexivity.
  rewrite exec_Open.
  replace m with (m ++ []) at 1 by apply app_nil_r.
  apply exec_many1_longest; auto.
  rewrite exec_Close, exec_Eos, exec_nil, !rev_rev_nil. reflexivity.
Qed.

Lemma github_url_sound (s o rn : list ascii) :
  try_pattern true github_url s = Some (o, rn) ->
  exists pre h m rest, s = pre ++ h ++ o ++ "/"%char :: m ++ rest /\
    alike true host h = true /\ rn = repo_name m /\
    o <> [] /\ forallb not_slash o = true /\
    m <> [] /\ forallb not_slash_space m = true.
Proof.
  unfold try_pattern, match_, search.
  destruct (search_from true github_url s true []) as [[before [caps rest]]|] eqn:E;
    [|discriminate].
  apply search_from_sound in E. destruct E as (pre & t & -> & _ & E).
  rewrite github_url_host in E. apply exec_lits_sound in E.
  destruct E as (h & t1 & -> & Hh & E).
  apply groups_sound in E. destruct E as (o' & m & -> & -> & Ho & Hos & Hm & Hms).
  intros H. injection H as <- <-.
  exists pre, h, m, rest. repeat split; auto.
Qed.

Lemma github_url_complete (pre h o m rest : list ascii) :
  forallb (fun d => negb (same true "g" d)) pre = true ->
  alike true host h = true ->
  o <> [] -> forallb not_slash o = true ->
  m <> [] -> forallb not_slash_space m = true ->
  match rest with e :: _ => not_slash_space e = false | [] => True end ->
  try_pattern true github_url (pre ++ h ++ o ++ "/"%char :: m ++ rest)
  = Some (o, repo_name m).
Proof.
  intros Hpre Hh Ho Hos Hm Hms Hrest. unfold try_pattern, match_, search.
  change github_url with (Lit "g" :: map Lit (list_ascii_of_string "ithub.com/") ++ groups).
  rewrite search_from_skip by exact Hpre.
  change (Lit "g" :: map Lit (list_ascii_of_string "ithub.com/") ++ groups)
    with (map Lit host ++ groups).
  set (at0 := true && _). set (skipped := rev pre ++ []).
  destruct (h ++ o ++ "/"%char :: m ++ rest) as [|c s] eqn:Es.
  { destruct h; [discriminate Hh | discriminate Es]. }
  cbn [search_from]. rewrite <- Es.
  rewrite exec_lits; [|discriminate|exact Hh].
  rewrite groups_complete by assumption. reflexivity.
Qed.

Lemma slashes_cons (c : ascii) (s : list ascii) :
  slashes (c :: s) = ((if is_slash c then 1 else 0) + slashes s)%nat.
Proof. unfold slashes. cbn [filter]. destruct (is_slash c); reflexivity. Qed.

Lemma alike_slashes (i : bool) (l t : list ascii) :
  alike i l t = true -> (slashes l <= slashes t)%nat.
Proof.
  revert t. induction l as [|c l IH]; intros [|d t] H; cbn [alike] in H;
    try discriminate; [apply Nat.le_refl|].
  apply andb_true_iff in H. destruct H as [Hc H]. specialize (IH t H).
  rewrite !slashes_cons. destruct (is_slash c) eqn:Ec.
  - apply Ascii.eqb_eq in Ec. subst c. apply same_slash in Hc. subst d.
    cbn. lia.
  - destruct (is_slash d); lia.
Qed.

(** A text with fewer than two slashes has no match of the first pattern. *)
Lemma github_url_needs_two_slashes (s : list ascii) :
  (slashes s < 2)%nat -> try_pattern true github_url s = None.
Proof.
  intros H. destruct (try_pattern true github_url s) as [[o rn]|] eqn:E; [|reflexivity].
  apply github_url_sound in E.
  destruct E as (pre & h & m & rest & -> & Hh & _).
  apply alike_slashes in Hh. change (slashes host) with 1%nat in Hh.
  rewrite !slashes_app, slashes_cons in H.
  change (is_slash "/") with true in H. cbv iota in H. lia.
Qed.

Lemma split_at_slash (a b a' b' : list ascii) :
  a ++ "/"%char :: b = a' ++ "/"%char :: b' ->
  forallb not_slash a = true -> forallb not_slash a' = true -> a = a' /\ b = b'.
Proof.
  revert a'. induction a as [|c a IH]; intros [|c' a'] E Ha Ha'; cbn in *.
  - injection E as <-. auto.
  - injection E as <- _. discriminate.
  - injection E as -> _. discriminate.
  - injection E as <- E. apply andb_true_iff in Ha, Ha'.
    destruct (IH a' E) as [-> ->]; tauto.
Qed.

End UrlPatterns.

(** *** What [parseGitHubUrl] accepts, and what it returns *)

Section ParseGitHubUrl.

Import Regex RegexFacts Url UrlFacts UrlPatterns.

Local Open Scope string_scope.

(** A text without a slash; a text that is not empty and has neither a slash
    nor white space. *)
Definition no_slash (s : string) : bool := forallb not_slash (list_ascii_of_string s).

Definition is_name (s : string) : bool :=
  negb (String.eqb s "") && forallb not_slash_space (list_ascii_of_string s).

(** The text before the first [?] or [#]. *)
Definition before_query (s : string) : string :=
  string_of_list_ascii (before_separator (list_ascii_of_string s)).

Definition ends_with_dot_git (s : string) : bool :=
  ends_with (list_ascii_of_string ".git") (list_ascii_of_string s).

(** The text that follows the repository in a URL: nothing, or what starts
    with a slash or with white space. *)
Definition ends_name (rest : string) : bool :=
  match rest with
  | EmptyString => true
  | String c _ => negb (not_slash_space c)
  end.

Lemma chars_nonempty (s : string) :
  String.eqb s "" = false -> list_ascii_of_string s <> [].
Proof. destruct s; [discriminate | cbn; discriminate]. Qed.

Lemma is_name_chars (s : string) :
  is_name s = true ->
  list_ascii_of_string s <> [] /\ forallb not_slash_space (list_ascii_of_string s) = true.
Proof.
  unfold is_name. rewrite andb_true_iff, negb_true_iff. intros [H1 H2].
  split; [apply chars_nonempty; exact H1 | exact H2].
Qed.

Lemma chars_is_name (s : string) :
  list_ascii_of_string s <> [] ->
  forallb not_slash_space (list_ascii_of_string s) = true -> is_name s = true.
Proof.
  intros H1 H2. unfold is_name. rewrite H2, andb_true_r.
  destruct s; [contradiction | reflexivity].
Qed.

Lemma parse_chars (url : string) :
  parseGitHubUrl url
  = match
      match try_pattern true github_url (list_ascii_of_string url) with
      | Some r => Some r
      | None => try_pattern false owner_repo (list_ascii_of_string url)
      end
    with
    | Some (owner, repo) => Some (string_of_list_ascii owner, string_of_list_ascii repo)
    | None => None
    end.
Proof. reflexivity. Qed.

Lemma forallb_before_separator (p : ascii -> bool) (s : list ascii) :
  forallb p s = true -> forallb p (before_separator s) = true.
Proof.
  intros H. destruct (before_separator_prefix s) as [tail E].
  rewrite E in H. now apply forallb_prefix in H.
Qed.

(** The name kept of a [match[2]] without a slash. *)
Lemma repo_name_plain (m2 : list ascii) :
  forallb not_slash m2 = true ->
  ends_with (list_ascii_of_string ".git") m2 = false ->
  repo_name m2 = before_separator m2.
Proof.
  intros Hm He. unfold repo_name.
  rewrite remove_dot_git_none by exact He. rewrite split_0_separator.
  apply remove_slash_end. apply forallb_before_separator. exact Hm.
Qed.

Lemma repo_name_dot_git (r : list ascii) :
  forallb not_slash r = true ->
  repo_name (r ++ list_ascii_of_string ".git") = before_separator r.
Proof.
  intros Hr. unfold repo_name.
  rewrite remove_dot_git_some, split_0_separator.
  apply remove_slash_end. apply forallb_before_separator. exact Hr.
Qed.

Lemma text_append (a b : list ascii) :
  string_of_list_ascii (a ++ b) = string_of_list_ascii a ++ string_of_list_ascii b.
Proof. induction a as [|c a IH]; cbn; [reflexivity | now rewrite IH]. Qed.

Lemma chars_slash (a b : string) :
  list_ascii_of_string (a ++ "/" ++ b)
  = (list_ascii_of_string a ++ "/"%char :: list_ascii_of_string b)%list.
Proof. rewrite !chars_append. reflexivity. Qed.

Lemma owner_repo_needs_slash (s : list ascii) :
  slashes s = 0%nat -> try_pattern false owner_repo s = None.
Proof.
  intros H. destruct (try_pattern false owner_repo s) as [[o rn]|] eqn:E; [|reflexivity].
  apply owner_repo_sound in E. destruct E as (m & -> & _).
  rewrite slashes_app, slashes_cons in H. change (is_slash "/") with true in H.
  cbv iota in H. lia.
Qed.

Lemma one_slash (a b : string) :
  no_slash a = true -> no_slash b = true ->
  slashes (list_ascii_of_string (a ++ "/" ++ b)) = 1%nat.
Proof.
  intros Ha Hb. rewrite chars_slash, slashes_app, slashes_cons.
  rewrite (slashes_none _ Ha), (slashes_none _ Hb). reflexivity.
Qed.

(** X6: a text without a slash is refused.  A text [a/b] with one slash is
    accepted when [a] and [b] are not empty and hold no white space, and
    refused otherwise; the owner is [a], the repository is [b] without a
    final [.git], cut before its first [?] or [#] (so it may be empty, and a
    [.git] that a query follows is kept). *)
Theorem parseGitHubUrl_short_form (a b : string) :
  no_slash a = true -> no_slash b = true ->
  parseGitHubUrl a = None /\
  (is_name a && is_name b = false -> parseGitHubUrl (a ++ "/" ++ b) = None) /\
  (is_name a && is_name b = true ->
     (ends_with_dot_git b = false ->
        parseGitHubUrl (a ++ "/" ++ b) = Some (a, before_query b)) /\
     (forall r, b = r ++ ".git" ->
        parseGitHubUrl (a ++ "/" ++ b) = Some (a, before_query r))).
Proof.
  intros Ha Hb. split; [|split].
  - rewrite parse_chars.
    rewrite github_url_needs_two_slashes by (rewrite (slashes_none _ Ha); lia).
    rewrite owner_repo_needs_slash by exact (slashes_none _ Ha). reflexivity.
  - intros Hn. rewrite parse_chars.
    rewrite github_url_needs_two_slashes by (rewrite (one_slash _ _ Ha Hb); lia).
    destruct (try_pattern false owner_repo _) as [[o rn]|] eqn:E; [|reflexivity].
    apply owner_repo_sound in E. destruct E as (m & E & _ & Ho & Hos & Hm & Hms).
    rewrite chars_slash in E.
    apply split_at_slash in E; [|exact Ha|apply names_have_no_slash; exact Hos].
    destruct E as [<- <-].
    rewrite (chars_is_name _ Ho Hos), (chars_is_name _ Hm Hms) in Hn. discriminate.
  - intros Hn. apply andb_true_iff in Hn. destruct Hn as [Hna Hnb].
    apply is_name_chars in Hna, Hnb. destruct Hna as [Ho Hos], Hnb as [Hm Hms].
    assert (E : parseGitHubUrl (a ++ "/" ++ b)
                = Some (a, string_of_list_ascii (repo_name (list_ascii_of_string b)))).
    { rewrite parse_chars.
      rewrite github_url_needs_two_slashes by (rewrite (one_slash _ _ Ha Hb); lia).
      rewrite chars_slash, owner_repo_complete by assumption.
      now rewrite string_of_list_ascii_of_string. }
    split.
    + intros He. rewrite E. unfold before_query.
      now rewrite repo_name_plain.
    + intros r ->. rewrite E. unfold before_query.
      rewrite chars_append, repo_name_dot_git; [reflexivity|].
      unfold no_slash in Hb. rewrite chars_append in Hb.
      now apply forallb_prefix in Hb.
Qed.

Lemma parseGitHubUrl_short_form_witness :
  parseGitHubUrl "react" = None /\
  parseGitHubUrl " facebook/react" = None /\
  parseGitHubUrl "facebook/react" = Some ("facebook", "react") /\
  parseGitHubUrl "facebook/react.git" = Some ("facebook", "react") /\
  parseGitHubUrl "facebook/react.git#readme" = Some ("facebook", "react.git") /\
  parseGitHubUrl "facebook/.git" = Some ("facebook", "").
Proof.
  split; [exact (proj1 (@parseGitHubUrl_short_form "react" "" eq_refl eq_refl))|].
  split; [exact (proj1 (proj2 (@parseGitHubUrl_short_form " facebook" "react"
                                 eq_refl eq_refl)) eq_refl)|].
  split; [exact (proj1 (proj2 (proj2 (@parseGitHubUrl_short_form "facebook" "react"
                                        eq_refl eq_refl)) eq_refl) eq_refl)|].
  split; [exact (proj2 (proj2 (proj2 (@parseGitHubUrl_short_form "facebook" "react.git"
                                        eq_refl eq_refl)) eq_refl) "react" eq_refl)|].
  split; [exact (proj1 (proj2 (proj2 (@parseGitHubUrl_short_form "facebook"
                                        "react.git#readme" eq_refl eq_refl)) eq_refl)
                   eq_refl)|].
  exact (proj2 (proj2 (proj2 (@parseGitHubUrl_short_form "facebook" ".git"
                                eq_refl eq_refl)) eq_refl) "" eq_refl).
Defined.

(** X7: a text that holds [github.com/], in any case of its letters and
    after a prefix without the letter g, then an owner without a slash, a
    slash and a repository without white space, is accepted, whatever
    follows the repository after a slash or white space; the owner may hold
    white space, and the repository is trimmed as in the short form. *)
Theorem parseGitHubUrl_url (prefix domain owner repo rest : string) :
  forallb (fun c => negb (same true "g" c)) (list_ascii_of_string prefix) = true ->
  alike true (list_ascii_of_string "github.com/") (list_ascii_of_string domain) = true ->
  String.eqb owner "" = false -> no_slash owner = true ->
  is_name repo = true -> ends_name rest = true ->
  (ends_with_dot_git repo = false ->
     parseGitHubUrl (prefix ++ domain ++ owner ++ "/" ++ repo ++ rest)
     = Some (owner, before_query repo)) /\
  (forall r, repo = r ++ ".git" ->
     parseGitHubUrl (prefix ++ domain ++ owner ++ "/" ++ repo ++ rest)
     = Some (owner, before_query r)).
Proof.
  intros Hpre Hdom Ho Hos Hn Hrest.
  apply chars_nonempty in Ho. apply is_name_chars in Hn. destruct Hn as [Hm Hms].
  assert (E : parseGitHubUrl (prefix ++ domain ++ owner ++ "/" ++ repo ++ rest)
              = Some (owner, string_of_list_ascii (repo_name (list_ascii_of_string repo)))).
  { rewrite parse_chars, !chars_append.
    change (list_ascii_of_string "/") with ["/"%char]. cbn [List.app].
    rewrite github_url_complete; auto.
    - now rewrite string_of_list_ascii_of_string.
    - destruct rest as [|c rest]; cbn in *; [exact I|].
      now apply negb_true_iff in Hrest. }
  split.
  - intros He. rewrite E. unfold before_query.
    rewrite repo_name_plain; [reflexivity | apply names_have_no_slash; exact Hms | exact He].
  - intros r ->. rewrite E. unfold before_query.
    rewrite chars_append, repo_name_dot_git; [reflexivity|].
    rewrite chars_append in Hms. apply forallb_prefix in Hms.
    apply names_have_no_slash. exact Hms.
Qed.

Lemma parseGitHubUrl_url_witness :
  parseGitHubUrl "https://www.GitHub.com/facebook/react/tree/main"
  = Some ("facebook", "react") /\
  parseGitHubUrl "http://github.com/the owner/react.git" = Some ("the owner", "react").
Proof.
  split.
  - exact (proj1 (@parseGitHubUrl_url "https://www." "GitHub.com/" "facebook" "react"
                    "/tree/main" eq_refl eq_refl eq_refl eq_refl eq_refl eq_refl) eq_refl).
  - exact (proj2 (@parseGitHubUrl_url "http://" "github.com/" "the owner" "react.git"
                    "" eq_refl eq_refl eq_refl eq_refl eq_refl eq_refl) "react" eq_refl).
Defined.

(** X8: what [parseGitHubUrl] returns is read off the text: the owner, a
    slash and the repository stand in it one after the other; the owner is
    not empty and has no slash; the repository has no slash, no white space,
    no [?] and no [#]. *)
Theorem parseGitHubUrl_sound (url owner repo : string) :
  parseGitHubUrl url = Some (owner, repo) ->
  (exists before after, url = before ++ owner ++ "/" ++ repo ++ after) /\
  String.eqb owner "" = false /\ no_slash owner = true /\
  forallb (fun c => not_slash_space c && negb (query_or_hash c))
    (list_ascii_of_string repo) = true.
Proof.
  rewrite parse_chars.
  assert (Hshape : forall o m (pre h rest : list ascii),
            list_ascii_of_string url = (pre ++ h ++ o ++ "/"%char :: m ++ rest)%list ->
            o <> [] -> forallb not_slash o = true ->
            forallb not_slash_space m = true ->
            (exists before after,
               url = before ++ string_of_list_ascii o ++ "/"
                     ++ string_of_list_ascii (repo_name m) ++ after) /\
            String.eqb (string_of_list_ascii o) "" = false /\
            no_slash (string_of_list_ascii o) = true /\
            forallb (fun c => not_slash_space c && negb (query_or_hash c))
              (list_ascii_of_string (string_of_list_ascii (repo_name m))) = true).
  { intros o m pre h rest E Ho Hos Hms.
    destruct (repo_name_prefix m Hms) as (tail & Em & Hn & Hq).
    split; [|split; [|split]].
    - exists (string_of_list_ascii (pre ++ h)), (string_of_list_ascii (tail ++ rest)).
      rewrite <- (string_of_list_ascii_of_string url), E.
      rewrite Em at 1.
      change "/" with (string_of_list_ascii ["/"%char]).
      rewrite <- !text_append. f_equal.
      rewrite <- !app_assoc. cbn [List.app]. reflexivity.
    - destruct o; [contradiction | reflexivity].
    - unfold no_slash. now rewrite list_ascii_of_string_of_list_ascii.
    - rewrite list_ascii_of_string_of_list_ascii.
      rewrite forallb_forall in *. intros c Hc.
      now rewrite (Hn c Hc), (Hq c Hc). }
  destruct (try_pattern true github_url (list_ascii_of_string url)) as [[o rn]|] eqn:E1.
  - intros H. injection H as <- <-. apply github_url_sound in E1.
    destruct E1 as (pre & h & m & rest & E & _ & -> & Ho & Hos & _ & Hms).
    exact (Hshape o m pre h rest E Ho Hos Hms).
  - destruct (try_pattern false owner_repo (list_ascii_of_string url)) as [[o rn]|] eqn:E2;
      [|discriminate].
    intros H. injection H as <- <-. apply owner_repo_sound in E2.
    destruct E2 as (m & E & -> & Ho & Hos & _ & Hms).
    apply (Hshape o m [] [] []); auto.
    + cbn [List.app]. now rewrite app_nil_r.
    + apply names_have_no_slash. exact Hos.
Qed.

Lemma parseGitHubUrl_sound_witness :
  (exists before after,
     "see github.com/a b/c?x#y" = before ++ "a b" ++ "/" ++ "c" ++ after) /\
  forallb (fun c => not_slash_space c && negb (query_or_hash c))
    (list_ascii_of_string "c") = true.
Proof.
  destruct (@parseGitHubUrl_sound "see github.com/a b/c?x#y" "a b" "c" eq_refl)
    as (H & _ & _ & Hr).
  split; [exact H | exact Hr].
Defined.

End ParseGitHubUrl.

(** ** [fetchGitHubRepo]

    The two requests are what the function reads of them: whether [fetch]
    threw, whether the response is [ok], its status, the fields of its
    body and the [Link] header. *)

Module Fetch.

Import Regex.

(** [/page=(\d+)>; rel="last"/] *)
Definition last_page : list atom :=
  lits "page=" ++ [Open; Many1 digit; Close] ++ lits ">; rel="
  ++ [Lit "034"] ++ lits "last" ++ [Lit "034"].

(** The integer that a text of decimal digits denotes. *)
Definition decimal (digits : list ascii) : Z :=
  fold_left (fun acc c => (10 * acc + (Z.of_nat (nat_of_ascii c) - 48))%Z) digits 0%Z.

(** The commit count that a [Link] header gives, if it gives one:
    [parseInt(match[1])] for a match of the pattern. *)
Definition commits_of_link (linkHeader : string) : option Z :=
  match match_ false last_page (list_ascii_of_string linkHeader) with
  | Some (digits :: _) => Some (decimal digits)
  | _ => None
  end.

Section Def.
Context {N : Type} {number : Number N}.
Local Open Scope js_scope.

(** The body of the first response.  The two dates are the time values of
    [new Date(...)].  [None] is a field that is missing.  A numeric field
    that is [null] is the number 0, which is what [null] converts to in
    [null * 2] and [null + 1], and falsy as [null] is; a language that is
    [null] is [None], [null] and [undefined] being falsy alike. *)
Record body : Type := {
  json_name : string;
  json_full_name : string;
  json_language : option string;
  json_created_at : N;
  json_pushed_at : N;
  json_size : option N;
  json_stargazers_count : option N;
  json_forks_count : option N
}.

(** The first request: [fetch] or [json()] threw an error with a message,
    or the response came, not [ok] with a status or [ok] with a body. *)
Inductive repo_response : Type :=
| Failed (message : string)
| NotOk (status : Z)
| Ok (repoData : body).

(** The second request: it threw, or the response came, [ok] or not, with
    or without a [Link] header. *)
Inductive commits_response : Type :=
| Threw
| Responded (ok : bool) (linkHeader : option string).

Inductive result : Type :=
| Error (message : string)
| Fetched (data : repo N).

Definition commitCount_of (repoData : body) (commits : commits_response) : N :=
  match commits with
  | Responded true (Some linkHeader) =>
      if String.eqb linkHeader "" then num 100
      else match commits_of_link linkHeader with
           | Some pages => of_Z pages
           | None => num 100
           end
  | Responded _ _ => num 100
  | Threw => Math_max2 (num 100) (to_number (json_stargazers_count repoData) * num 2)
  end.

Definition language_of (repoData : body) : string :=
  match json_language repoData with
  | Some l => if String.eqb l "" then "Unknown" else l
  | None => "Unknown"
  end.

(** [fetchGitHubRepo(owner, repo)], given what the two requests bring; [now]
    is the time value of [new Date()].  An [Error] is the error thrown. *)
Definition fetchGitHubRepo (now : N) (first : repo_response) (commits : commits_response)
    : result :=
  match first with
  | Failed message => Error message
  | NotOk status =>
      if (status =? 404)%Z then Error "Repository not found"
      else if (status =? 403)%Z then Error "API rate limit exceeded. Please try again later."
      else Error "Failed to fetch repository"
  | Ok repoData =>
      let commitCount := commitCount_of repoData commits in
      let ageInYears :=
        (now - json_created_at repoData)
        / (num 1000 * num 60 * num 60 * num 24 * num 365.25) in
      Fetched {| name := json_name repoData;
                 fullName := json_full_name repoData;
                 language := language_of repoData;
                 lastPush := json_pushed_at repoData;
                 commitCount := Some commitCount;
                 size := json_size repoData;
                 stars := Some (or_default (json_stargazers_count repoData) (num 0));
                 forks := Some (or_default (json_forks_count repoData) (num 0));
                 age := Some ageInYears |}
  end.

End Def.

Arguments body N : clear implicits.
Arguments repo_response N : clear implicits.
Arguments result N : clear implicits.

End Fetch.

Module FetchFacts.

Import Regex RegexFacts Url UrlFacts Fetch.

Local Open Scope list_scope.

Definition opening : list ascii := list_ascii_of_string "page=".

Definition closing : list ascii :=
  list_ascii_of_string ">; rel=" ++ ["034"%char] ++ list_ascii_of_string "last"
  ++ ["034"%char].

Lemma last_page_shape :
  last_page = map Lit opening ++ Open :: Many1 digit :: Close :: map Lit closing ++ [].
Proof. reflexivity. Qed.

Lemma exec_last_page (digits rest : list ascii) (at0 : bool) :
  digits <> [] -> forallb digit digits = true ->
  exec false last_page (opening ++ digits ++ closing ++ rest) at0 [] []
  = Some ([digits], rest).
Proof.
  intros Hne Hd. rewrite last_page_shape.
  rewrite exec_lits; [|discriminate|reflexivity].
  rewrite exec_Open.
  apply exec_many1_longest; auto; [reflexivity|].
  rewrite exec_Close.
  rewrite exec_lits; [|discriminate|now apply alike_exact].
  rewrite exec_nil. cbn [List.app]. rewrite app_nil_r, rev_involutive. reflexivity.
Qed.

Lemma exec_last_page_sound (t : list ascii) (at0 : bool) (caps : list (list ascii))
    (rest : list ascii) :
  exec false last_page t at0 [] [] = Some (caps, rest) ->
  exists digits, caps = [digits] /\ digits <> [] /\ forallb digit digits = true /\
                 t = opening ++ digits ++ closing ++ rest.
Proof.
  rewrite last_page_shape. intros H.
  apply exec_lits_sound in H. destruct H as (t0 & t1 & -> & H0 & H).
  apply alike_exact in H0. subst t0.
  rewrite exec_Open in H.
  apply exec_many1_sound in H. destruct H as (digits & t2 & -> & Hne & Hd & H).
  rewrite exec_Close in H.
  apply exec_lits_sound in H. destruct H as (t3 & t4 & -> & H3 & H).
  apply alike_exact in H3. subst t3.
  rewrite exec_nil in H. injection H as <- <-.
  exists digits. cbn [List.app]. rewrite app_nil_r, rev_involutive. auto.
Qed.

(** The digits of a match denote a natural number. *)
Lemma decimal_from_nonneg (digits : list ascii) :
  forallb digit digits = true ->
  forall acc, (0 <= acc)%Z ->
  (0 <= fold_left (fun a c => 10 * a + (Z.of_nat (nat_of_ascii c) - 48)) digits acc)%Z.
Proof.
  induction digits as [|c digits IH]; intros H acc Hacc; cbn [fold_left]; [exact Hacc|].
  cbn [forallb] in H. apply andb_true_iff in H. destruct H as [Hc H].
  apply IH; [exact H|]. unfold digit in Hc.
  apply andb_true_iff in Hc. destruct Hc as [Hlo _]. apply Nat.leb_le in Hlo. lia.
Qed.

Lemma commits_of_link_nonneg (linkHeader : string) (pages : Z) :
  commits_of_link linkHeader = Some pages -> (0 <= pages)%Z.
Proof.
  unfold commits_of_link, match_, search.
  destruct (search_from false last_page _ true []) as [[before [caps rest]]|] eqn:E;
    [|discriminate].
  apply search_from_sound in E. destruct E as (mid & t & _ & _ & E).
  apply exec_last_page_sound in E. destruct E as (digits & -> & _ & Hd & _).
  intros H. injection H as <-. apply decimal_from_nonneg; [exact Hd | lia].
Qed.

Lemma search_from_fail (i : bool) (re : list atom) (c : ascii) (s : list ascii)
    (at0 : bool) (skipped : list ascii) :
  exec i re (c :: s) at0 [] [] = None ->
  search_from i re (c :: s) at0 skipped = search_from i re s false (c :: skipped).
Proof. intros H. cbn [search_from]. now rewrite H. Qed.

Lemma search_from_found (i : bool) (re : list atom) (s : list ascii) (at0 : bool)
    (skipped : list ascii) (r : outcome) :
  exec i re s at0 [] [] = Some r ->
  search_from i re s at0 skipped = Some (rev skipped, r).
Proof. intros H. destruct s; cbn [search_from]; now rewrite H. Qed.

Definition not_equals (c : ascii) : bool := negb (Ascii.eqb c "=").

(** No match begins in a text without [=] that a [?] follows. *)
Lemma exec_last_page_in_url (u rest : list ascii) (at0 : bool) :
  forallb not_equals u = true ->
  exec false last_page (u ++ "?"%char :: rest) at0 [] [] = None.
Proof.
  intros Hu.
  destruct (exec false last_page (u ++ "?"%char :: rest) at0 [] []) as [[caps r]|] eqn:E;
    [|reflexivity].
  apply exec_last_page_sound in E. destruct E as (digits & _ & _ & _ & E).
  unfold opening in E. cbn [list_ascii_of_string List.app] in E.
  do 5 (destruct u as [|? u]; [cbn in E; discriminate E|];
        cbn [List.app] in E; injection E as -> E).
  cbn in Hu. discriminate Hu.
Qed.

Lemma search_from_url (u rest : list ascii) :
  forallb not_equals u = true ->
  forall skipped,
  search_from false last_page (u ++ "?"%char :: rest) false skipped
  = search_from false last_page ("?"%char :: rest) false (rev u ++ skipped).
Proof.
  induction u as [|c u IH]; intros Hu skipped; [reflexivity|].
  cbn [List.app]. rewrite search_from_fail.
  - cbn [forallb] in Hu. apply andb_true_iff in Hu. destruct Hu as [_ Hu].
    rewrite (IH Hu). cbn [rev]. now rewrite <- app_assoc.
  - exact (@exec_last_page_in_url (c :: u) rest false Hu).
Qed.

End FetchFacts.

(** *** The commit count of a response *)

Section CommitCount.

Import Regex RegexFacts Url UrlFacts Fetch FetchFacts.

Local Open Scope string_scope.

(** The decimal digits of a natural number, as [String(n)] prints it. *)
Fixpoint digits_of (fuel : nat) (n : Z) (acc : list ascii) : list ascii :=
  match fuel with
  | O => acc
  | S k =>
      let acc' := ascii_of_nat (48 + Z.to_nat (n mod 10)) :: acc in
      if (n / 10 =? 0)%Z then acc' else digits_of k (n / 10) acc'
  end.

Definition decimal_text (n : Z) : string :=
  string_of_list_ascii (digits_of (S (Z.to_nat (Z.log2 n))) n []).

Definition quoted (s : string) : string := String "034" (s ++ String "034" "").

(** The [Link] header of the first page of a listing with one commit a
    page, [u] being the address of the listing and [pages] the number of
    its last page. *)
Definition first_page_link (u : string) (pages : Z) : string :=
  "<" ++ u ++ "?per_page=1&page=2>; rel=" ++ quoted "next" ++ ", <" ++ u
  ++ "?per_page=1&page=" ++ decimal_text pages ++ ">; rel=" ++ quoted "last".

Lemma digits_of_spec (fuel : nat) :
  forall (n : Z) (acc : list ascii),
  (0 <= n < 2 ^ Z.of_nat fuel)%Z -> (1 <= fuel)%nat ->
  exists D, digits_of fuel n acc = (D ++ acc)%list /\ D <> [] /\
    forallb digit D = true /\
    forall a, fold_left (fun a c => 10 * a + (Z.of_nat (nat_of_ascii c) - 48))%Z D a
              = (a * 10 ^ Z.of_nat (List.length D) + n)%Z.
Proof.
  induction fuel as [|k IH]; intros n acc Hn Hk; [lia|].
  cbn [digits_of].
  assert (Hm : (0 <= n mod 10 < 10)%Z) by (apply Z.mod_pos_bound; lia).
  assert (Hc : nat_of_ascii (ascii_of_nat (48 + Z.to_nat (n mod 10)))
               = (48 + Z.to_nat (n mod 10))%nat) by (apply nat_ascii_embedding; lia).
  assert (Hdigit : digit (ascii_of_nat (48 + Z.to_nat (n mod 10))) = true).
  { unfold digit. rewrite Hc. apply andb_true_iff. split; apply Nat.leb_le; lia. }
  destruct (n / 10 =? 0)%Z eqn:E.
  - apply Z.eqb_eq in E. exists [ascii_of_nat (48 + Z.to_nat (n mod 10))].
    split; [reflexivity|]. split; [discriminate|]. split; [cbn [forallb]; now rewrite Hdigit|].
    intros a. cbn [fold_left List.length]. rewrite Hc.
    pose proof (Z.div_mod n 10). lia.
  - apply Z.eqb_neq in E.
    assert (Hq : (1 <= n / 10)%Z).
    { pose proof (Z.div_pos n 10). lia. }
    assert (Hk1 : (1 <= k)%nat).
    { destruct k; [|lia]. cbn in Hn. pose proof (Z.div_mod n 10). lia. }
    destruct (IH (n / 10)%Z (ascii_of_nat (48 + Z.to_nat (n mod 10)) :: acc))
      as (D & ED & HD & Hds & Hval); [|exact Hk1|].
    { split; [lia|]. rewrite Nat2Z.inj_succ, Z.pow_succ_r in Hn by lia.
      apply Z.div_lt_upper_bound; lia. }
    exists (D ++ [ascii_of_nat (48 + Z.to_nat (n mod 10))])%list.
    split; [rewrite ED, <- app_assoc; reflexivity|].
    split; [destruct D; discriminate|].
    split; [rewrite forallb_app, Hds; cbn [forallb]; now rewrite Hdigit|].
    intros a. rewrite fold_left_app, Hval. cbn [fold_left]. rewrite Hc.
    rewrite length_app, !Nat2Z.inj_add. cbn [List.length].
    rewrite Z.pow_add_r by lia. change (10 ^ Z.of_nat 1)%Z with 10%Z.
    rewrite Z2Nat.id by lia. set (P := (10 ^ Z.of_nat (List.length D))%Z).
    pose proof (Z.div_mod n 10). change (Z.of_nat 48) with 48%Z. nia.
Qed.

Lemma decimal_text_spec (n : Z) :
  (0 <= n)%Z ->
  list_ascii_of_string (decimal_text n) <> [] /\
  forallb digit (list_ascii_of_string (decimal_text n)) = true /\
  decimal (list_ascii_of_string (decimal_text n)) = n.
Proof.
  intros Hn. unfold decimal_text. rewrite list_ascii_of_string_of_list_ascii.
  destruct (@digits_of_spec (S (Z.to_nat (Z.log2 n))) n []) as (D & -> & HD & Hd & Hval).
  - split; [exact Hn|]. rewrite Nat2Z.inj_succ, Z2Nat.id by apply Z.log2_nonneg.
    destruct (Z.eq_dec n 0) as [->|]; [cbn; lia|].
    apply Z.log2_spec. lia.
  - lia.
  - rewrite app_nil_r. repeat split; auto.
    unfold decimal. rewrite Hval. lia.
Qed.

Lemma commits_of_first_page_link (u : string) (pages : Z) :
  forallb not_equals (list_ascii_of_string u) = true -> (0 <= pages)%Z ->
  commits_of_link (first_page_link u pages) = Some pages.
Proof.
  intros Hu Hp. destruct (decimal_text_spec Hp) as (Hne & Hd & Hv).
  unfold commits_of_link, match_, search, first_page_link.
  rewrite !chars_append.
  set (U := list_ascii_of_string u) in *.
  set (D := list_ascii_of_string (decimal_text pages)) in *.
  cbn [list_ascii_of_string quoted String.append List.app].
  rewrite search_from_fail by reflexivity.
  rewrite (@search_from_url U _ Hu).
  repeat (rewrite search_from_fail by reflexivity).
  rewrite (@search_from_url U _ Hu).
  repeat (rewrite search_from_fail by reflexivity).
  match goal with
  | |- context [search_from false last_page ?t false ?sk] =>
      assert (Et : t = (opening ++ D ++ closing ++ [])%list) by reflexivity;
      rewrite Et; clear Et
  end.
  rewrite (@search_from_found false last_page _ false _ ([D], []))
    by (apply exec_last_page; assumption).
  now rewrite Hv.
Qed.

(** X9: when the commits request answers with the [Link] header of a first
    page whose last page is [pages], the commit count is [pages]; without a
    [Link] header (a listing of one page, so a repository of one commit), and
    for a response that is not [ok], it is 100. *)
Theorem commitCount_of_link (N : Type) (number : Number N) (repoData : body N)
    (u : string) (pages : Z) :
  forallb not_equals (list_ascii_of_string u) = true -> (0 <= pages)%Z ->
  commitCount_of repoData (Responded true (Some (first_page_link u pages))) = of_Z pages /\
  (forall ok, commitCount_of repoData (Responded ok None) = num 100) /\
  (forall linkHeader, commitCount_of repoData (Responded false linkHeader) = num 100).
Proof.
  intros Hu Hp. split; [|split].
  - unfold commitCount_of.
    rewrite (commits_of_first_page_link u Hu Hp).
    reflexivity.
  - intros [|]; reflexivity.
  - intros linkHeader. reflexivity.
Qed.

Definition a_body : body float :=
  let number := Float64.number Float64.coarse in
  {| json_name := "react"; json_full_name := "facebook/react";
     json_language := Some "JavaScript"; json_created_at := num 1369412154000;
     json_pushed_at := num 1705314600000; json_size := Some (num 45000);
     json_stargazers_count := Some (num 218000); json_forks_count := Some (num 45800) |}.

Lemma commitCount_of_link_witness :
  let number := Float64.number Float64.coarse in
  commitCount_of a_body
    (Responded true
       (Some (first_page_link "https://api.github.com/repositories/10270250/commits"
                15234)))
  = 15234%float.
Proof.
  intros number.
  exact (proj1 (@commitCount_of_link float number a_body
                  "https://api.github.com/repositories/10270250/commits" 15234
                  eq_refl ltac:(lia))).
Defined.

End CommitCount.

(** ** How many fireflies and falling leaves there can be *)

Section Caps.
Variable m : Float64.libm.
Variable Math_random : nat -> float.
Local Instance number_c : Number float := Float64.number m.
Import FloatFacts.
Local Open Scope js_scope.

Lemma ltb_irrefl (x : float) : PrimFloat.ltb x x = false.
Proof.
  destruct (PrimFloat.ltb x x) eqn:E; [|reflexivity].
  pose proof (ltb_leb E) as H1. pose proof (ltb_leb_false E) as H2. congruence.
Qed.

Lemma ltb_asym (x y : float) : PrimFloat.ltb x y = true -> PrimFloat.ltb y x = false.
Proof.
  intros H. destruct (PrimFloat.ltb y x) eqn:E; [|reflexivity].
  pose proof (ltb_trans H E) as H1. rewrite ltb_irrefl in H1. discriminate.
Qed.

(** Nothing is below 15 and above [Math.min(15, y)]. *)
Lemma min_15_cap (y : float) : PrimFloat.ltb 15 (Float64.min2 15 y) = false.
Proof.
  unfold Float64.min2. change (PrimFloat.is_nan 15) with false. cbn [orb].
  destruct (PrimFloat.is_nan y); [reflexivity|].
  destruct (PrimFloat.ltb y 15) eqn:E; [exact (ltb_asym E) | reflexivity].
Qed.

Lemma firefly_cap (l : list (@Firefly.t float)) (y : float) :
  (List.length l <= 15)%nat ->
  (length_of l < Math_min2 (num 15) y) = true -> (List.length l < 15)%nat.
Proof.
  intros Hl H. destruct (Nat.eq_dec (List.length l) 15) as [E|]; [|lia].
  unfold length_of in H. rewrite E in H.
  change (of_Z (Z.of_nat 15)) with 15%float in H.
  change (Math_min2 (num 15) y) with (Float64.min2 15 y) in H.
  change (PrimFloat.ltb 15 (Float64.min2 15 y) = true) in H.
  rewrite min_15_cap in H. discriminate.
Qed.

Lemma leaf_cap (l : list (@FallingLeaf.t float)) (now lastPush : float) :
  (List.length l <= 6)%nat ->
  (length_of l < Math_floor ((num 1 - calculateHealth now lastPush) * num 8)) = true ->
  (List.length l < 6)%nat.
Proof.
  intros Hl H. destruct (Nat.eq_dec (List.length l) 6) as [E|]; [|lia].
  unfold length_of in H. rewrite E in H.
  pose proof (calculateHealth_values m now lastPush) as Hv.
  unfold number_c in H. unfold number_h in Hv. cbn [In] in Hv.
  repeat (destruct Hv as [Hv|Hv];
          [rewrite <- Hv in H; vm_compute in H; discriminate H|]).
  contradiction.
Qed.

Lemma animateParticles_caps (fuel : nat) (input : frame_input float) (st st' : app float) :
  animateParticles Math_random fuel input st = Some st' ->
  ((List.length (firefliesRef st) <= 15)%nat -> (List.length (firefliesRef st') <= 15)%nat) /\
  ((List.length (fallingLeavesRef st) <= 6)%nat ->
   (List.length (fallingLeavesRef st') <= 6)%nat).
Proof.
  unfold animateParticles.
  destruct (drawTree _ _ _ _ _ _ _ _ _) as [[u w]|]; [|discriminate].
  pose proof (filter_update_fireflies_survivors Math_random (firefliesRef st) (randoms w))
    as Hf. apply survivors_length in Hf.
  destruct (filter_update_fireflies Math_random (randoms w) (firefliesRef st))
    as [fireflies1 k1]. cbn [fst] in Hf.
  pose proof (@filter_update_survivors _ _ _ leaf_kind (num 0) (fallingLeavesRef st)) as Hl.
  apply survivors_length in Hl. cbn [update_of leaf_kind] in Hl.
  set (leaves1 := filter_update FallingLeaf.update (fallingLeavesRef st)) in *.
  match goal with
  | |- (let '(fireflies2, k2) := ?e in _) = _ -> _ =>
      assert (Hf2 : (List.length (firefliesRef st) <= 15)%nat ->
                    (List.length (fst e) <= 15)%nat);
      [| destruct e as [fireflies2 k2]; cbn [fst] in Hf2 ]
  end.
  { intros H0.
    destruct (_ && _); [|cbn [fst]; lia].
    destruct (length_of fireflies1 < _) eqn:Ecap; [|cbn [fst]; lia].
    apply firefly_cap in Ecap; [|lia].
    destruct (_ < _); cbn [fst]; [|lia].
    rewrite length_app. cbn [List.length]. lia. }
  match goal with
  | |- (let '(leaves2, k3) := ?e in _) = _ -> _ =>
      assert (Hl2 : (List.length (fallingLeavesRef st) <= 6)%nat ->
                    (List.length (fst e) <= 6)%nat);
      [| destruct e as [leaves2 k3]; cbn [fst] in Hl2 ]
  end.
  { intros H0.
    destruct (_ && _); [|cbn [fst]; lia].
    destruct (length_of leaves1 < _) eqn:Ecap; [|cbn [fst]; lia].
    apply leaf_cap in Ecap; [|lia].
    destruct (_ < _); cbn [fst]; [|lia].
    rewrite length_app. cbn [List.length]. lia. }
  intros E. injection E as <-.
  cbn [firefliesRef fallingLeavesRef paint_screen]. split; assumption.
Qed.

End Caps.

(** X12: the fireflies never exceed 15 and the falling leaves never exceed
    6: a frame that starts within these bounds ends within them, and so do
    [loadRepo] and [handleLoadCustomRepo], which empty a collection or leave
    it as it is.  Binary64, whatever [Math.random] and [Math.log10]
    return. *)
Theorem particle_caps (m : Float64.libm) (Math_random : nat -> float) (fuel : nat)
    (input : frame_input float) (index : nat) (isCustom : bool) (fetched : repo float)
    (st : app float) :
  let number := Float64.number m in
  let within (s : app float) :=
    (List.length (firefliesRef s) <= 15)%nat /\ (List.length (fallingLeavesRef s) <= 6)%nat in
  within st ->
  (forall st', animateParticles Math_random fuel input st = Some st' -> within st') /\
  (forall st', loadRepo index isCustom st = Some st' -> within st') /\
  (forall st', handleLoadCustomRepo fetched st = Some st' -> within st').
Proof.
  intros number within [Hf Hl]. split; [|split].
  - intros st' E. destruct (@animateParticles_caps m Math_random fuel input st st' E) as [H1 H2].
    split; [exact (H1 Hf) | exact (H2 Hl)].
  - intros st' E. destruct (@loadRepo_resets _ _ _ _ _ _ E) as (_ & Ef & El & _).
    split; [rewrite Ef | rewrite El]; cbn; lia.
  - intros st' E. unfold handleLoadCustomRepo in E.
    destruct (findIndex _ _ 0) as [i|].
    + destruct (@loadRepo_resets _ _ _ _ _ _ E) as (_ & Ef & El & _).
      split; [rewrite Ef | rewrite El]; cbn; lia.
    + injection E as <-. split; assumption.
Qed.

Lemma particle_caps_witness :
  let number := Float64.number Float64.coarse in
  exists st',
    animateParticles (fun _ => 0%float) 12 a_frame a_state_with_fireflies = Some st' /\
    (List.length (firefliesRef st') <= 15)%nat /\
    (List.length (fallingLeavesRef st') <= 6)%nat.
Proof.
  intros number.
  assert (E : exists st',
            animateParticles (fun _ => 0%float) 12 a_frame a_state_with_fireflies
            = Some st') by (vm_compute; eexists; reflexivity).
  destruct E as (st' & E). exists st'. split; [exact E|].
  refine (proj1 (@particle_caps Float64.coarse (fun _ => 0%float) 12 a_frame 0 false
                   a_fetched_repo a_state_with_fireflies _) st' E).
  split; cbn; lia.
Defined.

(** ** The stack of canvas states

    [ctx.save()] pushes the drawing state, [ctx.restore()] pops it.  The
    calls of a procedure are followed with the height of the stack, counted
    from the height at which the procedure starts. *)

Section Stack.
Context {N : Type} {number : Number N}.

(** The height after [ops], started at height [i]; [None] when a [restore]
    pops a state the procedure did not push, or a [save] goes above [b]. *)
Fixpoint level (b : nat) (ops : list (op N)) (i : nat) : option nat :=
  match ops with
  | [] => Some i
  | save :: rest => if (i <? b)%nat then level b rest (S i) else None
  | restore :: rest => match i with O => None | S j => level b rest j end
  | _ :: rest => level b rest i
  end.

(** The calls leave the stack alone. *)
Definition stackless (o : op N) : bool :=
  match o with save | restore => false | _ => true end.

Lemma level_app (b : nat) (ops1 ops2 : list (op N)) :
  forall i, level b (ops1 ++ ops2) i
            = match level b ops1 i with Some j => level b ops2 j | None => None end.
Proof.
  induction ops1 as [|o ops1 IH]; intros i; [reflexivity|].
  destruct o; cbn [level List.app]; try apply IH.
  - destruct (i <? b)%nat; [apply IH | reflexivity].
  - destruct i; [reflexivity | apply IH].
Qed.

Lemma level_stackless (b : nat) (ops : list (op N)) (i : nat) :
  forallb stackless ops = true -> level b ops i = Some i.
Proof.
  induction ops as [|o ops IH]; [reflexivity|].
  cbn [forallb]. intros H. apply andb_true_iff in H as [Ho H].
  destruct o; try discriminate; cbn [level]; apply IH; exact H.
Qed.

Lemma level_flat_map (A : Type) (draw : A -> list (op N)) (b i : nat) (items : list A) :
  (forall a, level b (draw a) i = Some i) -> level b (flat_map draw items) i = Some i.
Proof.
  intros H. induction items as [|a items IH]; [reflexivity|].
  cbn [flat_map]. rewrite level_app, H. exact IH.
Qed.

(** [m] appends calls that take the stack from height [i] to height [j]
    without leaving [0 .. b]. *)
Definition tracks {A : Type} (b i j : nat) (m : M N A) : Prop :=
  forall w a w', m w = Some (a, w') ->
  exists ops, ctx w' = rev ops ++ ctx w /\ level b ops i = Some j.

Lemma tracks_ret (A : Type) (b i : nat) (a : A) : tracks b i i (ret a).
Proof.
  intros w a' w' E. injection E as _ <-. exists []. split; reflexivity.
Qed.

Lemma tracks_bind (A B : Type) (b i j k : nat) (m : M N A) (f : A -> M N B) :
  tracks b i j m -> (forall a, tracks b j k (f a)) -> tracks b i k (bind m f).
Proof.
  intros Hm Hf w r w' E. unfold bind in E.
  destruct (m w) as [[a w1]|] eqn:E1; [|discriminate].
  destruct (Hm _ _ _ E1) as (ops1 & C1 & L1).
  destruct (Hf a _ _ _ E) as (ops2 & C2 & L2).
  exists (ops1 ++ ops2). split.
  - rewrite C2, C1, rev_app_distr, app_assoc. reflexivity.
  - rewrite level_app, L1. exact L2.
Qed.

Lemma tracks_emit (b i j : nat) (ops : list (op N)) :
  level b ops i = Some j -> tracks b i j (emit ops).
Proof.
  intros H w a w' E. injection E as _ <-. exists ops. split; [reflexivity | exact H].
Qed.

Lemma tracks_quiet (A : Type) (b i : nat) (m : M N A) :
  (forall w a w', m w = Some (a, w') -> ctx w' = ctx w) -> tracks b i i m.
Proof.
  intros H w a w' E. exists []. split; [exact (H _ _ _ E) | reflexivity].
Qed.

Lemma tracks_rnd (b i : nat) : tracks b i i (@rnd N number).
Proof.
  apply tracks_quiet. intros w a w' E. unfold rnd in E.
  destruct (SeededRandom.next (random w)). injection E as _ <-. reflexivity.
Qed.

Lemma tracks_enter (b i : nat) : tracks b i i (@enter N).
Proof. apply tracks_quiet. intros w a w' E. injection E as _ <-. reflexivity. Qed.

Lemma tracks_use_random (b i : nat) (r : SeededRandom.t) : tracks b i i (@use_random N r).
Proof. apply tracks_quiet. intros w a w' E. injection E as _ <-. reflexivity. Qed.

Lemma tracks_push (b i : nat) (rand : nat -> N) (x y : N) (color : string) :
  tracks b i i (push_particle rand x y color).
Proof.
  apply tracks_quiet. intros w a w' E. unfold push_particle in E.
  destruct (particles w); injection E as _ <-; reflexivity.
Qed.

Lemma tracks_for_from (b i : nat) (body : nat -> M N unit) (n : nat) :
  (forall j, tracks b i i (body j)) -> forall j, tracks b i i (for_from j n body).
Proof.
  intros H. induction n as [|n IH]; intros j; cbn [for_from].
  - apply tracks_ret.
  - apply tracks_bind with (j := i); [apply H | intros _; apply IH].
Qed.

Lemma tracks_for (b i : nat) (body : nat -> M N unit) (n : nat) :
  (forall j, tracks b i i (body j)) -> tracks b i i (for_ n body).
Proof. intros H. apply tracks_for_from. exact H. Qed.

Lemma tracks_while_below (b i : nat) (bound : N) (body : N -> M N unit) (steps : nat) :
  (forall v, tracks b i i (body v)) ->
  forall j, tracks b i i (while_below steps j bound body).
Proof.
  intros H. induction steps as [|steps IH]; intros j; cbn [while_below].
  - apply tracks_ret.
  - destruct (lt _ bound); [|apply tracks_ret].
    apply tracks_bind with (j := i); [apply H | intros _; apply IH].
Qed.

Lemma tracks_diverge (A : Type) (b i j : nat) : tracks b i j (@diverge N A).
Proof. intros w a w' E. discriminate. Qed.

End Stack.

(** One step of a proof that a procedure is tracked at the same height. *)
Ltac tracks_same :=
  lazymatch goal with
  | |- tracks _ _ _ (if ?c then _ else _) => destruct c; tracks_same
  | |- tracks _ ?i _ (bind _ _) =>
      apply tracks_bind with (j := i); [tracks_same | intros ?; tracks_same]
  | |- tracks _ _ _ (ret _) => apply tracks_ret
  | |- tracks _ _ _ rnd => apply tracks_rnd
  | |- tracks _ _ _ enter => apply tracks_enter
  | |- tracks _ _ _ (use_random _) => apply tracks_use_random
  | |- tracks _ _ _ (push_particle _ _ _ _) => apply tracks_push
  | |- tracks _ _ _ (emit _) => apply tracks_emit; reflexivity
  | |- tracks _ _ _ (for_ _ _) => apply tracks_for; intros ?; tracks_same
  | |- _ => idtac
  end.

Section StackTree.
Context {N : Type} {number : Number N}.
Variable Math_random : nat -> N.
Local Open Scope js_scope.

Lemma level_every_100 (b i : nat) (line : N -> list (op N)) (steps : nat) :
  (forall v, forallb (@stackless N) (line v) = true) ->
  forall (from limit : Z), level b (every_100 steps from limit line) i = Some i.
Proof.
  intros H. induction steps as [|steps IH]; intros from limit; cbn [every_100];
    [reflexivity|].
  destruct (from <? limit)%Z; [|reflexivity].
  rewrite level_app, level_stackless by apply H. apply IH.
Qed.

(** [drawBranch] pushes one state for the branch and one more for each leaf,
    and has popped both before it calls itself. *)
Lemma drawBranch_tracks (fuel : nat) :
  forall (x y length angle depth maxDepth : N) (color : string) (health : N)
         (metrics : Metrics N),
  tracks 2 0 0
    (drawBranch Math_random fuel x y length angle depth maxDepth color health metrics).
Proof.
  induction fuel as [|fuel IH]; intros x y length angle depth maxDepth color health metrics;
    cbn [drawBranch]; [apply tracks_diverge|].
  apply tracks_bind with (j := 0%nat); [apply tracks_enter | intros _].
  destruct (_ || _); [apply tracks_ret|]. cbv zeta.
  apply tracks_bind with (j := 1%nat); [apply tracks_emit; reflexivity | intros _].
  do 5 (apply tracks_bind with (j := 1%nat); [solve [tracks_same] | intros ?]).
  apply tracks_bind with (j := 1%nat).
  { destruct (_ && _); [|apply tracks_ret].
    apply tracks_bind with (j := 1%nat); [solve [tracks_same] | intros leafCount].
    apply tracks_bind with (j := 1%nat); [|intros _; solve [tracks_same]].
    apply tracks_for. intros leaf.
    do 4 (apply tracks_bind with (j := 1%nat); [solve [tracks_same] | intros ?]).
    apply tracks_bind with (j := 2%nat); [apply tracks_emit; reflexivity | intros _].
    apply tracks_bind with (j := 2%nat); [solve [tracks_same] | intros _].
    apply tracks_emit. reflexivity. }
  intros _.
  apply tracks_bind with (j := 0%nat); [apply tracks_emit; reflexivity | intros _].
  apply tracks_bind with (j := 0%nat); [solve [tracks_same] | intros branchCount].
  apply tracks_for. intros _.
  do 2 (apply tracks_bind with (j := 0%nat); [solve [tracks_same] | intros ?]).
  apply IH.
Qed.

Lemma drawRootTendril_tracks (b i : nat) (fuel : nat) :
  forall (x y length angle depth maxDepth : N) (color : string) (opacity : N),
  tracks b i i (drawRootTendril fuel x y length angle depth maxDepth color opacity).
Proof.
  induction fuel as [|fuel IH]; intros x y length angle depth maxDepth color opacity;
    cbn [drawRootTendril]; [apply tracks_diverge|].
  destruct (_ || _); [apply tracks_ret|]. cbv zeta.
  do 5 (apply tracks_bind with (j := i); [solve [tracks_same] | intros ?]).
  apply tracks_for. intros _.
  do 2 (apply tracks_bind with (j := i); [solve [tracks_same] | intros ?]).
  apply IH.
Qed.

Lemma drawRoots_tracks (b : nat) (x y forkCount : N) (color : string) (health : N) :
  tracks (S b) 0 0 (drawRoots x y forkCount color health).
Proof.
  unfold drawRoots. cbv zeta.
  apply tracks_bind with (j := 1%nat); [apply tracks_emit; reflexivity | intros _].
  apply tracks_bind with (j := 1%nat); [|intros _; apply tracks_emit; reflexivity].
  apply tracks_while_below. intros v.
  do 2 (apply tracks_bind with (j := 1%nat); [solve [tracks_same] | intros ?]).
  apply drawRootTendril_tracks.
Qed.

Lemma drawAura_tracks (b : nat) (centerX centerY starCount : N) (color : string)
    (breathingFactor : N) :
  tracks (S b) 0 0 (drawAura centerX centerY starCount color breathingFactor).
Proof.
  unfold drawAura. destruct (_ < _); [apply tracks_ret|]. cbv zeta.
  apply tracks_emit. reflexivity.
Qed.

Lemma drawTree_tracks (fuel : nat) (width height : Z) (today : N) (data : repo N)
    (progress animationTime : N) :
  tracks 2 0 0 (drawTree Math_random fuel width height today data progress animationTime).
Proof.
  unfold drawTree. cbv zeta.
  apply tracks_bind with (j := 0%nat); [apply tracks_emit; reflexivity | intros _].
  do 2 (apply tracks_bind with (j := 0%nat);
        [apply tracks_emit, level_every_100; reflexivity | intros _]).
  apply tracks_bind with (j := 0%nat); [apply tracks_use_random | intros _].
  apply tracks_bind with (j := 0%nat).
  { destruct (_ && _); [apply drawAura_tracks | apply tracks_ret]. }
  intros _.
  apply tracks_bind with (j := 0%nat).
  { destruct (_ > _); [apply drawBranch_tracks | apply tracks_ret]. }
  intros _.
  apply tracks_bind with (j := 0%nat); [apply tracks_emit; reflexivity | intros _].
  destruct (_ && _); [|apply tracks_ret].
  apply tracks_bind with (j := 0%nat); [apply tracks_use_random | intros _].
  apply drawRoots_tracks.
Qed.

Lemma renderFrame_level (st : app N) : level 1 (renderFrame st) 0 = Some 0%nat.
Proof.
  unfold renderFrame.
  change ([drawImage_offscreen; set_globalCompositeOperation "lighter"] ++ ?r)
    with (drawImage_offscreen :: set_globalCompositeOperation "lighter" :: r).
  cbn [level].
  rewrite level_app, level_flat_map by reflexivity.
  rewrite level_app, level_flat_map by reflexivity.
  cbn [List.app level]. apply level_flat_map. reflexivity.
Qed.

End StackTree.

(** X13: every [ctx.save()] is matched by a [ctx.restore()].  The calls one
    frame adds to the offscreen canvas ([drawTree]) never pop a state the
    frame did not push, hold at most two pushed states at a time and leave
    none behind; the calls it adds to the visible canvas ([renderFrame])
    hold at most one and leave none behind.  Any arithmetic. *)
Theorem canvas_states_balanced (N : Type) (number : Number N) (Math_random : nat -> N)
    (fuel : nat) (input : frame_input N) (st st' : app N) :
  animateParticles Math_random fuel input st = Some st' ->
  exists drawn painted,
    offscreen st' = rev drawn ++ offscreen st /\ level 2 drawn 0 = Some 0%nat /\
    screen st' = rev painted ++ screen st /\ level 1 painted 0 = Some 0%nat.
Proof.
  unfold animateParticles. cbv zeta.
  destruct (drawTree _ _ _ _ _ _ _ _ _) as [[[] w]|] eqn:E; [|discriminate].
  destruct (@drawTree_tracks N number Math_random _ _ _ _ _ _ _ _ _ _ E) as (drawn & C & L). cbn [ctx] in C.
  destruct (filter_update_fireflies _ _ _) as [fireflies1 k1].
  match goal with |- context [let '(_, _) := ?e in _] => destruct e as [fireflies2 k2] end.
  match goal with |- context [let '(_, _) := ?e in _] => destruct e as [leaves2 k3] end.
  intros H. injection H as <-. cbn [offscreen screen paint_screen].
  exists drawn. eexists. split; [exact C|]. split; [exact L|].
  split; [reflexivity | apply renderFrame_level].
Qed.

Lemma canvas_states_balanced_witness :
  let number := Float64.number Float64.coarse in
  exists st' drawn painted,
    animateParticles (fun _ => 0%float) 12 a_frame a_state_with_fireflies = Some st' /\
    offscreen st' = rev drawn ++ offscreen a_state_with_fireflies /\
    level 2 drawn 0 = Some 0%nat /\
    screen st' = rev painted ++ screen a_state_with_fireflies /\
    level 1 painted 0 = Some 0%nat.
Proof.
  intros number.
  assert (E : exists st',
            animateParticles (fun _ => 0%float) 12 a_frame a_state_with_fireflies
            = Some st') by (vm_compute; eexists; reflexivity).
  destruct E as (st' & E).
  destruct (@canvas_states_balanced float number (fun _ => 0%float) 12 a_frame
              a_state_with_fireflies st' E) as (drawn & painted & H).
  exists st', drawn, painted. split; [exact E | exact H].
Defined.

(** ** Binary64: which operations keep a number a number

    Rounding never produces NaN: a product with a finite factor that is not
    zero, and the floor, of a double that is not NaN are not NaN. *)

Module RoundingFacts.

Import FloatFacts.
Local Open Scope Z_scope.

Lemma shr_1_nonneg (mrs : shr_record) : 0 <= shr_m mrs -> 0 <= shr_m (shr_1 mrs).
Proof.
  destruct mrs as [mant r0 s0]. destruct mant as [|[p|p|]|p]; cbn; lia.
Qed.

Lemma iter_shr_1_nonneg (p : positive) :
  forall mrs, 0 <= shr_m mrs -> 0 <= shr_m (iter_pos shr_1 p mrs).
Proof.
  induction p as [p IH|p IH|]; intros mrs H; cbn [iter_pos].
  - apply IH, IH, shr_1_nonneg, H.
  - apply IH, IH, H.
  - apply shr_1_nonneg, H.
Qed.

Lemma shr_fexp_nonneg (mant e : Z) (loc : location) :
  0 <= mant -> 0 <= shr_m (fst (shr_fexp prec emax mant e loc)).
Proof.
  intros H. unfold shr_fexp, shr.
  assert (H0 : 0 <= shr_m (shr_record_of_loc mant loc))
    by (destruct loc as [|[]]; exact H).
  destruct (fexp prec emax (Zdigits2 mant + e) - e); cbn [fst]; auto.
  apply iter_shr_1_nonneg, H0.
Qed.

Lemma binary_round_aux_number (sx : bool) (mx ex : Z) (lx : location) :
  0 <= mx -> binary_round_aux prec emax sx mx ex lx <> S754_nan.
Proof.
  intros H. unfold binary_round_aux.
  pose proof (shr_fexp_nonneg ex lx H) as H1.
  destruct (shr_fexp prec emax mx ex lx) as [mrs1 e1]. cbn [fst] in H1.
  assert (H2 : 0 <= round_nearest_even (shr_m mrs1) (loc_of_shr_record mrs1)).
  { unfold round_nearest_even.
    destruct (loc_of_shr_record mrs1) as [|[]]; try destruct (Z.even _); lia. }
  pose proof (shr_fexp_nonneg e1 loc_Exact H2) as H3.
  destruct (shr_fexp prec emax _ e1 loc_Exact) as [mrs2 e2]. cbn [fst] in H3.
  destruct (shr_m mrs2); [discriminate | destruct (_ <=? _); discriminate | lia].
Qed.

Lemma binary_normalize_number (mant e : Z) (szero : bool) :
  binary_normalize prec emax mant e szero <> S754_nan.
Proof.
  destruct mant; cbn [binary_normalize]; [discriminate| |];
    unfold binary_round; destruct (shl_align _ _ _); apply binary_round_aux_number; lia.
Qed.

Lemma is_nan_false (x : float) : PrimFloat.is_nan x = false -> ~ isNaN x.
Proof.
  unfold PrimFloat.is_nan, isNaN. rewrite FloatAxioms.eqb_spec. intros H E. rewrite E in H.
  discriminate.
Qed.

Lemma number_is_nan (x : float) : ~ isNaN x -> PrimFloat.is_nan x = false.
Proof.
  unfold PrimFloat.is_nan, isNaN. rewrite FloatAxioms.eqb_spec. unfold SFeqb.
  destruct (Prim2SF x) as [sx|sx| |sx mx ex]; intros H; cbn [SFcompare].
  - reflexivity.
  - destruct sx; reflexivity.
  - contradiction.
  - rewrite Z.compare_refl.
    change (Pos.compare_cont Eq mx mx) with (Pos.compare mx mx).
    rewrite Pos.compare_refl. destruct sx; reflexivity.
Qed.

Lemma mul_number (x y : float) (sy : bool) (my : positive) (ey : Z) :
  Prim2SF y = S754_finite sy my ey -> ~ isNaN x -> ~ isNaN (x * y)%float.
Proof.
  unfold isNaN. rewrite FloatAxioms.mul_spec. intros -> H. unfold SF64mul.
  destruct (Prim2SF x) as [sx|sx| |sx mx ex]; cbn [SFmul]; try discriminate.
  - contradiction.
  - apply binary_round_aux_number. lia.
Qed.

Lemma add_number (x y : float) (sy : bool) (my : positive) (ey : Z) :
  Prim2SF y = S754_finite sy my ey -> ~ isNaN x -> ~ isNaN (x + y)%float.
Proof.
  unfold isNaN. rewrite FloatAxioms.add_spec. intros -> H. unfold SF64add.
  destruct (Prim2SF x) as [sx|sx| |sx mx ex]; cbn [SFadd]; try discriminate.
  - contradiction.
  - apply binary_normalize_number.
Qed.

Lemma of_int_number (z : Z) : - 2 ^ 62 < z < 2 ^ 62 -> ~ isNaN (Float64.of_int z).
Proof.
  intros H. unfold Float64.of_int, isNaN.
  destruct ((0 <=? z) && (z <? 4611686018427387904)) eqn:E1.
  { rewrite of_uint63_spec. apply binary_normalize_number. }
  destruct ((z <? 0) && (-4611686018427387904 <? z)) eqn:E2.
  { rewrite FloatAxioms.opp_spec, of_uint63_spec.
    pose proof (@binary_normalize_number (Uint63.to_Z (Uint63.of_Z (- z))) 0 false) as Hn.
    destruct (binary_normalize prec emax _ 0 false); cbn [SFopp]; congruence. }
  apply andb_false_iff in E1, E2. change (2 ^ 62) with 4611686018427387904 in H. lia.
Qed.

Lemma digits2_pos_bound (p : positive) : Zpos p < 2 ^ Zpos (digits2_pos p).
Proof.
  induction p as [p IH|p IH|]; cbn [digits2_pos];
    rewrite ?Pos2Z.inj_succ, ?Z.pow_succ_r by lia; [lia | lia | reflexivity].
Qed.

Lemma mantissa_bound (x : float) (sx : bool) (mx : positive) (ex : Z) :
  Prim2SF x = S754_finite sx mx ex -> Zpos mx < 2 ^ 53.
Proof.
  intros E. pose proof (Prim2SF_valid x) as V. rewrite E in V.
  cbn [valid_binary] in V. unfold bounded, canonical_mantissa in V.
  apply andb_true_iff in V as [V _]. apply Z.eqb_eq in V.
  unfold fexp in V. change prec with 53 in V.
  assert (D : Zpos (digits2_pos mx) <= 53) by lia.
  apply Z.lt_le_trans with (1 := digits2_pos_bound mx).
  apply Z.pow_le_mono_r; lia.
Qed.

Lemma floor_number (x : float) : ~ isNaN x -> ~ isNaN (Float64.floor x).
Proof.
  intros H. unfold Float64.floor.
  destruct (Prim2SF x) as [sx|sx| |sx mx ex] eqn:E; try exact H.
  destruct (0 <=? ex) eqn:Ee; [exact H|]. apply Z.leb_gt in Ee.
  pose proof (mantissa_bound _ E) as B.
  assert (P : 0 < 2 ^ (- ex)) by (apply Z.pow_pos_nonneg; lia).
  apply of_int_number. destruct sx.
  - assert (L : Z.neg mx <= Z.neg mx / 2 ^ (- ex)) by (apply Z.div_le_lower_bound; nia).
    assert (U : Z.neg mx / 2 ^ (- ex) < 0) by (apply Z.div_lt_upper_bound; lia).
    lia.
  - assert (L : 0 <= Z.pos mx / 2 ^ (- ex)) by (apply Z.div_pos; lia).
    assert (U : Z.pos mx / 2 ^ (- ex) <= Z.pos mx) by (apply Z.div_le_upper_bound; nia).
    lia.
Qed.

End RoundingFacts.

(** ** Binary64: [drawTree] returns when [maxDepth] is a number *)

Section TreeReturnsFloat.
Variable m : Float64.libm.
Variable Math_random : nat -> float.
Local Instance number_r : Number float := Float64.number m.
Import FloatFacts RoundingFacts.
Local Open Scope js_scope.

(** The bounds of [Math.min(10, Math.max(4, ...))] hold as soon as the
    logarithm is a number, infinite or not. *)
Lemma maxDepth_of_number (c : float) :
  PrimFloat.is_nan (Float64.libm_log10 m (c + num 1)) = false ->
  (maxDepth_of c <= num 10) = true /\ (num 4 <= maxDepth_of c) = true.
Proof.
  intros H. unfold maxDepth_of.
  cbn [Math_min2 Math_max2 Math_floor Math_log10 mul number_r Float64.number].
  set (f := Float64.floor _).
  assert (Hf : PrimFloat.is_nan f = false).
  { apply number_is_nan, floor_number.
    apply (@mul_number _ (num 1.6) false 7205759403792794 (-52)); [reflexivity|].
    apply is_nan_false. exact H. }
  unfold Float64.max2. change (PrimFloat.is_nan (num 4)) with false. rewrite Hf. cbn [orb].
  unfold Float64.min2. change (PrimFloat.is_nan (num 10)) with false. cbn [orb].
  destruct (PrimFloat.ltb (num 4) f) eqn:E4.
  - rewrite Hf. destruct (PrimFloat.ltb f (num 10)) eqn:E10.
    + split; [exact (ltb_leb E10) | exact (ltb_leb E4)].
    + split; reflexivity.
  - split; reflexivity.
Qed.

(** A logarithm that is NaN leaves [maxDepth] NaN. *)
Lemma maxDepth_of_nan (c : float) :
  PrimFloat.is_nan (Float64.libm_log10 m (c + num 1)) = true ->
  PrimFloat.is_nan (maxDepth_of c) = true.
Proof.
  intros H. unfold maxDepth_of.
  cbn [Math_min2 Math_max2 Math_floor Math_log10 mul add number_r Float64.number].
  assert (Hl : isNaN (Float64.libm_log10 m (c + num 1))).
  { destruct (Prim2SF (Float64.libm_log10 m (c + num 1))) eqn:E;
      try (exfalso; apply not_true_iff_false in H; [exact H|];
           apply number_is_nan; unfold isNaN; rewrite E; discriminate).
    exact E. }
  rewrite (isNaN_eq Hl). vm_compute. reflexivity.
Qed.

End TreeReturnsFloat.

(** X14: [maxDepth] in binary64, whatever [Math.log10] is.  When
    [Math.log10(commitCount + 1)] is NaN, [maxDepth] is NaN; when it is a
    number (an infinity included), [maxDepth] is in 4 .. 10, and the
    recursion of [drawBranch] under this [maxDepth] ends, whatever the length
    and the angle it starts with: twelve nested invocations suffice, and
    there are at most 4^11 invocations in all. *)
Theorem maxDepth_in_range_float (m : Float64.libm) (Math_random : nat -> float)
    (commitCount_ : float) :
  let number := Float64.number m in
  let logarithm := Float64.libm_log10 m (commitCount_ + 1)%float in
  let maxDepth := maxDepth_of commitCount_ in
  (PrimFloat.is_nan logarithm = true -> PrimFloat.is_nan maxDepth = true) /\
  (PrimFloat.is_nan logarithm = false ->
   ((num 4 <= maxDepth) && (maxDepth <= num 10))%js%bool = true /\
   forall (fuel : nat) (x y length angle : float) (color : string) (health : float)
          (metrics : Metrics float) (w : world float),
     (12 <= fuel)%nat ->
     exists w',
       drawBranch Math_random fuel x y length angle (num 0) maxDepth color health metrics w
       = Some (tt, w') /\
       (Z.of_nat (calls w') <= Z.of_nat (calls w) + 4 ^ 11)%Z).
Proof.
  intros number logarithm maxDepth. split.
  - exact (@maxDepth_of_nan m commitCount_).
  - intros H. destruct (@maxDepth_of_number m commitCount_ H) as [H10 H4].
    split; [apply andb_true_iff; split; assumption|].
    intros fuel x y length angle color health metrics w Hfuel.
    pose proof (@drawBranch_returns float number Math_random maxDepth 11
                  (@beyond_limit_float m 10 maxDepth ltac:(lia) H10)
                  (@trunk_levels_float m) 11 0%nat fuel x y length angle color health
                  metrics eq_refl ltac:(lia) w) as (a & w' & E & _ & Hc).
    exists w'. destruct a. split; [exact E|].
    pose proof (invocations_trunk 11) as Hb.
    assert (P : Z.of_nat (4 ^ 11) = (4 ^ 11)%Z) by (rewrite Nat2Z.inj_pow; reflexivity).
    lia.
Qed.

Lemma maxDepth_in_range_float_witness :
  let number := Float64.number Float64.coarse in
  ((num 4 <= maxDepth_of 234%float) && (maxDepth_of 234%float <= num 10))%js%bool = true /\
  exists w',
    drawBranch (fun _ => 0%float) 12 550%float 520%float nan 0%float (num 0)
      (maxDepth_of 234%float) "#ff4500" 1%float
      {| commitDensity := None; ageMultiplier := None; sizeSpread := None;
         windOffset := None; glowIntensity := None |}
      {| ctx := []; random := SeededRandom.new 0; particles := Some [];
         randoms := 0; calls := 0 |} = Some (tt, w') /\
    (Z.of_nat (calls w') <= 4 ^ 11)%Z.
Proof.
  intros number.
  destruct (@maxDepth_in_range_float Float64.coarse (fun _ => 0%float) 234%float)
    as (_ & H).
  destruct (H ltac:(vm_compute; reflexivity)) as (Hr & Hd).
  split; [exact Hr|].
  destruct (Hd 12%nat 550%float 520%float nan 0%float "#ff4500"%string 1%float
              {| commitDensity := None; ageMultiplier := None; sizeSpread := None;
                 windOffset := None; glowIntensity := None |}
              {| ctx := []; random := SeededRandom.new 0; particles := Some [];
                 randoms := 0; calls := 0 |} (le_n 12)) as (w' & E & Hc).
  exists w'. split; [exact E | exact Hc].
Defined.

(** ** From the response to the depth of the tree *)

Section FetchAndDepth.

Import Fetch FetchFacts FloatFacts RoundingFacts.
Variable m : Float64.libm.
Local Instance number_d : Number float := Float64.number m.
Local Open Scope js_scope.

(** When the commits request did not throw, the commit count is a natural
    number: 100, or the number of the last page. *)
Lemma commitCount_of_responded (repoData : body float) (ok : bool)
    (linkHeader : option string) :
  exists k : Z,
    commitCount_of repoData (Responded ok linkHeader) = of_Z k /\ (0 <= k)%Z /\
    (k = 100%Z \/
     exists l, ok = true /\ linkHeader = Some l /\ commits_of_link l = Some k).
Proof.
  unfold commitCount_of.
  destruct ok; [|exists 100%Z; split; [reflexivity | split; [lia | now left]]].
  destruct linkHeader as [l|]; [|exists 100%Z; split; [reflexivity | split; [lia | now left]]].
  destruct (String.eqb l ""); [exists 100%Z; split; [reflexivity | split; [lia | now left]]|].
  destruct (commits_of_link l) as [pages|] eqn:E;
    [|exists 100%Z; split; [reflexivity | split; [lia | now left]]].
  exists pages. split; [reflexivity|]. split; [exact (commits_of_link_nonneg _ E)|].
  right. exists l. auto.
Qed.

(** [Math.max(100, stars * 2)] of a number is a number, 100 at least. *)
Lemma fallback_number (stars_ : float) :
  ~ isNaN stars_ ->
  (num 100 <= Math_max2 (num 100) (stars_ * num 2)) = true.
Proof.
  intros H. cbn [Math_max2 mul number_d Float64.number]. unfold Float64.max2.
  assert (Hp : PrimFloat.is_nan (PrimFloat.mul stars_ (num 2)) = false).
  { apply number_is_nan.
    apply (@mul_number _ (num 2) false 4503599627370496 (-51)); [reflexivity | exact H]. }
  change (PrimFloat.is_nan (num 100)) with false. rewrite Hp. cbn [orb].
  destruct (PrimFloat.ltb (num 100) (PrimFloat.mul stars_ (num 2))) eqn:E.
  - exact (ltb_leb E).
  - reflexivity.
Qed.

Lemma fallback_nan : PrimFloat.is_nan (Math_max2 (num 100) (NaN * num 2)) = true.
Proof. vm_compute. reflexivity. Qed.

End FetchAndDepth.

(** X10: the commit count of a fetched repository and the depth of its
    tree, in binary64 and whatever [Math.log10] is.  When the commits request
    did not throw, the commit count is a natural number, 100 or the number of
    the last page of the [Link] header, and [maxDepth] is in 4 .. 10 as soon
    as [Math.log10] of it plus 1 is a number.  When the request threw, the
    commit count is [Math.max(100, stargazers_count * 2)]: a number of 100 at
    least when [stargazers_count] is a number, and NaN when the field is
    missing ([undefined]); [maxDepth] is then NaN too, [Math.log10] of NaN
    being NaN. *)
Theorem fetched_commitCount (m : Float64.libm) (now today progress animationTime : float)
    (repoData : Fetch.body float) :
  let number := Float64.number m in
  (forall (ok : bool) (linkHeader : option string),
     exists (data : repo float) (k : Z),
       Fetch.fetchGitHubRepo now (Fetch.Ok repoData) (Fetch.Responded ok linkHeader)
       = Fetch.Fetched data /\
       commitCount data = Some (of_Z k) /\ (0 <= k)%Z /\
       (k = 100%Z \/
        exists l, ok = true /\ linkHeader = Some l /\ Fetch.commits_of_link l = Some k) /\
       (PrimFloat.is_nan (Float64.libm_log10 m (of_Z k + 1)%float) = false ->
        let maxDepth := rp_maxDepth (renderParams today data progress animationTime) in
        ((num 4 <= maxDepth) && (maxDepth <= num 10))%js%bool = true)) /\
  (exists data : repo float,
     Fetch.fetchGitHubRepo now (Fetch.Ok repoData) Fetch.Threw = Fetch.Fetched data /\
     (forall stars_ : float,
        Fetch.json_stargazers_count repoData = Some stars_ ->
        PrimFloat.is_nan stars_ = false ->
        exists c, commitCount data = Some c /\ (num 100 <= c)%js = true) /\
     (Fetch.json_stargazers_count repoData = None ->
      Float64.libm_log10 m nan = nan ->
      option_map PrimFloat.is_nan (commitCount data) = Some true /\
      PrimFloat.is_nan (rp_maxDepth (renderParams today data progress animationTime))
      = true)).
Proof.
  intros number. split.
  - intros ok linkHeader.
    destruct (@commitCount_of_responded m repoData ok linkHeader) as (k & Ek & Hk & Hwhich).
    eexists. exists k. split; [reflexivity|]. cbn [commitCount].
    unfold number_d in Ek. fold number in Ek. rewrite Ek.
    split; [reflexivity|]. split; [exact Hk|]. split; [exact Hwhich|].
    intros Hlog.
    cbn [renderParams rp_maxDepth commitCount to_number].
    destruct (@maxDepth_of_number m (of_Z k) Hlog) as [H10 H4].
    apply andb_true_iff. split; assumption.
  - eexists. split; [reflexivity|]. cbn [commitCount]. split.
    + intros stars_ Es Hn. eexists. split; [reflexivity|].
      unfold Fetch.commitCount_of. rewrite Es. cbn [to_number].
      apply (@fallback_number m). apply RoundingFacts.is_nan_false. exact Hn.
    + intros Es Hlog. unfold Fetch.commitCount_of. rewrite Es. cbn [to_number option_map].
      split; [f_equal; exact (@fallback_nan m)|].
      cbn [renderParams rp_maxDepth commitCount to_number].
      apply (@maxDepth_of_nan m).
      match goal with
      | |- PrimFloat.is_nan (Float64.libm_log10 m ?a) = true =>
          replace a with nan by (vm_compute; reflexivity)
      end.
      rewrite Hlog. reflexivity.
Qed.

Definition a_bare_body : Fetch.body float :=
  {| Fetch.json_name := "bare"; Fetch.json_full_name := "user/bare";
     Fetch.json_language := None;
     Fetch.json_created_at := Float64.of_int a_date;
     Fetch.json_pushed_at := Float64.of_int a_date;
     Fetch.json_size := None; Fetch.json_stargazers_count := None;
     Fetch.json_forks_count := None |}.

Lemma fetched_commitCount_witness :
  let number := Float64.number Float64.coarse in
  exists data : repo float,
    Fetch.fetchGitHubRepo (Float64.of_int a_date) (Fetch.Ok a_bare_body) Fetch.Threw
    = Fetch.Fetched data /\
    option_map PrimFloat.is_nan (commitCount data) = Some true /\
    PrimFloat.is_nan (rp_maxDepth (renderParams (Float64.of_int a_date) data 1%float 0%float))
    = true.
Proof.
  intros number.
  destruct (@fetched_commitCount Float64.coarse (Float64.of_int a_date)
              (Float64.of_int a_date) 1%float 0%float a_bare_body)
    as (_ & data & E & _ & H).
  exists data. split; [exact E|]. exact (H eq_refl eq_refl).
Defined.

(** ** The growth animation

    The effect that runs while [isAnimating] holds: [animate] is called once
    a frame, [startTime] is the [Date.now()] of the start of the effect and
    [now] the [Date.now()] of the call.  [Math.pow] is not among the
    operations of [Number]; it is a parameter here. *)

Section Growth.
Context {N : Type} {number : Number N}.
Variable Math_pow : N -> N -> N.
Local Open Scope js_scope.

(** One call of [animate]; the boolean tells whether it requests another
    frame. *)
Definition animate (startTime now : N) (st : app N) : app N * bool :=
  let duration := num 2000 in
  let elapsed := now - startTime in
  let progress := Math_min2 (num 1) (elapsed / duration) in
  let easedProgress := num 1 - Math_pow (num 1 - progress) (num 3) in
  let again := progress < num 1 in
  ({| repoData := repoData st; selectedRepo := selectedRepo st;
      customRepos := customRepos st;
      isAnimating := if again then isAnimating st else false;
      growthProgress := easedProgress;
      growthProgressRef := easedProgress;
      lastRenderedProgressRef := lastRenderedProgressRef st;
      particlesRef := particlesRef st; firefliesRef := firefliesRef st;
      fallingLeavesRef := fallingLeavesRef st;
      animationTimeRef := animationTimeRef st; lastFrameTimeRef := lastFrameTimeRef st;
      width := width st; height := height st; offscreen := offscreen st;
      screen := screen st; randoms_made := randoms_made st |},
   again).

End Growth.

(** [Math.pow] on the real numbers extended with NaN. *)
Definition Math_pow_exact (x y : option R) : option R :=
  match x, y with
  | Some a, Some b =>
      match Exact.to_integer y with
      | Some z =>
          if (0 <=? z)%Z then Some (a ^ Z.to_nat z)%R
          else if Req_dec_T a 0 then None
          else Some (/ a ^ Z.to_nat (- z))%R
      | None =>
          if Rlt_dec 0 a then Some (Rpower a b)
          else if Req_dec_T a 0 then (if Rlt_dec 0 b then Some 0%R else None)
          else None
      end
  | None, Some b => if Req_dec_T b 0 then Some 1%R else None
  | _, None => None
  end.

Module GrowthExact.

Import Exact.
Local Open Scope R_scope.
#[local] Existing Instance Exact.number.

(** The ease-out curve. *)
Definition eased (elapsed : R) : R := 1 - (1 - Rmin 1 (elapsed / 2000)) ^ 3.

Lemma cube (a : R) : Math_pow_exact (Some a) (num 3) = Some (a ^ 3).
Proof.
  unfold Math_pow_exact. rewrite MetricsExact.num_Z, ColourExact2.to_integer_IZR.
  reflexivity.
Qed.

Lemma animate_exact (startTime now : R) (st : app (option R)) :
  let st' := fst (animate Math_pow_exact (Some startTime) (Some now) st) in
  growthProgressRef st' = Some (eased (now - startTime)) /\
  growthProgress st' = Some (eased (now - startTime)) /\
  snd (animate Math_pow_exact (Some startTime) (Some now) st)
  = Rltb (Rmin 1 ((now - startTime) / 2000)) 1 /\
  isAnimating st'
  = if Rltb (Rmin 1 ((now - startTime) / 2000)) 1 then isAnimating st else false.
Proof.
  unfold animate. cbv zeta. cbn [fst snd growthProgressRef growthProgress isAnimating].
  rewrite !MetricsExact.num_Z.
  cbn [sub div Math_min2 Exact.number lift2].
  rewrite ColourExact2.quotient_nz by lra. cbn [lift2].
  replace (Some 3) with (@num (option R) Exact.number 3%Q)
    by (apply MetricsExact.num_Z).
  rewrite cube. cbn [lift2 lt test2 Exact.number]. unfold eased. repeat split.
Qed.

Lemma cube_le (a b : R) : a <= b -> a ^ 3 <= b ^ 3.
Proof.
  intros H.
  assert (E : b ^ 3 - a ^ 3 = (b - a) * ((b + a / 2) ^ 2 + 3 / 4 * a ^ 2)) by field.
  assert (0 <= (b + a / 2) ^ 2) by apply pow2_ge_0.
  assert (0 <= a ^ 2) by apply pow2_ge_0.
  assert (0 <= (b - a) * ((b + a / 2) ^ 2 + 3 / 4 * a ^ 2))
    by (apply Rmult_le_pos; lra).
  lra.
Qed.

Lemma cube_pos (a : R) : 0 < a -> 0 < a ^ 3.
Proof. intros H. apply pow_lt. exact H. Qed.

Lemma eased_range (e : R) : 0 <= e -> 0 <= eased e <= 1.
Proof.
  intros H. unfold eased.
  assert (Hp : 0 <= Rmin 1 (e / 2000) <= 1).
  { split; [apply Rmin_glb; lra | apply Rmin_l]. }
  pose proof (@cube_le 0 (1 - Rmin 1 (e / 2000)) ltac:(lra)) as H0.
  pose proof (@cube_le (1 - Rmin 1 (e / 2000)) 1 ltac:(lra)) as H1.
  replace (0 ^ 3) with 0 in H0 by ring. replace (1 ^ 3) with 1 in H1 by ring. lra.
Qed.

Lemma eased_mono (e e' : R) : e <= e' -> eased e <= eased e'.
Proof.
  intros H. unfold eased.
  assert (Hp : Rmin 1 (e / 2000) <= Rmin 1 (e' / 2000)).
  { apply Rle_min_compat_l. lra. }
  pose proof (@cube_le (1 - Rmin 1 (e' / 2000)) (1 - Rmin 1 (e / 2000)) ltac:(lra)).
  lra.
Qed.

Lemma eased_done (e : R) : 2000 <= e -> eased e = 1.
Proof.
  intros H. unfold eased. rewrite Rmin_left by lra. ring.
Qed.

Lemma eased_growing (e : R) : e < 2000 -> eased e < 1.
Proof.
  intros H. unfold eased. rewrite Rmin_right by lra.
  pose proof (@cube_pos (1 - e / 2000) ltac:(lra)). lra.
Qed.

Lemma again_exact (e : R) : Rltb (Rmin 1 (e / 2000)) 1 = true <-> e < 2000.
Proof.
  unfold Rltb. destruct (Rlt_dec (Rmin 1 (e / 2000)) 1) as [H|H]; split; intros H'.
  - destruct (Rlt_dec e 2000) as [|Hn]; [assumption|].
    rewrite Rmin_left in H by lra. lra.
  - reflexivity.
  - discriminate.
  - exfalso. apply H. rewrite Rmin_right by lra. lra.
Qed.

End GrowthExact.

(** X15: the growth animation.  A frame at [now] of an effect started at
    [startTime] sets the growth progress, state and ref alike, to
    1 - (1 - min(1, elapsed / 2000))^3.  The progress is in 0 .. 1 when the
    clock has not gone backwards and never decreases from one frame to a
    later one; a frame requests another one exactly when elapsed < 2000, and
    then the progress is below 1; the first frame with elapsed >= 2000 sets
    the progress to 1, clears [isAnimating] and requests nothing.  Nothing
    clamps the progress from below: a clock set back by a second gives a
    negative progress.  Exact arithmetic. *)
Theorem growth_animation_exact (startTime now later : R) (st : app (option R)) :
  let number := Exact.number in
  let frame := fun t : R => animate Math_pow_exact (Some startTime) (Some t) st in
  let progress := fun t : R => GrowthExact.eased (t - startTime) in
  (growthProgress (fst (frame now)) = Some (progress now) /\
   growthProgressRef (fst (frame now)) = Some (progress now)) /\
  ((startTime <= now)%R -> (0 <= progress now <= 1)%R) /\
  ((now <= later)%R -> (progress now <= progress later)%R) /\
  (snd (frame now) = true <-> (now - startTime < 2000)%R) /\
  ((now - startTime < 2000)%R ->
     (progress now < 1)%R /\ isAnimating (fst (frame now)) = isAnimating st) /\
  ((2000 <= now - startTime)%R ->
     progress now = 1%R /\ isAnimating (fst (frame now)) = false) /\
  (progress (startTime - 1000) < 0)%R.
Proof.
  intros number frame progress. subst number frame progress. cbv beta.
  destruct (GrowthExact.animate_exact startTime now st) as (Href & Hst & Hagain & Hanim).
  cbv zeta in Href, Hst, Hanim.
  split; [split; assumption|].
  split; [intros H; apply GrowthExact.eased_range; lra|].
  split; [intros H; apply GrowthExact.eased_mono; lra|].
  split; [rewrite Hagain; apply GrowthExact.again_exact|].
  split; [|split].
  - intros H. split; [apply GrowthExact.eased_growing; exact H|].
    rewrite Hanim. apply GrowthExact.again_exact in H. rewrite H. reflexivity.
  - intros H. split; [apply GrowthExact.eased_done; exact H|].
    rewrite Hanim.
    destruct (Exact.Rltb _ 1) eqn:E; [|reflexivity].
    apply GrowthExact.again_exact in E. lra.
  - unfold GrowthExact.eased.
    replace (startTime - 1000 - startTime)%R with (-1000)%R by ring.
    rewrite Rmin_right by lra. lra.
Qed.

(** ** What the sidebar shows of the health *)

Section Sidebar.
Context {N : Type} {number : Number N}.
Local Open Scope js_scope.
Local Open Scope string_scope.

Definition healthLabel (health : N) : string :=
  if health > num 0.8 then "Thriving"
  else if health > num 0.6 then "Active"
  else if health > num 0.4 then "Dormant"
  else "Withered".

(** The class of the heart beside the label. *)
Definition heart_class (health : N) : string :=
  if health > num 0.6 then "text-green-400"
  else if health > num 0.3 then "text-yellow-400"
  else "text-red-400".

(** [backgroundColor] of the health bar, whose width is [health * 100] percent. *)
Definition bar_color (color : string) (health : N) : string :=
  if health > num 0.6 then color
  else if health > num 0.3 then "#fbbf24"
  else "#ef4444".

End Sidebar.

(** X16: what is shown for a repository depends on the days d since the
    last push alone.  d < 30: Thriving, a green heart, the bar in the
    language colour; d < 90: Active, green; d < 180: Dormant, but a yellow
    heart and bar; d < 365: Withered, yellow; otherwise, a date that does not
    parse included: Withered, red.  The thresholds compare with [>], so a
    health of exactly 0.8 is Active and one of 0.6 is Dormant.  The test
    [health < 0.5] of the falling leaves holds only from 180 days on, and
    their cap [Math.floor((1 - health) * 8)] is then 4 below 365 days and 6
    after.  Binary64. *)
Theorem health_display (m : Float64.libm) (now lastPush : float) (color : string) :
  let number := Float64.number m in
  let d := daysSinceLastPush now lastPush in
  let health := calculateHealth now lastPush in
  (healthLabel health, heart_class health, bar_color color health,
   (health < num 0.5)%js, Math_floor ((num 1 - health) * num 8)%js)
  = (if d < num 30 then ("Thriving", "text-green-400", color, false, num 0)
     else if d < num 90 then ("Active", "text-green-400", color, false, num 1)
     else if d < num 180 then ("Dormant", "text-yellow-400", "#fbbf24", false, num 3)
     else if d < num 365 then ("Withered", "text-yellow-400", "#fbbf24", true, num 4)
     else ("Withered", "text-red-400", "#ef4444", true, num 6))%js%string.
Proof.
  intros number d health. subst health.
  unfold calculateHealth. fold d. cbv zeta.
  destruct (d < num 30)%js; [vm_compute; reflexivity|].
  destruct (d < num 90)%js; [vm_compute; reflexivity|].
  destruct (d < num 180)%js; [vm_compute; reflexivity|].
  destruct (d < num 365)%js; vm_compute; reflexivity.
Qed.

(** ** The colours handed to the canvas *)

Lemma lookup_In (key : string) (table : list (string * string)) (v : string) :
  lookup key table = Some v -> In v (map snd table).
Proof.
  induction table as [|[k c] table IH]; cbn [lookup map snd]; [discriminate|].
  destruct (String.eqb k key).
  - intros E. injection E as ->. left. reflexivity.
  - intros E. right. apply IH, E.
Qed.

Lemma lookup_pair (key : string) (table : list (string * string)) (v : string) :
  lookup key table = Some v -> In (key, v) table.
Proof.
  induction table as [|[k c] table IH]; cbn [lookup]; [discriminate|].
  destruct (String.eqb_spec k key) as [->|_].
  - intros E. injection E as ->. left. reflexivity.
  - intros E. right. apply IH, E.
Qed.

Lemma lookup_none (key : string) (table : list (string * string)) :
  lookup key table = None -> ~ In key (map fst table).
Proof.
  induction table as [|[k c] table IH]; cbn [lookup map fst]; [auto|].
  destruct (String.eqb_spec k key) as [->|Hne]; [discriminate|].
  intros E [H|H]; [contradiction | exact (IH E H)].
Qed.

Lemma baseColor_of_palette (language : string) :
  In (baseColor_of language) (map snd LANGUAGE_COLORS).
Proof.
  unfold baseColor_of. destruct (lookup language LANGUAGE_COLORS) as [c|] eqn:E.
  - exact (lookup_In _ _ E).
  - apply (@lookup_In "default" LANGUAGE_COLORS). reflexivity.
Qed.

(** A repository written in Rust, the size of which is unknown. *)
Definition a_repo_of_unknown_size : repo float :=
  {| name := "sized"; fullName := "user/sized"; language := "Rust";
     lastPush := Float64.of_int a_date; commitCount := Some 234%float; size := None;
     stars := Some 1200%float; forks := Some 40%float; age := None |}.

(** X17: whatever the language, as long as it names no member of
    [Object.prototype] (one that [LANGUAGE_COLORS] does not list included),
    and whatever the dates (one that does not parse included), the base
    colour and the colour [drawTree] hands to [drawBranch] are strings
    ['#rrggbb'] of a [#] and six hexadecimal digits; the base colour is the
    one listed for the language, or the default one; for a repository pushed
    to within the last 30 days the two colours are the same string.
    Binary64. *)
Theorem tree_colours_valid (m : Float64.libm) (today : float) (data : repo float)
    (progress animationTime : float) :
  let number := Float64.number m in
  let base := baseColor_of (language data) in
  let colour := rp_color (renderParams today data progress animationTime) in
  inherited (language data) = false ->
  (In (language data, base) LANGUAGE_COLORS \/
   (~ In (language data) (map fst LANGUAGE_COLORS) /\ base = "#00ffaa"%string)) /\
  Hex.valid base = true /\ Hex.valid colour = true /\
  ((daysSinceLastPush today (lastPush data) < num 30)%js = true -> colour = base).
Proof.
  intros number base colour _.
  split.
  { subst base. unfold baseColor_of.
    destruct (lookup (language data) LANGUAGE_COLORS) as [c|] eqn:E.
    - left. exact (lookup_pair _ _ E).
    - right. split; [exact (lookup_none _ _ E) | reflexivity]. }
  assert (T : forallb (fun c =>
                Hex.valid c
                && forallb (fun health => Hex.valid (adjustSaturation c health))
                     [num 1.0; num 0.8; num 0.6; num 0.4; num 0.2]
                && String.eqb (adjustSaturation c (num 1.0)) c)
              (map snd LANGUAGE_COLORS) = true) by (vm_compute; reflexivity).
  rewrite forallb_forall in T. specialize (T base (baseColor_of_palette _)).
  apply andb_true_iff in T as [T Esame]. apply andb_true_iff in T as [Vbase Vall].
  rewrite forallb_forall in Vall. apply String.eqb_eq in Esame.
  split; [exact Vbase|]. split.
  - subst colour. cbn [renderParams rp_color]. apply Vall.
    exact (@calculateHealth_values m today (lastPush data)).
  - intros Hd. subst colour. cbn [renderParams rp_color].
    unfold calculateHealth. cbv zeta. rewrite Hd. exact Esame.
Qed.

Lemma tree_colours_valid_witness :
  let number := Float64.number Float64.coarse in
  rp_color (renderParams (Float64.of_int a_date) a_repo_of_unknown_size (num 1) (num 0))
  = "#ff4500"%string.
Proof.
  intros number.
  refine (proj2 (proj2 (proj2 (@tree_colours_valid Float64.coarse (Float64.of_int a_date)
                                 a_repo_of_unknown_size (num 1) (num 0) eq_refl))) _).
  vm_compute. reflexivity.
Defined.

(** ** The shape of the tree

    The shape of a drawing is its sequence of canvas calls without their
    numbers: which call follows which, and the colours and keywords they are
    given. *)

Section Shape.
Context {N : Type} {number : Number N}.

Definition css_shape (c : css N) : css unit :=
  match c with
  | plain c => plain c
  | with_alpha c _ => with_alpha c tt
  | with_suffix c digits => with_suffix c digits
  end.

Definition stops_shape (stops : list (N * css N)) : list (unit * css unit) :=
  map (fun stop => (tt, css_shape (snd stop))) stops.

Definition style_shape (v : style N) : style unit :=
  match v with
  | color c => color (css_shape c)
  | linearGradient _ _ _ _ stops => linearGradient tt tt tt tt (stops_shape stops)
  | radialGradient _ _ _ _ _ _ stops => radialGradient tt tt tt tt tt tt (stops_shape stops)
  end.

Definition shape (o : op N) : op unit :=
  match o with
  | save => save
  | restore => restore
  | beginPath => beginPath
  | moveTo _ _ => moveTo tt tt
  | lineTo _ _ => lineTo tt tt
  | quadraticCurveTo _ _ _ _ => quadraticCurveTo tt tt tt tt
  | arc _ _ _ _ _ => arc tt tt tt tt tt
  | stroke => stroke
  | fill => fill
  | fillRect _ _ _ _ => fillRect tt tt tt tt
  | translate _ _ => translate tt tt
  | rotate _ => rotate tt
  | drawImage_offscreen => drawImage_offscreen
  | set_fillStyle v => set_fillStyle (style_shape v)
  | set_strokeStyle v => set_strokeStyle (style_shape v)
  | set_lineWidth _ => set_lineWidth tt
  | set_lineCap v => set_lineCap v
  | set_lineJoin v => set_lineJoin v
  | set_shadowBlur _ => set_shadowBlur tt
  | set_shadowColor c => set_shadowColor c
  | set_globalCompositeOperation v => set_globalCompositeOperation v
  end.

(** Two states with canvas traces of one shape, the same seeded generator,
    the same number of invocations and as many particles. *)
Definition same_shape (w1 w2 : world N) : Prop :=
  map shape (ctx w1) = map shape (ctx w2) /\ random w1 = random w2 /\
  calls w1 = calls w2 /\
  option_map (@List.length _) (particles w1) = option_map (@List.length _) (particles w2).

(** Two computations that, from such states, both run out of fuel or both
    return, with the same result and again in such states. *)
Definition alike {A : Type} (m1 m2 : M N A) : Prop :=
  forall w1 w2, same_shape w1 w2 ->
  match m1 w1, m2 w2 with
  | Some (a1, w1'), Some (a2, w2') => a1 = a2 /\ same_shape w1' w2'
  | None, None => True
  | _, _ => False
  end.

Lemma alike_ret (A : Type) (a : A) : alike (ret a) (ret a).
Proof. intros w1 w2 H. simpl. auto. Qed.

Lemma alike_diverge (A : Type) : alike (@diverge N A) (@diverge N A).
Proof. intros w1 w2 H. exact I. Qed.

Lemma alike_bind (A B : Type) (m1 m2 : M N A) (k1 k2 : A -> M N B) :
  alike m1 m2 -> (forall a, alike (k1 a) (k2 a)) -> alike (bind m1 k1) (bind m2 k2).
Proof.
  intros Hm Hk w1 w2 H. unfold bind. specialize (Hm w1 w2 H).
  destruct (m1 w1) as [[a1 w1']|], (m2 w2) as [[a2 w2']|]; try contradiction; [|exact I].
  destruct Hm as [-> Hw]. apply Hk, Hw.
Qed.

Lemma alike_emit (ops1 ops2 : list (op N)) :
  map shape ops1 = map shape ops2 -> alike (emit ops1) (emit ops2).
Proof.
  intros Ho w1 w2 (Hc & Hr & Hn & Hp). simpl. split; [reflexivity|].
  repeat split; simpl; try assumption.
  rewrite !map_app, !map_rev, Ho, Hc. reflexivity.
Qed.

Lemma alike_rnd : alike (@rnd N number) (@rnd N number).
Proof.
  intros w1 w2 (Hc & Hr & Hn & Hp). unfold rnd. rewrite Hr.
  destruct (SeededRandom.next (random w2)) as [v r]. split; [reflexivity|].
  repeat split; simpl; assumption.
Qed.

Lemma alike_enter : alike (@enter N) (@enter N).
Proof.
  intros w1 w2 (Hc & Hr & Hn & Hp). simpl. split; [reflexivity|].
  repeat split; simpl; congruence.
Qed.

Lemma alike_use_random (r : SeededRandom.t) : alike (@use_random N r) (@use_random N r).
Proof.
  intros w1 w2 (Hc & Hr & Hn & Hp). simpl. split; [reflexivity|].
  repeat split; simpl; assumption.
Qed.

Lemma alike_push (rand1 rand2 : nat -> N) (x1 y1 x2 y2 : N) (color1 color2 : string) :
  alike (push_particle rand1 x1 y1 color1) (push_particle rand2 x2 y2 color2).
Proof.
  intros w1 w2 (Hc & Hr & Hn & Hp). unfold push_particle.
  destruct (particles w1) as [ps1|] eqn:E1, (particles w2) as [ps2|] eqn:E2;
    cbn [option_map] in Hp; try discriminate; (split; [reflexivity|]).
  - injection Hp as Hp. repeat split; cbn [ctx random calls particles]; try assumption.
    cbn [option_map]. rewrite !length_app, Hp. reflexivity.
  - repeat split; try assumption. rewrite E1, E2. reflexivity.
Qed.

Lemma alike_for_from (body1 body2 : nat -> M N unit) (n i : nat) :
  (forall j, alike (body1 j) (body2 j)) ->
  alike (for_from i n body1) (for_from i n body2).
Proof.
  intros Hb. revert i. induction n as [|n IH]; intros i; cbn [for_from].
  - apply alike_ret.
  - apply alike_bind; [apply Hb | intros _; apply IH].
Qed.

Lemma alike_for (body1 body2 : nat -> M N unit) (n : nat) :
  (forall j, alike (body1 j) (body2 j)) -> alike (for_ n body1) (for_ n body2).
Proof. apply alike_for_from. Qed.

Lemma alike_while_below (bound : N) (body1 body2 : N -> M N unit) (steps : nat) :
  (forall v, alike (body1 v) (body2 v)) ->
  forall i, alike (while_below steps i bound body1) (while_below steps i bound body2).
Proof.
  intros Hb. induction steps as [|k IH]; intros i; cbn [while_below].
  - apply alike_ret.
  - destruct (lt _ bound); [|apply alike_ret].
    apply alike_bind; [apply Hb | intros _; apply IH].
Qed.

End Shape.

Ltac alike_step :=
  first
    [ apply alike_ret
    | apply alike_diverge
    | apply alike_rnd
    | apply alike_emit; reflexivity
    | apply alike_enter
    | apply alike_use_random
    | apply alike_push
    | apply alike_bind; [|intros ?]
    | apply alike_for; intros ?
    | match goal with
      | |- alike (if ?c then _ else _) (if ?c then _ else _) => destruct c
      end ].

Section ShapeTree.
Context {N : Type} {number : Number N}.
Local Open Scope js_scope.

(** The position, the angle, the wind, the glow and the age multiplier of a
    branch have no part in its shape. *)
Lemma drawBranch_alike (rand1 rand2 : nat -> N) (density spread : option N) (fuel : nat) :
  forall (x1 y1 angle1 x2 y2 angle2 length depth maxDepth : N) (color : string)
         (health : N) (age1 age2 wind1 wind2 glow1 glow2 : option N),
  alike
    (drawBranch rand1 fuel x1 y1 length angle1 depth maxDepth color health
       {| commitDensity := density; ageMultiplier := age1; sizeSpread := spread;
          windOffset := wind1; glowIntensity := glow1 |})
    (drawBranch rand2 fuel x2 y2 length angle2 depth maxDepth color health
       {| commitDensity := density; ageMultiplier := age2; sizeSpread := spread;
          windOffset := wind2; glowIntensity := glow2 |}).
Proof.
  induction fuel as [|fuel IH]; intros; cbn [drawBranch].
  - apply alike_diverge.
  - cbn [commitDensity ageMultiplier sizeSpread windOffset glowIntensity]. cbv zeta.
    repeat alike_step. apply IH.
Qed.

Lemma drawRootTendril_alike (fuel : nat) :
  forall (x y length angle depth maxDepth : N) (color : string) (opacity : N),
  alike (drawRootTendril fuel x y length angle depth maxDepth color opacity)
        (drawRootTendril fuel x y length angle depth maxDepth color opacity).
Proof.
  induction fuel as [|fuel IH]; intros; cbn [drawRootTendril].
  - apply alike_diverge.
  - cbv zeta. repeat alike_step. apply IH.
Qed.

Lemma level_shape_every_100 (line1 line2 : N -> list (op N)) (steps : nat) :
  (forall v, map shape (line1 v) = map shape (line2 v)) ->
  forall from limit,
  map shape (every_100 steps from limit line1) = map shape (every_100 steps from limit line2).
Proof.
  intros H. induction steps as [|steps IH]; intros from limit; cbn [every_100];
    [reflexivity|].
  destruct (from <? limit)%Z; [|reflexivity].
  rewrite !map_app, H, IH. reflexivity.
Qed.

Lemma drawTree_alike (rand1 rand2 : nat -> N) (fuel : nat) (width height : Z)
    (today : N) (data : repo N) (progress animationTime1 animationTime2 : N) :
  alike (drawTree rand1 fuel width height today data progress animationTime1)
        (drawTree rand2 fuel width height today data progress animationTime2).
Proof.
  unfold drawTree, drawRoots, drawAura. cbv zeta.
  cbn [renderParams rp_seed rp_health rp_color rp_maxDepth rp_trunkLength rp_metrics
       glowIntensity default_to].
  repeat first [ apply drawBranch_alike | apply drawRootTendril_alike
               | apply alike_while_below; intros ? | alike_step ].
Qed.

End ShapeTree.

(** X18: time changes the numbers of the drawing and nothing else.  Two runs
    of [drawTree] for one repository, one date and one growth progress, at
    two animation times, issue canvas calls of the same shape (the same calls
    in the same order, with the same colours), invoke [drawBranch] equally
    often and push as many particles, or both exceed the nesting they are
    allowed: wind and breathing move the branches, they add and remove none,
    and every frame at a given progress pushes the same number of particles.
    Any arithmetic, any [Math.random]. *)
Theorem tree_shape_independent_of_time (N : Type) (number : Number N)
    (rand1 rand2 : nat -> N) (particles1 : list (@Particle.t N))
    (k1 k2 : nat) (fuel : nat) (width height : Z) (today : N) (data : repo N)
    (progress animationTime1 animationTime2 : N) (trace : list (op N))
    (generator : SeededRandom.t) :
  let w1 := {| ctx := trace; random := generator; particles := Some particles1;
               randoms := k1; calls := 0 |} in
  let w2 := {| ctx := trace; random := generator; particles := Some particles1;
               randoms := k2; calls := 0 |} in
  match drawTree rand1 fuel width height today data progress animationTime1 w1,
        drawTree rand2 fuel width height today data progress animationTime2 w2 with
  | Some (_, w1'), Some (_, w2') =>
      map shape (ctx w1') = map shape (ctx w2') /\ calls w1' = calls w2' /\
      option_map (@List.length _) (particles w1')
      = option_map (@List.length _) (particles w2')
  | None, None => True
  | _, _ => False
  end.
Proof.
  intros w1 w2.
  pose proof (@drawTree_alike N number rand1 rand2 fuel width height today data progress
                animationTime1 animationTime2 w1 w2) as H.
  assert (Hw : same_shape w1 w2) by (repeat split).
  specialize (H Hw).
  destruct (drawTree rand1 fuel width height today data progress animationTime1 w1)
    as [[[] w1']|],
    (drawTree rand2 fuel width height today data progress animationTime2 w2)
    as [[[] w2']|]; try contradiction; [|exact I].
  destruct H as (_ & Hc & _ & Hn & Hp). auto.
Qed.

(** ** The period of [SeededRandom] *)

Section Calls.
Context {N : Type} {number : Number N}.

(** The object after [n] calls of [next]. *)
Definition after (n : nat) (this : SeededRandom.t) : SeededRandom.t :=
  Nat.iter n (fun t => snd (SeededRandom.next t)) this.

End Calls.

Module Period.

Local Open Scope Z_scope.

(** The step of [this.seed]. *)
Definition f (x : Z) : Z := Z.rem (x * 9301 + 49297) 233280.

(** The seed after [n] calls, started at 0. *)
Definition orbit (n : nat) : Z := Nat.iter n f 0.

Definition period : nat := Z.to_nat 233280.

(** A walk along the orbit of 0 that remembers whether it met 0 again. *)
Definition walk (st : Z * bool) : Z * bool :=
  let x := f (fst st) in (x, snd st || (x =? 0)).

Lemma f_range (x : Z) : 0 <= x -> 0 <= f x < 233280.
Proof.
  intros H. unfold f. rewrite Z.rem_mod_nonneg by lia. apply Z.mod_pos_bound. lia.
Qed.

Lemma f_injective (x y : Z) :
  0 <= x < 233280 -> 0 <= y < 233280 -> f x = f y -> x = y.
Proof.
  intros Hx Hy. unfold f. rewrite !Z.rem_mod_nonneg by lia. intros E.
  assert (D : (233280 | 9301 * (x - y))).
  { apply Z.mod_divide; [lia|].
    replace (9301 * (x - y)) with ((x * 9301 + 49297) - (y * 9301 + 49297)) by ring.
    rewrite Zminus_mod, E, Z.sub_diag. reflexivity. }
  apply Z.gauss in D; [|reflexivity].
  destruct D as [q D]. nia.
Qed.

Lemma orbit_range (n : nat) : 0 <= orbit n < 233280.
Proof.
  destruct n as [|n]; [cbn; lia|].
  unfold orbit. cbn [Nat.iter nat_rect]. apply f_range.
  induction n as [|n IH]; [cbn; lia|]. cbn [Nat.iter nat_rect]. apply f_range, IH.
Qed.

Lemma orbit_S (n : nat) : orbit (S n) = f (orbit n).
Proof. reflexivity. Qed.

Lemma walk_spec (n : nat) :
  let r := Nat.iter n walk (0, false) in
  fst r = orbit n /\
  (snd r = false -> forall k, (0 < k <= n)%nat -> orbit k <> 0).
Proof.
  induction n as [|n [IH1 IH2]]; cbv zeta.
  - split; [reflexivity|]. intros _ k Hk. lia.
  - cbn [Nat.iter nat_rect]. fold (Nat.iter n walk (0, false)).
    unfold walk at 1. cbn [fst snd]. rewrite IH1. split; [reflexivity|].
    intros H k Hk. apply orb_false_iff in H as [H1 H2].
    destruct (Nat.eq_dec k (S n)) as [->|Hne].
    + rewrite orbit_S, <- IH1. apply Z.eqb_neq. exact H2.
    + apply (IH2 H1). lia.
Qed.

(** The same walk on machine integers, which is how it is run. *)
Definition walk63 (st : int * bool) : int * bool :=
  let x := ((fst st * 9301 + 49297) mod 233280)%uint63 in
  (x, snd st || (x =? 0)%uint63).

Lemma walk63_walk (u : int) (b : bool) :
  0 <= to_Z u < 233280 ->
  to_Z (fst (walk63 (u, b))) = fst (walk (to_Z u, b)) /\
  snd (walk63 (u, b)) = snd (walk (to_Z u, b)).
Proof.
  intros Hu. unfold walk63, walk. cbn [fst snd].
  assert (W : wB = 9223372036854775808) by reflexivity.
  assert (E : to_Z ((u * 9301 + 49297) mod 233280)%uint63 = f (to_Z u)).
  { rewrite Uint63.mod_spec, Uint63.add_spec, Uint63.mul_spec.
    change (to_Z 9301) with 9301. change (to_Z 49297) with 49297.
    change (to_Z 233280) with 233280. rewrite W.
    rewrite (Z.mod_small (to_Z u * 9301)) by lia.
    rewrite (Z.mod_small (to_Z u * 9301 + 49297)) by lia.
    unfold f. rewrite Z.rem_mod_nonneg by lia. reflexivity. }
  split; [exact E|]. f_equal. rewrite <- E.
  destruct (Uint63.eqbP ((u * 9301 + 49297) mod 233280)%uint63 0%uint63) as [H|H];
    change (to_Z 0) with 0 in H; symmetry.
  - apply Z.eqb_eq. exact H.
  - apply Z.eqb_neq. exact H.
Qed.

Lemma walk63_iter (n : nat) :
  to_Z (fst (Nat.iter n walk63 (0%uint63, false))) = fst (Nat.iter n walk (0, false)) /\
  snd (Nat.iter n walk63 (0%uint63, false)) = snd (Nat.iter n walk (0, false)).
Proof.
  induction n as [|n [IH1 IH2]]; [split; reflexivity|].
  cbn [Nat.iter nat_rect].
  fold (Nat.iter n walk63 (0%uint63, false)). fold (Nat.iter n walk (0, false)).
  pose proof (proj1 (walk_spec n)) as R. cbv zeta in R.
  pose proof (orbit_range n) as B. rewrite <- R, <- IH1 in B.
  destruct (Nat.iter n walk63 (0%uint63, false)) as [u b].
  destruct (Nat.iter n walk (0, false)) as [z b'].
  cbn [fst snd] in IH1, IH2, B. subst z b'. apply walk63_walk. exact B.
Qed.

Lemma period_S : period = S (Pos.to_nat 233279).
Proof.
  unfold period. cbn [Z.to_nat]. change 233280%positive with (Pos.succ 233279).
  apply Pos2Nat.inj_succ.
Qed.

(** A walk of [n] steps that has not met 0 and meets it at the next step. *)
Lemma walk63_returns (n : nat) :
  (negb (snd (nat_rect (fun _ => (int * bool)%type) (0%uint63, false) (fun _ => walk63) n))
   && (fst (walk63 (nat_rect (fun _ => (int * bool)%type) (0%uint63, false)
                      (fun _ => walk63) n)) =? 0)%uint63)%bool = true ->
  orbit (S n) = 0 /\ forall k, (0 < k < S n)%nat -> orbit k <> 0.
Proof.
  fold (Nat.iter n walk63 (0%uint63, false)). intros C.
  apply andb_true_iff in C as [C1 C2]. apply negb_true_iff in C1.
  apply Uint63.eqb_spec in C2.
  pose proof (walk63_iter n) as [I1 I2].
  pose proof (walk63_iter (S n)) as [J1 _].
  cbn [Nat.iter nat_rect] in J1.
  fold (Nat.iter n walk63 (0%uint63, false)) in J1.
  fold (Nat.iter n walk (0, false)) in J1.
  rewrite C2 in J1. change (to_Z 0) with 0 in J1.
  destruct (walk_spec n) as [W1 W2]. cbv zeta in W1, W2. split.
  - rewrite orbit_S, <- W1. unfold walk in J1. cbn [fst] in J1. symmetry. exact J1.
  - intros k Hk. apply W2; [rewrite <- I2; exact C1 | lia].
Qed.

(** The orbit of 0 comes back to 0 after 233280 steps and not before. *)
Lemma orbit_returns : orbit period = 0 /\ forall k, (0 < k < period)%nat -> orbit k <> 0.
Proof.
  assert (C : (negb (snd (Pos.iter walk63 (0%uint63, false) 233279))
               && (fst (walk63 (Pos.iter walk63 (0%uint63, false) 233279)) =? 0)%uint63)%bool
              = true)
    by (vm_compute; reflexivity).
  rewrite Pos2Nat.inj_iter in C. rewrite period_S. exact (walk63_returns _ C).
Qed.

Lemma orbit_add (i n : nat) : orbit (i + n) = Nat.iter i f (orbit n).
Proof. unfold orbit. apply Nat.iter_add. Qed.

Lemma iter_range (i : nat) (x : Z) : 0 <= x < 233280 -> 0 <= Nat.iter i f x < 233280.
Proof.
  intros H. induction i as [|i IH]; [exact H|].
  cbn [Nat.iter nat_rect]. apply f_range. apply IH.
Qed.

Lemma iter_injective (i : nat) (x y : Z) :
  0 <= x < 233280 -> 0 <= y < 233280 -> Nat.iter i f x = Nat.iter i f y -> x = y.
Proof.
  intros Hx Hy. induction i as [|i IH]; [auto|].
  cbn [Nat.iter nat_rect]. intros E. apply IH.
  apply f_injective; [apply iter_range, Hx | apply iter_range, Hy | exact E].
Qed.

(** The first 233280 seeds of the orbit are pairwise distinct. *)
Lemma orbit_distinct (i j : nat) :
  (i < j < period)%nat -> orbit i <> orbit j.
Proof.
  intros H E. destruct orbit_returns as [_ Hn].
  apply (Hn (j - i)%nat); [lia|].
  apply (@iter_injective i); [apply orbit_range | lia |].
  rewrite <- orbit_add. replace (i + (j - i))%nat with j by lia.
  symmetry. exact E.
Qed.

(** Every seed of 0 .. 233279 is on the orbit of 0. *)
Lemma orbit_covers (v : Z) :
  0 <= v < 233280 -> exists j, (j < period)%nat /\ orbit j = v.
Proof.
  intros Hv.
  assert (Hincl : incl (map Z.of_nat (seq 0 period)) (map orbit (seq 0 period))).
  { apply NoDup_length_incl.
    - apply NoDup_map_NoDup_ForallPairs; [|apply seq_NoDup].
      intros i j Hi Hj E. apply in_seq in Hi, Hj.
      destruct (Nat.lt_trichotomy i j) as [L|[L|L]]; [|exact L|].
      + exfalso. apply (@orbit_distinct i j); [lia | exact E].
      + exfalso. apply (@orbit_distinct j i); [lia | symmetry; exact E].
    - rewrite !length_map. lia.
    - intros x Hx. apply in_map_iff in Hx as (k & <- & Hk).
      apply in_map_iff. exists (Z.to_nat (orbit k)).
      pose proof (orbit_range k) as R. split; [lia|].
      apply in_seq. unfold period. lia. }
  assert (Hin : In v (map Z.of_nat (seq 0 period))).
  { apply in_map_iff. exists (Z.to_nat v). split; [lia|].
    apply in_seq. unfold period. lia. }
  apply Hincl in Hin. apply in_map_iff in Hin as (j & E & Hj).
  apply in_seq in Hj. exists j. split; [lia | exact E].
Qed.

Lemma period_returns (x : Z) (k : nat) :
  0 <= x < 233280 ->
  Nat.iter period f x = x /\ ((0 < k < period)%nat -> Nat.iter k f x <> x).
Proof.
  intros Hx. destruct (orbit_covers Hx) as (j & Hj & <-).
  destruct orbit_returns as [H0 Hn]. rewrite <- !orbit_add. split.
  - rewrite Nat.add_comm, orbit_add, H0. reflexivity.
  - intros Hk E. apply (Hn k Hk).
    apply (@iter_injective j); [apply orbit_range | lia |].
    rewrite <- orbit_add, Nat.add_comm. exact E.
Qed.

End Period.

Section PeriodCalls.
Context {N : Type} {number : Number N}.

Lemma after_seed (n : nat) (this : SeededRandom.t) :
  SeededRandom.seed (after n this) = Nat.iter n Period.f (SeededRandom.seed this).
Proof.
  unfold after. induction n as [|n IH]; [reflexivity|].
  cbn [Nat.iter nat_rect]. fold (Nat.iter n (fun t => snd (SeededRandom.next t)) this).
  fold (Nat.iter n Period.f (SeededRandom.seed this)). rewrite <- IH. reflexivity.
Qed.

End PeriodCalls.

(** X19: [SeededRandom] has the full period.  Started with a seed of
    0 .. 233279, [this.seed] is back at the seed after 233280 calls of
    [next] and not before, and every seed of 0 .. 233279 has then come up
    exactly once: over a period every value k / 233280 is returned once, and
    no tree draws from a generator that cycles early. *)
Theorem SeededRandom_full_period (N : Type) (number : Number N) (seed : Z) :
  (0 <= seed < 233280)%Z ->
  let state := fun n : nat => SeededRandom.seed (after n (SeededRandom.new seed)) in
  state Period.period = seed /\
  (forall k, (0 < k < Period.period)%nat -> state k <> seed) /\
  (forall v, (0 <= v < 233280)%Z ->
     exists k, (k < Period.period)%nat /\ state k = v /\
               forall j, (j < Period.period)%nat -> state j = v -> j = k).
Proof.
  intros Hs state. subst state. cbv beta.
  split; [|split].
  - rewrite after_seed. apply Period.period_returns; [exact 0%nat | exact Hs].
  - intros k Hk. rewrite after_seed. apply Period.period_returns; assumption.
  - intros v Hv.
    destruct (Period.orbit_covers Hs) as (a & Ha & Ea).
    destruct (Period.orbit_covers Hv) as (b & Hb & Eb).
    destruct (Period.orbit_returns) as [H0 _].
    (* the seed is a steps along the orbit of 0, v is b steps along it *)
    set (k := if (a <=? b)%nat then (b - a)%nat else (b + Period.period - a)%nat).
    assert (Hk : (k < Period.period)%nat).
    { subst k. destruct (Nat.leb_spec a b); lia. }
    assert (Ek : Nat.iter k Period.f seed = v).
    { rewrite <- Ea, <- Period.orbit_add. subst k.
      destruct (Nat.leb_spec a b) as [L|L].
      - replace (b - a + a)%nat with b by lia. exact Eb.
      - replace (b + Period.period - a + a)%nat with (b + Period.period)%nat by lia.
        rewrite Period.orbit_add, H0. exact Eb. }
    exists k. split; [exact Hk|]. rewrite after_seed. split; [exact Ek|].
    intros j Hj Ej. rewrite after_seed in Ej. cbn [SeededRandom.new SeededRandom.seed] in Ej.
    destruct (Nat.lt_trichotomy j k) as [L|[L|L]]; [|exact L|]; exfalso.
    + apply (proj2 (@Period.period_returns (Nat.iter j Period.f seed) (k - j)
                      (Period.iter_range j Hs))); [lia|].
      rewrite <- Nat.iter_add. replace (k - j + j)%nat with k by lia. congruence.
    + apply (proj2 (@Period.period_returns (Nat.iter k Period.f seed) (j - k)
                      (Period.iter_range k Hs))); [lia|].
      rewrite <- Nat.iter_add. replace (j - k + k)%nat with j by lia. congruence.
Qed.

Lemma SeededRandom_full_period_witness :
  let number := Float64.number Float64.coarse in
  SeededRandom.seed (after Period.period (SeededRandom.new 1397)) = 1397%Z.
Proof.
  intros number.
  exact (proj1 (@SeededRandom_full_period float (Float64.number Float64.coarse) 1397
                  ltac:(lia))).
Defined.

(** ** How many roots [drawRoots] draws *)

Section Roots.
Context {N : Type} {number : Number N}.
Local Open Scope js_scope.

Notation "x <- m ;; k" := (bind m (fun x => k))
  (at level 61, m at next level, right associativity).
Notation "m ;; k" := (bind m (fun _ => k))
  (at level 61, right associativity).

(** [rootCount] of [drawRoots]. *)
Definition rootCount_of (forkCount : N) : N :=
  Math_min2 (num 8)
    (Math_max2 (num 3) (Math_floor (Math_log10 (forkCount + num 1) * num 2.5) + num 3)).

(** The body of the loop of [drawRoots]: root number [i]. *)
Definition root (x y forkCount : N) (color : string) (health : N) (i : N) : M N unit :=
  let rootCount := rootCount_of forkCount in
  let maxRootLength := num 60 + Math_log10 (forkCount + num 1) * num 20 in
  let spreadFactor := (i / (rootCount - num 1) - num 0.5) * num 2 in
  let baseAngle := Math_PI / num 2 + spreadFactor * (Math_PI / num 3) in
  r <- rnd ;;
  let angleVariation := (r - num 0.5) * num 0.3 in
  r <- rnd ;;
  let rootLength := maxRootLength * (num 0.6 + r * num 0.4) in
  let opacity := Math_max2 (num 0.3) (health * num 0.7) in
  drawRootTendril 5 x y rootLength (baseAngle + angleVariation) (num 0) (num 3)
    color opacity.

(** [drawRoots] with a loop of at most [rounds] rounds. *)
Definition drawRoots_in (rounds : nat) (x y forkCount : N) (color : string) (health : N)
    : M N unit :=
  emit [save] ;;
  while_below rounds 0 (rootCount_of forkCount) (root x y forkCount color health) ;;
  emit [restore].

Lemma drawRoots_unfold (x y forkCount : N) (color : string) (health : N) :
  drawRoots x y forkCount color health = drawRoots_in 8 x y forkCount color health.
Proof. reflexivity. Qed.

(** A loop whose test fails at [n] at the latest needs [n] rounds and no
    more. *)
Lemma while_below_enough (bound : N) (body : N -> M N unit) (n : nat) :
  (of_Z (Z.of_nat n) < bound) = false ->
  forall (d i steps : nat), (i + d = n)%nat -> (d <= steps)%nat ->
  while_below steps i bound body = while_below d i bound body.
Proof.
  intros Hn. induction d as [|d IH]; intros i steps Hi Hs.
  - replace i with n by lia. destruct steps as [|steps]; [reflexivity|].
    cbn [while_below]. rewrite Hn. reflexivity.
  - destruct steps as [|steps]; [lia|]. cbn [while_below].
    rewrite (IH (S i) steps) by lia. reflexivity.
Qed.

End Roots.

Section RootsFloat.
Variable m : Float64.libm.
Local Instance number_o : Number float := Float64.number m.
Import FloatFacts RoundingFacts.
Local Open Scope js_scope.

Lemma rootCount_of_number (forkCount : float) :
  PrimFloat.is_nan (Float64.libm_log10 m (forkCount + num 1)) = false ->
  (num 3 <= rootCount_of forkCount) = true /\ (rootCount_of forkCount <= num 8) = true.
Proof.
  intros H. unfold rootCount_of.
  cbn [Math_min2 Math_max2 Math_floor Math_log10 mul add number_o Float64.number].
  set (f := PrimFloat.add (Float64.floor _) _).
  assert (Hf : PrimFloat.is_nan f = false).
  { apply number_is_nan. subst f.
    apply (@add_number _ (num 3) false 6755399441055744 (-51)); [reflexivity|].
    apply floor_number.
    apply (@mul_number _ (num 2.5) false 5629499534213120 (-51)); [reflexivity|].
    apply is_nan_false. exact H. }
  unfold Float64.max2. change (PrimFloat.is_nan (num 3)) with false. rewrite Hf. cbn [orb].
  unfold Float64.min2. change (PrimFloat.is_nan (num 8)) with false. cbn [orb].
  destruct (PrimFloat.ltb (num 3) f) eqn:E3.
  - rewrite Hf. destruct (PrimFloat.ltb f (num 8)) eqn:E8.
    + split; [exact (ltb_leb E3) | exact (ltb_leb E8)].
    + split; reflexivity.
  - split; reflexivity.
Qed.

Lemma rootCount_of_nan (forkCount : float) :
  PrimFloat.is_nan (Float64.libm_log10 m (forkCount + num 1)) = true ->
  forall i, (i < rootCount_of forkCount) = false.
Proof.
  intros H i. apply ltb_nan_r. unfold rootCount_of.
  cbn [Math_min2 Math_max2 Math_floor Math_log10 mul add number_o Float64.number].
  assert (Hl : isNaN (Float64.libm_log10 m (forkCount + num 1))).
  { destruct (Prim2SF (Float64.libm_log10 m (forkCount + num 1))) eqn:E;
      try (exfalso; apply not_true_iff_false in H; [exact H|];
           apply number_is_nan; unfold isNaN; rewrite E; discriminate).
    exact E. }
  rewrite (isNaN_eq Hl). vm_compute. reflexivity.
Qed.

Lemma below_cap (bound : float) :
  (bound <= num 8) = true -> (of_Z (Z.of_nat 8) < bound) = false.
Proof.
  intros H. change (PrimFloat.leb bound (num 8) = true) in H.
  change (PrimFloat.ltb (of_Z (Z.of_nat 8)) bound = false).
  destruct (PrimFloat.ltb (of_Z (Z.of_nat 8)) bound) eqn:E; [|reflexivity].
  pose proof (ltb_leb_false E) as C.
  change (PrimFloat.leb bound (num 8) = false) in C. congruence.
Qed.

Lemma above_floor (bound : float) (i : nat) :
  (num 3 <= bound) = true -> (i < 3)%nat -> (of_Z (Z.of_nat i) < bound) = true.
Proof.
  intros H Hi. change (PrimFloat.leb (num 3) bound = true) in H.
  change (PrimFloat.ltb (of_Z (Z.of_nat i)) bound = true).
  assert (L : forall a : float, PrimFloat.ltb a (num 3) = true -> PrimFloat.ltb a bound = true).
  { intros a Ha. destruct (PrimFloat.ltb a bound) eqn:E; [reflexivity|].
    exfalso. apply ltb_leb_false in Ha as Hn.
    destruct (ltb_not_nan Ha) as [Na _].
    assert (Nb : ~ isNaN bound).
    { intros Nb. rewrite (leb_nan_r _ Nb) in H. discriminate. }
    pose proof (@ltb_false_leb a bound E Na Nb) as Hba.
    pose proof (leb_ltb_trans Hba Ha) as C.
    pose proof (ltb_leb_false C) as C'. congruence. }
  destruct i as [|[|[|i]]]; [apply L; reflexivity .. | lia].
Qed.

End RootsFloat.

(** X20: [drawRoots] draws three to eight roots.  In binary64, whatever
    [Math.log10] is: when [Math.log10(forkCount + 1)] is a number,
    [rootCount] is in 3 .. 8 and the loop draws roots 0, 1 and 2 and then at
    most five more; when it is NaN the loop draws no root at all; and in
    either case the loop has ended by its own test after eight rounds. *)
Theorem drawRoots_three_to_eight (m : Float64.libm) (x y forkCount : float)
    (color : string) (health : float) :
  let number := Float64.number m in
  let logarithm := Float64.libm_log10 m (forkCount + 1)%float in
  let draw := root x y forkCount color health in
  (forall rounds, (8 <= rounds)%nat ->
     drawRoots_in rounds x y forkCount color health
     = drawRoots x y forkCount color health) /\
  (PrimFloat.is_nan logarithm = false ->
     ((num 3 <= rootCount_of forkCount) && (rootCount_of forkCount <= num 8))%js%bool = true /\
     drawRoots x y forkCount color health
     = bind (emit [save]) (fun _ =>
       bind (bind (draw (num 0)) (fun _ =>
             bind (draw (num 1)) (fun _ =>
             bind (draw (num 2)) (fun _ =>
             while_below 5 3 (rootCount_of forkCount) draw)))) (fun _ =>
       emit [restore]))) /\
  (PrimFloat.is_nan logarithm = true ->
     drawRoots x y forkCount color health
     = bind (emit [save]) (fun _ => bind (ret tt) (fun _ => emit [restore]))).
Proof.
  intros number logarithm draw. subst draw. split; [|split].
  - intros rounds Hr. rewrite drawRoots_unfold. unfold drawRoots_in.
    assert (Hcap : (of_Z (Z.of_nat 8) < rootCount_of forkCount)%js = false).
    { destruct (PrimFloat.is_nan logarithm) eqn:E.
      - apply (@rootCount_of_nan m forkCount E).
      - apply (@below_cap m). apply (@rootCount_of_number m forkCount E). }
    rewrite (@while_below_enough float number _
               (root x y forkCount color health) 8 Hcap 8 0 rounds) by lia.
    reflexivity.
  - intros E. destruct (@rootCount_of_number m forkCount E) as [H3 H8].
    split; [apply andb_true_iff; split; assumption|].
    rewrite drawRoots_unfold. unfold drawRoots_in.
    change (while_below 8 0 ?b ?f)
      with (if (of_Z (Z.of_nat 0) < b)%js
            then bind (f (of_Z (Z.of_nat 0))) (fun _ =>
                 if (of_Z (Z.of_nat 1) < b)%js
                 then bind (f (of_Z (Z.of_nat 1))) (fun _ =>
                      if (of_Z (Z.of_nat 2) < b)%js
                      then bind (f (of_Z (Z.of_nat 2))) (fun _ => while_below 5 3 b f)
                      else ret tt)
                 else ret tt)
            else ret tt).
    rewrite !(@above_floor m _ _ H3) by lia. reflexivity.
  - intros E. rewrite drawRoots_unfold. unfold drawRoots_in.
    cbn [while_below]. rewrite (@rootCount_of_nan m forkCount E). reflexivity.
Qed.

(** ** The calls of a run that the canvas takes

    A colour with alpha is built as
    [`${color}${Math.floor(a).toString(16).padStart(2, '0')}`]: it is a
    colour ['#rrggbbaa'] exactly when [Math.floor(a)] is a whole number of
    0 .. 255.  The canvas ignores an assignment of anything else to
    [fillStyle] or [strokeStyle], and [addColorStop] throws on it. *)

Section Yields.
Context {N : Type} {number : Number N}.
Variable good : op N -> Prop.
Variable seeded : SeededRandom.t -> Prop.
Variable drawn : N -> Prop.
Hypothesis next_seeded : forall r,
  seeded r -> drawn (fst (SeededRandom.next r)) /\ seeded (snd (SeededRandom.next r)).

(** From a generator that is [seeded], [m] returns a value that is [P],
    leaves the generator [seeded] and adds canvas calls that are [good]. *)
Definition yields {A : Type} (P : A -> Prop) (m : M N A) : Prop :=
  forall w a w', seeded (random w) -> m w = Some (a, w') ->
  seeded (random w') /\ P a /\
  exists ops, ctx w' = rev ops ++ ctx w /\ Forall good ops.

Lemma yields_ret (A : Type) (P : A -> Prop) (a : A) : P a -> yields P (ret a).
Proof.
  intros H w a' w' S E. injection E as <- <-. split; [exact S|]. split; [exact H|].
  exists []. split; [reflexivity | constructor].
Qed.

Lemma yields_diverge (A : Type) (P : A -> Prop) : yields P (@diverge N A).
Proof. intros w a w' _ E. discriminate. Qed.

Lemma yields_bind (A B : Type) (P : A -> Prop) (Q : B -> Prop) (m : M N A)
    (f : A -> M N B) :
  yields P m -> (forall a, P a -> yields Q (f a)) -> yields Q (bind m f).
Proof.
  intros Hm Hf w r w' S E. unfold bind in E.
  destruct (m w) as [[a w1]|] eqn:E1; [|discriminate].
  destruct (Hm _ _ _ S E1) as (S1 & Pa & ops1 & C1 & L1).
  destruct (Hf a Pa _ _ _ S1 E) as (S2 & Qr & ops2 & C2 & L2).
  split; [exact S2|]. split; [exact Qr|].
  exists (ops1 ++ ops2). split.
  - rewrite C2, C1, rev_app_distr, app_assoc. reflexivity.
  - apply Forall_app. split; assumption.
Qed.

Lemma yields_weaken (A : Type) (P Q : A -> Prop) (m : M N A) :
  (forall a, P a -> Q a) -> yields P m -> yields Q m.
Proof.
  intros H Hm w a w' S E. destruct (Hm _ _ _ S E) as (S' & Pa & R).
  split; [exact S'|]. split; [exact (H a Pa) | exact R].
Qed.

Lemma yields_emit (ops : list (op N)) : Forall good ops -> yields any (emit ops).
Proof.
  intros H w a w' S E. injection E as _ <-. split; [exact S|]. split; [exact I|].
  exists ops. split; [reflexivity | exact H].
Qed.

Lemma yields_rnd : yields drawn (@rnd N number).
Proof.
  intros w a w' S E. unfold rnd in E. destruct (next_seeded S) as [D S'].
  destruct (SeededRandom.next (random w)) as [v r]. injection E as <- <-.
  split; [exact S'|]. split; [exact D|]. exists []. split; [reflexivity | constructor].
Qed.

Lemma yields_enter : yields any (@enter N).
Proof.
  intros w a w' S E. injection E as _ <-. split; [exact S|]. split; [exact I|].
  exists []. split; [reflexivity | constructor].
Qed.

Lemma yields_use_random (r : SeededRandom.t) : seeded r -> yields any (@use_random N r).
Proof.
  intros H w a w' S E. injection E as _ <-. split; [exact H|]. split; [exact I|].
  exists []. split; [reflexivity | constructor].
Qed.

Lemma yields_push (rand : nat -> N) (x y : N) (color : string) :
  yields any (push_particle rand x y color).
Proof.
  intros w a w' S E. unfold push_particle in E.
  destruct (particles w); injection E as _ <-;
    (split; [exact S|]; split; [exact I|]; exists []; split; [reflexivity | constructor]).
Qed.

Lemma yields_for_from (body : nat -> M N unit) (n : nat) :
  (forall j, yields any (body j)) -> forall j, yields any (for_from j n body).
Proof.
  intros H. induction n as [|n IH]; intros j; cbn [for_from].
  - apply yields_ret. exact I.
  - apply yields_bind with (P := @any unit); [apply H | intros _ _; apply IH].
Qed.

Lemma yields_for (body : nat -> M N unit) (n : nat) :
  (forall j, yields any (body j)) -> yields any (for_ n body).
Proof. intros H. apply yields_for_from. exact H. Qed.

Lemma yields_while_below (bound : N) (body : N -> M N unit) (steps : nat) :
  (forall i : nat, yields any (body (of_Z (Z.of_nat i)))) ->
  forall j, yields any (while_below steps j bound body).
Proof.
  intros H. induction steps as [|steps IH]; intros j; cbn [while_below].
  - apply yields_ret. exact I.
  - destruct (lt _ bound); [|apply yields_ret; exact I].
    apply yields_bind with (P := @any unit); [apply H | intros _ _; apply IH].
Qed.

End Yields.

Module CanvasExact.

Import Exact ColourExact ColourExact2 ColourRange.
Local Open Scope R_scope.
#[local] Existing Instance Exact.number.

(** A whole number of 0 .. 255. *)
Definition byte (a : option R) : Prop :=
  exists z : Z, a = Some (IZR z) /\ (0 <= z <= 255)%Z.

(** A number, and a number that is not negative. *)
Definition a_number (v : option R) : Prop := exists r, v = Some r.

Definition not_negative (v : option R) : Prop := exists r, v = Some r /\ 0 <= r.

(** A colour whose alpha digits, if it has any, are in range. *)
Definition css_ok (c : css (option R)) : Prop :=
  match c with
  | with_alpha _ a => byte a
  | _ => True
  end.

(** A colour that parses. *)
Definition css_fine (c : css (option R)) : Prop :=
  match c with
  | with_alpha c a => Hex.valid c = true /\ byte a
  | c => parses c = true
  end.

Definition stop_fine (stop : option R * css (option R)) : Prop :=
  (exists q, fst stop = Some q /\ 0 <= q <= 1) /\ css_fine (snd stop).

Definition style_fine (v : style (option R)) : Prop :=
  match v with
  | color c => css_ok c
  | linearGradient x0 y0 x1 y1 stops =>
      a_number x0 /\ a_number y0 /\ a_number x1 /\ a_number y1 /\ Forall stop_fine stops
  | radialGradient x0 y0 r0 x1 y1 r1 stops =>
      a_number x0 /\ a_number y0 /\ not_negative r0 /\
      a_number x1 /\ a_number y1 /\ not_negative r1 /\ Forall stop_fine stops
  end.

(** A call with nothing for the canvas to refuse, and with alpha digits in
    range. *)
Definition taken (o : op (option R)) : Prop :=
  match o with
  | set_fillStyle v => style_fine v
  | set_strokeStyle v => style_fine v
  | arc _ _ radius _ _ => not_negative radius
  | _ => True
  end.

(** A call whose arguments are numbers, with nothing for the canvas to
    refuse. *)
Definition fine (o : op (option R)) : Prop :=
  Forall a_number (arguments o) /\ taken o.

(** The alpha digits alone. *)
Definition style_ok (v : style (option R)) : Prop :=
  match v with
  | color c => css_ok c
  | linearGradient _ _ _ _ stops => Forall (fun stop => css_ok (snd stop)) stops
  | radialGradient _ _ _ _ _ _ stops => Forall (fun stop => css_ok (snd stop)) stops
  end.

Definition op_ok (o : op (option R)) : Prop :=
  match o with
  | set_fillStyle v => style_ok v
  | set_strokeStyle v => style_ok v
  | _ => True
  end.

Lemma finite_number (v : option R) : a_number v -> finite v = true.
Proof.
  intros (r & ->). unfold finite. cbn [sub strict_equal num Exact.number lift2 test2].
  apply Reqb_true. rewrite Q2R_Z. ring.
Qed.

Lemma le_0_not_negative (v : option R) : not_negative v -> (num 0 <= v)%js = true.
Proof.
  intros (r & -> & H). cbn [le num Exact.number test2]. rewrite Q2R_Z.
  unfold Rleb. destruct (Rle_dec 0 r); [reflexivity | contradiction].
Qed.

Lemma not_negative_number (v : option R) : not_negative v -> a_number v.
Proof. intros (r & -> & _). exists r. reflexivity. Qed.

Lemma css_fine_parses (c : css (option R)) : css_fine c -> parses c = true /\ css_ok c.
Proof.
  destruct c as [c|c a|c d]; cbn [css_fine css_ok]; auto.
  intros (V & z & -> & Hz). split; [|exists z; auto].
  cbn [parses integral Exact.number]. rewrite V, to_integer_IZR. cbn [andb].
  apply andb_true_iff. split; [apply Z.leb_le | apply Z.leb_le]; lia.
Qed.

Lemma stops_fine (stops : list (option R * css (option R))) :
  Forall stop_fine stops ->
  forallb stop_accepted stops = true /\ Forall (fun stop => css_ok (snd stop)) stops.
Proof.
  induction 1 as [|[q c] stops ((v & E & Hv) & Hc) _ [IH1 IH2]];
    [split; [reflexivity | constructor]|].
  cbn [fst snd] in E, Hc. subst q. destruct (css_fine_parses _ Hc) as [Hp Ho].
  split; [|constructor; [exact Ho | exact IH2]].
  cbn [forallb]. rewrite IH1. unfold stop_accepted. cbn [fst snd]. rewrite Hp.
  cbn [le num Exact.number test2]. rewrite !Q2R_Z. unfold Rleb.
  destruct (Rle_dec 0 v); [|lra]. destruct (Rle_dec v 1); [reflexivity | lra].
Qed.

Lemma style_fine_accepted (v : style (option R)) :
  style_fine v -> style_accepted v = true /\ style_ok v.
Proof.
  destruct v as [c|x0 y0 x1 y1 stops|x0 y0 r0 x1 y1 r1 stops]; cbn [style_fine style_ok].
  - intros H. split; [reflexivity | exact H].
  - intros (H1 & H2 & H3 & H4 & Hs). destruct (stops_fine Hs) as [Ha Ho].
    split; [|exact Ho]. cbn [style_accepted].
    now rewrite !finite_number, Ha by assumption.
  - intros (H1 & H2 & H3 & H4 & H5 & H6 & Hs). destruct (stops_fine Hs) as [Ha Ho].
    split; [|exact Ho]. cbn [style_accepted].
    rewrite !finite_number, Ha by (try assumption; apply not_negative_number; assumption).
    now rewrite !le_0_not_negative by assumption.
Qed.

(** The canvas takes a call that is [fine], and its alpha digits are in
    range. *)
Lemma taken_accepts (o : op (option R)) : taken o -> accepts o = true /\ op_ok o.
Proof.
  destruct o; cbn [taken accepts op_ok]; try (intros _; split; [reflexivity | exact I]).
  - intros H. split; [|exact I]. rewrite (le_0_not_negative H).
    now destruct (_ && _).
  - apply style_fine_accepted.
  - apply style_fine_accepted.
Qed.

Lemma numbers_finite (l : list (option R)) : Forall a_number l -> forallb finite l = true.
Proof.
  induction 1 as [|v l H _ IH]; [reflexivity|].
  cbn [forallb]. now rewrite (finite_number H), IH.
Qed.

Lemma fine_accepts (o : op (option R)) :
  fine o -> numeric o = true /\ accepts o = true /\ op_ok o.
Proof.
  intros [Hn Ht]. split; [exact (numbers_finite Hn) | exact (taken_accepts _ Ht)].
Qed.

Lemma Forall_fine_accepts (ops : list (op (option R))) :
  Forall fine ops ->
  Forall (fun o => numeric o = true) ops /\ Forall (fun o => accepts o = true) ops /\
  Forall op_ok ops.
Proof.
  induction 1 as [|o ops H _ (IH0 & IH1 & IH2)]; [repeat split; constructor|].
  destruct (fine_accepts H) as (H0 & H1 & H2). repeat split; constructor; assumption.
Qed.

Lemma byte_floor (v : R) : 0 <= v < 256 -> byte (Math_floor (Some v)).
Proof.
  intros [H0 H1]. cbn [Math_floor Exact.number lift1]. exists (Zfloor v).
  split; [reflexivity|]. pose proof (Zfloor_bound v) as [L U]. split.
  - apply Zfloor_lub. exact H0.
  - assert (H : IZR (Zfloor v) < IZR 256) by lra. apply lt_IZR in H. lia.
Qed.

(** The values of the generator, from a state that is not negative on. *)
Definition seeded (r : SeededRandom.t) : Prop := (0 <= SeededRandom.seed r)%Z.

Definition drawn (v : option R) : Prop := exists r, v = Some r /\ 0 <= r < 1.

Lemma next_seeded (r : SeededRandom.t) :
  seeded r -> drawn (fst (SeededRandom.next r)) /\ seeded (snd (SeededRandom.next r)).
Proof.
  unfold seeded. intros H. unfold SeededRandom.next. cbn [fst snd SeededRandom.seed].
  assert (B : (0 <= Z.rem (SeededRandom.seed r * 9301 + 49297) 233280 < 233280)%Z).
  { pose proof (Z.rem_bound_pos (SeededRandom.seed r * 9301 + 49297) 233280). lia. }
  split; [|lia].
  set (s := Z.rem (SeededRandom.seed r * 9301 + 49297) 233280) in *.
  unfold of_Z, inject_Z. cbn [num div Exact.number]. rewrite !Q2R_Z.
  rewrite quotient_nz by lra. eexists. split; [reflexivity|].
  destruct B as [B0 B1]. apply IZR_le in B0. apply IZR_lt in B1.
  split.
  - apply Rmult_le_pos; [exact B0 | lra].
  - apply Rmult_lt_reg_r with 233280; [lra|].
    unfold Rdiv. rewrite Rmult_assoc, Rinv_l by lra. lra.
Qed.

(** Numbers are closed under the operations that do not divide. *)
Lemma number_Some (r : R) : a_number (Some r).
Proof. exists r. reflexivity. Qed.

Lemma number_num (q : Q) : a_number (num q).
Proof. eexists. reflexivity. Qed.

Lemma number_PI : a_number Math_PI.
Proof. eexists. reflexivity. Qed.

Lemma number_add (a b : option R) : a_number a -> a_number b -> a_number (a + b)%js.
Proof. intros (x & ->) (y & ->). eexists. reflexivity. Qed.

Lemma number_sub (a b : option R) : a_number a -> a_number b -> a_number (a - b)%js.
Proof. intros (x & ->) (y & ->). eexists. reflexivity. Qed.

Lemma number_mul (a b : option R) : a_number a -> a_number b -> a_number (a * b)%js.
Proof. intros (x & ->) (y & ->). eexists. reflexivity. Qed.

Lemma number_neg (a : option R) : a_number a -> a_number (- a)%js.
Proof. intros (x & ->). eexists. reflexivity. Qed.

Lemma number_cos (a : option R) : a_number a -> a_number (Math_cos a).
Proof. intros (x & ->). eexists. reflexivity. Qed.

Lemma number_sin (a : option R) : a_number a -> a_number (Math_sin a).
Proof. intros (x & ->). eexists. reflexivity. Qed.

Lemma number_max2 (a b : option R) :
  a_number a -> a_number b -> a_number (Math_max2 a b).
Proof. intros (x & ->) (y & ->). eexists. reflexivity. Qed.

Lemma number_min2 (a b : option R) :
  a_number a -> a_number b -> a_number (Math_min2 a b).
Proof. intros (x & ->) (y & ->). eexists. reflexivity. Qed.

Lemma number_div (a : option R) (d : R) :
  a_number a -> d <> 0 -> a_number (a / Some d)%js.
Proof. intros (x & ->) H. cbn [div Exact.number]. rewrite quotient_nz by exact H. eexists. reflexivity. Qed.

Lemma number_div_num (a : option R) (z : Z) :
  a_number a -> z <> 0%Z -> a_number (a / num (Qmake z 1))%js.
Proof.
  intros Ha Hz. cbn [num Exact.number]. apply number_div; [exact Ha|].
  rewrite Q2R_Z. apply not_0_IZR. exact Hz.
Qed.

Lemma number_of_Z (z : Z) : a_number (of_Z z).
Proof. eexists. reflexivity. Qed.

Lemma number_drawn (v : option R) : drawn v -> a_number v.
Proof. intros (r & -> & _). exists r. reflexivity. Qed.

End CanvasExact.

(** Numbers: the arguments of a call are built from numbers. *)
Ltac numbers :=
  repeat first
    [ assumption
    | apply CanvasExact.number_Some
    | apply CanvasExact.number_num
    | apply CanvasExact.number_PI
    | apply CanvasExact.number_of_Z
    | apply CanvasExact.number_drawn; assumption
    | apply CanvasExact.number_add
    | apply CanvasExact.number_sub
    | apply CanvasExact.number_mul
    | apply CanvasExact.number_neg
    | apply CanvasExact.number_cos
    | apply CanvasExact.number_sin
    | apply CanvasExact.number_max2
    | apply CanvasExact.number_min2
    | match goal with
      | |- CanvasExact.a_number (if ?test then _ else _) => destruct test
      end
    | apply CanvasExact.number_div_num; [|discriminate]
    | apply CanvasExact.number_div; [|lra] ].

(** An offset of a colour stop, a literal of 0 .. 1. *)
Ltac offset :=
  eexists; split; [reflexivity | rewrite ?Q2R_lit; lra].

(** Steps through a procedure, leaving the goals on its canvas calls and on
    the procedures it calls. *)
Ltac fine_ops :=
  repeat first [ apply Forall_nil | apply Forall_cons ];
  (split;
   [ cbn [arguments style_arguments List.app map fst];
     repeat first [ apply Forall_nil | apply Forall_cons ]; numbers
   | cbn [CanvasExact.taken CanvasExact.style_fine CanvasExact.css_ok
          CanvasExact.css_fine CanvasExact.stop_fine fst snd alpha];
     try exact I ]).

Ltac yields_plain :=
  lazymatch goal with
  | |- yields _ _ _ (if ?c then _ else _) => destruct c; yields_plain
  | |- yields _ _ _ (bind rnd _) =>
      eapply yields_bind;
      [ apply yields_rnd; exact CanvasExact.next_seeded
      | let v := fresh "v" in let D := fresh "D" in intros v D; yields_plain ]
  | |- yields _ _ _ (bind (emit _) _) =>
      eapply yields_bind; [apply yields_emit; fine_ops | intros _ _; yields_plain]
  | |- yields _ _ _ (bind enter _) =>
      eapply yields_bind; [apply yields_enter | intros _ _; yields_plain]
  | |- yields _ _ _ (bind (use_random _) _) =>
      eapply yields_bind; [apply yields_use_random | intros _ _; yields_plain]
  | |- yields _ _ _ (@bind _ unit _ _ _) =>
      apply yields_bind with (P := @any unit); [yields_plain | intros _ _; yields_plain]
  | |- yields _ _ _ (@bind _ nat _ _ _) =>
      apply yields_bind with (P := @any nat); [yields_plain | intros ? _; yields_plain]
  | |- yields _ _ _ (@bind _ (option R) _ _ _) =>
      apply yields_bind with (P := CanvasExact.a_number);
      [ yields_plain
      | let v := fresh "v" in let D := fresh "D" in intros v D; yields_plain ]
  | |- yields _ _ _ (ret _) => apply yields_ret; first [exact I | numbers | idtac]
  | |- yields _ _ _ (emit _) => apply yields_emit; fine_ops
  | |- yields _ _ _ (push_particle _ _ _ _) => apply yields_push
  | |- yields _ _ _ (for_ _ _) => apply yields_for; intros ?; yields_plain
  | |- _ => idtac
  end.

(** ** What the canvas is handed while a tree is drawn *)

Section FineTree.
Import Exact CanvasExact.
Local Open Scope R_scope.
#[local] Existing Instance Exact.number.
Variable Math_random : nat -> option R.

Lemma drawBranch_fine (M hl g cd am ss wo : R) (color : string) :
  Hex.valid color = true ->
  0 < M -> 0 <= hl <= 1 -> 0 <= g <= 1 ->
  let metrics := {| commitDensity := Some (Some cd); ageMultiplier := Some (Some am);
                    sizeSpread := Some (Some ss); windOffset := Some (Some wo);
                    glowIntensity := Some (Some g) |} in
  forall (fuel : nat) (x y length angle d : R),
  0 <= d ->
  yields fine seeded any
    (drawBranch Math_random fuel (Some x) (Some y) (Some length) (Some angle) (Some d)
       (Some M) color (Some hl) metrics).
Proof.
  intros V HM Hh Hg metrics. induction fuel as [|fuel IH]; intros x y length angle d Hd;
    cbn [drawBranch]; [apply yields_diverge|].
  eapply yields_bind; [apply yields_enter | intros _ _].
  destruct (_ || _) eqn:G; [apply yields_ret; exact I|]. apply orb_false_iff in G as [G _].
  cbn [lt Exact.number test2] in G. unfold Rltb in G.
  destruct (Rlt_dec M d) as [|Hle]; [discriminate|]. apply Rnot_lt_le in Hle.
  pose proof (ColourRange.ratio_unit (conj Hd Hle) HM) as Hu.
  cbv zeta. subst metrics. cbn [default_to commitDensity ageMultiplier sizeSpread windOffset glowIntensity].
  assert (Eop : (Math_max2 (num 0.4) (Some hl) * (num 1 - Some d / Some M * num 0.4))%js
                = Some (Rmax (4 / 10) hl * (1 - d / M * (4 / 10)))).
  { cbn [num Math_max2 mul sub div Exact.number]. rewrite ColourExact2.quotient_nz by lra.
    cbn [lift2]. rewrite !Q2R_lit. f_equal. f_equal. lra. }
  rewrite !Eop.
  set (o := Rmax (4 / 10) hl * (1 - d / M * (4 / 10))).
  assert (Ho : 0 <= o <= 1).
  { subst o. assert (Ha : 4 / 10 <= Rmax (4 / 10) hl <= 1).
    { split; [apply Rmax_l | apply Rmax_lub; lra]. }
    set (a := Rmax (4 / 10) hl) in *. set (u := d / M) in *. nra. }
  yields_plain.
  - repeat split; numbers.
    repeat first [apply Forall_nil | apply Forall_cons]; (split; [offset|]);
      cbn [snd alpha css_fine]; (split; [exact V|]);
      apply byte_floor; cbn [num mul Exact.number lift2]; rewrite ?Q2R_lit; lra.
  - destruct D1 as (r1 & -> & Hr1).
    assert (Hs : 0 <= (Q2R 3 + r1 * Q2R 4) * (Q2R 0.8 + hl * Q2R 0.4)).
    { rewrite !Q2R_lit. nra. }
    repeat split; numbers;
      try (eexists; split; [reflexivity|]; first [exact Hs | rewrite ?Q2R_lit; lra]).
    assert (Hog : 0 <= o * g <= 1) by nra.
    repeat first [apply Forall_nil | apply Forall_cons]; (split; [offset|]);
      cbn [snd alpha css_fine].
    1, 2: split; [exact V|]; apply byte_floor; cbn [num mul Exact.number lift2];
      rewrite ?Q2R_lit; nra.
    cbn [parses]. rewrite V. reflexivity.
  - assert (Hog : 0 <= o * g <= 1) by nra.
    apply byte_floor; cbn [num mul Exact.number lift2]; rewrite ?Q2R_lit; nra.
  - match goal with
    | |- yields _ _ _ (drawBranch _ _ ?a ?b ?c ?e _ _ _ _ _) =>
        assert (A1 : a_number a) by numbers; assert (A2 : a_number b) by numbers;
        assert (A3 : a_number c) by numbers; assert (A4 : a_number e) by numbers;
        destruct A1 as (x1 & ->), A2 as (y1 & ->), A3 as (l1 & ->), A4 as (a1 & ->)
    end.
    change (Some d + num 1)%js with (Some (d + Q2R 1)). apply IH.
    rewrite Q2R_lit. lra.
Qed.

(** A root tendril: [maxDepth] is 3 and the opacity is in 0 .. 1. *)
Lemma drawRootTendril_fine (M op : R) (color : string) :
  0 < M -> 0 <= op <= 1 ->
  forall (fuel : nat) (x y length angle d : R),
  0 <= d ->
  yields fine seeded any
    (drawRootTendril fuel (Some x) (Some y) (Some length) (Some angle) (Some d) (Some M)
       color (Some op)).
Proof.
  intros HM Hop. induction fuel as [|fuel IH]; intros x y length angle d Hd;
    cbn [drawRootTendril]; [apply yields_diverge|].
  destruct (_ || _) eqn:G; [apply yields_ret; exact I|]. apply orb_false_iff in G as [G _].
  cbn [lt Exact.number test2] in G. unfold Rltb in G.
  destruct (Rlt_dec M d) as [|Hle]; [discriminate|]. apply Rnot_lt_le in Hle.
  pose proof (ColourRange.ratio_unit (conj Hd Hle) HM) as Hu.
  cbv zeta.
  assert (Ef : (num 1 - Some d / Some M * num 0.5)%js = Some (1 - d / M * (5 / 10))).
  { cbn [num mul sub div Exact.number]. rewrite ColourExact2.quotient_nz by lra.
    cbn [lift2]. rewrite !Q2R_lit. f_equal. lra. }
  rewrite !Ef.
  yields_plain.
  - apply byte_floor; cbn [num mul Exact.number lift2]; rewrite ?Q2R_lit.
    set (b := 1 - d / M * (5 / 10)). assert (Hb : 0 <= b <= 1) by (subst b; lra). nra.
  - match goal with
    | |- yields _ _ _ (drawRootTendril _ ?a ?b ?c ?e _ _ _ _) =>
        assert (A1 : a_number a) by numbers; assert (A2 : a_number b) by numbers;
        assert (A3 : a_number c) by numbers; assert (A4 : a_number e) by numbers;
        destruct A1 as (x1 & ->), A2 as (y1 & ->), A3 as (l1 & ->), A4 as (a1 & ->)
    end.
    change (Some d + num 1)%js with (Some (d + Q2R 1)). apply IH.
    rewrite Q2R_lit. lra.
Qed.

(** The aura, drawn from 100 stars on around a centre that is a number. *)
Lemma drawAura_fine (cx cy stars_ bf : R) (color : string) :
  Hex.valid color = true -> 0 <= bf <= 1 ->
  yields fine seeded any (drawAura (Some cx) (Some cy) (Some stars_) color (Some bf)).
Proof.
  intros V Hbf. unfold drawAura. destruct (_ < _)%js eqn:G; [apply yields_ret; exact I|].
  cbn [lt num Exact.number test2] in G. unfold Rltb in G.
  destruct (Rlt_dec stars_ (Q2R 100)) as [|Hs]; [discriminate|].
  apply Rnot_lt_le in Hs. rewrite Q2R_lit in Hs.
  cbv zeta.
  assert (Ei : exists i, Math_min2 (num 1) (Math_log10 (Some stars_) / num 5.5)%js = Some i
                         /\ 0 <= i <= 1).
  { cbn [Math_log10 Exact.number log10]. destruct (Rlt_dec 0 stars_) as [_|]; [|lra].
    cbn [num Math_min2 div Exact.number].
    rewrite ColourExact2.quotient_nz by (rewrite Q2R_lit; lra).
    cbn [lift2]. eexists. split; [reflexivity|]. rewrite !Q2R_lit.
    pose proof DepthExact.ln10_pos as L.
    assert (Hl : 0 <= ln stars_).
    { rewrite <- ln_1. left. apply ln_increasing; lra. }
    assert (Hq : 0 <= ln stars_ / ln 10 / (55 / 10)).
    { apply Rmult_le_pos; [|lra]. apply Rmult_le_pos; [exact Hl|].
      left. apply Rinv_0_lt_compat. exact L. }
    split; [apply Rmin_glb; lra|].
    apply Rle_trans with (1 / 1); [apply Rmin_l | lra]. }
  destruct Ei as (i & Ei & Hi). rewrite !Ei.
  assert (Hr : 0 <= (Q2R 150 + i * Q2R 150) * bf) by (rewrite !Q2R_lit; nra).
  yields_plain.
  - repeat split; numbers;
      try (eexists; split; [reflexivity|]; first [exact Hr | rewrite ?Q2R_lit; lra]).
    repeat first [apply Forall_nil | apply Forall_cons]; (split; [offset|]);
      cbn [snd alpha css_fine].
    1, 2, 3: split; [exact V|]; apply byte_floor; cbn [num mul Exact.number lift2];
      rewrite ?Q2R_lit; lra.
    cbn [parses]. rewrite V. reflexivity.
  - eexists. split; [reflexivity | exact Hr].
Qed.

Lemma drawRoots_fine (x y fk : R) (color : string) (hl : R) :
  0 <= hl <= 1 -> 0 <= fk ->
  yields fine seeded any (drawRoots (Some x) (Some y) (Some fk) color (Some hl)).
Proof.
  intros Hh Hfk. unfold drawRoots.
  destruct (MetricsExact.log10_plus_1 Hfk) as (EL & HL). rewrite !EL.
  set (L := ln (fk + 1) / ln 10) in *.
  assert (Ec : exists rc,
             Math_min2 (num 8)
               (Math_max2 (num 3) (Math_floor (Some L * num 2.5) + num 3))%js = Some rc
             /\ 3 <= rc).
  { cbn [Math_min2 Math_max2 Math_floor mul add num Exact.number lift1 lift2].
    eexists. split; [reflexivity|]. rewrite !Q2R_lit.
    apply Rmin_glb; [lra|]. apply Rle_trans with (3 / 1); [lra | apply Rmax_l]. }
  destruct Ec as (rc & -> & Hrc). cbv zeta.
  assert (E1 : (Some rc - num 1)%js = Some (rc - 1)).
  { cbn [sub num Exact.number lift2]. rewrite Q2R_lit. f_equal. lra. }
  rewrite !E1.
  eapply yields_bind; [apply yields_emit; fine_ops | intros _ _].
  eapply yields_bind; [|intros _ _; apply yields_emit; fine_ops].
  apply yields_while_below. intros i. yields_plain.
  match goal with
  | |- yields _ _ _ (drawRootTendril _ _ _ ?c ?e _ _ _ _) =>
      assert (A3 : a_number c) by numbers; assert (A4 : a_number e) by numbers;
      destruct A3 as (l1 & ->), A4 as (a1 & ->)
  end.
  apply (@drawRootTendril_fine (Q2R 3) (Rmax (Q2R 0.3) (hl * Q2R 0.7)));
    [ rewrite Q2R_lit; lra
    | rewrite !Q2R_lit; split; [apply Rle_trans with (3 / 10); [lra | apply Rmax_l]
                               | apply Rmax_lub; lra]
    | cbn [num Exact.number]; rewrite Q2R_lit; lra ].
Qed.

Lemma every_100_fine (line : option R -> list (op (option R))) (steps : nat) :
  (forall z, Forall fine (line (of_Z z))) ->
  forall from limit, Forall fine (every_100 steps from limit line).
Proof.
  intros H. induction steps as [|steps IH]; intros from limit; cbn [every_100];
    [constructor|].
  destruct (from <? limit)%Z; [|constructor].
  apply Forall_app. split; [apply H | apply IH].
Qed.

Lemma seed_of_seeded (fullName_ : string) (k : Z) :
  (0 <= k)%Z -> seeded (SeededRandom.new (seed_of fullName_ + k)).
Proof.
  intros Hk. unfold seeded, seed_of. cbn [SeededRandom.seed SeededRandom.new].
  assert (H : forall (chars : list ascii) (acc : Z), (0 <= acc)%Z ->
            (0 <= fold_left (fun acc char => acc + Z.of_nat (nat_of_ascii char)) chars acc)%Z).
  { induction chars as [|c chars IH]; intros acc Ha; cbn [fold_left]; [exact Ha|].
    apply IH. lia. }
  specialize (H (list_ascii_of_string fullName_) 0%Z ltac:(lia)). lia.
Qed.


(** The health is one of five numbers. *)
Lemma calculateHealth_exact (today lastPush : option R) :
  exists hl, calculateHealth today lastPush = Some hl /\ 2 / 10 <= hl <= 1.
Proof.
  unfold calculateHealth. cbv zeta.
  repeat match goal with |- context [if ?c then _ else _] => destruct c end;
    cbn [num Exact.number]; rewrite Q2R_lit; eexists; (split; [reflexivity | lra]).
Qed.

(** The breathing of the glow stays in 0.94 .. 1. *)
Lemma breathing_exact (t : R) :
  exists g,
    (num 0.97 + num 0.03 * Math_sin (Some t / num 4000 * Math_PI * num 2))%js = Some g /\
    0 <= g <= 1.
Proof.
  cbn [num add mul div Math_sin Math_PI Exact.number].
  rewrite ColourExact2.quotient_nz by (rewrite Q2R_lit; lra).
  cbn [lift2 lift1]. eexists. split; [reflexivity|].
  rewrite !Q2R_lit.
  match goal with |- context [sin ?a] => pose proof (SIN_bound a) as S end. lra.
Qed.

Lemma or_default_number (v : option (option R)) (d : R) :
  exists r, or_default v (Some d) = Some r.
Proof.
  rewrite MetricsExact.or_default_exact.
  destruct v as [[r|]|]; [destruct (Req_dec_T r 0)|..]; eexists; reflexivity.
Qed.

Lemma gt_number (a b : option R) : (a > b)%js = true -> a_number a.
Proof.
  destruct a as [a|]; [intros _; exists a; reflexivity|].
  destruct b; discriminate.
Qed.

(** [drawTree] for a repository whose [commitCount] and [size] are numbers
    that are not negative, at an animation time that is a number. *)
Lemma drawTree_fine (fuel : nat) (width height : Z) (today : option R)
    (data : repo (option R)) (progress : option R) (t c s : R) :
  commitCount data = Some (Some c) -> 0 <= c ->
  size data = Some (Some s) -> 0 <= s ->
  yields fine seeded any
    (drawTree Math_random fuel width height today data progress (Some t)).
Proof.
  intros Ec Hc Es Hs. unfold drawTree. cbv zeta.
  cbn [renderParams rp_seed rp_health rp_color rp_maxDepth rp_trunkLength rp_metrics
       glowIntensity default_to].
  rewrite Ec, Es. cbn [to_number].
  destruct (MetricsExact.maxDepth_of_range Hc) as (k & -> & Hk).
  destruct (MetricsExact.baseTrunkLength_of_range Hs) as (b & -> & Hb).
  destruct (calculateHealth_exact today (lastPush data)) as (hl & -> & Hh).
  destruct (breathing_exact t) as (g & Eg & Hg). rewrite !Eg.
  pose proof (ColourRange.baseColor_of_valid (language data)) as V.
  assert (Va : Hex.valid (adjustSaturation (baseColor_of (language data)) (Some hl)) = true)
    by (apply ColourRange.adjustSaturation_valid; [exact V | lra]).
  cbn [num Exact.number].
  destruct (@MetricsExact.or_default_plausible (Some (Some c)) (Q2R 100) Hc
              ltac:(rewrite Q2R_lit; lra)) as (c' & -> & Hc' & _).
  destruct (@MetricsExact.or_default_plausible (Some (Some s)) (Q2R 1000) Hs
              ltac:(rewrite Q2R_lit; lra)) as (s' & -> & Hs' & _).
  destruct (MetricsExact.commitDensity_of_range Hc') as (cd & -> & _).
  destruct (MetricsExact.sizeSpread_of_range Hs') as (ss & -> & _).
  destruct (or_default_number (age data) (Q2R 1)) as (a' & Ea).
  rewrite Ea.
  destruct (or_default_number (stars data) (Q2R 0)) as (st & ->).
  destruct (or_default_number (forks data) (Q2R 0)) as (fk & ->).
  assert (Eam : exists am, ageMultiplier_of (Some a') = Some am).
  { unfold ageMultiplier_of. numbers. }
  destruct Eam as (am & ->).
  match goal with
  | |- context [Build_Metrics _ _ _ (Some ?e) _] =>
      assert (Ew : a_number e) by numbers; destruct Ew as (wo & ->)
  end.
  eapply yields_bind; [apply yields_emit; fine_ops | intros _ _].
  { repeat split; numbers.
    repeat first [apply Forall_nil | apply Forall_cons]; (split; [offset|]);
      cbn [snd css_fine]; reflexivity. }
  eapply yields_bind;
    [apply yields_emit, every_100_fine; intros z; fine_ops | intros _ _].
  eapply yields_bind;
    [apply yields_emit, every_100_fine; intros z; fine_ops | intros _ _].
  eapply yields_bind;
    [ apply yields_use_random;
      generalize (@seed_of_seeded (fullName data) 0 ltac:(lia));
      rewrite Z.add_0_r; exact (fun H => H)
    | intros _ _ ].
  apply yields_bind with (P := @any unit).
  { destruct (_ && _); [|apply yields_ret; exact I].
    match goal with
    | |- yields _ _ _ (drawAura ?x ?y _ _ _) =>
        assert (A1 : a_number x) by numbers; assert (A2 : a_number y) by numbers;
        destruct A1 as (x1 & ->), A2 as (y1 & ->)
    end.
    apply drawAura_fine; assumption. }
  intros _ _.
  apply yields_bind with (P := @any unit).
  { destruct (progress > _)%js eqn:G; [|apply yields_ret; exact I].
    destruct (gt_number _ _ G) as (p & ->).
    match goal with
    | |- yields _ _ _ (drawBranch _ _ ?x ?y ?l ?a _ _ _ _ _) =>
        assert (A1 : a_number x) by numbers; assert (A2 : a_number y) by numbers;
        assert (A3 : a_number l) by numbers; assert (A4 : a_number a) by numbers;
        destruct A1 as (x1 & ->), A2 as (y1 & ->), A3 as (l1 & ->), A4 as (a1 & ->)
    end.
    apply drawBranch_fine;
      [ exact Va | apply IZR_lt; lia | lra | exact Hg
      | cbn [num Exact.number]; rewrite Q2R_lit; lra ]. }
  intros _ _.
  assert (Hhg : 0 <= hl * g <= 1) by nra.
  eapply yields_bind; [apply yields_emit; fine_ops | intros _ _].
  { repeat split; numbers; try exact V;
      try (apply byte_floor; cbn [num mul Exact.number lift2]; rewrite ?Q2R_lit; nra).
    repeat first [apply Forall_nil | apply Forall_cons]; (split; [offset|]);
      cbn [snd css_fine]; [|reflexivity].
    split; [exact V|].
    apply byte_floor; cbn [num mul Exact.number lift2]; rewrite ?Q2R_lit; nra. }
  { apply byte_floor; cbn [num mul Exact.number lift2]; rewrite ?Q2R_lit; nra. }
  destruct (_ && _) eqn:G; [|apply yields_ret; exact I].
  apply andb_true_iff in G as [_ G]. cbn [lt Exact.number test2] in G.
  unfold Rltb in G. destruct (Rlt_dec _ fk) as [Hfk|]; [|discriminate].
  rewrite Q2R_lit in Hfk.
  eapply yields_bind; [apply yields_use_random, seed_of_seeded; lia | intros _ _].
  match goal with
  | |- yields _ _ _ (drawRoots ?x ?y _ _ _) =>
      assert (A1 : a_number x) by numbers; assert (A2 : a_number y) by numbers;
      destruct A1 as (x1 & ->), A2 as (y1 & ->)
  end.
  apply drawRoots_fine; lra.
Qed.

End FineTree.

Section TreeRun.
Import Exact CanvasExact.
Local Open Scope R_scope.
#[local] Existing Instance Exact.number.
Variable Math_random : nat -> option R.

(** [drawTree] sets the generator before it draws from it. *)
Lemma drawTree_reseed (fuel : nat) (width height : Z) (today : option R)
    (data : repo (option R)) (progress animationTime : option R)
    (w : world (option R)) (r : SeededRandom.t) :
  drawTree Math_random fuel width height today data progress animationTime w
  = drawTree Math_random fuel width height today data progress animationTime
      {| ctx := ctx w; random := r; particles := particles w; randoms := randoms w;
         calls := calls w |}.
Proof. reflexivity. Qed.

(** A run of [drawTree] for a repository whose [commitCount] and [size] are
    numbers that are not negative: it returns, and each of its calls is
    [fine]. *)
Lemma drawTree_run (fuel : nat) (width height : Z) (today : option R)
    (data : repo (option R)) (progress : option R) (t c s : R) (w : world (option R)) :
  commitCount data = Some (Some c) -> 0 <= c ->
  size data = Some (Some s) -> 0 <= s -> (12 <= fuel)%nat ->
  exists w' drawn_,
    drawTree Math_random fuel width height today data progress (Some t) w = Some (tt, w') /\
    (calls w' <= calls w + invocations 11 0)%nat /\
    ctx w' = (rev drawn_ ++ ctx w)%list /\ Forall fine drawn_.
Proof.
  intros Ec Hc Es Hs Hfuel.
  destruct (MetricsExact.maxDepth_of_range Hc) as (k & Ek & Hk).
  assert (Hlimit : (rp_maxDepth (renderParams today data progress (Some t))
                    < depth_at 11)%js = true).
  { cbn [renderParams rp_maxDepth]. rewrite Ec. cbn [to_number]. rewrite Ek.
    apply MetricsExact.beyond_limit_exact. lia. }
  destruct (@drawTree_returns _ Exact.number Math_random MetricsExact.trunk_levels_exact
              MetricsExact.root_levels_exact fuel 11 width height today data
              progress (Some t) Hlimit ltac:(lia) w)
    as ([] & w' & E & _ & Hcalls).
  pose proof E as E0. rewrite (drawTree_reseed _ _ _ _ _ _ _ _ (SeededRandom.new 0)) in E0.
  match type of E0 with _ ?w0 = _ =>
    assert (Hseed : seeded (random w0)) by (unfold seeded; cbn; lia);
    destruct (@drawTree_fine Math_random fuel width height today data progress t c s
                Ec Hc Es Hs w0 tt w' Hseed E0)
      as (_ & _ & drawn_ & C & H)
  end.
  exists w', drawn_. repeat split; assumption.
Qed.

End TreeRun.

(** X21: no colour that [drawTree] builds has alpha digits out of range, and
    the canvas refuses none of its calls.  For a repository whose
    [commitCount] and [size] are numbers that are not negative and whose
    language is no name that objects inherit, at an animation time that is a
    number, and whatever its stars, forks and age are (missing or NaN
    included), [drawTree] returns within twelve nested invocations of
    [drawBranch]; every [Math.floor(...)] that it prints as the alpha digits
    of a [fillStyle], a [strokeStyle] or a gradient stop is a whole number of
    0 .. 255, and every call is one that the canvas accepts: the gradients
    have finite coordinates, radii that are not negative and colour stops
    that parse, the arcs radii that are not negative.  Exact arithmetic. *)
Theorem alpha_digits_in_range (Math_random : nat -> option R) (fuel : nat)
    (width height : Z) (today : option R) (data : repo (option R))
    (progress : option R) (animationTime commits kilobytes : R)
    (w : world (option R)) :
  let number := Exact.number in
  commitCount data = Some (Some commits) -> (0 <= commits)%R ->
  size data = Some (Some kilobytes) -> (0 <= kilobytes)%R ->
  inherited (language data) = false ->
  (12 <= fuel)%nat ->
  exists w' calls_,
    drawTree Math_random fuel width height today data progress (Some animationTime) w
    = Some (tt, w') /\
    ctx w' = (rev calls_ ++ ctx w)%list /\
    Forall CanvasExact.op_ok calls_ /\
    Forall (fun o => accepts o = true) calls_.
Proof.
  intros number Ec Hc Es Hs _ Hfuel. subst number.
  destruct (@drawTree_run Math_random fuel width height today data progress
              animationTime commits kilobytes w Ec Hc Es Hs Hfuel)
    as (w' & calls_ & E & _ & C & H).
  destruct (CanvasExact.Forall_fine_accepts H) as (_ & Ha & Ho).
  exists w', calls_. auto.
Qed.

Lemma alpha_digits_in_range_witness :
  let number := Exact.number in
  exists w' calls_,
    drawTree (fun _ => Some (1 / 2)%R) 12 800 600 (Some (IZR a_date)) a_sparse_repo
      (Some 1%R) (Some 0%R)
      {| ctx := []; random := SeededRandom.new 0; particles := Some [];
         randoms := 0; calls := 0 |} = Some (tt, w') /\
    ctx w' = (rev calls_ ++ [])%list /\
    Forall CanvasExact.op_ok calls_ /\
    Forall (fun o => accepts o = true) calls_.
Proof.
  intros number.
  refine (@alpha_digits_in_range (fun _ => Some (1 / 2)%R) 12 800 600 (Some (IZR a_date))
            a_sparse_repo (Some 1%R) 0%R 234%R 1200%R _ eq_refl _ eq_refl _ eq_refl _);
    [lra | lra | lia].
Defined.



(** ** The colours of the particles

    What [drawTree] pushes on the particle array is fresh from the
    constructor of [Particle]: a life of 1, a decay of 0.01 and a size of
    [Math.random() * 2 + 1]. *)

Section Fresh.
Context {N : Type} {number : Number N}.
Variable Math_random : nat -> N.

Definition fresh (p : @Particle.t N) : Prop :=
  Particle.life p = num 1 /\ Particle.decay p = num 0.01 /\
  exists k, Particle.size p = (Math_random k * num 2 + num 1)%js.
















End Fresh.


Section FreshTree.
Context {N : Type} {number : Number N}.
Variable Math_random : nat -> N.




End FreshTree.


Module ParticlesExact.

Import Exact CanvasExact.
Local Open Scope R_scope.
#[local] Existing Instance Exact.number.


















End ParticlesExact.


Section FrameColours.
Import Exact CanvasExact ParticlesExact.
Local Open Scope R_scope.
#[local] Existing Instance Exact.number.
Variable Math_random : nat -> option R.
Hypothesis random_unit : unit_random Math_random.


End FrameColours.





(** ** The list of custom repositories *)

Section CustomRepos.
Context {N : Type} {number : Number N}.

(** The full names of the repositories of a list. *)
Definition names (l : list (repo N)) : list string := map (@fullName N) l.

Lemma findIndex_None (fullName_ : string) (l : list (repo N)) :
  forall i, findIndex fullName_ l i = None -> ~ In fullName_ (names l).
Proof.
  induction l as [|r l IH]; intros i; cbn [findIndex names map]; [auto|].
  destruct (String.eqb_spec (fullName r) fullName_) as [E|Hn]; [discriminate|].
  intros H [E|Hin]; [contradiction|]. exact (IH _ H Hin).
Qed.

End CustomRepos.

(** X23: the custom repositories keep distinct full names.  When no two of
    them have the same full name, this is so again after
    [handleLoadCustomRepo]; the list is then the old one or the old one with
    the fetched repository at its end, it holds the full name that was
    fetched, the repository on display has that full name and [selectedRepo]
    is -1; [loadRepo] and a frame of [animateParticles] leave the list as it
    is.  Any arithmetic. *)
Theorem custom_repos_distinct (N : Type) (number : Number N) (Math_random : nat -> N)
    (fetched : repo N) (st st' : app N) :
  NoDup (names (customRepos st)) ->
  handleLoadCustomRepo fetched st = Some st' ->
  NoDup (names (customRepos st')) /\
  (customRepos st' = customRepos st \/ customRepos st' = customRepos st ++ [fetched]) /\
  In (fullName fetched) (names (customRepos st')) /\
  fullName (repoData st') = fullName fetched /\ selectedRepo st' = (-1)%Z /\
  (forall index isCustom st1,
     loadRepo index isCustom st = Some st1 -> customRepos st1 = customRepos st) /\
  (forall fuel input st1,
     animateParticles Math_random fuel input st = Some st1 ->
     customRepos st1 = customRepos st).
Proof.
  intros Hd E.
  assert (Hload : forall index isCustom st1,
            loadRepo index isCustom st = Some st1 -> customRepos st1 = customRepos st).
  { intros index isCustom st1 E1. unfold loadRepo in E1.
    destruct (nth_error _ index); [|discriminate]. injection E1 as <-. reflexivity. }
  assert (Hframe : forall fuel input st1,
            animateParticles Math_random fuel input st = Some st1 ->
            customRepos st1 = customRepos st).
  { intros fuel input st1. unfold animateParticles. cbv zeta.
    destruct (drawTree _ _ _ _ _ _ _ _ _) as [[[] w]|]; [|discriminate].
    destruct (filter_update_fireflies _ _ _) as [fireflies1 k1].
    match goal with |- context [let '(_, _) := ?e in _] => destruct e as [fireflies2 k2] end.
    match goal with |- context [let '(_, _) := ?e in _] => destruct e as [leaves2 k3] end.
    intros H. injection H as <-. reflexivity. }
  unfold handleLoadCustomRepo in E.
  destruct (findIndex (fullName fetched) (customRepos st) 0) as [i|] eqn:Ei.
  - destruct (findIndex_nth _ _ _ Ei) as (r & Hn & Hf & _). rewrite Nat.sub_0_r in Hn.
    pose proof (Hload _ _ _ E) as Ec.
    unfold loadRepo in E. cbn [customRepos] in E. rewrite Hn in E. injection E as <-.
    cbn [customRepos repoData selectedRepo]. repeat split; auto.
    unfold names. apply in_map_iff. exists r. split; [exact Hf|].
    exact (nth_error_In _ _ Hn).
  - injection E as <-. cbn [customRepos repoData selectedRepo].
    pose proof (findIndex_None _ _ _ Ei) as Hnew.
    unfold names in *. rewrite map_app. cbn [map]. repeat split; auto.
    + apply NoDup_app; [exact Hd | repeat constructor; intros [] | ].
      intros x Hx [<-|[]]. exact (Hnew Hx).
    + apply in_or_app. right. left. reflexivity.
Qed.

Lemma custom_repos_distinct_witness :
  let number := Float64.number Float64.coarse in
  exists st',
    handleLoadCustomRepo a_fetched_repo a_state_with_fireflies = Some st' /\
    NoDup (names (customRepos st')) /\
    In (fullName a_fetched_repo) (names (customRepos st')).
Proof.
  intros number. eexists. split; [reflexivity|].
  destruct (@custom_repos_distinct float number (fun _ => 0%float) a_fetched_repo
              a_state_with_fireflies _ (NoDup_nil _) eq_refl) as (H1 & _ & H2 & _).
  split; [exact H1 | exact H2].
Defined.

(** ** What the tree takes from the full name *)

From Stdlib Require Import Permutation.

Section Names.
Context {N : Type} {number : Number N}.

(** A repository under another name and full name, its other properties kept. *)
Definition renamed (name' fullName' : string) (data : repo N) : repo N :=
  {| name := name';
     fullName := fullName';
     language := language data;
     lastPush := lastPush data;
     commitCount := commitCount data;
     size := size data;
     stars := stars data;
     forks := forks data;
     age := age data |}.

(** [codes.reduce((acc, code) => acc + code, 0)] over code units of any
    size. *)
Definition code_sum (codes : list Z) : Z := fold_left Z.add codes 0%Z.

(** The code units of a name whose code units are below 256. *)
Definition codes_of (s : string) : list Z :=
  map (fun c => Z.of_nat (nat_of_ascii c)) (list_ascii_of_string s).

Lemma fold_add_permutation (l1 l2 : list Z) :
  Permutation l1 l2 -> forall acc : Z, fold_left Z.add l1 acc = fold_left Z.add l2 acc.
Proof.
  induction 1 as [|c l1 l2 _ IH|c d l|l1 l2 l3 _ IH1 _ IH2]; intros acc; cbn [fold_left].
  - reflexivity.
  - apply IH.
  - f_equal. lia.
  - rewrite IH1. apply IH2.
Qed.

Lemma seed_of_codes (s : string) : seed_of s = code_sum (codes_of s).
Proof.
  unfold seed_of, code_sum, codes_of. generalize 0%Z.
  induction (list_ascii_of_string s) as [|c l IH]; intros acc; cbn [fold_left map];
    [reflexivity | apply IH].
Qed.

End Names.

(** X24: of the full name the tree takes the sum of the code units and
    nothing else.  The sum does not depend on the order of the code units,
    so two full names that are anagrams of each other (owner/repo and
    repo/owner, say) have the same seed, and [drawTree] then does for two
    repositories that differ in their names alone exactly the same: the same
    canvas calls, the same use of the generator.  Any arithmetic. *)
Theorem anagrams_draw_alike (N : Type) (number : Number N) (Math_random : nat -> N)
    (data : repo N) (name' fullName' : string)
    (fuel : nat) (width height : Z) (today progress animationTime : N) :
  Permutation (list_ascii_of_string (fullName data)) (list_ascii_of_string fullName') ->
  (forall codes codes' : list Z, Permutation codes codes' -> code_sum codes = code_sum codes') /\
  seed_of fullName' = seed_of (fullName data) /\
  drawTree Math_random fuel width height today (renamed name' fullName' data)
    progress animationTime
  = drawTree Math_random fuel width height today data progress animationTime.
Proof.
  intros Hp.
  assert (Hs : seed_of fullName' = seed_of (fullName data)).
  { rewrite !seed_of_codes. symmetry. apply fold_add_permutation.
    apply Permutation_map. exact Hp. }
  split; [|split; [exact Hs|]].
  - intros codes codes' H. exact (fold_add_permutation H 0%Z).
  - unfold drawTree, renderParams, renamed.
    cbn [name fullName language lastPush commitCount size stars forks age].
    rewrite Hs. reflexivity.
Qed.

Lemma anagrams_draw_alike_witness :
  let number := Float64.number Float64.coarse in
  seed_of "repo/owner" = seed_of "owner/repo" /\
  drawTree (fun _ => 0%float) 11 800 600 20000%float
    (renamed "owner" "repo/owner" (renamed "repo" "owner/repo" a_fetched_repo))
    1%float 0%float
  = drawTree (fun _ => 0%float) 11 800 600 20000%float
      (renamed "repo" "owner/repo" a_fetched_repo) 1%float 0%float.
Proof.
  intros number.
  refine (proj2 (@anagrams_draw_alike float number (fun _ => 0%float)
                   (renamed "repo" "owner/repo" a_fetched_repo) "owner" "repo/owner"
                   11 800 600 20000%float 1%float 0%float _)).
  exact (perm_trans
           (Permutation_app_comm (list_ascii_of_string "owner")
              ("/"%char :: list_ascii_of_string "repo"))
           (Permutation_middle (list_ascii_of_string "repo")
              (list_ascii_of_string "owner") "/"%char)).
Defined.
